(** * ClipWise: the caption-acquisition and transcript pipeline

    A shallow embedding of [src/app/api/transcribe/route.ts] (the request
    handler, the entity resolver, the caption-track scan, the segment
    parser, the transcript assembler) and of the earlier revision of the
    same route that carries the language-preference track selector.

    JavaScript strings are sequences of UTF-16 code units; they are
    modelled as lists of [N].  Regular expressions are modelled by a small
    backtracking matcher that covers the constructs the source uses. *)

From Stdlib Require Import ZArith NArith List String Ascii Bool Lia SpecFloat.
From stdpp Require Import base tactics option list gmap.
Import ListNotations.

(** ** JavaScript strings *)

Module JS.

(** A string is a list of UTF-16 code units. *)
Abbreviation jsstring := (list N).

(** String literals of the source (ASCII only). *)
Definition lit (s : string) : jsstring :=
  map N_of_ascii (list_ascii_of_string s).

(** Truthiness of a string: [if (text)] holds for the non-empty ones. *)
Definition truthy (s : jsstring) : bool :=
  match s with [] => false | _ :: _ => true end.

(** *** Character classes *)

Definition in_range (lo hi c : N) : bool := ((lo <=? c) && (c <=? hi))%N.

(** [\d] *)
Definition is_digit (c : N) : bool := in_range 48 57 c.

(** LineTerminator code units: LF, CR, LS, PS. *)
Definition is_line_terminator (c : N) : bool :=
  ((c =? 10) || (c =? 13) || (c =? 8232) || (c =? 8233))%N.

(** [\s], which is also the set that [String.prototype.trim] strips:
    WhiteSpace and LineTerminator. *)
Definition is_space (c : N) : bool :=
  (in_range 9 13 c || (c =? 32) || (c =? 160) || (c =? 5760)
   || in_range 8192 8202 c || (c =? 8232) || (c =? 8233) || (c =? 8239)
   || (c =? 8287) || (c =? 12288) || (c =? 65279))%N.

(** [.] without the [s] flag. *)
Definition dot (c : N) : bool := negb (is_line_terminator c).

(** [[\s\S]] *)
Definition any_unit (c : N) : bool := true.

(** [[^>]] *)
Definition non_gt (c : N) : bool := negb (c =? 62)%N.

(** [[\d.]] *)
Definition digit_or_dot (c : N) : bool := is_digit c || (c =? 46)%N.

(** [[a-zA-Z0-9_-]] *)
Definition id_char (c : N) : bool :=
  in_range 97 122 c || in_range 65 90 c || in_range 48 57 c
  || (c =? 95)%N || (c =? 45)%N.

(** *** [String.prototype.trim] *)

Fixpoint trim_start (s : jsstring) : jsstring :=
  match s with
  | c :: s' => if is_space c then trim_start s' else s
  | [] => []
  end.

Definition trim_end (s : jsstring) : jsstring := rev (trim_start (rev s)).

Definition trim (s : jsstring) : jsstring := trim_end (trim_start s).

(** [Array.prototype.join]: the elements separated by [sep]. *)
Fixpoint join (sep : jsstring) (l : list jsstring) : jsstring :=
  match l with
  | [] => []
  | [x] => x
  | x :: rest => x ++ sep ++ join sep rest
  end.

(** [String.prototype.padStart(n, "0")]. *)
Definition padStart0 (n : nat) (s : jsstring) : jsstring :=
  repeat 48%N (n - length s) ++ s.

End JS.
Export JS.

(** ** Regular expressions *)

Module Regex.

(** The fragment of the JavaScript regular-expression language that the
    source uses: literals, one-character classes, their repetitions
    (greedy [*] and [+], lazy [*?], counted [{n}]), sequence, alternation,
    capturing groups and the two anchors. *)
Inductive re : Type :=
| Lit (s : jsstring)
| Cls (p : N -> bool)
| Rep (n : nat) (p : N -> bool)
| Star (p : N -> bool)
| Plus (p : N -> bool)
| LazyStar (p : N -> bool)
| Seq (r1 r2 : re)
| Alt (r1 r2 : re)
| Group (n : nat) (r : re)
| Bol
| Eol.

(** Captures: group number and captured substring, most recent first. *)
Definition caps := list (nat * jsstring).

Fixpoint cap_lookup (n : nat) (c : caps) : option jsstring :=
  match c with
  | [] => None
  | (k, s) :: c' => if Nat.eqb k n then Some s else cap_lookup n c'
  end.

(** The continuation of a match: the index reached, the input left, the
    captures so far. *)
Definition cont := nat -> jsstring -> caps -> option (nat * caps).

Fixpoint lit_match (l rest : jsstring) : option jsstring :=
  match l with
  | [] => Some rest
  | c :: l' =>
      match rest with
      | d :: rest' => if (c =? d)%N then lit_match l' rest' else None
      | [] => None
      end
  end.

Fixpoint rep_match (n : nat) (p : N -> bool) (rest : jsstring) : option jsstring :=
  match n with
  | O => Some rest
  | S n' =>
      match rest with
      | d :: rest' => if p d then rep_match n' p rest' else None
      | [] => None
      end
  end.

(** Greedy star: take as many as possible, give back one at a time. *)
Fixpoint star_greedy (p : N -> bool) (k : cont) (i : nat) (rest : jsstring)
    (c : caps) : option (nat * caps) :=
  match rest with
  | d :: rest' =>
      if p d then
        match star_greedy p k (S i) rest' c with
        | Some x => Some x
        | None => k i rest c
        end
      else k i rest c
  | [] => k i rest c
  end.

(** Lazy star: try the continuation first, take one more on failure. *)
Fixpoint star_lazy (p : N -> bool) (k : cont) (i : nat) (rest : jsstring)
    (c : caps) : option (nat * caps) :=
  match k i rest c with
  | Some x => Some x
  | None =>
      match rest with
      | d :: rest' => if p d then star_lazy p k (S i) rest' c else None
      | [] => None
      end
  end.

(** The backtracking matcher, in continuation-passing style: [i] is the
    index of the next code unit and [rest] the input from there on. *)
Fixpoint m (r : re) (i : nat) (rest : jsstring) (c : caps) (k : cont)
    : option (nat * caps) :=
  match r with
  | Lit l =>
      match lit_match l rest with
      | Some rest' => k (i + length l) rest' c
      | None => None
      end
  | Cls p =>
      match rest with
      | d :: rest' => if p d then k (S i) rest' c else None
      | [] => None
      end
  | Rep n p =>
      match rep_match n p rest with
      | Some rest' => k (i + n) rest' c
      | None => None
      end
  | Star p => star_greedy p k i rest c
  | Plus p =>
      match rest with
      | d :: rest' => if p d then star_greedy p k (S i) rest' c else None
      | [] => None
      end
  | LazyStar p => star_lazy p k i rest c
  | Seq r1 r2 => m r1 i rest c (fun j rest' c' => m r2 j rest' c' k)
  | Alt r1 r2 =>
      match m r1 i rest c k with
      | Some x => Some x
      | None => m r2 i rest c k
      end
  | Group n r =>
      m r i rest c (fun j rest' c' => k j rest' ((n, take (j - i) rest) :: c'))
  | Bol => if Nat.eqb i 0 then k i rest c else None
  | Eol => match rest with [] => k i rest c | _ :: _ => None end
  end.

Definition kfin : cont := fun j _ c => Some (j, c).

(** A successful match: where it starts and ends, the matched text
    ([match[0]]) and the captures ([match[1]], ...). *)
Record Match := mkMatch {
  m_index : nat;
  m_end : nat;
  m_0 : jsstring;
  m_caps : caps
}.

(** [match[n]] for a group that took part in the match; a group that did
    not reads as the empty string (every group of the source's expressions
    takes part in every match). *)
Definition group (n : nat) (mt : Match) : jsstring :=
  default [] (cap_lookup n (m_caps mt)).

(** One attempt at index [i]. *)
Definition match_at (r : re) (i : nat) (rest : jsstring) : option Match :=
  match m r i rest [] kfin with
  | Some (j, c) => Some (mkMatch i j (take (j - i) rest) c)
  | None => None
  end.

(** The leftmost match at or after index [i]. *)
Fixpoint search_from (r : re) (i : nat) (rest : jsstring) : option Match :=
  match match_at r i rest with
  | Some mt => Some mt
  | None =>
      match rest with
      | [] => None
      | _ :: rest' => search_from r (S i) rest'
      end
  end.

(** [String.prototype.match] with an expression without the [g] flag. *)
Definition js_match (r : re) (s : jsstring) : option Match := search_from r 0 s.

(** [RegExp.prototype.exec] of an expression with the [g] flag: the search
    starts at [lastIndex]; the result comes with the new [lastIndex]
    (the end of the match, or 0 after a failure). *)
Definition exec (r : re) (s : jsstring) (lastIndex : nat) : option Match * nat :=
  if length s <? lastIndex then (None, 0)
  else
    match search_from r lastIndex (drop lastIndex s) with
    | Some mt => (Some mt, m_end mt)
    | None => (None, 0)
    end.

(** [String.prototype.replace] with a [g] expression and a replacement
    function.  [skip] counts the code units of the last match still to be
    passed over.  After an empty match the scan advances by one code
    unit. *)
Fixpoint replace_scan (r : re) (f : Match -> jsstring) (i : nat)
    (rest : jsstring) (skip : nat) : jsstring :=
  match skip with
  | S skip' =>
      match rest with
      | _ :: rest' => replace_scan r f (S i) rest' skip'
      | [] => []
      end
  | O =>
      match match_at r i rest with
      | Some mt =>
          f mt ++
          match m_end mt - i with
          | O =>
              match rest with
              | d :: rest' => d :: replace_scan r f (S i) rest' 0
              | [] => []
              end
          | S n =>
              match rest with
              | _ :: rest' => replace_scan r f (S i) rest' n
              | [] => []
              end
          end
      | None =>
          match rest with
          | d :: rest' => d :: replace_scan r f (S i) rest' 0
          | [] => []
          end
      end
  end.

Definition replace_all (r : re) (f : Match -> jsstring) (s : jsstring) : jsstring :=
  replace_scan r f 0 s 0.

(** The least number of code units a match of [r] consumes. *)
Fixpoint min_len (r : re) : nat :=
  match r with
  | Lit l => length l
  | Cls _ => 1
  | Rep n _ => n
  | Star _ => 0
  | Plus _ => 1
  | LazyStar _ => 0
  | Seq r1 r2 => min_len r1 + min_len r2
  | Alt r1 r2 => Nat.min (min_len r1) (min_len r2)
  | Group _ r => min_len r
  | Bol => 0
  | Eol => 0
  end.

(** Whether every match of [r] begins with the code unit [c]. *)
Fixpoint starts_with (r : re) (c : N) : bool :=
  match r with
  | Lit (d :: _) => (c =? d)%N
  | Seq r1 _ => starts_with r1 c
  | Group _ r1 => starts_with r1 c
  | _ => false
  end.

End Regex.
Export Regex.

(** ** Entity Resolver: [extractVideoId] *)

Definition urlPattern : re :=
  Seq (Alt (Lit (lit "v="))
        (Alt (Lit (lit "/v/"))
          (Alt (Lit (lit "youtu.be/")) (Lit (lit "/embed/")))))
      (Group 1 (Rep 11 id_char)).

Definition barePattern : re :=
  Seq Bol (Seq (Group 1 (Rep 11 id_char)) Eol).

Definition patterns : list re := [urlPattern; barePattern].

(** [for (const pattern of patterns) { const match = url.match(pattern);
    if (match) return match[1] } return null] *)
Fixpoint first_capture (ps : list re) (url : jsstring) : option jsstring :=
  match ps with
  | [] => None
  | p :: ps' =>
      match js_match p url with
      | Some mt => Some (group 1 mt)
      | None => first_capture ps' url
      end
  end.

Definition extractVideoId (url : jsstring) : option jsstring :=
  first_capture patterns url.

(** Literals of the source, evaluated to their code units. *)
Ltac eval_lit :=
  repeat match goal with
  | |- context [lit ?s] =>
      let v := eval vm_compute in (lit s) in change (lit s) with v
  end.

(** What a recognised input is. *)

(** A video identifier: eleven code units of [[a-zA-Z0-9_-]]. *)
Definition is_video_id (s : jsstring) : Prop :=
  length s = 11 /\ Forall (fun c => id_char c = true) s.

(** The four URL shapes: what precedes the identifier. *)
Definition markers : list jsstring :=
  [lit "v="; lit "/v/"; lit "youtu.be/"; lit "/embed/"].

(** [url] carries the identifier [id] in one of the four shapes, the shape
    starting at index [i]. *)
Definition shape_at (url : jsstring) (i : nat) (id : jsstring) : Prop :=
  exists pre mk post,
    url = pre ++ mk ++ id ++ post /\ length pre = i /\ In mk markers
    /\ is_video_id id.


(** Inputs used as examples. *)
Definition watch_url : jsstring :=
  lit "https://www.youtube.com/watch?v=dQw4w9WgXcQ&t=1".

Definition bare_id : jsstring := lit "dQw4w9WgXcQ".

(** The same identifier with a space on either side. *)
Definition padded_id : jsstring := lit " dQw4w9WgXcQ ".

(** ** Numbers *)

Module Num.

(** The numbers of this pipeline are doubles that hold a non-negative
    integer, [NaN] or [Infinity].  [Int z] stands for the double whose
    value is the integer [z].  The quotients, remainders and decimal
    renderings below are those of the double arithmetic for
    [0 <= z < 2^53]: there [z / 1000] and [z / 60] round to a double whose
    floor is the integer quotient, and [toString] prints the decimal
    digits. *)
Inductive jsnum : Type :=
| NaN
| Infinity
| Int (z : Z).

Definition prec : Z := 53.
Definition emax : Z := 1024.

(** The value of a run of decimal digits. *)
Definition digits_value (ds : jsstring) : N :=
  fold_left (fun v c => (10 * v + (c - 48))%N) ds 0%N.

(** The double nearest to [d / 10^k] (round to nearest, ties to even). *)
Definition of_decimal (d : N) (k : nat) : spec_float :=
  match d with
  | N0 => S754_zero false
  | Npos p =>
      SFdiv prec emax (S754_finite false p 0)
        (S754_finite false (Z.to_pos (10 ^ Z.of_nat k)) 0)
  end.

(** [Math.floor] of a double. *)
Definition Math_floor (x : spec_float) : jsnum :=
  match x with
  | S754_zero _ => Int 0
  | S754_infinity _ => Infinity
  | S754_nan => NaN
  | S754_finite s mant e =>
      let v := if s then Z.neg mant else Z.pos mant in
      Int (if (0 <=? e)%Z then v * 2 ^ e else v / 2 ^ (- e))%Z
  end.

(** [x * 1000] in double arithmetic. *)
Definition times_1000 (x : spec_float) : spec_float :=
  SFmul prec emax x (S754_finite false 1000 0).

(** [parseInt(s)] for [s] a run of decimal digits, as the expressions
    [(\d+)] capture it: the double nearest to the integer. *)
Definition parseInt (s : jsstring) : jsnum :=
  Math_floor (of_decimal (digits_value s) 0).

(** [parseFloat(s)] for [s] over digits and dots, as [([\d.]+)] captures
    it: the longest prefix of the form [digits], [digits.digits] or
    [.digits] is read, and [NaN] results when there is none. *)
Fixpoint span (p : N -> bool) (s : jsstring) : jsstring * jsstring :=
  match s with
  | c :: s' => if p c then let '(a, b) := span p s' in (c :: a, b) else ([], s)
  | [] => ([], [])
  end.

Definition parseFloat (s : jsstring) : spec_float :=
  let '(ip, rest) := span is_digit s in
  let fp :=
    match rest with
    | 46%N :: rest' => fst (span is_digit rest')
    | _ => []
    end in
  match ip, fp with
  | [], [] => S754_nan
  | _, _ => of_decimal (digits_value (ip ++ fp)) (length fp)
  end.

(** Decimal digits of a natural number, most significant first. *)
Fixpoint to_digits (fuel : nat) (n : N) (acc : jsstring) : jsstring :=
  match fuel with
  | O => acc
  | S fuel' =>
      let acc' := (48 + n mod 10)%N :: acc in
      if (n / 10 =? 0)%N then acc' else to_digits fuel' (n / 10)%N acc'
  end.

Definition N_toString (n : N) : jsstring :=
  to_digits (S (N.to_nat (N.log2 n))) n [].

(** [Number.prototype.toString], for the integers that a double holds
    exactly and prints in decimal digits: [Int z] with [z] below [2^53] in
    absolute value.  Beyond that an [Int z] is no value of the code. *)
Definition toString (x : jsnum) : jsstring :=
  match x with
  | NaN => lit "NaN"
  | Infinity => lit "Infinity"
  | Int z =>
      if (z <? 0)%Z then 45%N :: N_toString (Z.to_N (- z))
      else N_toString (Z.to_N z)
  end.

(** [Math.floor(x / d)] for a positive integer [d].  The code divides
    doubles; the quotient of the model is the floor of that division for
    [x] an integer below [2^53] in absolute value, the range in which the
    assembler is specified. *)
Definition floor_div (x : jsnum) (d : Z) : jsnum :=
  match x with
  | NaN => NaN
  | Infinity => Infinity
  | Int z => Int (z / d)
  end.

(** [x % d] for a positive integer [d]: the sign follows the dividend. *)
Definition js_rem (x : jsnum) (d : Z) : jsnum :=
  match x with
  | NaN => NaN
  | Infinity => NaN
  | Int z => Int (Z.rem z d)
  end.

(** [String.fromCharCode(x)]: one code unit, [ToUint16] of the number. *)
Definition fromCharCode (x : jsnum) : jsstring :=
  match x with
  | Int z => [Z.to_N (z mod 65536)]
  | _ => [0%N]
  end.

End Num.
Export Num.

(** ** Errors *)

(** A thrown [Error], with its [message]. *)
Record exn : Type := Error { message : jsstring }.

(** ** Caption tracks *)

(** An element of the [captionTracks] array.  A property that the object
    lacks reads as [undefined], here [None]. *)
Record CaptionTrack : Type := mkTrack {
  baseUrl : option jsstring;
  languageCode : option jsstring;
  kind : option jsstring
}.

(** [t.kind !== 'asr'] *)
Definition not_asr (t : CaptionTrack) : bool :=
  negb (bool_decide (kind t = Some (lit "asr"))).

(** [t.languageCode === lang] *)
Definition has_lang (lang : jsstring) (t : CaptionTrack) : bool :=
  bool_decide (languageCode t = Some lang).

(** [Array.prototype.find].  The elements of a parsed array are distinct
    objects, so an object is identified by its index, which is returned
    with it. *)
Fixpoint find_from {A : Type} (p : A -> bool) (i : nat) (l : list A)
    : option (nat * A) :=
  match l with
  | [] => None
  | x :: l' => if p x then Some (i, x) else find_from p (S i) l'
  end.

Definition js_find {A : Type} (p : A -> bool) (l : list A) : option (nat * A) :=
  find_from p 0 l.

(** *** Track Selector, the revision with the language preference *)

Module Selector.

Definition preferredLangs : list jsstring :=
  [lit "pt"; lit "en"; lit "es"; lit "fr"; lit "de"; lit "it"; lit "ja";
   lit "ko"; lit "zh"].

(** The local variables [selectedTrack] (an object, hence its index in
    [tracks] next to its value) and [isGenerated]. *)
Record Selection : Type := mkSel {
  sel_index : nat;
  selectedTrack : CaptionTrack;
  isGenerated : bool
}.

(** [for (const lang of preferredLangs) { const manual = tracks.find(t =>
    t.languageCode === lang && t.kind !== 'asr'); if (manual) {
    selectedTrack = manual; isGenerated = false; break } }] *)
Fixpoint manual_loop (langs : list jsstring) (tracks : list CaptionTrack)
    (sel : Selection) : Selection :=
  match langs with
  | [] => sel
  | lang :: langs' =>
      match js_find (fun t => has_lang lang t && not_asr t) tracks with
      | Some (i, manual) => mkSel i manual false
      | None => manual_loop langs' tracks sel
      end
  end.

(** [for (const lang of preferredLangs) { const auto = tracks.find(t =>
    t.languageCode === lang); if (auto) { selectedTrack = auto;
    isGenerated = auto.kind === 'asr'; break } }] *)
Fixpoint auto_loop (langs : list jsstring) (tracks : list CaptionTrack)
    (sel : Selection) : Selection :=
  match langs with
  | [] => sel
  | lang :: langs' =>
      match js_find (has_lang lang) tracks with
      | Some (i, auto) => mkSel i auto (negb (not_asr auto))
      | None => auto_loop langs' tracks sel
      end
  end.

(** The selection of [fetchTranscript]; [None] stands for the throw on an
    empty track list.  [selectedTrack === tracks[0]] compares objects, that
    is, indices. *)
Definition select (tracks : list CaptionTrack) : option Selection :=
  match tracks with
  | [] => None
  | t0 :: _ =>
      let sel := mkSel 0 t0 (negb (not_asr t0)) in
      let sel := manual_loop preferredLangs tracks sel in
      let sel :=
        if Nat.eqb (sel_index sel) 0 then auto_loop preferredLangs tracks sel
        else sel in
      Some sel
  end.

(** The policy in the words of the specification: the first language of
    the preference list that some candidate carries decides, and the first
    candidate in that language is taken. *)
Fixpoint first_preferred (langs : list jsstring) (cands : list CaptionTrack)
    : option CaptionTrack :=
  match langs with
  | [] => None
  | lang :: langs' =>
      match find (has_lang lang) cands with
      | Some t => Some t
      | None => first_preferred langs' cands
      end
  end.

Definition select_spec (tracks : list CaptionTrack) : option CaptionTrack :=
  match first_preferred preferredLangs (filter (fun t => not_asr t = true) tracks) with
  | Some t => Some t
  | None =>
      match first_preferred preferredLangs tracks with
      | Some t => Some t
      | None => head tracks
      end
  end.

(** The same policy read by track order: the first candidate whose
    language is anywhere in the preference list. *)
Definition in_preferred (t : CaptionTrack) : bool :=
  existsb (fun lang => has_lang lang t) preferredLangs.

Definition select_spec_by_track (tracks : list CaptionTrack) : option CaptionTrack :=
  match find (fun t => not_asr t && in_preferred t) tracks with
  | Some t => Some t
  | None =>
      match find in_preferred tracks with
      | Some t => Some t
      | None => head tracks
      end
  end.

End Selector.

(** *** Track selection of the current route *)

(** [captionTracks.find((t) => t.kind !== 'asr') || captionTracks[0]] *)
Definition selectTrack (captionTracks : list CaptionTrack) : option CaptionTrack :=
  match js_find not_asr captionTracks with
  | Some (_, t) => Some t
  | None => head captionTracks
  end.

(** Track lists used as examples. *)
Definition track (lang : string) (auto : bool) : CaptionTrack :=
  mkTrack (Some (lit "https://www.youtube.com/api/timedtext?lang=" ++ lit lang))
    (Some (lit lang)) (if auto then Some (lit "asr") else None).

(** [[{en,auto},{pt,manual},{es,manual}]] *)
Definition tracks_mixed : list CaptionTrack :=
  [track "en" true; track "pt" false; track "es" false].

(** [[{ja,auto}]] *)
Definition tracks_ja : list CaptionTrack := [track "ja" true].

(** [[{en,manual},{pt,auto}]] *)
Definition tracks_manual_first : list CaptionTrack :=
  [track "en" false; track "pt" true].

(** [[{ru,manual},{pt,manual}]] *)
Definition tracks_other_first : list CaptionTrack :=
  [track "ru" false; track "pt" false].

(** ** Caption Source Adapter: the scan for the track list *)

Definition quote : N := 34%N.

(** A text between double quotes. *)
Definition quoted (s : string) : jsstring := [quote] ++ lit s ++ [quote].

(** [/"captionTracks":\s*(\[.*?\])/] *)
Definition captionTracksRe : re :=
  Seq (Lit (quote :: lit "captionTracks" ++ quote :: lit ":"))
    (Seq (Star is_space)
      (Group 1 (Seq (Lit (lit "[")) (Seq (LazyStar dot) (Lit (lit "]")))))).

(** [/playerCaptionsTracklistRenderer.*?"captionTracks":\s*(\[.*?\])/] *)
Definition altCaptionTracksRe : re :=
  Seq (Lit (lit "playerCaptionsTracklistRenderer"))
    (Seq (LazyStar dot) captionTracksRe).

Section CaptionScan.

(** [JSON.parse], restricted to the texts that parse to an array of
    objects; [None] stands for a thrown [SyntaxError]. *)
Variable JSON_parse : jsstring -> option (list CaptionTrack).

(** The extraction of the caption tracks from the page, up to the check
    that there is at least one. *)
Definition extractCaptionTracks (html : jsstring) : exn + list CaptionTrack :=
  let captionMatch := js_match captionTracksRe html in
  let missing :=
    match captionMatch with
    | Some _ => false
    | None =>
        let altMatch := js_match altCaptionTracksRe html in
        match altMatch with
        | Some _ => false
        | None => true
        end
    end in
  if missing then
    inl (Error (lit "No captions available for this video. The video may not have subtitles."))
  else
    let captionTracksJson :=
      match captionMatch with
      | Some mt => group 1 mt
      | None => []
      end in
    match JSON_parse captionTracksJson with
    | None => inl (Error (lit "Failed to parse caption tracks data"))
    | Some captionTracks =>
        match captionTracks with
        | [] => inl (Error (lit "No caption tracks found for this video"))
        | _ :: _ => inr captionTracks
        end
    end.

End CaptionScan.

(** A page that carries the track list under
    [playerCaptionsTracklistRenderer], the text of its array, and a parser
    that knows this one text. *)
Definition tracks_json : jsstring :=
  lit "[{" ++ quoted "baseUrl" ++ lit ":" ++ quoted "u" ++ lit "}]".

Definition page_nested : jsstring :=
  lit "<script>{" ++ quoted "playerCaptionsTracklistRenderer" ++ lit ":{"
  ++ quoted "captionTracks" ++ lit ":" ++ tracks_json ++ lit "}}</script>".

Definition parse_one (s : jsstring) : option (list CaptionTrack) :=
  if bool_decide (s = tracks_json) then Some [mkTrack (Some (lit "u")) None None]
  else None.

Definition parse_none (s : jsstring) : option (list CaptionTrack) := None.

(** ** Segment Parser *)

(** A concatenation [r1 r2 ... rn]. *)
Fixpoint seqs (l : list re) : re :=
  match l with
  | [] => Lit []
  | [r] => r
  | r :: l' => Seq r (seqs l')
  end.

(** [/<p\s+t="(\d+)"\s+d="(\d+)"[^>]*>([\s\S]*?)<\/p>/g] *)
Definition srv3Regex : re :=
  seqs [Lit (lit "<p"); Plus is_space; Lit (lit "t=" ++ [quote]);
        Group 1 (Plus is_digit); Lit [quote]; Plus is_space;
        Lit (lit "d=" ++ [quote]); Group 2 (Plus is_digit); Lit [quote];
        Star non_gt; Lit (lit ">"); Group 3 (LazyStar any_unit); Lit (lit "</p>")].

(** [/<text\s+start="([\d.]+)"\s+dur="([\d.]+)"[^>]*>([\s\S]*?)<\/text>/g] *)
Definition stdRegex : re :=
  seqs [Lit (lit "<text"); Plus is_space; Lit (lit "start=" ++ [quote]);
        Group 1 (Plus digit_or_dot); Lit [quote]; Plus is_space;
        Lit (lit "dur=" ++ [quote]); Group 2 (Plus digit_or_dot); Lit [quote];
        Star non_gt; Lit (lit ">"); Group 3 (LazyStar any_unit); Lit (lit "</text>")].

(** [/<[^>]+>/g] *)
Definition tagRegex : re := seqs [Lit (lit "<"); Plus non_gt; Lit (lit ">")].

(** [/&#(\d+);/g] *)
Definition numericRefRegex : re :=
  seqs [Lit (lit "&#"); Group 1 (Plus is_digit); Lit (lit ";")].

(** [str.replace(/pat/g, repl)] for a literal pattern. *)
Definition replace_lit (pat repl : jsstring) (str : jsstring) : jsstring :=
  replace_all (Lit pat) (fun _ => repl) str.

Definition decodeHtmlEntities (str : jsstring) : jsstring :=
  let str := replace_lit (lit "&amp;") (lit "&") str in
  let str := replace_lit (lit "&lt;") (lit "<") str in
  let str := replace_lit (lit "&gt;") (lit ">") str in
  let str := replace_lit (lit "&quot;") [quote] str in
  let str := replace_lit (lit "&#39;") (lit "'") str in
  let str := replace_lit (lit "&#x27;") (lit "'") str in
  let str := replace_lit (lit "&nbsp;") (lit " ") str in
  replace_all numericRefRegex (fun mt => fromCharCode (parseInt (group 1 mt))) str.

(** [match[3].replace(/<[^>]+>/g, '')] *)
Definition stripTags (inner : jsstring) : jsstring :=
  replace_all tagRegex (fun _ => []) inner.

Record Segment : Type := mkSegment {
  text : jsstring;
  offset : jsnum;
  duration : jsnum
}.

(** The body of the first [while] loop. *)
Definition srv3_body (mt : Match) (segments : list Segment) : list Segment :=
  let offset := parseInt (group 1 mt) in
  let duration := parseInt (group 2 mt) in
  let text := decodeHtmlEntities (trim (stripTags (group 3 mt))) in
  if truthy text then segments ++ [mkSegment text offset duration] else segments.

(** The body of the second [while] loop. *)
Definition std_body (mt : Match) (segments : list Segment) : list Segment :=
  let offset := Math_floor (times_1000 (parseFloat (group 1 mt))) in
  let duration := Math_floor (times_1000 (parseFloat (group 2 mt))) in
  let text := decodeHtmlEntities (trim (stripTags (group 3 mt))) in
  if truthy text then segments ++ [mkSegment text offset duration] else segments.

(** [while ((match = srv3Regex.exec(captionXml)) !== null) { isSrv3 = true;
    ... }]; the state is the expression's [lastIndex], the flag and the
    array.  [None] is a loop still running when [fuel] is used up. *)
Fixpoint srv3_loop (fuel : nat) (captionXml : jsstring) (lastIndex : nat)
    (isSrv3 : bool) (segments : list Segment) : option (bool * list Segment) :=
  match fuel with
  | O => None
  | S fuel' =>
      match exec srv3Regex captionXml lastIndex with
      | (Some mt, lastIndex') =>
          srv3_loop fuel' captionXml lastIndex' true (srv3_body mt segments)
      | (None, _) => Some (isSrv3, segments)
      end
  end.

(** [while ((match = stdRegex.exec(captionXml)) !== null) { ... }] *)
Fixpoint std_loop (fuel : nat) (captionXml : jsstring) (lastIndex : nat)
    (segments : list Segment) : option (list Segment) :=
  match fuel with
  | O => None
  | S fuel' =>
      match exec stdRegex captionXml lastIndex with
      | (Some mt, lastIndex') =>
          std_loop fuel' captionXml lastIndex' (std_body mt segments)
      | (None, _) => Some segments
      end
  end.

Definition NoSegmentsExtracted : exn :=
  Error (lit "No transcript segments could be extracted").

(** The parsing part of [fetchTranscript], from the caption text to the
    check that a segment was found. *)
Definition parse_with (fuel : nat) (captionXml : jsstring)
    : option (exn + list Segment) :=
  match srv3_loop fuel captionXml 0 false [] with
  | None => None
  | Some (isSrv3, segments) =>
      let after :=
        if negb isSrv3 then std_loop fuel captionXml 0 segments
        else Some segments in
      match after with
      | None => None
      | Some [] => Some (inl NoSegmentsExtracted)
      | Some (s :: l) => Some (inr (s :: l))
      end
  end.

(** Every iteration consumes input, so this much fuel is enough. *)
Definition parseSegments (captionXml : jsstring) : option (exn + list Segment) :=
  parse_with (S (length captionXml)) captionXml.

(** *** What the parser computes *)

(** The successive results of [r.exec(s)], starting with [lastIndex], up
    to the first [null]. *)
Fixpoint exec_all (fuel : nat) (r : re) (s : jsstring) (lastIndex : nat)
    : option (list Match) :=
  match fuel with
  | O => None
  | S fuel' =>
      match exec r s lastIndex with
      | (Some mt, lastIndex') =>
          match exec_all fuel' r s lastIndex' with
          | Some ms => Some (mt :: ms)
          | None => None
          end
      | (None, _) => Some []
      end
  end.

(** All the matches of a [g] expression in [s], from left to right. *)
Definition matches (r : re) (s : jsstring) : option (list Match) :=
  exec_all (S (length s)) r s 0.

(** The text of a segment, from the inner payload of its tag. *)
Definition normalize (inner : jsstring) : jsstring :=
  decodeHtmlEntities (trim (stripTags inner)).

Definition srv3_segment (mt : Match) : Segment :=
  mkSegment (normalize (group 3 mt)) (parseInt (group 1 mt))
    (parseInt (group 2 mt)).

Definition std_segment (mt : Match) : Segment :=
  mkSegment (normalize (group 3 mt))
    (Math_floor (times_1000 (parseFloat (group 1 mt))))
    (Math_floor (times_1000 (parseFloat (group 2 mt)))).

(** The segments that are kept: those with a non-empty text. *)
Definition kept (segments : list Segment) : list Segment :=
  filter (fun s => truthy (text s) = true) segments.

(** The outcome for the segments that were kept. *)
Definition outcome (segments : list Segment) : exn + list Segment :=
  match segments with
  | [] => inl NoSegmentsExtracted
  | _ :: _ => inr segments
  end.

(** *** The decoder of the earlier revision of the route *)

Definition decodeXmlEntities (text : jsstring) : jsstring :=
  let text := replace_lit (lit "&amp;") (lit "&") text in
  let text := replace_lit (lit "&lt;") (lit "<") text in
  let text := replace_lit (lit "&gt;") (lit ">") text in
  let text := replace_lit (lit "&quot;") [quote] text in
  let text := replace_lit (lit "&#39;") (lit "'") text in
  let text := replace_lit (lit "&apos;") (lit "'") text in
  let text :=
    replace_all numericRefRegex
      (fun mt => fromCharCode (parseInt (group 1 mt))) text in
  replace_lit [10%N] (lit " ") text.

(** The normalization in the words of the specification: nested markup
    stripped, the five XML entities and the numeric references decoded,
    newlines turned into spaces, the result trimmed. *)
Definition normalize_claimed (inner : jsstring) : jsstring :=
  trim (decodeXmlEntities (stripTags inner)).

(** *** Caption payloads used as examples *)

(** [<p t="1000" d="500">Hello</p><p t="2000" d="500">World</p>] *)
Definition payload_srv3 : jsstring :=
  lit "<p t=" ++ quoted "1000" ++ lit " d=" ++ quoted "500" ++ lit ">Hello</p>"
  ++ lit "<p t=" ++ quoted "2000" ++ lit " d=" ++ quoted "500" ++ lit ">World</p>".

(** [<text start="1.5" dur="2.25">Hi</text>] *)
Definition payload_std : jsstring :=
  lit "<text start=" ++ quoted "1.5" ++ lit " dur=" ++ quoted "2.25"
  ++ lit ">Hi</text>".

(** [<text start="0" dur="1">   </text>] *)
Definition payload_blank : jsstring :=
  lit "<text start=" ++ quoted "0" ++ lit " dur=" ++ quoted "1"
  ++ lit ">   </text>".

(** [it&apos;s], a line feed, [ok] *)
Definition inner_apos : jsstring := lit "it&apos;s" ++ [10%N] ++ lit "ok".

(** [<p t="0" d="1">] followed by [inner_apos] and [</p>] *)
Definition payload_apos : jsstring :=
  lit "<p t=" ++ quoted "0" ++ lit " d=" ++ quoted "1" ++ lit ">"
  ++ inner_apos ++ lit "</p>".

(** ** Transcript Assembler *)

Definition plainText (segments : list Segment) : jsstring :=
  join (lit " ") (map text segments).

Definition timestampLine (s : Segment) : jsstring :=
  let totalSeconds := floor_div (offset s) 1000 in
  let mins := floor_div totalSeconds 60 in
  let secs := js_rem totalSeconds 60 in
  lit "[" ++ padStart0 2 (toString mins) ++ lit ":"
  ++ padStart0 2 (toString secs) ++ lit "] " ++ text s.

Definition newline : jsstring := [10%N].

Definition timestampedText (segments : list Segment) : jsstring :=
  join newline (map timestampLine segments).

(** What a rendered time field looks like. *)
Definition all_digits (s : jsstring) : Prop :=
  Forall (fun c => is_digit c = true) s.

Definition two_digits (v : N) : jsstring := [48 + v / 10; 48 + v mod 10]%N.

(** The segments of the specification's example. *)
Definition segments_hello_world : list Segment :=
  [mkSegment (lit "Hello") (Int 1000) (Int 500);
   mkSegment (lit "World") (Int 2000) (Int 500)].

(** ** The request handler *)

Module Handler.

(** *** The world outside the handler *)

(** A row of the [profiles] table. *)
Record Profile : Type := mkProfile {
  plan : jsstring;
  credits_remaining : Z
}.

(** A row of the [transcriptions] table, as the handler inserts it; the
    columns that hold a constant ([duration_seconds], [is_auto_generated])
    or repeat [video_id] ([thumbnail_url]) are left out. *)
Record Transcription : Type := mkTranscription {
  user_id : jsstring;
  video_id : jsstring;
  video_url : option jsstring;
  row_title : jsstring;
  channel_name : jsstring;
  transcript_text : jsstring;
  transcript_timestamped : jsstring;
  transcript_language : jsstring;
  word_count : nat;
  row_summary : option jsstring;
  row_status : jsstring;
  processing_time_ms : Z
}.

(** What the summary request carries: the template of the prompt filled
    with the title, the channel and [text.slice(0, 30000)]. *)
Record Prompt : Type := mkPrompt {
  prompt_title : jsstring;
  prompt_channel : jsstring;
  prompt_transcript : jsstring
}.

(** What the handler does outside itself, in order. *)
Inductive Event : Type :=
| EvGetUser (token : jsstring)
| EvSelectProfile (id : jsstring)
| EvFetch (url : jsstring) (body : option Prompt)
| EvInsert (row : Transcription)
| EvUpdateCredits (id : jsstring) (credits : Z).

(** Network work: the metadata fetch, the caption acquisition and the
    summary are all calls of [fetch]. *)
Definition is_network (e : Event) : bool :=
  match e with EvFetch _ _ => true | _ => false end.

Definition is_insert (e : Event) : bool :=
  match e with EvInsert _ => true | _ => false end.

Record World : Type := mkWorld {
  profiles : gmap jsstring Profile;
  transcriptions : list Transcription;
  trace : list Event
}.

(** A response of [fetch]: [res.ok], [res.status] and the body text. *)
Record FetchResponse : Type := mkFetchResponse {
  res_ok : bool;
  res_status : nat;
  res_text : jsstring
}.

(** What the handler cannot decide by itself: the answers of the network,
    of the authentication service and of the JSON parser, the configured
    keys, the identifier the store gives to an inserted row, the clock. *)
Record Env : Type := mkEnv {
  getUser : jsstring -> option jsstring;
  fetch : jsstring -> option Prompt -> exn + FetchResponse;
  JSON_tracks : jsstring -> option (list CaptionTrack);
  JSON_oembed : jsstring -> option (jsstring * jsstring);
  JSON_gemini : jsstring -> exn + jsstring;
  JSON_anthropic : jsstring -> exn + jsstring;
  GEMINI_API_KEY : option jsstring;
  ANTHROPIC_API_KEY : option jsstring;
  inserted_id : Transcription -> option jsstring;
  elapsed : Z
}.

(** *** State and exceptions *)

Definition M (A : Type) : Type := World -> (exn + A) * World.

Definition ret {A : Type} (a : A) : M A := fun w => (inr a, w).

Definition throw {A : Type} (e : exn) : M A := fun w => (inl e, w).

Definition bind {A B : Type} (c : M A) (f : A -> M B) : M B :=
  fun w =>
    match c w with
    | (inr a, w') => f a w'
    | (inl e, w') => (inl e, w')
    end.

(** [try { c } catch (e) { h(e) }] *)
Definition try_catch {A : Type} (c : M A) (h : exn -> M A) : M A :=
  fun w =>
    match c w with
    | (inr a, w') => (inr a, w')
    | (inl e, w') => h e w'
    end.

Definition emit (e : Event) : M unit :=
  fun w => (inr tt, mkWorld (profiles w) (transcriptions w) (trace w ++ [e])).

#[local] Notation "x <- c ;; k" := (bind c (fun x => k))
  (at level 100, c at next level, right associativity).
#[local] Notation "c ;;; k" := (bind c (fun _ => k))
  (at level 100, right associativity).

(** [x || d] for a string that may be [undefined]. *)
Definition or_else (x : option jsstring) (d : jsstring) : jsstring :=
  match x with
  | Some s => if truthy s then s else d
  | None => d
  end.

Definition truthy_opt (x : option jsstring) : bool :=
  match x with Some s => truthy s | None => false end.

(** [s.replace(pat, repl)] with a string pattern: the first occurrence. *)
Definition replace_first (pat repl s : jsstring) : jsstring :=
  match js_match (Lit pat) s with
  | Some mt => take (m_index mt) s ++ repl ++ drop (m_end mt) s
  | None => s
  end.

(** [s.split(/\s+/).length]: one more than the number of separators,
    which are the successive matches from left to right. *)
Fixpoint count_scan (r : re) (i : nat) (rest : jsstring) (skip : nat) : nat :=
  match skip with
  | S skip' =>
      match rest with
      | _ :: rest' => count_scan r (S i) rest' skip'
      | [] => 0
      end
  | O =>
      match rest with
      | [] => 0
      | _ :: rest' =>
          match match_at r i rest with
          | Some mt =>
              match m_end mt - i with
              | O => count_scan r (S i) rest' 0
              | S n => S (count_scan r (S i) rest' n)
              end
          | None => count_scan r (S i) rest' 0
          end
      end
  end.

Definition wordCount (plainText : jsstring) : nat :=
  S (count_scan (Plus is_space) 0 plainText 0).

(** *** The store *)

(** [supabase.auth.getUser(token)], then [user?.id || null]. *)
Definition auth_getUser (env : Env) (token : jsstring) : M (option jsstring) :=
  emit (EvGetUser token) ;;;
  ret (match getUser env token with
       | Some id => if truthy id then Some id else None
       | None => None
       end).

(** [supabase.from('profiles').select(...).eq('id', userId).single()] *)
Definition select_profile (userId : jsstring) : M (option Profile) :=
  emit (EvSelectProfile userId) ;;;
  fun w => (inr (profiles w !! userId), w).

(** [supabase.from('transcriptions').insert(row).select('id').single()] *)
Definition insert_transcription (env : Env) (row : Transcription)
    : M (option jsstring) :=
  emit (EvInsert row) ;;;
  fun w =>
    match inserted_id env row with
    | Some id =>
        (inr (Some id),
         mkWorld (profiles w) (transcriptions w ++ [row]) (trace w))
    | None => (inr None, w)
    end.

(** [supabase.from('profiles').update({ credits_remaining: c }).eq('id',
    userId)] *)
Definition update_credits (userId : jsstring) (c : Z) : M unit :=
  emit (EvUpdateCredits userId c) ;;;
  fun w =>
    (inr tt,
     mkWorld (alter (fun p => mkProfile (plan p) c) userId (profiles w))
       (transcriptions w) (trace w)).

(** [await fetch(url, ...)] *)
Definition do_fetch (env : Env) (url : jsstring) (body : option Prompt)
    : M FetchResponse :=
  emit (EvFetch url body) ;;;
  match fetch env url body with
  | inl e => throw e
  | inr res => ret res
  end.

(** *** The helpers of the route *)

Definition Unknown : jsstring := lit "Unknown".

Definition fetchVideoMetadata (env : Env) (videoId : jsstring)
    : M (jsstring * jsstring) :=
  try_catch
    (res <- do_fetch env
       (lit "https://www.youtube.com/oembed?url=https://www.youtube.com/watch?v="
        ++ videoId ++ lit "&format=json") None ;;
     if negb (res_ok res) then throw (Error (lit "Failed to fetch metadata"))
     else
       match JSON_oembed env (res_text res) with
       | None => throw (Error (lit "Unexpected token"))
       | Some (title, author_name) =>
           ret (or_else (Some title) Unknown, or_else (Some author_name) Unknown)
       end)
    (fun _ => ret (Unknown, Unknown)).

Record Transcript : Type := mkTranscript {
  t_plainText : jsstring;
  t_timestampedText : jsstring;
  t_language : jsstring
}.

Definition fetchTranscript (env : Env) (videoId : jsstring) : M Transcript :=
  videoPageRes <- do_fetch env (lit "https://www.youtube.com/watch?v=" ++ videoId) None ;;
  if negb (res_ok videoPageRes) then
    throw (Error (lit "Failed to load YouTube video page"))
  else
    let html := res_text videoPageRes in
    match extractCaptionTracks (JSON_tracks env) html with
    | inl e => throw e
    | inr captionTracks =>
        match selectTrack captionTracks with
        | None => throw (Error (lit "No caption tracks found for this video"))
        | Some selectedTrack =>
            if negb (truthy_opt (baseUrl selectedTrack)) then
              throw (Error (lit "Caption URL not found"))
            else
              captionRes <- do_fetch env
                (default [] (baseUrl selectedTrack) ++ lit "&fmt=srv3") None ;;
              if negb (res_ok captionRes) then
                throw (Error (lit "Failed to fetch caption data"))
              else
                match parseSegments (res_text captionRes) with
                | None => throw NoSegmentsExtracted
                | Some (inl e) => throw e
                | Some (inr segments) =>
                    ret (mkTranscript (plainText segments)
                           (timestampedText segments)
                           (or_else (languageCode selectedTrack) (lit "auto")))
                end
        end
    end.

(** The error message of a failed summary request:
    [`... API error: ${res.status} - ${err}`]. *)
Definition api_error (name : jsstring) (res : FetchResponse) : exn :=
  Error (name ++ lit " API error: " ++ toString (Int (Z.of_nat (res_status res)))
         ++ lit " - " ++ res_text res).

Definition summary_prompt (text title channel : jsstring) : Prompt :=
  mkPrompt title channel (take (30 * 1000) text).

Definition generateSummaryGemini (env : Env) (text title channel apiKey : jsstring)
    : M jsstring :=
  res <- do_fetch env
    (lit "https://generativelanguage.googleapis.com/v1beta/models/gemini-2.0-flash:generateContent?key="
     ++ apiKey) (Some (summary_prompt text title channel)) ;;
  if negb (res_ok res) then throw (api_error (lit "Gemini") res)
  else
    match JSON_gemini env (res_text res) with
    | inl e => throw e
    | inr s => ret s
    end.

Definition generateSummary (env : Env) (text title channel apiKey : jsstring)
    : M jsstring :=
  res <- do_fetch env (lit "https://api.anthropic.com/v1/messages")
    (Some (summary_prompt text title channel)) ;;
  if negb (res_ok res) then throw (api_error (lit "Anthropic") res)
  else
    match JSON_anthropic env (res_text res) with
    | inl e => throw e
    | inr s => ret s
    end.

(** *** Requests and responses *)

(** The [clientTranscript] of a body as the dashboards build it: each
    field is a string or is missing.  [req.json()] does not check this; a
    body whose fields hold other JSON values (a number or an array as
    [text]) is outside the requests that this model describes. *)
Record ClientTranscript : Type := mkClientTranscript {
  ct_videoId : option jsstring;
  ct_text : option jsstring;
  ct_timestamped : option jsstring;
  ct_language : option jsstring;
  ct_title : option jsstring;
  ct_channel : option jsstring
}.

(** The parsed body of a request, with the types that the handler
    expects and the dashboards send: [videoUrl] a string,
    [clientTranscript] an object of strings, [withSummary] a boolean, each
    of them possibly missing. *)
Record RequestBody : Type := mkBody {
  videoUrl : option jsstring;
  clientTranscript : option ClientTranscript;
  withSummary : option bool
}.

(** A request: what [req.json()] gives, the parsed body or the exception
    it throws, and the [authorization] header. *)
Record Request : Type := mkRequest {
  req_json : exn + RequestBody;
  authorization : option jsstring
}.

Record Result : Type := mkResult {
  r_id : option jsstring;
  r_videoId : jsstring;
  r_title : jsstring;
  r_channel : jsstring;
  r_text : jsstring;
  r_timestamped : jsstring;
  r_language : jsstring;
  r_wordCount : nat;
  r_summary : option jsstring;
  r_summaryError : option jsstring;
  r_processingTimeMs : Z
}.

Inductive ResponseBody : Type :=
| ErrorBody (error : jsstring) (fallbackToClient : bool)
| ResultBody (r : Result).

Record Response : Type := mkResponse {
  status : nat;
  body : ResponseBody
}.

Definition error_response (st : nat) (msg : jsstring) : Response :=
  mkResponse st (ErrorBody msg false).

(** *** [POST] *)

(** What the handler holds when the transcript is in hand. *)
Record Obtained : Type := mkObtained {
  o_videoId : jsstring;
  o_videoUrl : option jsstring;
  o_userId : option jsstring;
  o_withSummary : bool;
  o_plainText : jsstring;
  o_timestampedText : jsstring;
  o_language : jsstring;
  o_title : jsstring;
  o_channel : jsstring
}.

(** The handler either answers at once or goes on with a transcript. *)
Inductive Front : Type :=
| Answer (resp : Response)
| Continue (o : Obtained).

Definition usable_key (k : option jsstring) : option jsstring :=
  match k with
  | Some key =>
      if truthy key && negb (bool_decide (key = lit "placeholder")) then Some key
      else None
  | None => None
  end.

(** [clientTranscript?.videoId || extractVideoId(videoUrl)]; the call
    throws a [TypeError] when [videoUrl] is [undefined]. *)
Definition resolve_videoId (b : RequestBody) : exn + option jsstring :=
  let from_url :=
    match videoUrl b with
    | Some url => inr (extractVideoId url)
    | None => inl (Error (lit "Cannot read properties of undefined (reading 'match')"))
    end in
  match clientTranscript b ≫= ct_videoId with
  | Some id => if truthy id then inr (Some id) else from_url
  | None => from_url
  end.

(** The transcript stage on the server: metadata, then the transcript,
    whose failure is answered with a 422. *)
Definition server_transcript (env : Env) (b : RequestBody)
    (videoId : jsstring) (userId : option jsstring) (ws : bool) : M Front :=
  metadata <- fetchVideoMetadata env videoId ;;
  try_catch
    (transcript <- fetchTranscript env videoId ;;
     ret (Continue
       (mkObtained videoId (videoUrl b) userId ws
          (t_plainText transcript) (t_timestampedText transcript)
          (t_language transcript) (fst metadata) (snd metadata))))
    (fun error =>
       ret (Answer (mkResponse 422 (ErrorBody (message error) true)))).

(** From the start of [POST] to the end of the transcript stage. *)
Definition front (env : Env) (req : Request) : M Front :=
  match req_json req with
  | inl e => throw e
  | inr b =>
      if negb (truthy_opt (videoUrl b))
         && negb (bool_decide (is_Some (clientTranscript b)))
      then ret (Answer (error_response 400
                  (lit "videoUrl or clientTranscript is required")))
      else
        match resolve_videoId b with
        | inl e => throw e
        | inr None => ret (Answer (error_response 400 (lit "Invalid YouTube URL")))
        | inr (Some videoId) =>
            if negb (truthy videoId)
            then ret (Answer (error_response 400 (lit "Invalid YouTube URL")))
            else
            userId <-
              (match authorization req with
               | Some authHeader =>
                   if truthy authHeader
                   then auth_getUser env (replace_first (lit "Bearer ") [] authHeader)
                   else ret None
               | None => ret None
               end) ;;
            rejected <-
              (match userId with
               | Some uid =>
                   profile <- select_profile uid ;;
                   ret (match profile with
                        | Some p =>
                            bool_decide (plan p = lit "free")
                            && (credits_remaining p <=? 0)%Z
                        | None => false
                        end)
               | None => ret false
               end) ;;
            if rejected : bool then
              ret (Answer (error_response 402
                     (lit "Monthly free limit reached. Upgrade to Pro for more.")))
            else
              let ws := default true (withSummary b) in
              match clientTranscript b with
              | Some ct =>
                  if truthy_opt (ct_text ct) then
                    ret (Continue
                      (mkObtained videoId (videoUrl b) userId ws
                         (default [] (ct_text ct))
                         (or_else (ct_timestamped ct) [])
                         (or_else (ct_language ct) (lit "auto"))
                         (or_else (ct_title ct) Unknown)
                         (or_else (ct_channel ct) Unknown)))
                  else server_transcript env b videoId userId ws
              | None => server_transcript env b videoId userId ws
              end
        end
  end.

(** The body of the [try] of the summary stage: the pair
    [(summary, summaryError)]. *)
Definition summary_attempt (env : Env) (o : Obtained)
    : M (option jsstring * option jsstring) :=
  match usable_key (GEMINI_API_KEY env) with
  | Some geminiKey =>
      s <- generateSummaryGemini env (o_plainText o) (o_title o)
             (o_channel o) geminiKey ;;
      ret (Some s, None)
  | None =>
      match usable_key (ANTHROPIC_API_KEY env) with
      | Some anthropicKey =>
          s <- generateSummary env (o_plainText o) (o_title o)
                 (o_channel o) anthropicKey ;;
          ret (Some s, None)
      | None =>
          ret (None,
               Some (lit "No AI key configured (GEMINI_API_KEY or ANTHROPIC_API_KEY)"))
      end
  end.

(** The summary stage. *)
Definition summarize (env : Env) (o : Obtained)
    : M (option jsstring * option jsstring) :=
  if o_withSummary o && truthy (o_plainText o) then
    try_catch (summary_attempt env o)
      (fun e =>
         ret (None,
              Some (or_else (Some (message e)) (lit "Unknown summary error"))))
  else ret (None, None).

(** From the summary stage to the response. *)
Definition back (env : Env) (o : Obtained) : M Response :=
  sm <- summarize env o ;;
  let '(summary, summaryError) := sm in
  let processingTime := elapsed env in
  let wc := wordCount (o_plainText o) in
  transcriptionId <-
    (match o_userId o with
     | Some userId =>
         id <- insert_transcription env
                 (mkTranscription userId (o_videoId o) (o_videoUrl o) (o_title o)
                    (o_channel o) (o_plainText o) (o_timestampedText o)
                    (o_language o) wc summary (lit "completed") processingTime) ;;
         currentProfile <- select_profile userId ;;
         (match currentProfile with
          | Some p =>
              if (0 <? credits_remaining p)%Z
              then update_credits userId (credits_remaining p - 1)
              else ret tt
          | None => ret tt
          end) ;;;
         ret id
     | None => ret None
     end) ;;
  ret (mkResponse 200
         (ResultBody
            (mkResult transcriptionId (o_videoId o) (o_title o) (o_channel o)
               (o_plainText o) (o_timestampedText o) (o_language o) wc
               summary summaryError processingTime))).

(** The body of the outer [try]. *)
Definition POST_try (env : Env) (req : Request) : M Response :=
  f <- front env req ;;
  match f with
  | Answer resp => ret resp
  | Continue o => back env o
  end.

(** [POST]: the outer [catch] turns an exception into a 500. *)
Definition POST (env : Env) (req : Request) (w : World) : Response * World :=
  match POST_try env req w with
  | (inr resp, w') => (resp, w')
  | (inl error, w') =>
      (error_response 500 (or_else (Some (message error)) (lit "Internal server error")), w')
  end.

(** *** Requests, tokens and accounts *)

(** The body passes the two checks that answer 400: it names a video. *)
Definition names_video (req : Request) (videoId : jsstring) : Prop :=
  exists b, req_json req = inr b
    /\ (truthy_opt (videoUrl b) || bool_decide (is_Some (clientTranscript b))) = true
    /\ resolve_videoId b = inr (Some videoId)
    /\ truthy videoId = true.

(** The request carries the token [token]. *)
Definition bearer (req : Request) (token : jsstring) : Prop :=
  exists authHeader, authorization req = Some authHeader
    /\ truthy authHeader = true
    /\ token = replace_first (lit "Bearer ") [] authHeader.

(** The outside calls of one run of the handler, in order. *)
Definition events (env : Env) (req : Request) (w : World) : list Event :=
  drop (length (trace w)) (trace (POST env req w).2).

(** The handler authenticated the request as the account [uid]: it looked
    a token up and the authentication service named [uid]. *)
Definition authenticated_as (env : Env) (req : Request) (w : World)
    (uid : jsstring) : Prop :=
  exists token, In (EvGetUser token) (events env req w)
    /\ getUser env token = Some uid /\ truthy uid = true.

Definition quota_message : jsstring :=
  lit "Monthly free limit reached. Upgrade to Pro for more.".

End Handler.

(** ** The store and the trace across one request *)

Module Store.
Import Handler.

(** A computation that leaves the two tables as they are. *)
Definition preserves {A : Type} (c : M A) : Prop :=
  forall w, profiles (c w).2 = profiles w
            /\ transcriptions (c w).2 = transcriptions w.

(** The [profiles] table after the credit decrement for [userId]. *)
Definition decremented (userId : option jsstring) (ps : gmap jsstring Profile)
    : gmap jsstring Profile :=
  match userId with
  | Some uid =>
      match ps !! uid with
      | Some p =>
          if (0 <? credits_remaining p)%Z
          then alter (fun q => mkProfile (plan q) (credits_remaining p - 1)) uid ps
          else ps
      | None => ps
      end
  | None => ps
  end.

(** A computation that adds to the trace, and only events in [P]. *)
Definition emits (P : Event -> Prop) {A : Type} (c : M A) : Prop :=
  forall w, exists evs, trace (c w).2 = trace w ++ evs /\ Forall P evs.

Definition not_getUser (e : Event) : Prop :=
  match e with EvGetUser _ => False | _ => True end.

(** A token is looked up only for a request that names a video, and it is
    the token the request carries. *)
Definition looked_up (req : Request) (e : Event) : Prop :=
  forall token, e = EvGetUser token ->
    bearer req token /\ exists videoId, names_video req videoId.

(** One request changes the [profiles] table at most by taking one credit
    from an account that has some. *)
Definition credits_step (ps ps' : gmap jsstring Profile) : Prop :=
  forall uid,
    match ps !! uid, ps' !! uid with
    | Some p, Some p' =>
        plan p' = plan p
        /\ (credits_remaining p' = credits_remaining p
            \/ (0 < credits_remaining p
                /\ credits_remaining p' = credits_remaining p - 1))%Z
    | None, None => True
    | _, _ => False
    end.

(** An environment, worlds and requests used as examples: the network is
    down, a Gemini key is configured, the token [tok] belongs to the
    account [u1]. *)
Definition env_example : Env :=
  mkEnv
    (fun token => if bool_decide (token = lit "tok") then Some (lit "u1") else None)
    (fun _ _ => inl (Error (lit "fetch failed")))
    (fun _ => None) (fun _ => None)
    (fun _ => inl (Error (lit "Unexpected end of JSON input")))
    (fun _ => inl (Error (lit "Unexpected end of JSON input")))
    (Some (lit "key")) None
    (fun _ => Some (lit "row1")) 5.

Definition world_of (plan : string) (credits : Z) : World :=
  mkWorld {[ lit "u1" := mkProfile (lit plan) credits ]} [] [].

(** A request that brings its own transcript. *)
Definition req_client : Request :=
  mkRequest
    (inr (mkBody (Some (lit "https://youtu.be/dQw4w9WgXcQ"))
            (Some (mkClientTranscript None (Some (lit "Hello World")) None None
                     None None))
            None))
    (Some (lit "Bearer tok")).

(** A request whose URL names no video. *)
Definition req_invalid : Request :=
  mkRequest (inr (mkBody (Some (lit "not a video")) None None))
    (Some (lit "Bearer tok")).

End Store.


(** ** Further notions used in statements *)

(** The entities that [decodeHtmlEntities] replaces after [&amp;]: what
    follows the ampersand, and the replacement. *)
Definition later_entities : list (jsstring * jsstring) :=
  [(lit "lt;", lit "<"); (lit "gt;", lit ">"); (lit "quot;", [quote]);
   (lit "#39;", lit "'"); (lit "#x27;", lit "'"); (lit "nbsp;", lit " ")].

(** A text made of words and the white space between them: the first
    word, then each separator with the word after it. *)
Definition spaced (w0 : jsstring) (rest : list (jsstring * jsstring)) : jsstring :=
  w0 ++ concat (map (fun sw => fst sw ++ snd sw) rest).

Definition no_space (s : jsstring) : Prop := Forall (fun c => is_space c = false) s.

Definition all_space (s : jsstring) : Prop := Forall (fun c => is_space c = true) s.

(** The state of the selection of the earlier revision is coherent: the
    index names the selected track, and the flag says whether that track
    is an auto-generated one. *)
Definition coherent (tracks : list CaptionTrack) (sel : Selector.Selection) : Prop :=
  tracks !! Selector.sel_index sel = Some (Selector.selectedTrack sel)
  /\ Selector.isGenerated sel = negb (not_asr (Selector.selectedTrack sel)).

(** The passes of [decodeHtmlEntities] after the first one. *)
Definition later_passes (str : jsstring) : jsstring :=
  let str := replace_lit (lit "&lt;") (lit "<") str in
  let str := replace_lit (lit "&gt;") (lit ">") str in
  let str := replace_lit (lit "&quot;") [quote] str in
  let str := replace_lit (lit "&#39;") (lit "'") str in
  let str := replace_lit (lit "&#x27;") (lit "'") str in
  let str := replace_lit (lit "&nbsp;") (lit " ") str in
  replace_all numericRefRegex (fun mt => fromCharCode (parseInt (group 1 mt))) str.

(** *** Kinds of outside calls *)

Module Calls.
Import Handler.

(** A fetch without a body: the metadata and the two caption fetches. *)
Definition is_page_fetch (e : Event) : bool :=
  match e with EvFetch _ None => true | _ => false end.

(** A fetch with a prompt: the request to a summary provider. *)
Definition is_summary_request (e : Event) : bool :=
  match e with EvFetch _ (Some _) => true | _ => false end.

(** A call to the store. *)
Definition is_store (e : Event) : bool :=
  match e with
  | EvSelectProfile _ | EvInsert _ | EvUpdateCredits _ _ => true
  | _ => false
  end.

(** A call that changes a table. *)
Definition is_write (e : Event) : bool :=
  match e with EvInsert _ | EvUpdateCredits _ _ => true | _ => false end.

(** The address of the metadata request. *)
Definition oembed_url (videoId : jsstring) : jsstring :=
  lit "https://www.youtube.com/oembed?url=https://www.youtube.com/watch?v="
  ++ videoId ++ lit "&format=json".

(** The addresses of the two summary providers. *)
Definition gemini_url (apiKey : jsstring) : jsstring :=
  lit "https://generativelanguage.googleapis.com/v1beta/models/gemini-2.0-flash:generateContent?key="
  ++ apiKey.

Definition anthropic_url : jsstring := lit "https://api.anthropic.com/v1/messages".

(** The account that the handler takes the request to come from:
    [user?.id || null] for the token of the [authorization] header, and
    [null] without a header. *)
Definition user_of (env : Env) (req : Request) : option jsstring :=
  match authorization req with
  | Some authHeader =>
      if truthy authHeader then
        match getUser env (replace_first (lit "Bearer ") [] authHeader) with
        | Some id => if truthy id then Some id else None
        | None => None
        end
      else None
  | None => None
  end.

(** The two lookups that precede the transcript stage: the token, when
    the request carries one, and the profile of the account it names. *)
Definition lookups (env : Env) (req : Request) : list Event :=
  match authorization req with
  | Some authHeader =>
      if truthy authHeader then
        EvGetUser (replace_first (lit "Bearer ") [] authHeader)
        :: match user_of env req with
           | Some uid => [EvSelectProfile uid]
           | None => []
           end
      else []
  | None => []
  end.

(** The test of the quota check:
    [profile && profile.plan === 'free' && profile.credits_remaining <= 0]
    for the profile of the account of the request. *)
Definition over_quota (env : Env) (req : Request) (w : World) : bool :=
  match user_of env req with
  | Some uid =>
      match profiles w !! uid with
      | Some p => bool_decide (plan p = lit "free") && (credits_remaining p <=? 0)%Z
      | None => false
      end
  | None => false
  end.

(** What the handler holds after a transcript that the client sent. *)
Definition client_obtained (env : Env) (req : Request) (b : RequestBody)
    (videoId : jsstring) (ct : ClientTranscript) : Obtained :=
  mkObtained videoId (videoUrl b) (user_of env req) (default true (withSummary b))
    (default [] (ct_text ct)) (or_else (ct_timestamped ct) [])
    (or_else (ct_language ct) (lit "auto")) (or_else (ct_title ct) Unknown)
    (or_else (ct_channel ct) Unknown).

(** The request that the summary stage makes for the transcript in hand:
    one request to the first provider with a usable key, Gemini before
    Anthropic, and none when no summary is wanted, the text is empty or no
    key is usable. *)
Definition summary_calls (env : Env) (o : Obtained) : list Event :=
  if o_withSummary o && truthy (o_plainText o) then
    match usable_key (GEMINI_API_KEY env) with
    | Some geminiKey =>
        [EvFetch (gemini_url geminiKey)
           (Some (summary_prompt (o_plainText o) (o_title o) (o_channel o)))]
    | None =>
        match usable_key (ANTHROPIC_API_KEY env) with
        | Some _ =>
            [EvFetch anthropic_url
               (Some (summary_prompt (o_plainText o) (o_title o) (o_channel o)))]
        | None => []
        end
    end
  else [].

(** The row that the handler inserts for the account [userId]. *)
Definition row_of (env : Env) (o : Obtained) (userId : jsstring)
    (summary : option jsstring) : Transcription :=
  mkTranscription userId (o_videoId o) (o_videoUrl o) (o_title o) (o_channel o)
    (o_plainText o) (o_timestampedText o) (o_language o)
    (wordCount (o_plainText o)) summary (lit "completed") (elapsed env).

(** The calls to the store after the summary stage, for the profiles as
    they are then. *)
Definition store_calls (env : Env) (o : Obtained) (ps : gmap jsstring Profile)
    (summary : option jsstring) : list Event :=
  match o_userId o with
  | Some userId =>
      EvInsert (row_of env o userId summary) :: EvSelectProfile userId
      :: match ps !! userId with
         | Some p =>
             if (0 <? credits_remaining p)%Z
             then [EvUpdateCredits userId (credits_remaining p - 1)]
             else []
         | None => []
         end
  | None => []
  end.

(** The rows that the request adds to the [transcriptions] table. *)
Definition inserted_rows (env : Env) (o : Obtained) (summary : option jsstring)
    : list Transcription :=
  match o_userId o with
  | Some userId =>
      match inserted_id env (row_of env o userId summary) with
      | Some _ => [row_of env o userId summary]
      | None => []
      end
  | None => []
  end.

(** A computation whose new events are all in [P] and whose result, when
    it returns one, is in [Q]. *)
Definition yields {A : Type} (P : Event -> Prop) (Q : A -> Prop) (c : M A) : Prop :=
  forall w, exists evs,
    trace (c w).2 = trace w ++ evs /\ Forall P evs
    /\ forall a, (c w).1 = inr a -> Q a.

End Calls.

(** *** Requests used as examples *)

(** The request of the dashboard: the URL, the transcript extracted in
    the browser, and no [authorization] header. *)
Definition req_dashboard : Handler.Request :=
  Handler.mkRequest
    (inr (Handler.mkBody (Some (lit "https://youtu.be/dQw4w9WgXcQ"))
            (Some (Handler.mkClientTranscript (Some (lit "dQw4w9WgXcQ"))
                     (Some (lit "Hello World")) (Some (lit "[00:01] Hello World"))
                     (Some (lit "en")) (Some (lit "A title")) (Some (lit "A channel"))))
            (Some true)))
    None.

(** A request whose client transcript names the video by a text that is
    no identifier, with no URL at all. *)
Definition req_any_id : Handler.Request :=
  Handler.mkRequest
    (inr (Handler.mkBody None
            (Some (Handler.mkClientTranscript (Some (lit "not an id"))
                     (Some (lit "Hello World")) None None None None))
            (Some false)))
    (Some (lit "Bearer tok")).

(** ** The dashboard: transcript extraction in the browser *)

Module Client.
Import Handler.

(** [videoUrl.match(/(?:v=|\/v\/|youtu\.be\/|\/embed\/)([a-zA-Z0-9_-]{11})/)]:
    the first of the two expressions of [extractVideoId], and only that
    one. *)
Definition idRe : re := urlPattern.

(** [const videoId = idMatch?.[1]; if (!videoId) throw new Error('Invalid
    YouTube URL')] *)
Definition clientVideoId (videoUrl : jsstring) : exn + jsstring :=
  let videoId :=
    match js_match idRe videoUrl with
    | Some idMatch => Some (group 1 idMatch)
    | None => None
    end in
  if negb (truthy_opt videoId) then inl (Error (lit "Invalid YouTube URL"))
  else inr (default [] videoId).

(** [/<title>(.*?)\s*-\s*YouTube<\/title>/] *)
Definition titleRe : re :=
  seqs [Lit (lit "<title>"); Group 1 (LazyStar dot); Star is_space; Lit (lit "-");
        Star is_space; Lit (lit "YouTube</title>")].

(** [/"title":"(.*?)"/], [/"author":"(.*?)"/] and
    [/"ownerChannelName":"(.*?)"/] *)
Definition fieldRe (name : string) : re :=
  seqs [Lit (quoted name ++ lit ":" ++ [quote]); Group 1 (LazyStar dot); Lit [quote]].

(** [/<text\s+start="([\d.]+)"[^>]*>([\s\S]*?)<\/text>/g] *)
Definition textRegex : re :=
  seqs [Lit (lit "<text"); Plus is_space; Lit (lit "start=" ++ [quote]);
        Group 1 (Plus digit_or_dot); Lit [quote]; Star non_gt; Lit (lit ">");
        Group 2 (LazyStar any_unit); Lit (lit "</text>")].

Definition decodeHtml (str : jsstring) : jsstring :=
  let str := replace_lit (lit "&amp;") (lit "&") str in
  let str := replace_lit (lit "&lt;") (lit "<") str in
  let str := replace_lit (lit "&gt;") (lit ">") str in
  let str := replace_lit (lit "&quot;") [quote] str in
  let str := replace_lit (lit "&#39;") (lit "'") str in
  let str := replace_lit (lit "&#x27;") (lit "'") str in
  let str := replace_lit (lit "&nbsp;") (lit " ") str in
  replace_all numericRefRegex (fun mt => fromCharCode (parseInt (group 1 mt))) str.

Record ClientSegment : Type := mkClientSegment {
  c_text : jsstring;
  c_offset : jsnum
}.

(** The body of the loop over [textRegex]. *)
Definition text_body (mt : Match) (segments : list ClientSegment)
    : list ClientSegment :=
  let offset := Math_floor (times_1000 (parseFloat (group 1 mt))) in
  let text := decodeHtml (trim (stripTags (group 2 mt))) in
  if truthy text then segments ++ [mkClientSegment text offset] else segments.

(** The body of the loop over [srv3Regex]. *)
Definition p_body (mt : Match) (segments : list ClientSegment)
    : list ClientSegment :=
  let offset := parseInt (group 1 mt) in
  let text := decodeHtml (trim (stripTags (group 3 mt))) in
  if truthy text then segments ++ [mkClientSegment text offset] else segments.

(** [while ((match = re.exec(captionXml)) !== null) { body }]; [None] is a
    loop still running when [fuel] is used up. *)
Fixpoint exec_loop (fuel : nat) (r : re)
    (body : Match -> list ClientSegment -> list ClientSegment)
    (captionXml : jsstring) (lastIndex : nat) (segments : list ClientSegment)
    : option (list ClientSegment) :=
  match fuel with
  | O => None
  | S fuel' =>
      match exec r captionXml lastIndex with
      | (Some mt, lastIndex') =>
          exec_loop fuel' r body captionXml lastIndex' (body mt segments)
      | (None, _) => Some segments
      end
  end.

Definition NoSegments : exn :=
  Error (lit "No transcript segments could be extracted from the captions data.").

(** The parsing part of [fetchTranscriptClientSide]: the standard format
    first, then the srv3 format [if (segments.length === 0)]. *)
Definition clientParse_with (fuel : nat) (captionXml : jsstring)
    : option (exn + list ClientSegment) :=
  match exec_loop fuel textRegex text_body captionXml 0 [] with
  | None => None
  | Some segments =>
      let after :=
        match segments with
        | [] => exec_loop fuel srv3Regex p_body captionXml 0 segments
        | _ :: _ => Some segments
        end in
      match after with
      | None => None
      | Some [] => Some (inl NoSegments)
      | Some (s :: l) => Some (inr (s :: l))
      end
  end.

Definition clientParse (captionXml : jsstring) : option (exn + list ClientSegment) :=
  clientParse_with (S (length captionXml)) captionXml.

(** [segments.map(s => s.text).join(' ')] *)
Definition clientText (segments : list ClientSegment) : jsstring :=
  join (lit " ") (map c_text segments).

Definition clientLine (s : ClientSegment) : jsstring :=
  let totalSec := floor_div (c_offset s) 1000 in
  let mins := floor_div totalSec 60 in
  let secs := js_rem totalSec 60 in
  lit "[" ++ padStart0 2 (toString mins) ++ lit ":"
  ++ padStart0 2 (toString secs) ++ lit "] " ++ c_text s.

Definition clientTimestamped (segments : list ClientSegment) : jsstring :=
  join newline (map clientLine segments).

(** What [fetchTranscriptClientSide] returns. *)
Record ClientResult : Type := mkClientResult {
  cr_videoId : jsstring;
  cr_title : jsstring;
  cr_channel : jsstring;
  cr_text : jsstring;
  cr_timestamped : jsstring;
  cr_language : jsstring
}.

(** The six code units of an ampersand as a JSON text escapes it: a
    backslash, [u] and the four digits [0026]. *)
Definition escaped_amp : jsstring := 92%N :: lit "u0026".

Section Browser.

(** The [fetch] of the browser, [JSON.parse] on the text of a track list
    ([None] for a thrown [SyntaxError]) and [encodeURIComponent]. *)
Variable fetch : jsstring -> exn + FetchResponse.
Variable JSON_parse : jsstring -> option (list CaptionTrack).
Variable encodeURIComponent : jsstring -> jsstring.

(** [try { const res = await fetch(url); if (res.ok) { x = await
    res.text() } } catch {}], for [x] that was [''] before. *)
Definition fetch_text (url : jsstring) : jsstring :=
  match fetch url with
  | inr res => if res_ok res then res_text res else []
  | inl _ => []
  end.

Definition allorigins (target : jsstring) : jsstring :=
  lit "https://api.allorigins.win/raw?url=" ++ encodeURIComponent target.

(** [a || b] for two results of [match]. *)
Definition or_match (a b : option Match) : option Match :=
  match a with Some _ => a | None => b end.

Definition fetchTranscriptClientSide (videoUrl : jsstring) : exn + ClientResult :=
  match clientVideoId videoUrl with
  | inl e => inl e
  | inr videoId =>
      let html := fetch_text (lit "/api/yt-page?v=" ++ videoId) in
      let html :=
        if negb (truthy html)
        then fetch_text (allorigins (lit "https://www.youtube.com/watch?v=" ++ videoId))
        else html in
      if negb (truthy html)
      then inl (Error (lit "Could not fetch YouTube page. Please try again."))
      else
        let titleMatch :=
          or_match (js_match titleRe html) (js_match (fieldRe "title") html) in
        let title :=
          or_else (option_map (fun mt => replace_lit [92%N; quote] [quote] (group 1 mt))
                     titleMatch) Unknown in
        let channelMatch :=
          or_match (js_match (fieldRe "author") html)
            (js_match (fieldRe "ownerChannelName") html) in
        let channel := or_else (option_map (group 1) channelMatch) Unknown in
        match js_match captionTracksRe html with
        | None =>
            inl (Error (lit "No captions available for this video. The video may not have subtitles enabled."))
        | Some captionMatch =>
            match JSON_parse (group 1 captionMatch) with
            | None => inl (Error (lit "Failed to parse caption data"))
            | Some captionTracks =>
                match selectTrack captionTracks with
                | None => inl (Error (lit "No caption tracks found"))
                | Some selectedTrack =>
                    let language := or_else (languageCode selectedTrack) (lit "en") in
                    if negb (truthy_opt (baseUrl selectedTrack))
                    then inl (Error (lit "Caption URL not found"))
                    else
                      let captionUrl :=
                        replace_lit escaped_amp (lit "&")
                          (default [] (baseUrl selectedTrack)) in
                      let captionXml :=
                        fetch_text (lit "/api/yt-page?url="
                                    ++ encodeURIComponent captionUrl) in
                      let captionXml :=
                        if negb (truthy captionXml)
                        then fetch_text (allorigins captionUrl)
                        else captionXml in
                      if negb (truthy captionXml)
                      then inl (Error (lit "Could not fetch caption data. Please try again."))
                      else
                        match clientParse captionXml with
                        | None => inl NoSegments
                        | Some (inl e) => inl e
                        | Some (inr segments) =>
                            inr (mkClientResult videoId title channel
                                   (clientText segments)
                                   (clientTimestamped segments) language)
                        end
                end
            end
        end
  end.

End Browser.

(** The request that [doTranscribe] sends to [/api/transcribe]: the URL,
    the transcript extracted in the browser, [withSummary: true], and the
    one header [Content-Type]. *)
Definition transcribe_request (videoUrl : jsstring) (t : ClientResult) : Request :=
  mkRequest
    (inr (mkBody (Some videoUrl)
            (Some (mkClientTranscript (Some (cr_videoId t)) (Some (cr_text t))
                     (Some (cr_timestamped t)) (Some (cr_language t))
                     (Some (cr_title t)) (Some (cr_channel t))))
            (Some true)))
    None.

(** [handleTranscribe]: [if (!url.trim()) return; await
    doTranscribe(url.trim())]; the result is the argument of
    [doTranscribe], [None] when it is not called. *)
Definition handleTranscribe (url : jsstring) : option jsstring :=
  if negb (truthy (trim url)) then None else Some (trim url).

(** The request that the [doTranscribe] of the earlier dashboard sends:
    [{ videoUrl, withSummary: true }]. *)
Definition url_request (videoUrl : jsstring) : Request :=
  mkRequest (inr (mkBody (Some videoUrl) None (Some true))) None.

(** The client's segments that the server's segments amount to. *)
Definition forget_duration (s : Segment) : ClientSegment :=
  mkClientSegment (text s) (offset s).

(** What the two loops keep of the matches they go through. *)
Definition text_segment (mt : Match) : ClientSegment :=
  mkClientSegment (decodeHtml (trim (stripTags (group 2 mt))))
    (Math_floor (times_1000 (parseFloat (group 1 mt)))).

Definition p_segment (mt : Match) : ClientSegment :=
  mkClientSegment (decodeHtml (trim (stripTags (group 3 mt))))
    (parseInt (group 1 mt)).

Definition kept_client (segments : list ClientSegment) : list ClientSegment :=
  filter (fun s => truthy (c_text s) = true) segments.

Definition client_outcome (segments : list ClientSegment)
    : exn + list ClientSegment :=
  match segments with
  | [] => inl NoSegments
  | _ :: _ => inr segments
  end.

End Client.

(** *** A browser used as an example *)

(** The proxy answers for the video page and for the caption URL [u];
    every other fetch fails. *)
Definition fetch_example (url : jsstring) : exn + Handler.FetchResponse :=
  if bool_decide (url = lit "/api/yt-page?v=dQw4w9WgXcQ")
  then inr (Handler.mkFetchResponse true 200 page_nested)
  else if bool_decide (url = lit "/api/yt-page?url=u")
  then inr (Handler.mkFetchResponse true 200 payload_srv3)
  else inl (Error (lit "Failed to fetch")).

Definition result_example : Client.ClientResult :=
  Client.mkClientResult (lit "dQw4w9WgXcQ") (lit "Unknown") (lit "Unknown")
    (lit "Hello World") (lit "[00:01] Hello" ++ newline ++ lit "[00:02] World")
    (lit "en").

(** ** Texts, as the theorems describe them *)

(** [s.indexOf(pat)]: where [pat] first occurs in [s]; [None] stands for
    -1. *)
Definition indexOf (pat s : jsstring) : option nat :=
  m_index <$> js_match (Lit pat) s.

(** An expression without [^] matches in the same way wherever the text
    stands: only the indices move. *)
Fixpoint unanchored (r : re) : bool :=
  match r with
  | Bol => false
  | Seq r1 r2 | Alt r1 r2 => unanchored r1 && unanchored r2
  | Group _ r1 => unanchored r1
  | _ => true
  end.

(** A match, moved by [d] code units. *)
Definition moved (d : nat) (mt : Match) : Match :=
  mkMatch (m_index mt + d) (m_end mt + d) (m_0 mt) (m_caps mt).

(** ** The track list in the page *)

(** The marker of the track list: ["captionTracks":]. *)
Definition captionTracksMarker : jsstring :=
  quote :: lit "captionTracks" ++ quote :: lit ":".

(** After [pre], the page has the marker, white space, and a bracketed
    span whose body has no []] and no line terminator: the span ends at
    the first []] after its [[]. *)
Definition span_at (html pre body : jsstring) : Prop :=
  exists ws post,
    html = pre ++ captionTracksMarker ++ ws ++ lit "[" ++ body ++ lit "]" ++ post
    /\ all_space ws /\ (93%N ∉ body)
    /\ Forall (fun c => is_line_terminator c = false) body.

(** No such span starts before [pre]. *)
Definition first_span (html pre : jsstring) : Prop :=
  forall pre' body', span_at html pre' body' -> length pre <= length pre'.

(** Pages used as examples: the track list in the plain position, and a
    track list with an array inside. *)
Definition page_plain : jsstring :=
  lit "var r = {" ++ quoted "captionTracks" ++ lit ":" ++ tracks_json ++ lit "};".

Definition runs_json : jsstring :=
  lit "[{" ++ quoted "name" ++ lit ":{" ++ quoted "runs" ++ lit ":[{"
  ++ quoted "text" ++ lit ":" ++ quoted "English" ++ lit "}]},"
  ++ quoted "baseUrl" ++ lit ":" ++ quoted "u" ++ lit "}]".

Definition page_runs : jsstring :=
  lit "{" ++ quoted "captionTracks" ++ lit ":" ++ runs_json ++ lit "}".

(** ** Caption payloads, tag by tag *)

(** The parts of a caption tag: the white space after the tag name, the
    value of the first attribute, the white space before the second one,
    its value, what else the opening tag holds, and the inner payload. *)
Record Tag : Type := mkTag {
  tag_ws1 : jsstring;
  tag_start : jsstring;
  tag_ws2 : jsstring;
  tag_dur : jsstring;
  tag_attrs : jsstring;
  tag_inner : jsstring
}.

(** The opening tag, with the name [open] and the attribute names [a1]
    and [a2]. *)
Definition tag_open (open a1 a2 : jsstring) (g : Tag) : jsstring :=
  open ++ tag_ws1 g ++ a1 ++ tag_start g ++ [quote] ++ tag_ws2 g ++ a2
  ++ tag_dur g ++ [quote] ++ tag_attrs g ++ lit ">".

(** The text of a tag with the closing tag [close]. *)
Definition tag_text (open a1 a2 close : jsstring) (g : Tag) : jsstring :=
  tag_open open a1 a2 g ++ tag_inner g ++ close.

(** [<p t="start" d="dur"...>inner</p>] *)
Definition p_tag : Tag -> jsstring :=
  tag_text (lit "<p") (lit "t=" ++ [quote]) (lit "d=" ++ [quote]) (lit "</p>").

(** [<text start="start" dur="dur"...>inner</text>] *)
Definition text_tag : Tag -> jsstring :=
  tag_text (lit "<text") (lit "start=" ++ [quote]) (lit "dur=" ++ [quote])
    (lit "</text>").

(** The opening tag is well formed: white space where the expression
    asks for it, attribute values of the class [value], no [>] before the
    end of the opening tag. *)
Definition is_tag (value : N -> bool) (g : Tag) : Prop :=
  tag_ws1 g <> [] /\ all_space (tag_ws1 g)
  /\ tag_start g <> [] /\ Forall (fun c => value c = true) (tag_start g)
  /\ tag_ws2 g <> [] /\ all_space (tag_ws2 g)
  /\ tag_dur g <> [] /\ Forall (fun c => value c = true) (tag_dur g)
  /\ (62%N ∉ tag_attrs g).

(** The inner payload ends at the first closing tag. *)
Definition closed_by (close : jsstring) (g : Tag) : Prop :=
  indexOf close (tag_inner g ++ close) = Some (length (tag_inner g)).

(** A payload: tags, each with the text that stands before it, and the
    text after the last one. *)
Definition payload (tag : Tag -> jsstring) (items : list (jsstring * Tag))
    (tail : jsstring) : jsstring :=
  concat (map (fun it => fst it ++ tag (snd it)) items) ++ tail.

(** The payload has a format-A tag somewhere. *)
Definition has_p_tag (xml : jsstring) : Prop :=
  exists pre g post, xml = pre ++ p_tag g ++ post /\ is_tag is_digit g.

(** The two expressions of the parser have the same shape. *)
Definition tag_re (open a1 a2 : jsstring) (value : N -> bool) (close : jsstring)
    : re :=
  seqs [Lit open; Plus is_space; Lit a1; Group 1 (Plus value); Lit [quote];
        Plus is_space; Lit a2; Group 2 (Plus value); Lit [quote];
        Star non_gt; Lit (lit ">"); Group 3 (LazyStar any_unit); Lit close].

(** The segment that a tag stands for, in each format. *)
Definition p_segment_of (g : Tag) : Segment :=
  mkSegment (normalize (tag_inner g)) (parseInt (tag_start g))
    (parseInt (tag_dur g)).

Definition text_segment_of (g : Tag) : Segment :=
  mkSegment (normalize (tag_inner g))
    (Math_floor (times_1000 (parseFloat (tag_start g))))
    (Math_floor (times_1000 (parseFloat (tag_dur g)))).

(** The groups of a match are the parts of the tag. *)
Definition reads (mt : Match) (g : Tag) : Prop :=
  group 1 mt = tag_start g /\ group 2 mt = tag_dur g /\ group 3 mt = tag_inner g.


(** ** Entities *)

(** The entities that [decodeHtmlEntities] knows. *)
Inductive Entity : Type :=
| EAmp
| ELt
| EGt
| EQuot
| EApos
| EAposHex
| ENbsp
| ENum (ds : jsstring).

(** The text of an entity, after its [&]. *)
Definition entity_tail (e : Entity) : jsstring :=
  match e with
  | EAmp => lit "amp;"
  | ELt => lit "lt;"
  | EGt => lit "gt;"
  | EQuot => lit "quot;"
  | EApos => lit "#39;"
  | EAposHex => lit "#x27;"
  | ENbsp => lit "nbsp;"
  | ENum ds => lit "#" ++ ds ++ lit ";"
  end.

(** What an entity is decoded to: its character, and for a decimal
    reference the code unit whose number is the reference modulo
    [65536]. *)
Definition entity_char (e : Entity) : jsstring :=
  match e with
  | EAmp => lit "&"
  | ELt => lit "<"
  | EGt => lit ">"
  | EQuot => [quote]
  | EApos => lit "'"
  | EAposHex => lit "'"
  | ENbsp => lit " "
  | ENum ds => [(digits_value ds mod 65536)%N]
  end.

(** A decimal reference has digits, and a number that a double holds
    exactly. *)
Definition entity_ok (e : Entity) : Prop :=
  match e with
  | ENum ds =>
      ds <> [] /\ Forall (fun d => is_digit d = true) ds
      /\ (digits_value ds < 2 ^ 53)%N
  | _ => True
  end.

(** A text that does not start like the rest of an entity: its first
    code unit is none of [l], [g], [q], [#], [n]. *)
Definition plain_start (a : jsstring) : bool :=
  match a with
  | c :: _ => negb (existsb (N.eqb c) [108; 103; 113; 35; 110]%N)
  | [] => true
  end.

(** An entity and the text that follows it, up to the next [&]; after
    [&amp;] the text does not start like the rest of an entity. *)
Definition token_ok (t : Entity * jsstring) : Prop :=
  (38%N ∉ snd t) /\ entity_ok (fst t)
  /\ (fst t = EAmp -> plain_start (snd t) = true).

(** A text with entities, and the same text with each entity decoded. *)
Definition encoded (a0 : jsstring) (toks : list (Entity * jsstring)) : jsstring :=
  a0 ++ concat (map (fun t => 38%N :: entity_tail (fst t) ++ snd t) toks).

Definition decoded (a0 : jsstring) (toks : list (Entity * jsstring)) : jsstring :=
  a0 ++ concat (map (fun t => entity_char (fst t) ++ snd t) toks).

(** The pass of [decodeHtmlEntities] that replaces an entity, counted
    from 0; [&#39;] is replaced by the pass for the apostrophe. *)
Definition pass_of (e : Entity) : nat :=
  match e with
  | EAmp => 0
  | ELt => 1
  | EGt => 2
  | EQuot => 3
  | EApos => 4
  | EAposHex => 5
  | ENbsp => 6
  | ENum ds => if bool_decide (ds = lit "39") then 4 else 7
  end.

(** A token before the pass [k]. *)
Definition stage (k : nat) (t : Entity * jsstring) : jsstring :=
  (if pass_of (fst t) <? k then entity_char (fst t)
   else 38%N :: entity_tail (fst t)) ++ snd t.

(** ** Texts with markup *)

(** A text without [<], then tags [<...>], each followed by a text
    without [<]. *)
Definition marked_up (t0 : jsstring) (chunks : list (jsstring * jsstring))
    : jsstring :=
  t0 ++ concat (map (fun c => lit "<" ++ fst c ++ lit ">" ++ snd c) chunks).

Definition chunk_ok (c : jsstring * jsstring) : Prop :=
  fst c <> [] /\ (62%N ∉ fst c) /\ (60%N ∉ snd c).

(** The inner payload of a tag holds nothing but tags and white space. *)
Definition blank_inner (g : Tag) : bool :=
  forallb is_space (stripTags (tag_inner g)).

(** *** More payloads used as examples *)

(** [<text start="0" dur="1">&#32;</text>] *)
Definition payload_ref_blank : jsstring :=
  lit "<text start=" ++ quoted "0" ++ lit " dur=" ++ quoted "1"
  ++ lit ">&#32;</text>".

(** [<p t="0" d="1"> </p><text start="1.5" dur="2.25">Hi</text>] *)
Definition payload_both : jsstring :=
  lit "<p t=" ++ quoted "0" ++ lit " d=" ++ quoted "1" ++ lit "> </p>"
  ++ payload_std.

(** [<text start="1.005" dur="2">Hi</text>] *)
Definition payload_decimal : jsstring :=
  lit "<text start=" ++ quoted "1.005" ++ lit " dur=" ++ quoted "2"
  ++ lit ">Hi</text>".

(** ** The lines of a text *)

(** [s.split('\n')]: the pieces of [s] between line feeds. *)
Fixpoint lines_of (s : jsstring) : list jsstring :=
  match s with
  | [] => [[]]
  | c :: s' =>
      if (c =? 10)%N then [] :: lines_of s'
      else
        match lines_of s' with
        | l :: ls => (c :: l) :: ls
        | [] => [[c]]
        end
  end.

(** The number of line feeds in the texts of the segments. *)
Definition inner_line_feeds (segments : list Segment) : nat :=
  list_sum (map (fun s => count_occ N.eq_dec (text s) 10%N) segments).

(** [<p t="0" d="1">one], a line feed, [two</p>] *)
Definition payload_two_lines : jsstring :=
  lit "<p t=" ++ quoted "0" ++ lit " d=" ++ quoted "1" ++ lit ">one"
  ++ [10%N] ++ lit "two</p>".

(** ** The input box of the dashboard *)

(** The request that [handleTranscribe] of [page.tsx] sends, [None] when
    it sends none: [doTranscribe(url.trim())] posts
    [{ videoUrl, withSummary: true }]. *)
Definition submitted (url : jsstring) : option Handler.Request :=
  Client.url_request <$> Client.handleTranscribe url.

(** ** Facts about the matcher *)

Module RegexFacts.

Lemma lit_match_Some l rest rest' :
  lit_match l rest = Some rest' <-> rest = l ++ rest'.
Proof.
  revert rest. induction l as [|c l IH]; intros rest; simpl.
  - split; congruence.
  - destruct rest as [|d rest]; [split; discriminate|].
    destruct (N.eqb_spec c d) as [->|Hne].
    + rewrite IH. split; congruence.
    + split; [discriminate|]. intros [=]. congruence.
Qed.

Lemma lit_match_app l rest : lit_match l (l ++ rest) = Some rest.
Proof. by apply lit_match_Some. Qed.

Lemma rep_match_Some n p rest rest' :
  rep_match n p rest = Some rest' <->
  exists a, rest = a ++ rest' /\ length a = n /\ Forall (fun d => p d = true) a.
Proof.
  revert rest. induction n as [|n IH]; intros rest; simpl.
  - split.
    + intros [= ->]. by exists [].
    + intros (a & -> & Hl & _). by destruct a.
  - destruct rest as [|d rest].
    + split; [discriminate|]. intros (a & Ha & Hl & _). by destruct a.
    + destruct (p d) eqn:Hp.
      * rewrite IH. split.
        -- intros (a & -> & Hl & Hall). exists (d :: a). simpl. auto.
        -- intros (a & Ha & Hl & Hall). destruct a as [|d' a]; [done|].
           simpl in *. simplify_eq. inversion Hall; subst. eauto.
      * split; [discriminate|]. intros (a & Ha & Hl & Hall).
        destruct a as [|d' a]; [done|]. simpl in *. simplify_eq.
        inversion Hall; subst. congruence.
Qed.

Lemma star_greedy_inv p k i rest c x :
  star_greedy p k i rest c = Some x ->
  exists n, n <= length rest /\ Forall (fun d => p d = true) (take n rest)
            /\ k (i + n) (drop n rest) c = Some x.
Proof.
  revert i. induction rest as [|d rest IH]; intros i; simpl.
  - intros H. exists 0. rewrite Nat.add_0_r. auto.
  - destruct (p d) eqn:Hp.
    + destruct (star_greedy p k (S i) rest c) eqn:Hs.
      * intros [= ->]. destruct (IH _ Hs) as (n & Hn & Hall & Hk).
        exists (S n). simpl. replace (i + S n) with (S i + n) by lia.
        split; [lia|]. split; [by constructor|done].
      * intros H. exists 0. rewrite Nat.add_0_r. simpl. split; [lia|]. auto.
    + intros H. exists 0. rewrite Nat.add_0_r. simpl. split; [lia|]. auto.
Qed.

Lemma star_lazy_inv p k i rest c x :
  star_lazy p k i rest c = Some x ->
  exists n, n <= length rest /\ Forall (fun d => p d = true) (take n rest)
            /\ k (i + n) (drop n rest) c = Some x.
Proof.
  revert i. induction rest as [|d rest IH]; intros i; simpl.
  - destruct (k i [] c) eqn:Hk; [|discriminate].
    intros [= ->]. exists 0. rewrite Nat.add_0_r. auto.
  - destruct (k i (d :: rest) c) eqn:Hk.
    + intros [= ->]. exists 0. rewrite Nat.add_0_r. simpl.
      split; [lia|]. auto.
    + destruct (p d) eqn:Hp; [|discriminate].
      intros Hs. destruct (IH _ Hs) as (n & Hn & Hall & Hk').
      exists (S n). simpl. replace (i + S n) with (S i + n) by lia.
      split; [lia|]. split; [by constructor|done].
Qed.

(** Every success of the matcher is a success of its continuation, at an
    index at least [min_len r] further and within the input. *)
Lemma m_inv r : forall i rest c k x,
  m r i rest c k = Some x ->
  exists n c', min_len r <= n /\ n <= length rest
               /\ k (i + n) (drop n rest) c' = Some x.
Proof.
  induction r as [l|p|n p|p|p|p|r1 IH1 r2 IH2|r1 IH1 r2 IH2|g r IH| |];
    intros i rest c k x; simpl.
  - destruct (lit_match l rest) as [rest'|] eqn:Hl; [|discriminate].
    apply lit_match_Some in Hl as ->. intros Hk.
    exists (length l), c. rewrite drop_app_length, length_app.
    split; [lia|]. split; [lia|done].
  - destruct rest as [|d rest]; [discriminate|].
    destruct (p d); [|discriminate]. intros Hk.
    exists 1, c. simpl. rewrite drop_0. replace (i + 1) with (S i) by lia.
    split; [lia|]. split; [lia|done].
  - destruct (rep_match n p rest) as [rest'|] eqn:Hr; [|discriminate].
    apply rep_match_Some in Hr as (a & -> & Hl & _). intros Hk. subst n.
    exists (length a), c. rewrite drop_app_length, length_app.
    split; [lia|]. split; [lia|done].
  - intros (n & Hn & _ & Hk)%star_greedy_inv. exists n, c.
    split; [lia|]. auto.
  - destruct rest as [|d rest]; [discriminate|].
    destruct (p d); [|discriminate].
    intros (n & Hn & _ & Hk)%star_greedy_inv. exists (S n), c. simpl.
    replace (i + S n) with (S i + n) by lia. split; [lia|]. split; [lia|done].
  - intros (n & Hn & _ & Hk)%star_lazy_inv. exists n, c.
    split; [lia|]. auto.
  - intros (n1 & c1 & Hm1 & Hn1 & Hk1)%IH1.
    apply IH2 in Hk1 as (n2 & c2 & Hm2 & Hn2 & Hk2).
    rewrite length_drop in Hn2. rewrite drop_drop in Hk2.
    exists (n1 + n2), c2. rewrite Nat.add_assoc.
    split; [lia|]. split; [lia|done].
  - destruct (m r1 i rest c k) eqn:H1.
    + intros [= ->]. apply IH1 in H1 as (n & c' & ? & ? & ?).
      exists n, c'. split; [lia|]. auto.
    + intros H2. apply IH2 in H2 as (n & c' & ? & ? & ?).
      exists n, c'. split; [lia|]. auto.
  - intros (n & c' & ? & ? & Hk)%IH. eauto 10.
  - destruct (Nat.eqb i 0); [|discriminate]. intros Hk.
    exists 0, c. rewrite Nat.add_0_r. simpl. split; [lia|]. split; [lia|done].
  - destruct rest; [|discriminate]. intros Hk.
    exists 0, c. rewrite Nat.add_0_r. simpl. auto.
Qed.

(** A match found at index [i] ends between [i + min_len r] and the end
    of the input, and its text is the input between the two. *)
Lemma match_at_Some r i rest mt :
  match_at r i rest = Some mt ->
  exists n, min_len r <= n /\ n <= length rest /\
            m_index mt = i /\ m_end mt = i + n /\ m_0 mt = take n rest.
Proof.
  unfold match_at. destruct (m r i rest [] kfin) as [[j c]|] eqn:Hm; [|discriminate].
  intros [= <-]. apply m_inv in Hm as (n & c' & ? & ? & Hk).
  unfold kfin in Hk. simplify_eq. exists n. simpl.
  replace (i + n - i) with n by lia. auto.
Qed.

(** [search_from] returns the leftmost success of [match_at]. *)
Lemma search_from_Some r i rest mt :
  search_from r i rest = Some mt <->
  exists d, d <= length rest /\ match_at r (i + d) (drop d rest) = Some mt /\
            forall d', d' < d -> match_at r (i + d') (drop d' rest) = None.
Proof.
  revert i. induction rest as [|c rest IH]; intros i; simpl.
  - destruct (match_at r i []) eqn:Hm.
    + split.
      * intros [= ->]. exists 0. rewrite Nat.add_0_r. simpl.
        split; [lia|]. split; [done|]. lia.
      * intros (d & Hd & Hd' & _). simpl in Hd. assert (d = 0) as -> by lia.
        rewrite Nat.add_0_r in Hd'. simpl in Hd'. congruence.
    + split; [discriminate|].
      intros (d & Hd & Hd' & _). simpl in Hd. assert (d = 0) as -> by lia.
      rewrite Nat.add_0_r in Hd'. simpl in Hd'. congruence.
  - destruct (match_at r i (c :: rest)) eqn:Hm.
    + split.
      * intros [= ->]. exists 0. rewrite Nat.add_0_r. simpl.
        split; [lia|]. split; [done|]. lia.
      * intros (d & Hd & Hd' & Hlt). destruct d as [|d].
        -- rewrite Nat.add_0_r in Hd'. simpl in Hd'. congruence.
        -- specialize (Hlt 0 ltac:(lia)). rewrite Nat.add_0_r in Hlt.
           simpl in Hlt. congruence.
    + rewrite IH. split.
      * intros (d & Hd & Hd' & Hlt). exists (S d). simpl.
        replace (i + S d) with (S i + d) by lia.
        split; [lia|]. split; [done|].
        intros [|d'] Hd''.
        -- by rewrite Nat.add_0_r.
        -- replace (i + S d') with (S i + d') by lia. apply Hlt. lia.
      * intros (d & Hd & Hd' & Hlt). destruct d as [|d].
        -- rewrite Nat.add_0_r in Hd'. simpl in Hd'. congruence.
        -- exists d. simpl in Hd, Hd'.
           replace (i + S d) with (S i + d) in Hd' by lia.
           split; [lia|]. split; [done|].
           intros d' Hd''. specialize (Hlt (S d') ltac:(lia)).
           by replace (i + S d') with (S i + d') in Hlt by lia.
Qed.

Lemma search_from_None r i rest :
  search_from r i rest = None <->
  forall d, d <= length rest -> match_at r (i + d) (drop d rest) = None.
Proof.
  revert i. induction rest as [|c rest IH]; intros i; simpl.
  - destruct (match_at r i []) eqn:Hm.
    + split; [discriminate|]. intros H. specialize (H 0 ltac:(lia)).
      rewrite Nat.add_0_r in H. simpl in H. congruence.
    + split; [|done]. intros _ d Hd. assert (d = 0) as -> by lia.
      by rewrite Nat.add_0_r.
  - destruct (match_at r i (c :: rest)) eqn:Hm.
    + split; [discriminate|]. intros H. specialize (H 0 ltac:(lia)).
      rewrite Nat.add_0_r in H. simpl in H. congruence.
    + rewrite IH. split.
      * intros H [|d] Hd.
        -- by rewrite Nat.add_0_r.
        -- simpl. replace (i + S d) with (S i + d) by lia. apply H. lia.
      * intros H d Hd. specialize (H (S d) ltac:(lia)). simpl in H.
        by replace (i + S d) with (S i + d) in H by lia.
Qed.

(** A match anywhere makes the search succeed (at that index or before). *)
Lemma search_from_complete r i rest d mt :
  d <= length rest -> match_at r (i + d) (drop d rest) = Some mt ->
  exists mt', search_from r i rest = Some mt'.
Proof.
  intros Hd Hm. destruct (search_from r i rest) eqn:Hs; [eauto|].
  rewrite search_from_None in Hs. rewrite Hs in Hm; [done|lia].
Qed.

(** A match of an expression that starts with [c] starts at a [c]. *)
Lemma m_starts_with r c : starts_with r c = true ->
  forall i rest cs k x, m r i rest cs k = Some x -> exists rest', rest = c :: rest'.
Proof.
  induction r as [l|p|n p|p|p|p|r1 IH1 r2 IH2|r1 IH1 r2 IH2|g r IH| |];
    simpl; try discriminate.
  - destruct l as [|d l]; [discriminate|]. intros ->%N.eqb_eq i rest cs k x.
    destruct (lit_match (d :: l) rest) as [rest'|] eqn:Hl; [|discriminate].
    apply lit_match_Some in Hl as ->. eauto.
  - intros H i rest cs k x. by apply IH1.
  - intros H i rest cs k x. by apply IH.
Qed.

Lemma match_at_starts_with r c i rest mt :
  starts_with r c = true -> match_at r i rest = Some mt ->
  exists rest', rest = c :: rest'.
Proof.
  unfold match_at. intros Hs.
  destruct (m r i rest [] kfin) as [x|] eqn:Hm; [|discriminate].
  intros _. by eapply m_starts_with.
Qed.

(** No match where the first code unit of the expression does not occur. *)
Lemma match_at_absent r c i rest d :
  starts_with r c = true -> c ∉ rest -> match_at r i (drop d rest) = None.
Proof.
  intros Hs Hc. destruct (match_at r i (drop d rest)) as [mt|] eqn:Hm; [|done].
  destruct (match_at_starts_with _ _ _ _ _ Hs Hm) as [rest' Hr].
  exfalso. apply Hc. rewrite <- (take_drop d rest), Hr. set_solver.
Qed.

(** [replace] leaves a text without any match as it is. *)
Lemma replace_scan_nomatch r f : forall rest i,
  (forall d, d <= length rest -> match_at r (i + d) (drop d rest) = None) ->
  replace_scan r f i rest 0 = rest.
Proof.
  induction rest as [|c rest IH]; intros i Hn; simpl.
  - specialize (Hn 0 ltac:(simpl; lia)). rewrite Nat.add_0_r in Hn.
    simpl in Hn. by rewrite Hn.
  - pose proof (Hn 0 ltac:(simpl; lia)) as H0. rewrite Nat.add_0_r in H0.
    simpl in H0. rewrite H0. f_equal. apply IH. intros d Hd.
    specialize (Hn (S d) ltac:(simpl; lia)). simpl in Hn.
    by replace (i + S d) with (S i + d) in Hn by lia.
Qed.

Lemma replace_scan_absent r f c rest i :
  starts_with r c = true -> c ∉ rest -> replace_scan r f i rest 0 = rest.
Proof.
  intros Hs Hc. apply replace_scan_nomatch. intros d _.
  by eapply match_at_absent.
Qed.

(** A prefix without any match is copied. *)
Lemma replace_scan_prefix r f rest : forall a i,
  (forall d, d < length a -> match_at r (i + d) (drop d a ++ rest) = None) ->
  replace_scan r f i (a ++ rest) 0 = a ++ replace_scan r f (i + length a) rest 0.
Proof.
  induction a as [|c a IH]; intros i Hn; simpl.
  - by rewrite Nat.add_0_r.
  - pose proof (Hn 0 ltac:(simpl; lia)) as H0. rewrite Nat.add_0_r in H0.
    simpl in H0. rewrite H0. f_equal.
    replace (i + S (length a)) with (S i + length a) by lia.
    apply IH. intros d Hd.
    specialize (Hn (S d) ltac:(simpl; lia)). simpl in Hn.
    by replace (i + S d) with (S i + d) in Hn by lia.
Qed.

Lemma replace_scan_skip r f rest : forall u i,
  replace_scan r f i (u ++ rest) (length u) =
  replace_scan r f (i + length u) rest 0.
Proof.
  induction u as [|c u IH]; intros i; simpl.
  - by rewrite Nat.add_0_r.
  - rewrite IH. f_equal. lia.
Qed.

(** A match is replaced, and the scan goes on behind it. *)
Lemma replace_scan_match r f i u rest mt :
  u <> [] -> match_at r i (u ++ rest) = Some mt -> m_end mt = i + length u ->
  replace_scan r f i (u ++ rest) 0 =
  f mt ++ replace_scan r f (i + length u) rest 0.
Proof.
  intros Hu Hm He. destruct u as [|c u]; [done|]. simpl.
  simpl in Hm. rewrite Hm, He. simpl.
  replace (i + S (length u) - i) with (S (length u)) by lia.
  f_equal. rewrite replace_scan_skip. f_equal. lia.
Qed.

(** The greedy star takes the whole run when what follows it matches. *)
Lemma star_greedy_run p k cs x rest y : forall t i,
  Forall (fun d => p d = true) t -> p x = false ->
  k (i + length t) (x :: rest) cs = Some y ->
  star_greedy p k i (t ++ x :: rest) cs = Some y.
Proof.
  induction t as [|d t IH]; intros i Hall Hx Hk; simpl.
  - rewrite Hx. by rewrite Nat.add_0_r in Hk.
  - inversion Hall; subst. rewrite H1. rewrite (IH (S i)); [done|done|done|].
    simpl in Hk. by replace (S i + length t) with (i + S (length t)) by lia.
Qed.

End RegexFacts.
Import RegexFacts.

Module EntityResolverFacts.

#[local] Arguments rep_match : simpl never.

Lemma rep_match_id id post :
  is_video_id id -> rep_match 11 id_char (id ++ post) = Some post.
Proof. intros [Hl Hall]. apply rep_match_Some. eauto. Qed.

Lemma take_id (id post : jsstring) n : length id = n -> take n (id ++ post) = id.
Proof. intros <-. by rewrite take_app_length. Qed.

Lemma urlPattern_at_sound i rest mt :
  match_at urlPattern i rest = Some mt ->
  exists mk id post, In mk markers /\ is_video_id id /\ rest = mk ++ id ++ post
    /\ group 1 mt = id.
Proof.
  unfold match_at, urlPattern. cbn [m].
  repeat match goal with
  | |- context [lit_match ?l rest] =>
      let H := fresh "Hl" in
      destruct (lit_match l rest) as [?|] eqn:H;
      [apply lit_match_Some in H;
       match goal with
       | |- context [rep_match 11 id_char ?r] =>
           let H' := fresh "Hr" in
           destruct (rep_match 11 id_char r) as [?|] eqn:H';
           [apply rep_match_Some in H' as (a & -> & Hlen & Hall)|]
       end|]
  end; unfold kfin; intros [= <-];
  (eexists _, a, _; split; [|split; [by split|split; [eassumption|]]];
   [unfold markers; simpl; tauto|]);
  unfold group; simpl;
  match goal with |- take ?n _ = _ => replace n with 11 by lia end;
  by apply take_id.
Qed.

Lemma urlPattern_at_complete i mk id post :
  In mk markers -> is_video_id id ->
  exists mt, match_at urlPattern i (mk ++ id ++ post) = Some mt /\ group 1 mt = id.
Proof.
  intros Hmk Hid. unfold markers in Hmk. simpl in Hmk.
  destruct Hmk as [<-|[<-|[<-|[<-|[]]]]];
    unfold match_at, urlPattern; cbn [m]; eval_lit; simpl;
    rewrite (rep_match_id _ _ Hid); unfold kfin;
    eexists; (split; [reflexivity|]); unfold group; simpl;
    match goal with |- take ?n _ = _ => replace n with 11 by lia end;
    apply take_id, Hid.
Qed.

(** The URL pattern matches at index [i] exactly where a shape starts. *)
Lemma shape_at_match url i id :
  shape_at url i id <->
  i <= length url /\
  exists mt, match_at urlPattern i (drop i url) = Some mt /\ group 1 mt = id.
Proof.
  split.
  - intros (pre & mk & post & -> & <- & Hmk & Hid).
    rewrite drop_app_length, length_app. split; [lia|].
    by apply urlPattern_at_complete.
  - intros (Hi & mt & Hm & Hg).
    apply urlPattern_at_sound in Hm as (mk & id' & post & Hmk & Hid & Hd & Hg').
    exists (take i url), mk, post. rewrite <- Hg, Hg', <- Hd, take_drop.
    rewrite length_take. split; [done|]. split; [lia|]. auto.
Qed.

Lemma barePattern_at_sound i rest mt :
  match_at barePattern i rest = Some mt ->
  i = 0 /\ is_video_id rest /\ group 1 mt = rest.
Proof.
  unfold match_at, barePattern. cbn [m].
  destruct (Nat.eqb_spec i 0) as [->|]; [|discriminate].
  destruct (rep_match 11 id_char rest) as [rest'|] eqn:Hr; [|discriminate].
  apply rep_match_Some in Hr as (a & -> & Hlen & Hall).
  destruct rest'; [|discriminate]. unfold kfin. intros [= <-].
  rewrite app_nil_r. split; [done|]. split; [done|].
  unfold group. simpl. apply firstn_all2. lia.
Qed.

Lemma barePattern_complete id :
  is_video_id id ->
  exists mt, js_match barePattern id = Some mt /\ group 1 mt = id.
Proof.
  intros Hid. unfold js_match.
  assert (exists mt, match_at barePattern 0 id = Some mt /\ group 1 mt = id)
    as (mt & Hm & Hg).
  { unfold match_at, barePattern. cbn [m]. simpl Nat.eqb. cbv iota.
    pose proof (rep_match_id id [] Hid) as Hr. rewrite app_nil_r in Hr.
    rewrite Hr. unfold kfin. eexists. split; [reflexivity|]. unfold group. simpl.
    apply firstn_all2. destruct Hid. lia. }
  exists mt. split; [|done]. destruct id; cbn [search_from]; by rewrite Hm.
Qed.

Lemma barePattern_sound url mt :
  js_match barePattern url = Some mt -> is_video_id url /\ group 1 mt = url.
Proof.
  unfold js_match. intros (d & Hd & Hm & _)%search_from_Some.
  apply barePattern_at_sound in Hm as (H0 & Hid & Hg).
  assert (d = 0) as -> by lia. by rewrite drop_0 in *.
Qed.

(** The URL pattern needs at least thirteen code units. *)
Lemma urlPattern_too_short url :
  length url < 13 -> js_match urlPattern url = None.
Proof.
  intros Hlen. unfold js_match. apply search_from_None. intros d Hd.
  destruct (match_at urlPattern (0 + d) (drop d url)) eqn:Hm; [|done].
  apply match_at_Some in Hm as (n & Hmin & Hn & _).
  rewrite length_drop in Hn. simpl in Hmin. lia.
Qed.

Lemma urlPattern_search url mt :
  js_match urlPattern url = Some mt <->
  exists i, i <= length url /\ match_at urlPattern i (drop i url) = Some mt /\
            forall j id, shape_at url j id -> i <= j.
Proof.
  unfold js_match. rewrite search_from_Some. simpl.
  split; intros (i & Hi & Hm & Hleft); exists i; (split; [done|]); (split; [done|]).
  - intros j id (Hj & mt' & Hm' & _)%shape_at_match.
    destruct (decide (i <= j)) as [|Hlt]; [done|].
    rewrite Hleft in Hm'; [done|lia].
  - intros d' Hd'.
    destruct (match_at urlPattern d' (drop d' url)) as [mt'|] eqn:Hm'; [|done].
    assert (shape_at url d' (group 1 mt')) as Hs.
    { apply shape_at_match. split; [lia|]. eauto. }
    apply Hleft in Hs. lia.
Qed.

Lemma urlPattern_search_None url :
  js_match urlPattern url = None <-> forall i id, ~ shape_at url i id.
Proof.
  unfold js_match. rewrite search_from_None. simpl. split.
  - intros Hn i id (Hi & mt & Hm & _)%shape_at_match.
    rewrite Hn in Hm; [done|lia].
  - intros Hn d Hd.
    destruct (match_at urlPattern d (drop d url)) as [mt|] eqn:Hm; [|done].
    exfalso. apply (Hn d (group 1 mt)). apply shape_at_match. eauto.
Qed.

End EntityResolverFacts.
Import EntityResolverFacts.

(** ** Entity Resolver *)

(** C7, as the code has it: an identifier carried in one of the four URL
    shapes is returned, whatever the shape, when that shape is the first
    one in the input (first match wins); an input that is exactly an
    identifier, with nothing around it, is returned unchanged; and the
    result is [None], never an exception, exactly for the inputs that are
    neither. *)
Theorem extractVideoId_resolves (url : jsstring) :
  (forall i id,
     shape_at url i id -> (forall j id', shape_at url j id' -> i <= j) ->
     extractVideoId url = Some id)
  /\ (is_video_id url -> extractVideoId url = Some url)
  /\ (extractVideoId url = None <->
      ~ is_video_id url /\ forall i id, ~ shape_at url i id).
Proof.
  unfold extractVideoId, patterns. cbn [first_capture].
  split; [|split].
  - intros i id Hs Hfirst.
    pose proof Hs as (Hi & mt & Hm & Hg)%shape_at_match.
    assert (js_match urlPattern url = Some mt) as ->.
    { apply urlPattern_search. eauto. }
    by rewrite Hg.
  - intros Hid. rewrite urlPattern_too_short by (destruct Hid; lia).
    destruct (barePattern_complete _ Hid) as (mt & -> & ->). done.
  - split.
    + destruct (js_match urlPattern url) eqn:Hu; [discriminate|].
      destruct (js_match barePattern url) as [mt|] eqn:Hb; [discriminate|].
      intros _. split.
      * intros (mt & Hm & _)%barePattern_complete. congruence.
      * by apply urlPattern_search_None.
    + intros [Hnid Hns]. apply urlPattern_search_None in Hns as ->.
      destruct (js_match barePattern url) as [mt|] eqn:Hb; [|done].
      apply barePattern_sound in Hb as [? _]. done.
Qed.

(** The first shape of a URL is the one the search finds. *)
Lemma first_shape_by_search url mt :
  js_match urlPattern url = Some mt ->
  forall j id, shape_at url j id -> m_index mt <= j.
Proof.
  intros (i & Hi & Hm & Hfirst)%urlPattern_search j id Hs.
  apply match_at_Some in Hm as (n & _ & _ & -> & _). eauto.
Qed.

Lemma bare_id_is_video_id : is_video_id bare_id.
Proof. split; [reflexivity|]. vm_compute. repeat constructor. Qed.

(** A watch URL with a further parameter, and the bare identifier. *)
Lemma extractVideoId_resolves_witness :
  extractVideoId watch_url = Some bare_id
  /\ extractVideoId bare_id = Some bare_id.
Proof.
  split.
  - destruct (extractVideoId_resolves watch_url) as (H & _).
    apply (H 30).
    + exists (lit "https://www.youtube.com/watch?"), (lit "v="), (lit "&t=1").
      split; [vm_compute; reflexivity|]. split; [reflexivity|].
      split; [vm_compute; tauto|]. exact bare_id_is_video_id.
    + destruct (js_match urlPattern watch_url) as [mt|] eqn:Hm;
        [|vm_compute in Hm; discriminate].
      intros j id Hs. pose proof (first_shape_by_search _ _ Hm j id Hs) as Hj.
      vm_compute in Hm. injection Hm as <-. exact Hj.
  - destruct (extractVideoId_resolves bare_id) as (_ & H & _).
    apply H. exact bare_id_is_video_id.
Defined.

(** The four shapes give the same identifier. *)
Example extractVideoId_four_shapes :
  extractVideoId (lit "https://www.youtube.com/watch?v=dQw4w9WgXcQ") = Some bare_id
  /\ extractVideoId (lit "https://www.youtube.com/v/dQw4w9WgXcQ") = Some bare_id
  /\ extractVideoId (lit "https://youtu.be/dQw4w9WgXcQ?t=3") = Some bare_id
  /\ extractVideoId (lit "https://www.youtube.com/embed/dQw4w9WgXcQ") = Some bare_id.
Proof. repeat split; vm_compute; reflexivity. Qed.

(** C7 as it is stated fails on the code: the input is not trimmed, so an
    identifier with white space around it is not resolved. *)
Lemma extractVideoId_does_not_trim :
  is_video_id (trim padded_id)
  /\ extractVideoId padded_id = None
  /\ extractVideoId padded_id <> Some (trim padded_id).
Proof.
  split; [|split].
  - split; [reflexivity|]. vm_compute. repeat constructor.
  - vm_compute. reflexivity.
  - vm_compute. discriminate.
Qed.

(** ** Segment Parser *)

Module ParserFacts.

(** A successful [exec] moves [lastIndex] forward by at least the least
    length of a match, and not beyond the end of the input. *)
Lemma exec_Some r s li mt li' :
  exec r s li = (Some mt, li') ->
  li' = m_end mt /\ li + min_len r <= li' /\ li' <= length s
  /\ li <= m_index mt /\ m_index mt + min_len r <= m_end mt.
Proof.
  unfold exec. destruct (Nat.ltb_spec (length s) li) as [|Hle]; [discriminate|].
  destruct (search_from r li (drop li s)) as [mt'|] eqn:Hs; [|discriminate].
  intros [= -> <-]. apply search_from_Some in Hs as (d & Hd & Hm & _).
  apply match_at_Some in Hm as (n & Hmin & Hn & Hi & He & _).
  rewrite !length_drop in *. lia.
Qed.

(** With an expression that cannot match the empty string, the loop over
    [exec] ends within [length s - lastIndex + 1] rounds. *)
Lemma exec_all_total r s :
  0 < min_len r ->
  forall fuel li, length s - li < fuel -> is_Some (exec_all fuel r s li).
Proof.
  intros Hmin fuel. induction fuel as [|fuel IH]; intros li Hf; [lia|]. simpl.
  destruct (exec r s li) as [[mt|] li'] eqn:He; [|eauto].
  apply exec_Some in He as (-> & Hli & Hlen & _).
  destruct (IH (m_end mt)) as [ms ->]; [lia|]. eauto.
Qed.

Lemma matches_total r s : 0 < min_len r -> is_Some (matches r s).
Proof. intros Hmin. apply exec_all_total; [done|lia]. Qed.

(** The first loop, in terms of the matches it goes through. *)
Lemma srv3_loop_exec_all fuel xml : forall li isSrv3 segments,
  srv3_loop fuel xml li isSrv3 segments =
  match exec_all fuel srv3Regex xml li with
  | Some ms =>
      Some (match ms with [] => isSrv3 | _ :: _ => true end,
            segments ++ kept (map srv3_segment ms))
  | None => None
  end.
Proof.
  induction fuel as [|fuel IH]; intros li isSrv3 segments; simpl; [done|].
  destruct (exec srv3Regex xml li) as [[mt|] li'].
  - rewrite IH. destruct (exec_all fuel srv3Regex xml li') as [ms|]; [|done].
    f_equal. f_equal; [by destruct ms|].
    unfold srv3_body, kept. simpl. fold (normalize (group 3 mt)).
    unfold srv3_segment at 2. rewrite filter_cons. simpl.
    destruct (truthy (normalize (group 3 mt))) eqn:Ht.
    + rewrite decide_True by done. by rewrite <- app_assoc.
    + rewrite decide_False by (by intros ?). done.
  - by rewrite app_nil_r.
Qed.

Lemma std_loop_exec_all fuel xml : forall li segments,
  std_loop fuel xml li segments =
  match exec_all fuel stdRegex xml li with
  | Some ms => Some (segments ++ kept (map std_segment ms))
  | None => None
  end.
Proof.
  induction fuel as [|fuel IH]; intros li segments; simpl; [done|].
  destruct (exec stdRegex xml li) as [[mt|] li'].
  - rewrite IH. destruct (exec_all fuel stdRegex xml li') as [ms|]; [|done].
    f_equal.
    unfold std_body, kept. simpl. fold (normalize (group 3 mt)).
    unfold std_segment at 2. rewrite filter_cons. simpl.
    destruct (truthy (normalize (group 3 mt))) eqn:Ht.
    + rewrite decide_True by done. by rewrite <- app_assoc.
    + rewrite decide_False by (by intros ?). done.
  - by rewrite app_nil_r.
Qed.

Lemma srv3Regex_consumes : 0 < min_len srv3Regex.
Proof. vm_compute. lia. Qed.

Lemma stdRegex_consumes : 0 < min_len stdRegex.
Proof. vm_compute. lia. Qed.

(** The parser, in terms of the matches of the two expressions. *)
Lemma parseSegments_matches xml :
  exists msA msB,
    matches srv3Regex xml = Some msA /\ matches stdRegex xml = Some msB /\
    parseSegments xml =
      Some (outcome (match msA with
                     | [] => kept (map std_segment msB)
                     | _ :: _ => kept (map srv3_segment msA)
                     end)).
Proof.
  destruct (matches_total srv3Regex xml srv3Regex_consumes) as [msA HA].
  destruct (matches_total stdRegex xml stdRegex_consumes) as [msB HB].
  exists msA, msB. split; [done|]. split; [done|].
  unfold parseSegments, parse_with, matches in *.
  rewrite srv3_loop_exec_all, HA. destruct msA as [|mt msA]; simpl negb; cbv iota.
  - rewrite std_loop_exec_all, HB. simpl.
    by destruct (kept (map std_segment msB)).
  - simpl app. change (srv3_segment mt :: map srv3_segment msA)
      with (map srv3_segment (mt :: msA)).
    by destruct (kept (map srv3_segment (mt :: msA))).
Qed.

End ParserFacts.
Import ParserFacts.

(** ** The three stages of the normalization *)

Module NormalizeFacts.

Lemma stripTags_plain a : 60%N ∉ a -> stripTags a = a.
Proof. intros Ha. by apply (replace_scan_absent _ _ 60%N). Qed.

Lemma tagRegex_at i t b :
  t <> [] -> 62%N ∉ t ->
  exists mt, match_at tagRegex i (lit "<" ++ t ++ lit ">" ++ b) = Some mt
             /\ m_end mt = i + length (lit "<" ++ t ++ lit ">").
Proof.
  intros Ht Hgt. destruct t as [|d t]; [done|].
  assert (non_gt d = true /\ Forall (fun x => non_gt x = true) t) as [Hd Hall].
  { rewrite Forall_forall. unfold non_gt.
    split; [|intros x Hx]; apply negb_true_iff, N.eqb_neq; intros ->;
      apply Hgt; set_solver. }
  unfold match_at, tagRegex. cbn [seqs m]. eval_lit. simpl.
  rewrite Hd.
  erewrite star_greedy_run; [| exact Hall | reflexivity | simpl; reflexivity].
  eexists. split; [reflexivity|]. simpl. rewrite !length_app. simpl. lia.
Qed.

Lemma no_match_in_prefix r c a rest i :
  starts_with r c = true -> c ∉ a ->
  forall d, d < length a -> match_at r (i + d) (drop d a ++ rest) = None.
Proof.
  intros Hs Ha d Hd.
  destruct (match_at r (i + d) (drop d a ++ rest)) as [mt|] eqn:Hm; [|done].
  apply (match_at_starts_with _ c) in Hm as [rest' Hr]; [|done].
  exfalso. apply Ha. rewrite <- (take_drop d a).
  destruct (drop d a) as [|x da] eqn:Hda.
  - apply (f_equal length) in Hda. rewrite length_drop in Hda. simpl in Hda. lia.
  - simpl in Hr. injection Hr as -> _. set_solver.
Qed.

Lemma stripTags_tag a t b :
  60%N ∉ a -> 60%N ∉ b -> t <> [] -> 62%N ∉ t ->
  stripTags (a ++ lit "<" ++ t ++ lit ">" ++ b) = a ++ b.
Proof.
  intros Ha Hb Ht Hgt. unfold stripTags, replace_all.
  rewrite replace_scan_prefix by (by apply (no_match_in_prefix _ 60%N)).
  f_equal.
  destruct (tagRegex_at (0 + length a) t b Ht Hgt) as (mt & Hm & He).
  replace (lit "<" ++ t ++ lit ">" ++ b) with ((lit "<" ++ t ++ lit ">") ++ b)
    in * by (by rewrite <- !app_assoc).
  erewrite replace_scan_match; [|by destruct t|exact Hm|exact He].
  simpl. by apply (replace_scan_absent _ _ 60%N).
Qed.

Lemma decode_plain s : 38%N ∉ s -> decodeHtmlEntities s = s.
Proof.
  intros Hs. unfold decodeHtmlEntities, replace_lit, replace_all.
  by rewrite !(fun r f H => replace_scan_absent r f 38%N s 0 H Hs) by done.
Qed.

(** A literal pattern [&...] that is not at the head of [&#w] leaves [&#w]
    alone when there is no other [&]. *)
Lemma replace_lit_numeric pat repl w :
  starts_with (Lit pat) 38%N = true ->
  lit_match pat (38 :: 35 :: w)%N = None -> 38%N ∉ w ->
  replace_lit pat repl (38 :: 35 :: w)%N = (38 :: 35 :: w)%N.
Proof.
  intros Hs Hl Hw. unfold replace_lit, replace_all.
  change (38 :: 35 :: w)%N with ([38%N] ++ (35 :: w)%N).
  rewrite replace_scan_prefix.
  - f_equal. apply (replace_scan_absent _ _ 38%N); [done|]. set_solver.
  - intros d Hd. simpl in Hd. assert (d = 0) as -> by lia. simpl.
    unfold match_at. cbn [m]. by rewrite Hl.
Qed.

Lemma digits_no_amp ds : Forall (fun d => is_digit d = true) ds -> 38%N ∉ ds ++ [59%N].
Proof.
  intros Hall Hin. apply elem_of_app in Hin as [Hin|Hin].
  - rewrite Forall_forall in Hall. by apply Hall in Hin.
  - set_solver.
Qed.

Lemma numericRef_at ds :
  ds <> [] -> Forall (fun d => is_digit d = true) ds ->
  exists mt, match_at numericRefRegex 0 (lit "&#" ++ ds ++ lit ";") = Some mt
    /\ m_end mt = length (lit "&#" ++ ds ++ lit ";") /\ group 1 mt = ds.
Proof.
  intros Hne Hall. destruct ds as [|d ds]; [done|]. inversion Hall; subst.
  unfold match_at, numericRefRegex. cbn [seqs m]. eval_lit. simpl.
  rewrite H1.
  erewrite star_greedy_run; [| eassumption | reflexivity | simpl; reflexivity].
  eexists. split; [reflexivity|]. simpl. rewrite !length_app. simpl.
  split; [lia|]. unfold group. simpl. f_equal.
  replace (S (S (S (length ds))) - 2 - 1) with (length ds) by lia.
  by rewrite take_app_length.
Qed.

Lemma decode_numeric ds :
  ds <> [] -> Forall (fun d => is_digit d = true) ds ->
  decodeHtmlEntities (lit "&#" ++ ds ++ lit ";") = fromCharCode (parseInt ds).
Proof.
  intros Hne Hall.
  destruct (decide (ds = [51; 57]%N)) as [->|Hn39]; [by vm_compute|].
  pose proof (digits_no_amp ds Hall) as Hamp.
  destruct (numericRef_at ds Hne Hall) as (mt & Hm & He & Hg).
  revert Hm He. unfold decodeHtmlEntities. eval_lit. simpl app. intros Hm He.
  rewrite !replace_lit_numeric; try done.
  - unfold replace_all.
    rewrite <- (app_nil_r (38 :: 35 :: ds ++ [59])%N) in Hm |- *.
    erewrite replace_scan_match; [|done|exact Hm|exact He].
    simpl. by rewrite app_nil_r, Hg.
  - destruct ds as [|d ds]; [done|]. inversion Hall as [|? ? Hd _]; subst.
    cbn [lit_match app]. rewrite !N.eqb_refl.
    destruct (N.eqb_spec 120 d) as [<-|]; [by vm_compute in Hd|done].
  - destruct ds as [|d [|x [|y ds]]]; [done|..]; cbn [lit_match app];
      rewrite ?N.eqb_refl;
      repeat match goal with
      | |- context [N.eqb ?a ?b] => destruct (N.eqb_spec a b); subst; try done
      end.
    inversion Hall as [|? ? _ Hds]; subst. inversion Hds as [|? ? _ Hds']; subst.
    inversion Hds' as [|? ? Hy _]; subst. by vm_compute in Hy.
Qed.

Lemma trim_start_spaces ws s :
  Forall (fun c => is_space c = true) ws -> trim_start (ws ++ s) = trim_start s.
Proof. induction 1 as [|c ws Hc _ IH]; simpl; [done|]. by rewrite Hc. Qed.

Lemma trim_start_nonspace c s : is_space c = false -> trim_start (c :: s) = c :: s.
Proof. intros Hc. simpl. by rewrite Hc. Qed.

(** [trim] removes the white space around a text that neither starts nor
    ends with white space. *)
Lemma trim_spaces ws core ws' :
  Forall (fun c => is_space c = true) ws ->
  Forall (fun c => is_space c = true) ws' ->
  (forall c rest, core = c :: rest -> is_space c = false) ->
  (forall c front, core = front ++ [c] -> is_space c = false) ->
  trim (ws ++ core ++ ws') = core.
Proof.
  intros Hws Hws' Hhd Hlast. unfold trim, trim_end.
  rewrite trim_start_spaces by done.
  destruct core as [|c core].
  - simpl. rewrite <- (app_nil_r ws').
    by rewrite trim_start_spaces by done.
  - simpl app. rewrite trim_start_nonspace by eauto.
    change (c :: core ++ ws') with ((c :: core) ++ ws').
    rewrite rev_app_distr. rewrite trim_start_spaces by (by apply Forall_rev).
    destruct (rev (c :: core)) as [|x r] eqn:Hr.
    + apply (f_equal (@rev N)) in Hr. rewrite rev_involutive in Hr. done.
    + rewrite trim_start_nonspace.
      * by rewrite <- Hr, rev_involutive.
      * apply (Hlast x (rev r)). apply (f_equal (@rev N)) in Hr.
        by rewrite rev_involutive in Hr.
Qed.

End NormalizeFacts.
Import NormalizeFacts.

(** ** Segment Parser: the claims *)

(** ** Transcript Assembler *)

Module AssemblerFacts.

#[local] Ltac Zify.zify_post_hook ::= Z.div_mod_to_equations.

Local Open Scope N_scope.

Lemma digits_value_snoc ds d :
  digits_value (ds ++ [d]) = 10 * digits_value ds + (d - 48).
Proof. unfold digits_value. by rewrite fold_left_app. Qed.

Lemma is_digit_of d : d < 10 -> is_digit (48 + d) = true.
Proof.
  intros Hd. unfold is_digit, in_range.
  apply andb_true_iff. split; apply N.leb_le; lia.
Qed.

(** The digits that [to_digits] puts in front of the accumulator. *)
Lemma to_digits_spec : forall fuel n acc,
  n < 10 ^ N.of_nat fuel -> (0 < fuel)%nat ->
  exists ds, to_digits fuel n acc = ds ++ acc /\ all_digits ds
    /\ digits_value ds = n
    /\ (n < 10 -> ds = [48 + n])
    /\ (10 <= n < 100 -> ds = two_digits n)
    /\ (100 <= n -> (3 <= length ds)%nat)
    /\ (n <> 0 -> forall c rest, ds = c :: rest -> c <> 48).
Proof.
  induction fuel as [|fuel IH]; intros n acc Hn Hfuel; [lia|].
  cbn [to_digits].
  assert (n mod 10 < 10) as Hmod by (apply N.mod_lt; lia).
  pose proof (N.div_mod n 10 ltac:(lia)) as Hdm.
  destruct (N.eqb_spec (n / 10) 0) as [Hz|Hnz].
  - assert (n < 10) as Hlt by (rewrite Hz in Hdm; lia).
      assert (n mod 10 = n) as Hmn by (apply N.mod_small; lia).
      exists [48 + n mod 10]. split; [done|]. split.
      { constructor; [by apply is_digit_of|constructor]. }
      split. { unfold digits_value. simpl. lia. }
      split; [by rewrite Hmn|]. split; [lia|]. split; [lia|].
      intros Hn0 c rest [= <- _]. lia.
  - assert (n / 10 < 10 ^ N.of_nat fuel) as Hq.
      { apply N.Div0.div_lt_upper_bound.
        replace (10 * 10 ^ N.of_nat fuel) with (10 ^ N.of_nat (S fuel)); [done|].
        by rewrite Nat2N.inj_succ, N.pow_succ_r'. }
      assert (10 <= n) as Hge.
      { destruct (N.lt_ge_cases n 10) as [Hlt|]; [|done].
        exfalso. apply Hnz. by apply N.div_small. }
      assert (0 < fuel)%nat as Hf.
      { destruct fuel; [|lia]. simpl in Hq. lia. }
      destruct (IH (n / 10) ((48 + n mod 10) :: acc) Hq Hf)
        as (ds & -> & Hall & Hv & Hsmall & Htwo & H100 & Hlead).
      exists (ds ++ [48 + n mod 10]). split; [by rewrite <- app_assoc|].
      split.
      { apply Forall_app. split; [done|].
        constructor; [by apply is_digit_of|constructor]. }
      split. { rewrite digits_value_snoc, Hv. lia. }
      split; [lia|]. split.
      { intros [_ Hlt]. rewrite Hsmall; [done|].
        apply N.Div0.div_lt_upper_bound. lia. }
      split.
      { intros H100'. rewrite length_app. simpl.
        assert (10 <= n / 10) as Hq10 by (apply N.div_le_lower_bound; lia).
        destruct (N.lt_ge_cases (n / 10) 100) as [Hlt|Hge'].
        - rewrite Htwo by lia. simpl. lia.
        - specialize (H100 Hge'). lia. }
      intros _ c rest Hds. destruct ds as [|c' ds'].
      * exfalso. unfold digits_value in Hv. simpl in Hv. lia.
      * simpl in Hds. injection Hds as <- _. by eapply Hlead.
Qed.

Lemma N_toString_spec n :
  all_digits (N_toString n)
  /\ digits_value (N_toString n) = n
  /\ (n < 10 -> N_toString n = [48 + n])
  /\ (10 <= n < 100 -> N_toString n = two_digits n)
  /\ (100 <= n -> (3 <= length (N_toString n))%nat)
  /\ (n <> 0 -> forall c rest, N_toString n = c :: rest -> c <> 48).
Proof.
  unfold N_toString.
  destruct (to_digits_spec (S (N.to_nat (N.log2 n))) n []) as (ds & H & Hrest).
  - rewrite Nat2N.inj_succ, N2Nat.id.
    destruct (N.eq_dec n 0) as [->|Hn0]; [simpl; lia|].
    eapply N.lt_le_trans; [apply N.log2_spec; lia|].
    apply N.pow_le_mono_l. lia.
  - lia.
  - rewrite H, app_nil_r. done.
Qed.

(** Below one hundred the padded rendering is the two decimal digits;
    from one hundred on it is the unpadded rendering. *)
Lemma padStart0_two_digits n :
  n < 100 -> padStart0 2 (N_toString n) = two_digits n.
Proof.
  intros Hn. destruct (N_toString_spec n) as (_ & _ & Hsmall & Htwo & _).
  destruct (N.lt_ge_cases n 10) as [Hlt|Hge].
  - rewrite (Hsmall Hlt). unfold padStart0, two_digits. simpl.
    by rewrite N.div_small, N.mod_small by lia.
  - by rewrite Htwo by lia.
Qed.

Lemma padStart0_long n :
  100 <= n -> padStart0 2 (N_toString n) = N_toString n.
Proof.
  intros Hn. destruct (N_toString_spec n) as (_ & _ & _ & _ & Hlen & _).
  specialize (Hlen Hn). unfold padStart0.
  by replace (2 - length (N_toString n))%nat with 0%nat by lia.
Qed.

Local Close Scope N_scope.

(** The rendering of one time stamp. *)
Lemma timestampLine_spec s z :
  offset s = Int z -> (0 <= z)%Z ->
  exists mm,
    timestampLine s
    = lit "[" ++ mm ++ lit ":" ++ two_digits (Z.to_N ((z / 1000) mod 60))
      ++ lit "] " ++ text s
    /\ all_digits mm
    /\ digits_value mm = Z.to_N (z / 1000 / 60)
    /\ ((z / 1000 / 60 < 100)%Z -> mm = two_digits (Z.to_N (z / 1000 / 60)))
    /\ ((100 <= z / 1000 / 60)%Z -> 3 <= length mm /\ head mm <> Some 48%N).
Proof.
  intros Ho Hz. unfold timestampLine. rewrite Ho. simpl floor_div. simpl js_rem.
  assert (0 <= z / 1000 / 60)%Z as Hm by lia.
  assert (0 <= Z.rem (z / 1000) 60 < 60)%Z as Hs.
  { rewrite Z.rem_mod_nonneg by lia. apply Z.mod_pos_bound. lia. }
  unfold toString.
  destruct (Z.ltb_spec (z / 1000 / 60) 0) as [|_]; [lia|].
  destruct (Z.ltb_spec (Z.rem (z / 1000) 60) 0) as [|_]; [lia|].
  exists (padStart0 2 (N_toString (Z.to_N (z / 1000 / 60)))).
  rewrite (padStart0_two_digits (Z.to_N (Z.rem (z / 1000) 60))) by lia.
  rewrite Z.rem_mod_nonneg by lia. split; [done|].
  destruct (N_toString_spec (Z.to_N (z / 1000 / 60)))
    as (Hall & Hv & _ & _ & Hlen & Hlead).
  destruct (Z.lt_ge_cases (z / 1000 / 60) 100) as [Hlt|Hge].
  - rewrite padStart0_two_digits by lia.
    split.
    { unfold two_digits.
      constructor; [apply is_digit_of|constructor; [apply is_digit_of|constructor]].
      - apply N.Div0.div_lt_upper_bound. lia.
      - apply N.mod_lt. lia. }
    split.
    { unfold two_digits, digits_value. simpl.
      pose proof (N.div_mod (Z.to_N (z / 1000 / 60)) 10 ltac:(lia)). lia. }
    split; [done|]. lia.
  - rewrite padStart0_long by lia.
    split; [done|]. split; [done|]. split; [lia|]. intros _.
    split; [apply Hlen; lia|].
    destruct (N_toString (Z.to_N (z / 1000 / 60))) as [|c rest] eqn:Hd; [done|].
    simpl. intros [= ->]. eapply Hlead; [lia|reflexivity|reflexivity].
Qed.

End AssemblerFacts.
Import AssemblerFacts.

(** From the payload to the two views, and a time stamp beyond 99
    minutes. *)
Example parse_then_assemble :
  parseSegments payload_srv3 = Some (inr segments_hello_world)
  /\ timestampLine (mkSegment (lit "late") (Int 6001000) (Int 0))
     = lit "[100:01] late".
Proof. split; vm_compute; reflexivity. Qed.

(** ** Normalization of the text of a segment *)


(** ** Track Selector *)

Module SelectorFacts.
Import Selector.

Lemma find_from_Some {A} (p : A -> bool) l : forall i j x,
  find_from p i l = Some (j, x) ->
  i <= j /\ l !! (j - i) = Some x /\ find p l = Some x.
Proof.
  induction l as [|y l IH]; intros i j x; simpl; [discriminate|].
  destruct (p y) eqn:Hp.
  - intros [= <- <-]. rewrite Nat.sub_diag. auto.
  - intros (Hle & Hl & Hf)%IH. split; [lia|]. split; [|done].
    by replace (j - i) with (S (j - S i)) by lia.
Qed.

Lemma find_from_None {A} (p : A -> bool) l : forall i,
  find_from p i l = None -> find p l = None.
Proof.
  induction l as [|y l IH]; intros i; simpl; [done|].
  destruct (p y); [discriminate|]. apply IH.
Qed.

Lemma find_filter {A} (p q : A -> bool) l :
  find p (filter (fun t => q t = true) l) = find (fun t => p t && q t) l.
Proof.
  induction l as [|y l IH]; [done|]. rewrite filter_cons. simpl.
  destruct (q y) eqn:Hq.
  - rewrite decide_True by done. simpl. rewrite andb_true_r.
    by destruct (p y).
  - rewrite decide_False by (by intros ?). by rewrite andb_false_r.
Qed.

(** The first loop finds the manual track of the policy, when there is
    one, and otherwise leaves the selection as it was. *)
Lemma manual_loop_spec tracks sel : forall langs,
  match first_preferred langs (filter (fun t => not_asr t = true) tracks) with
  | Some t =>
      exists i, manual_loop langs tracks sel = mkSel i t false
                /\ tracks !! i = Some t
  | None => manual_loop langs tracks sel = sel
  end.
Proof.
  induction langs as [|lang langs IH]; simpl; [done|].
  rewrite find_filter. unfold js_find.
  destruct (find_from _ 0 tracks) as [[i t]|] eqn:Hf.
  - apply find_from_Some in Hf as (_ & Hl & ->).
    exists i. by rewrite Nat.sub_0_r in Hl.
  - apply find_from_None in Hf as ->. apply IH.
Qed.

Lemma auto_loop_spec tracks sel : forall langs,
  selectedTrack (auto_loop langs tracks sel)
  = default (selectedTrack sel) (first_preferred langs tracks).
Proof.
  induction langs as [|lang langs IH]; simpl; [done|].
  unfold js_find.
  destruct (find_from _ 0 tracks) as [[i t]|] eqn:Hf.
  - by apply find_from_Some in Hf as (_ & _ & ->).
  - by apply find_from_None in Hf as ->.
Qed.

(** The selector follows the policy whenever the manual track that the
    policy picks is not the first track of the list. *)
Lemma select_agrees tracks :
  first_preferred preferredLangs (filter (fun t => not_asr t = true) tracks)
    <> head tracks ->
  selectedTrack <$> select tracks = select_spec tracks.
Proof.
  intros Hne. destruct tracks as [|t0 rest]; [done|].
  unfold select, select_spec.
  pose proof (manual_loop_spec (t0 :: rest) (mkSel 0 t0 (negb (not_asr t0)))
                preferredLangs) as Hm.
  destruct (first_preferred preferredLangs
              (filter (fun t => not_asr t = true) (t0 :: rest))) as [t|].
  - destruct Hm as (i & -> & Hi). cbn -[auto_loop preferredLangs].
    destruct i as [|i]; [simpl in Hi, Hne; congruence|]. done.
  - rewrite Hm. cbn -[auto_loop first_preferred preferredLangs].
    rewrite auto_loop_spec. cbn -[first_preferred preferredLangs].
    by destruct (first_preferred preferredLangs (t0 :: rest)).
Qed.

End SelectorFacts.

(** C1 on the code: with a manual track in a preferred language at the
    head of the list, the check [selectedTrack === tracks[0]] takes the
    selection for the default and the second loop replaces it by an
    auto-generated track of a language earlier in the preference list,
    where the policy, in either reading, keeps the manual track. *)
Theorem select_replaces_first_manual :
  Selector.selectedTrack <$> Selector.select tracks_manual_first
  = Some (track "pt" true)
  /\ Selector.select_spec tracks_manual_first = Some (track "en" false)
  /\ Selector.select_spec_by_track tracks_manual_first = Some (track "en" false).
Proof. repeat split; vm_compute; reflexivity. Qed.

(** The two track lists of the specification. *)
Example select_examples :
  Selector.selectedTrack <$> Selector.select tracks_mixed = Some (track "pt" false)
  /\ Selector.selectedTrack <$> Selector.select tracks_ja = Some (track "ja" true)
  /\ selectTrack tracks_mixed = Some (track "pt" false)
  /\ selectTrack tracks_ja = Some (track "ja" true).
Proof. repeat split; vm_compute; reflexivity. Qed.

(** The selection of the current route knows no language preference: it
    takes the first manual track, where the policy and the selector with
    the preference list take the manual track in the preferred language. *)
Example selectTrack_ignores_language :
  selectTrack tracks_other_first = Some (track "ru" false)
  /\ Selector.selectedTrack <$> Selector.select tracks_other_first
     = Some (track "pt" false)
  /\ Selector.select_spec tracks_other_first = Some (track "pt" false).
Proof. repeat split; vm_compute; reflexivity. Qed.

(** ** Caption Source Adapter: the scan for the track list *)

Module ScanFacts.

(** Wherever the second expression matches, the first one matches too:
    the marker under [playerCaptionsTracklistRenderer] is a marker. *)
Lemma alt_implies_primary html mt :
  js_match altCaptionTracksRe html = Some mt ->
  exists mt', js_match captionTracksRe html = Some mt'.
Proof.
  unfold js_match. intros (d & Hd & Hm & _)%search_from_Some.
  unfold match_at in Hm.
  destruct (m altCaptionTracksRe (0 + d) (drop d html) [] kfin)
    as [[j c]|] eqn:Halt; [|discriminate].
  clear Hm. unfold altCaptionTracksRe in Halt. cbn [m] in Halt.
  destruct (lit_match (lit "playerCaptionsTracklistRenderer") (drop d html))
    as [rest'|] eqn:Hl; [|discriminate].
  apply lit_match_Some in Hl.
  apply star_lazy_inv in Halt as (n & Hn & _ & Hk).
  set (l := lit "playerCaptionsTracklistRenderer") in *.
  assert (drop n rest' = drop (d + length l + n) html) as Hdrop.
  { rewrite <- !drop_drop, Hl. by rewrite drop_app_length. }
  assert (d + length l + n <= length html) as Hle.
  { apply (f_equal length) in Hl. rewrite length_drop, length_app in Hl. lia. }
  apply (search_from_complete _ 0 html (d + length l + n)
           (mkMatch (d + length l + n) j (take (j - (d + length l + n))
              (drop (d + length l + n) html)) c)); [done|].
  unfold match_at. rewrite <- Hdrop. simpl in Hk |- *. by rewrite Hk.
Qed.

End ScanFacts.

(** ** The request handler *)

Module HandlerFacts.
Import Handler Store.

Lemma preserves_ret {A} (a : A) : preserves (ret a).
Proof. by intros w. Qed.

Lemma preserves_throw {A} e : preserves (@throw A e).
Proof. by intros w. Qed.

Lemma preserves_emit e : preserves (emit e).
Proof. by intros w. Qed.

Lemma preserves_bind {A B} (c : M A) (f : A -> M B) :
  preserves c -> (forall a, preserves (f a)) -> preserves (bind c f).
Proof.
  intros Hc Hf w. unfold bind. specialize (Hc w).
  destruct (c w) as [[e|a] w1]; simpl in *; [done|].
  destruct (Hf a w1) as [-> ->]. done.
Qed.

Lemma preserves_try_catch {A} (c : M A) (h : exn -> M A) :
  preserves c -> (forall e, preserves (h e)) -> preserves (try_catch c h).
Proof.
  intros Hc Hh w. unfold try_catch. specialize (Hc w).
  destruct (c w) as [[e|a] w1]; simpl in *; [|done].
  destruct (Hh e w1) as [-> ->]. done.
Qed.

Lemma preserves_select_profile uid : preserves (select_profile uid).
Proof. by intros w. Qed.

Create HintDb preserves.
#[local] Hint Resolve preserves_ret preserves_throw preserves_emit
  preserves_select_profile : preserves.

Ltac preserves_step :=
  first
    [ apply preserves_ret | apply preserves_throw | apply preserves_emit
    | apply preserves_select_profile
    | apply preserves_bind; [|intros ?]
    | apply preserves_try_catch; [|intros ?]
    | match goal with
      | |- preserves (match ?x with _ => _ end) => destruct x
      | |- preserves (if ?b then _ else _) => destruct b
      | |- preserves (let '(_, _) := ?x in _) => destruct x
      end ].

Lemma preserves_do_fetch env url body : preserves (do_fetch env url body).
Proof. unfold do_fetch. repeat preserves_step. Qed.

Lemma preserves_auth_getUser env token : preserves (auth_getUser env token).
Proof. unfold auth_getUser. repeat preserves_step. Qed.

Lemma preserves_fetchVideoMetadata env videoId :
  preserves (fetchVideoMetadata env videoId).
Proof.
  unfold fetchVideoMetadata.
  repeat first [apply preserves_do_fetch | preserves_step].
Qed.

Lemma preserves_fetchTranscript env videoId :
  preserves (fetchTranscript env videoId).
Proof.
  unfold fetchTranscript.
  repeat first [apply preserves_do_fetch | preserves_step].
Qed.

Lemma preserves_front env req : preserves (front env req).
Proof.
  unfold front, server_transcript.
  repeat first [apply preserves_auth_getUser | apply preserves_fetchVideoMetadata
               | apply preserves_fetchTranscript | preserves_step].
Qed.

Lemma preserves_summarize env o : preserves (summarize env o).
Proof.
  unfold summarize, summary_attempt, generateSummaryGemini, generateSummary.
  repeat first [apply preserves_do_fetch | preserves_step].
Qed.

(** The summary stage never throws: what its [try] throws becomes the
    [summaryError]. *)
Lemma summarize_returns env o w :
  exists sm w1, summarize env o w = (inr sm, w1)
    /\ profiles w1 = profiles w /\ transcriptions w1 = transcriptions w
    /\ (o_withSummary o && truthy (o_plainText o) = true ->
        forall e w', summary_attempt env o w = (inl e, w') ->
        sm = (None, Some (or_else (Some (message e)) (lit "Unknown summary error"))))
    /\ (o_withSummary o && truthy (o_plainText o) = true ->
        usable_key (GEMINI_API_KEY env) = None ->
        usable_key (ANTHROPIC_API_KEY env) = None ->
        sm = (None, Some (lit "No AI key configured (GEMINI_API_KEY or ANTHROPIC_API_KEY)"))).
Proof.
  destruct (preserves_summarize env o w) as [Hp Ht].
  revert Hp Ht. unfold summarize.
  destruct (o_withSummary o && truthy (o_plainText o)).
  - unfold try_catch.
    destruct (summary_attempt env o w) as [[e|sm] w1] eqn:Ha; simpl; intros Hp Ht.
    + eexists _, _. split; [reflexivity|]. split; [done|]. split; [done|].
      split.
      * intros _ e' w' [= <- <-]. done.
      * intros _ Hg Hk. revert Ha. unfold summary_attempt. rewrite Hg, Hk.
        discriminate.
    + exists sm, w1. split; [done|]. split; [done|]. split; [done|].
      split; [intros _ e' w'; discriminate|].
      intros _ Hg Hk. revert Ha. unfold summary_attempt. rewrite Hg, Hk.
      by intros [= <- <-].
  - simpl. intros _ _. exists (None, None), w. repeat split; done.
Qed.

(** The stage after the transcript always answers 200 with the transcript
    it was given; the store ends with the credit decrement applied. *)
Lemma back_spec env o w :
  exists sm w1 id w2,
    summarize env o w = (inr sm, w1)
    /\ back env o w
       = (inr (mkResponse 200
                 (ResultBody
                    (mkResult id (o_videoId o) (o_title o) (o_channel o)
                       (o_plainText o) (o_timestampedText o) (o_language o)
                       (wordCount (o_plainText o)) sm.1 sm.2 (elapsed env)))), w2)
    /\ profiles w2 = decremented (o_userId o) (profiles w).
Proof.
  destruct (summarize_returns env o w) as ([s se] & w1 & Hs & Hp & _).
  unfold back, bind. rewrite Hs. unfold decremented. rewrite <- Hp.
  destruct (o_userId o) as [uid|].
  - unfold insert_transcription, select_profile, update_credits, emit, bind, ret.
    simpl.
    destruct (inserted_id env _) as [id|]; simpl;
      destruct (profiles w1 !! uid) as [p|]; simpl;
      try destruct (Z.ltb_spec 0 (credits_remaining p)); simpl;
      eexists (s, se), w1, _, _; (split; [reflexivity|]); split; reflexivity.
  - simpl. eexists (s, se), w1, _, _. split; [reflexivity|]. split; reflexivity.
Qed.

Lemma decremented_lookup (userId : option jsstring)
    (ps : gmap (list N) Profile) (k : list N) :
  decremented userId ps !! k
  = match ps !! k with
    | Some p =>
        Some (if bool_decide (userId = Some k) && (0 <? credits_remaining p)%Z
              then mkProfile (plan p) (credits_remaining p - 1) else p)
    | None => None
    end.
Proof.
  unfold decremented. destruct userId as [uid|]; [|by destruct (ps !! k)].
  destruct (decide (uid = k)) as [->|Hne].
  - rewrite bool_decide_true by done.
    destruct (ps !! k) as [p|] eqn:Hk; [|by rewrite ?Hk].
    destruct (0 <? credits_remaining p)%Z; [|by rewrite ?Hk].
    by rewrite lookup_alter_eq, Hk.
  - rewrite bool_decide_false by congruence.
    destruct (ps !! uid) as [p|]; [|by destruct (ps !! k)].
    destruct (0 <? credits_remaining p)%Z; [|by destruct (ps !! k)].
    rewrite lookup_alter_ne by done. by destruct (ps !! k).
Qed.

(** What the transcript stage on the server can end with. *)
Lemma server_transcript_result env b videoId userId ws w r w' :
  server_transcript env b videoId userId ws w = (r, w') ->
  (exists o, r = inr (Continue o) /\ o_userId o = userId /\ o_videoId o = videoId)
  \/ (exists msg, r = inr (Answer (mkResponse 422 (ErrorBody msg true)))).
Proof.
  cbv [server_transcript fetchVideoMetadata bind try_catch ret throw].
  destruct (do_fetch env _ _ w) as [[e|res] w1]; simpl.
  - destruct (fetchTranscript env videoId w1) as [[e'|t] w2]; intros [= <- <-]; eauto.
  - destruct (negb (res_ok res)); simpl.
    + destruct (fetchTranscript env videoId w1) as [[e'|t] w2]; intros [= <- <-]; eauto.
    + destruct (JSON_oembed env (res_text res)) as [[title author]|]; simpl;
        destruct (fetchTranscript env videoId w1) as [[e'|t] w2]; intros [= <- <-]; eauto.
Qed.

(** What the first part of the handler can end with. *)
Lemma front_result env req w r w1 :
  front env req w = (r, w1) ->
  match r with
  | inl _ => True
  | inr (Answer resp) => status resp <> 200
  | inr (Continue o) =>
      forall token uid, bearer req token -> getUser env token = Some uid ->
        truthy uid = true -> o_userId o = Some uid
  end.
Proof.
  unfold front.
  destruct (req_json req) as [e|b]; [by intros [= <- <-]|].
  destruct (_ && _); [by intros [= <- <-]|].
  destruct (resolve_videoId b) as [e|[videoId|]]; [by intros [= <- <-]| |by intros [= <- <-]].
  destruct (negb (truthy videoId)); [by intros [= <- <-]|].
  unfold bind at 1.
  set (auth := match authorization req with Some _ => _ | None => _ end).
  assert (exists userId wa, auth w = (inr userId, wa) /\
            forall token uid, bearer req token -> getUser env token = Some uid ->
              truthy uid = true -> userId = Some uid)
    as (userId & wa & -> & Hauth).
  { unfold auth. destruct (authorization req) as [h|] eqn:Hh.
    - destruct (truthy h) eqn:Ht.
      + unfold auth_getUser, bind, emit, ret. simpl. eexists _, _.
        split; [reflexivity|].
        intros token uid (h' & Hh' & _ & ->) Hg Hu.
        rewrite Hh in Hh'. injection Hh' as <-. by rewrite Hg, Hu.
      + eexists _, _. split; [reflexivity|].
        intros token uid (h' & Hh' & Ht' & _). congruence.
    - eexists _, _. split; [reflexivity|].
      intros token uid (h' & Hh' & _). congruence. }
  clear auth. unfold bind at 1.
  set (quota := match userId with Some _ => _ | None => _ end).
  assert (exists rej wq, quota wa = (inr rej, wq)) as (rej & wq & ->).
  { unfold quota. destruct userId; [|by eexists _, _].
    unfold select_profile, bind, emit, ret. simpl. by eexists _, _. }
  clear quota. destruct rej; [by intros [= <- <-]|].
  destruct (clientTranscript b) as [ct|].
  - destruct (truthy_opt (ct_text ct)).
    + intros [= <- <-]. simpl. exact Hauth.
    + intros [(o & -> & <- & _)|(msg & ->)]%server_transcript_result; [exact Hauth|done].
  - intros [(o & -> & <- & _)|(msg & ->)]%server_transcript_result; [exact Hauth|done].
Qed.

(** *** The trace of a request *)

Section Emits.
Context (P : Event -> Prop).

Lemma emits_ret {A} (a : A) : emits P (ret a).
Proof. intros w. exists []. by rewrite app_nil_r. Qed.

Lemma emits_throw {A} e : emits P (@throw A e).
Proof. intros w. exists []. by rewrite app_nil_r. Qed.

Lemma emits_emit e : P e -> emits P (emit e).
Proof. intros He w. exists [e]. split; [done|]. by constructor. Qed.

Lemma emits_bind {A B} (c : M A) (f : A -> M B) :
  emits P c -> (forall a, emits P (f a)) -> emits P (bind c f).
Proof.
  intros Hc Hf w. unfold bind. destruct (Hc w) as (evs & Ht & Hall).
  destruct (c w) as [[e|a] w1]; simpl in *; [eauto|].
  destruct (Hf a w1) as (evs' & Ht' & Hall').
  exists (evs ++ evs'). rewrite Ht', Ht, <- app_assoc. split; [done|].
  by apply Forall_app.
Qed.

Lemma emits_try_catch {A} (c : M A) (h : exn -> M A) :
  emits P c -> (forall e, emits P (h e)) -> emits P (try_catch c h).
Proof.
  intros Hc Hh w. unfold try_catch. destruct (Hc w) as (evs & Ht & Hall).
  destruct (c w) as [[e|a] w1]; simpl in *; [|eauto].
  destruct (Hh e w1) as (evs' & Ht' & Hall').
  exists (evs ++ evs'). rewrite Ht', Ht, <- app_assoc. split; [done|].
  by apply Forall_app.
Qed.

(** A step on the store that leaves the trace alone. *)
Lemma emits_silent {A} (c : M A) :
  (forall w, trace (c w).2 = trace w) -> emits P c.
Proof. intros Hc w. exists []. by rewrite app_nil_r. Qed.

End Emits.

Lemma emits_impl (P Q : Event -> Prop) {A} (c : M A) :
  (forall e, P e -> Q e) -> emits P c -> emits Q c.
Proof.
  intros HPQ Hc w. destruct (Hc w) as (evs & Ht & Hall).
  exists evs. split; [done|]. by eapply Forall_impl.
Qed.

Ltac emits_step :=
  first
    [ apply emits_ret | apply emits_throw
    | apply emits_emit; done
    | apply emits_bind; [|intros ?]
    | apply emits_try_catch; [|intros ?]
    | apply emits_silent; intros ?; simpl; by repeat case_match
    | match goal with
      | |- emits _ (match ?x with _ => _ end) => destruct x
      | |- emits _ (if ?b then _ else _) => destruct b
      | |- emits _ (let '(_, _) := ?x in _) => destruct x
      end ].

Lemma emits_do_fetch env url body : emits not_getUser (do_fetch env url body).
Proof. unfold do_fetch. repeat emits_step. Qed.

Lemma emits_select_profile uid : emits not_getUser (select_profile uid).
Proof. unfold select_profile. repeat emits_step. Qed.

Lemma emits_server_transcript env b videoId userId ws :
  emits not_getUser (server_transcript env b videoId userId ws).
Proof.
  unfold server_transcript, fetchVideoMetadata, fetchTranscript.
  repeat first [apply emits_do_fetch | emits_step].
Qed.

Lemma emits_back env o : emits not_getUser (back env o).
Proof.
  unfold back, summarize, summary_attempt, generateSummaryGemini, generateSummary,
    insert_transcription, update_credits.
  repeat first [apply emits_do_fetch | apply emits_select_profile | emits_step].
Qed.

Lemma not_getUser_looked_up req e : not_getUser e -> looked_up req e.
Proof. intros He token ->. destruct He. Qed.

Lemma emits_front env req : emits (looked_up req) (front env req).
Proof.
  unfold front.
  destruct (req_json req) as [e|b] eqn:Hb; [apply emits_throw|].
  destruct (_ && _) eqn:Hreq; [apply emits_ret|].
  destruct (resolve_videoId b) as [e|[videoId|]] eqn:Hres;
    [apply emits_throw| |apply emits_ret].
  destruct (truthy videoId) eqn:Hv; [|apply emits_ret]. simpl negb. cbv iota.
  assert (names_video req videoId) as Hn.
  { exists b. split; [done|]. split; [|done].
    apply andb_false_iff in Hreq as [Hr|Hr]; apply negb_false_iff in Hr;
      rewrite Hr; [done|by rewrite orb_true_r]. }
  apply emits_bind.
  - destruct (authorization req) as [h|] eqn:Hh; [|apply emits_ret].
    destruct (truthy h) eqn:Ht; [|apply emits_ret].
    unfold auth_getUser. apply emits_bind; [|intros; apply emits_ret].
    apply emits_emit. intros token [= <-]. split; [|by eexists].
    by exists h.
  - intros userId. apply (emits_impl not_getUser); [apply not_getUser_looked_up|].
    repeat first [apply emits_select_profile | apply emits_server_transcript
                 | emits_step].
Qed.

Lemma emits_POST_try env req : emits (looked_up req) (POST_try env req).
Proof.
  unfold POST_try. apply emits_bind; [apply emits_front|].
  intros [resp|o]; [apply emits_ret|].
  apply (emits_impl not_getUser); [apply not_getUser_looked_up|apply emits_back].
Qed.

(** The trace only grows: it ends with the events of the request. *)
Lemma trace_events env req w :
  trace (POST env req w).2 = trace w ++ events env req w
  /\ Forall (looked_up req) (events env req w).
Proof.
  unfold events. destruct (emits_POST_try env req w) as (evs & Ht & Hall).
  assert (trace (POST env req w).2 = trace w ++ evs) as ->.
  { unfold POST. by destruct (POST_try env req w) as [[e|resp] w']. }
  by rewrite drop_app_length.
Qed.

(** The account the handler authenticated is the one whose token the
    request carries, and the request names a video. *)
Lemma authenticated_as_inv env req w uid :
  authenticated_as env req w uid ->
  exists token videoId,
    bearer req token /\ getUser env token = Some uid /\ truthy uid = true
    /\ names_video req videoId.
Proof.
  intros (token & Hin & Hg & Hu).
  destruct (trace_events env req w) as [_ Hall].
  rewrite Forall_forall in Hall. apply list_elem_of_In in Hin.
  destruct (Hall _ Hin token eq_refl) as [Hb [videoId Hn]].
  by exists token, videoId.
Qed.

(** A request that names no video is answered with a 400, or with a 500
    when reading it throws, and nothing has happened outside. *)
Lemma invalid_request_answered_early env req w :
  (forall videoId, ~ names_video req videoId) ->
  exists resp, POST env req w = (resp, w)
               /\ (status resp = 400 \/ status resp = 500).
Proof.
  intros Hn. unfold POST, POST_try, bind at 1, front.
  destruct (req_json req) as [e|b] eqn:Hb; [simpl; eauto|].
  destruct (_ && _) eqn:Hreq; [simpl; eauto|].
  destruct (resolve_videoId b) as [e|[videoId|]] eqn:Hres; [simpl; eauto| |simpl; eauto].
  destruct (truthy videoId) eqn:Hv; [|simpl; eauto].
  exfalso. apply (Hn videoId). exists b. split; [done|]. split; [|done].
  apply andb_false_iff in Hreq as [Hr|Hr]; apply negb_false_iff in Hr;
    rewrite Hr; [done|by rewrite orb_true_r].
Qed.

End HandlerFacts.
Import Handler Store HandlerFacts.

(** C8: once the transcript is in hand the request is answered 200 with
    the transcript, whatever the summary stage meets; what the summary
    request throws, and the absence of a usable key, end up in the
    [summaryError] of the response. *)
Theorem summary_failure_is_not_fatal (env : Env) (req : Request) (w : World)
    (o : Obtained) (w1 : World) :
  front env req w = (inr (Continue o), w1) ->
  exists r w2,
    POST env req w = (mkResponse 200 (ResultBody r), w2)
    /\ r_text r = o_plainText o
    /\ r_timestamped r = o_timestampedText o
    /\ r_language r = o_language o
    /\ (o_withSummary o && truthy (o_plainText o) = true ->
        forall e w', summary_attempt env o w1 = (inl e, w') ->
        r_summary r = None
        /\ r_summaryError r
           = Some (or_else (Some (message e)) (lit "Unknown summary error")))
    /\ (o_withSummary o && truthy (o_plainText o) = true ->
        usable_key (GEMINI_API_KEY env) = None ->
        usable_key (ANTHROPIC_API_KEY env) = None ->
        r_summary r = None
        /\ r_summaryError r
           = Some (lit "No AI key configured (GEMINI_API_KEY or ANTHROPIC_API_KEY)")).
Proof.
  intros Hf. unfold POST, POST_try, bind. rewrite Hf.
  destruct (back_spec env o w1) as (sm & ws & id & w2 & Hs & -> & _).
  destruct (summarize_returns env o w1) as (sm' & ws' & Hs' & _ & _ & Hthrow & Hnokey).
  rewrite Hs in Hs'. injection Hs' as <- <-.
  eexists _, w2. split; [reflexivity|]. simpl.
  split; [done|]. split; [done|]. split; [done|]. split.
  - intros Hc e w' Ha. by rewrite (Hthrow Hc e w' Ha).
  - intros Hc Hg Hk. by rewrite (Hnokey Hc Hg Hk).
Qed.

(** The request with its own transcript, while the network is down: the
    answer is 200 with the transcript and the error of the summary. *)
Lemma summary_failure_is_not_fatal_witness :
  exists r w2,
    POST env_example req_client (world_of "pro" 3)
    = (mkResponse 200 (ResultBody r), w2)
    /\ r_text r = lit "Hello World"
    /\ r_summary r = None
    /\ r_summaryError r = Some (lit "fetch failed").
Proof.
  destruct (front env_example req_client (world_of "pro" 3))
    as [[e|[resp|o]] w1] eqn:Hf; try (vm_compute in Hf; discriminate).
  destruct (summary_failure_is_not_fatal _ _ _ _ _ Hf)
    as (r & w2 & HP & Htext & _ & _ & Hthrow & _).
  exists r, w2. split; [exact HP|].
  vm_compute in Hf. injection Hf as <- <-.
  split; [exact Htext|].
  apply (Hthrow eq_refl (Error (lit "fetch failed"))
           (mkWorld (profiles (world_of "pro" 3)) []
              [EvGetUser (lit "tok"); EvSelectProfile (lit "u1");
               EvFetch (lit "https://generativelanguage.googleapis.com/v1beta/models/gemini-2.0-flash:generateContent?key=key")
                 (Some (mkPrompt Unknown Unknown (lit "Hello World")))])).
  vm_compute. reflexivity.
Defined.

(** C10: a request changes no profile except that, after it was answered
    200, the profile of the authenticated account has one credit less when
    the credits read were positive, whatever the plan; so non-negative
    credits stay non-negative. *)
Theorem credit_decrement (env : Env) (req : Request) (w : World)
    (resp : Response) (w' : World) :
  POST env req w = (resp, w') ->
  credits_step (profiles w) (profiles w')
  /\ ((forall uid p, profiles w !! uid = Some p -> (0 <= credits_remaining p)%Z) ->
      forall uid p', profiles w' !! uid = Some p' -> (0 <= credits_remaining p')%Z)
  /\ (status resp = 200 ->
      forall uid p, authenticated_as env req w uid ->
        profiles w !! uid = Some p -> (0 < credits_remaining p)%Z ->
        profiles w' !! uid
        = Some (mkProfile (plan p) (credits_remaining p - 1))).
Proof.
  assert (forall ps : gmap (list N) Profile, credits_step ps ps) as Hrefl.
  { intros ps uid. destruct (ps !! uid); auto. }
  assert (forall ps ps' : gmap (list N) Profile, credits_step ps ps' ->
            (forall uid p, ps !! uid = Some p -> (0 <= credits_remaining p)%Z) ->
            forall uid p', ps' !! uid = Some p' -> (0 <= credits_remaining p')%Z)
    as Hnonneg.
  { intros ps ps' Hstep Hps uid p' Hp'. specialize (Hstep uid). rewrite Hp' in Hstep.
    destruct (ps !! uid) as [p|] eqn:Hp; [|done]. specialize (Hps _ _ Hp). lia. }
  unfold POST, POST_try, bind.
  destruct (front env req w) as [[e|[resp0|o]] w1] eqn:Hf;
    destruct (preserves_front env req w) as [Hp _]; rewrite Hf in Hp; simpl in Hp.
  - intros [= <- <-]. rewrite Hp. split; [done|]. split; [by apply Hnonneg|]. done.
  - intros [= <- <-]. rewrite Hp. split; [done|]. split; [by apply Hnonneg|].
    intros Hs. by apply front_result in Hf.
  - destruct (back_spec env o w1) as (sm & ws & id & w2 & _ & -> & Hd).
    intros [= <- <-]. rewrite Hp in Hd.
    assert (credits_step (profiles w) (profiles w2)) as Hstep.
    { intros uid. rewrite Hd, decremented_lookup.
      destruct (profiles w !! uid) as [p|]; [|done].
      destruct (bool_decide _ && _) eqn:Hc; simpl; [|auto].
      apply andb_true_iff in Hc as [_ Hc%Z.ltb_lt]. auto. }
    split; [done|]. split; [by apply Hnonneg|].
    intros _ uid p Ha Hl Hpos. apply front_result in Hf.
    destruct (authenticated_as_inv _ _ _ _ Ha) as (token & _ & Hb & Hg & Hu & _).
    rewrite Hd, decremented_lookup, Hl, (Hf _ _ Hb Hg Hu).
    rewrite bool_decide_true by done.
    by destruct (Z.ltb_spec 0 (credits_remaining p)); [|lia].
Qed.


(** The request with its own transcript, from an account on another plan
    with three credits: two are left. *)
Lemma credit_decrement_witness :
  exists resp w',
    POST env_example req_client (world_of "pro" 3) = (resp, w')
    /\ status resp = 200
    /\ profiles w' !! lit "u1" = Some (mkProfile (lit "pro") 2).
Proof.
  destruct (POST env_example req_client (world_of "pro" 3)) as [resp w'] eqn:HP.
  destruct (credit_decrement _ _ _ _ _ HP) as (_ & _ & Hdec).
  assert (status resp = 200) as Hs.
  { vm_compute in HP. by injection HP as <- _. }
  exists resp, w'. split; [reflexivity|]. split; [exact Hs|].
  apply (Hdec Hs (lit "u1") (mkProfile (lit "pro") 3)).
  - exists (lit "tok"). split; [vm_compute; auto|]. split; vm_compute; reflexivity.
  - vm_compute. reflexivity.
  - simpl. lia.
Defined.


(** ** Further properties of the pipeline *)

(** *** Entity Resolver *)

(** X1: whatever [extractVideoId] returns is an identifier, eleven code
    units of [[a-zA-Z0-9_-]], and resolving it again returns it
    unchanged. *)
Theorem extractVideoId_returns_video_id (url id : jsstring) :
  extractVideoId url = Some id ->
  is_video_id id /\ extractVideoId id = Some id.
Proof.
  unfold extractVideoId, patterns. cbn [first_capture].
  intros Hr.
  assert (is_video_id id) as Hid.
  { destruct (js_match urlPattern url) as [mt|] eqn:Hu.
    - injection Hr as <-.
      apply urlPattern_search in Hu as (i & _ & Hm & _).
      by apply urlPattern_at_sound in Hm as (mk & id & post & _ & Hid & _ & ->).
    - destruct (js_match barePattern url) as [mt|] eqn:Hb; [|discriminate].
      injection Hr as <-. by apply barePattern_sound in Hb as [? ->]. }
  split; [done|].
  rewrite urlPattern_too_short by (destruct Hid; lia).
  by destruct (barePattern_complete _ Hid) as (mt & -> & ->).
Qed.

Lemma extractVideoId_returns_video_id_witness :
  is_video_id bare_id /\ extractVideoId bare_id = Some bare_id.
Proof.
  apply (extractVideoId_returns_video_id watch_url bare_id).
  vm_compute. reflexivity.
Defined.

(** *** Track selection *)

Module SelectorMore.
Import Selector SelectorFacts.

(** [find] returns the first element that passes. *)
Lemma find_from_first {A} (p : A -> bool) l : forall i j x,
  find_from p i l = Some (j, x) ->
  p x = true /\ forall k y, k < j - i -> l !! k = Some y -> p y = false.
Proof.
  induction l as [|z l IH]; intros i j x; simpl; [discriminate|].
  destruct (p z) eqn:Hp.
  - intros [= <- <-]. split; [done|]. intros k y Hk. lia.
  - intros Hf. pose proof (find_from_Some _ _ _ _ _ Hf) as (Hle & _).
    apply IH in Hf as [Hx Hbefore]. split; [done|].
    intros [|k] y Hk; simpl; [congruence|]. apply Hbefore. lia.
Qed.

Lemma js_find_index {A} (p : A -> bool) l i x :
  js_find p l = Some (i, x) ->
  l !! i = Some x /\ p x = true /\ forall y, l !! 0 = Some y -> p y = true -> i = 0.
Proof.
  unfold js_find. intros Hf.
  pose proof (find_from_Some _ _ _ _ _ Hf) as (_ & Hl & _).
  apply find_from_first in Hf as [Hx Hbefore].
  rewrite Nat.sub_0_r in Hl, Hbefore. split; [done|]. split; [done|].
  intros y Hy Hp. destruct i as [|i]; [done|].
  rewrite (Hbefore 0 y) in Hp; [discriminate|lia|done].
Qed.

Lemma manual_loop_coherent tracks sel : forall langs,
  coherent tracks sel -> coherent tracks (manual_loop langs tracks sel).
Proof.
  induction langs as [|lang langs IH]; simpl; [done|]. intros Hc.
  destruct (js_find _ tracks) as [[i t]|] eqn:Hf; [|by apply IH].
  apply js_find_index in Hf as (Hl & Hp & _).
  apply andb_true_iff in Hp as [_ Hp]. split; simpl; [done|]. by rewrite Hp.
Qed.

Lemma auto_loop_coherent tracks sel : forall langs,
  coherent tracks sel -> coherent tracks (auto_loop langs tracks sel).
Proof.
  induction langs as [|lang langs IH]; simpl; [done|]. intros Hc.
  destruct (js_find _ tracks) as [[i t]|] eqn:Hf; [|by apply IH].
  apply js_find_index in Hf as (Hl & _). by split.
Qed.

(** Where the first loop stops: at the manual track of the policy, whose
    index is 0 exactly when it is the first track of the list. *)
Lemma manual_loop_index t0 rest sel : forall langs,
  match first_preferred langs (filter (fun t => not_asr t = true) (t0 :: rest)) with
  | Some t =>
      exists i, manual_loop langs (t0 :: rest) sel = mkSel i t false
                /\ (i = 0 <-> t = t0)
  | None => manual_loop langs (t0 :: rest) sel = sel
  end.
Proof.
  induction langs as [|lang langs IH]; simpl; [done|].
  rewrite find_filter.
  destruct (js_find _ (t0 :: rest)) as [[i t]|] eqn:Hf.
  - pose proof Hf as (_ & _ & ->)%find_from_Some.
    apply js_find_index in Hf as (Hl & Hp & Hz).
    exists i. split; [done|]. split.
    + intros ->. simpl in Hl. congruence.
    + intros ->. by apply (Hz t0).
  - apply find_from_None in Hf as ->. apply IH.
Qed.

End SelectorMore.

(** X2: what the selector with the language preference computes, for a
    list that starts with [t0].  When the manual track of the policy is
    not [t0], it is selected.  When it is [t0], or when there is no manual
    track in a preferred language, the selected track is the first track,
    of any kind, in the most preferred language present, and [t0] when
    no track has a preferred language. *)
Theorem select_characterised (t0 : CaptionTrack) (rest : list CaptionTrack) :
  let manual :=
    Selector.first_preferred Selector.preferredLangs
      (filter (fun t => not_asr t = true) (t0 :: rest)) in
  (forall t, manual = Some t -> t <> t0 ->
     Selector.selectedTrack <$> Selector.select (t0 :: rest) = Some t)
  /\ (manual = Some t0 \/ manual = None ->
      Selector.selectedTrack <$> Selector.select (t0 :: rest)
      = Some (default t0
                (Selector.first_preferred Selector.preferredLangs (t0 :: rest)))).
Proof.
  intros manual. unfold Selector.select.
  pose proof (SelectorMore.manual_loop_index t0 rest
                (Selector.mkSel 0 t0 (negb (not_asr t0)))
                Selector.preferredLangs) as Hm.
  fold manual in Hm. cbn zeta. split.
  - intros t Ht Hne. rewrite Ht in Hm. destruct Hm as (i & -> & Hi).
    cbn [Selector.sel_index]. destruct i as [|i]; [by destruct Hne; apply Hi|].
    done.
  - intros [Ht|Ht]; rewrite Ht in Hm.
    + destruct Hm as (i & -> & Hi). cbn [Selector.sel_index].
      rewrite (proj2 Hi eq_refl). cbn [Nat.eqb fmap option_fmap option_map].
      by rewrite SelectorFacts.auto_loop_spec.
    + rewrite Hm. cbn [Selector.sel_index Nat.eqb fmap option_fmap option_map].
      by rewrite SelectorFacts.auto_loop_spec.
Qed.

(** The list of the first example: the manual track in Portuguese is not
    the first track. *)
Lemma select_characterised_witness :
  Selector.selectedTrack <$> Selector.select tracks_mixed = Some (track "pt" false).
Proof.
  destruct (select_characterised (track "en" true) [track "pt" false; track "es" false])
    as [H _].
  apply (H (track "pt" false)).
  - vm_compute. reflexivity.
  - vm_compute. discriminate.
Defined.

(** X3: the selector never invents a track: on a non-empty list it
    selects a track of the list, [isGenerated] says whether that track is
    auto-generated, and only the empty list has no selection. *)
Theorem select_sound (tracks : list CaptionTrack) :
  (Selector.select tracks = None <-> tracks = [])
  /\ (forall sel, Selector.select tracks = Some sel ->
        tracks !! Selector.sel_index sel = Some (Selector.selectedTrack sel)
        /\ Selector.isGenerated sel = negb (not_asr (Selector.selectedTrack sel))).
Proof.
  split.
  - by destruct tracks.
  - intros sel. destruct tracks as [|t0 rest]; [discriminate|].
    unfold Selector.select. intros Hs. apply (inj Some) in Hs. subst sel.
    assert (coherent (t0 :: rest)
              (Selector.manual_loop Selector.preferredLangs (t0 :: rest)
                 (Selector.mkSel 0 t0 (negb (not_asr t0))))) as Hc.
    { apply SelectorMore.manual_loop_coherent. by split. }
    destruct (Nat.eqb _ 0); [|exact Hc].
    by apply SelectorMore.auto_loop_coherent.
Qed.

Lemma select_sound_witness :
  exists sel, Selector.select tracks_manual_first = Some sel
    /\ tracks_manual_first !! Selector.sel_index sel = Some (track "pt" true)
    /\ Selector.isGenerated sel = true.
Proof.
  destruct (Selector.select tracks_manual_first) as [sel|] eqn:Hs;
    [|vm_compute in Hs; discriminate].
  destruct (select_sound tracks_manual_first) as [_ H].
  destruct (H sel Hs) as [Hl Hg]. exists sel. split; [reflexivity|].
  vm_compute in Hs. injection Hs as <-. split; [exact Hl|exact Hg].
Defined.

(** X4: the selection of the current route takes the first track that is
    not auto-generated; an auto-generated track is selected only when
    every track is auto-generated, and then it is the first one. *)
Theorem selectTrack_prefers_manual (captionTracks : list CaptionTrack) :
  (selectTrack captionTracks = None <-> captionTracks = [])
  /\ (forall t, selectTrack captionTracks = Some t ->
        In t captionTracks
        /\ (not_asr t = true ->
            exists before after, captionTracks = before ++ t :: after
              /\ Forall (fun u => not_asr u = false) before)
        /\ (not_asr t = false ->
            Forall (fun u => not_asr u = false) captionTracks
            /\ head captionTracks = Some t)).
Proof.
  unfold selectTrack. split.
  - destruct (js_find not_asr captionTracks) as [[i t]|] eqn:Hf.
    + split; [discriminate|]. intros ->. discriminate.
    + by destruct captionTracks.
  - intros t. destruct (js_find not_asr captionTracks) as [[i u]|] eqn:Hf.
    + intros [= ->]. unfold js_find in Hf.
      pose proof (SelectorFacts.find_from_Some _ _ _ _ _ Hf) as (_ & Hl & _).
      apply SelectorMore.find_from_first in Hf as [Hp Hbefore].
      rewrite Nat.sub_0_r in Hl, Hbefore.
      split; [by apply list_elem_of_In; eapply list_elem_of_lookup_2|]. split.
      * intros _. exists (take i captionTracks), (drop (S i) captionTracks).
        split; [by rewrite take_drop_middle|].
        apply Forall_forall. intros y [k Hk]%list_elem_of_lookup.
        apply lookup_take_Some in Hk as [Hk Hlt]. by apply (Hbefore k).
      * congruence.
    + intros Ht. unfold js_find in Hf.
      assert (forall l i, find_from not_asr i l = None ->
                Forall (fun u => not_asr u = false) l) as Hall.
      { clear. induction l as [|y l IH]; intros i; simpl; [constructor|].
        destruct (not_asr y) eqn:Hy; [discriminate|]. intros Hf.
        constructor; [done|]. by apply (IH (S i)). }
      apply Hall in Hf. destruct captionTracks as [|y l]; [discriminate|].
      simpl in Ht. injection Ht as ->. split; [by left|].
      split; [|done]. intros Hp. apply Forall_cons in Hf as [Hf _]. congruence.
Qed.

Lemma selectTrack_prefers_manual_witness :
  In (track "pt" false) tracks_mixed
  /\ exists before after, tracks_mixed = before ++ track "pt" false :: after
       /\ Forall (fun u => not_asr u = false) before.
Proof.
  destruct (selectTrack_prefers_manual tracks_mixed) as [_ H].
  destruct (H (track "pt" false)) as (Hin & Hman & _); [vm_compute; reflexivity|].
  split; [exact Hin|]. apply Hman. vm_compute. reflexivity.
Defined.

(** *** Entity decoding *)

Module DecodeMore.

(** A literal that starts with [&] is replaced where it stands after a
    text without [&]. *)
Lemma replace_lit_hit pat repl a b :
  starts_with (Lit pat) 38%N = true -> pat <> [] -> 38%N ∉ a -> 38%N ∉ b ->
  replace_lit pat repl (a ++ pat ++ b) = a ++ repl ++ b.
Proof.
  intros Hs Hne Ha Hb. unfold replace_lit, replace_all.
  rewrite replace_scan_prefix by (by apply (no_match_in_prefix _ 38%N)).
  assert (exists mt, match_at (Lit pat) (0 + length a) (pat ++ b) = Some mt
            /\ m_end mt = 0 + length a + length pat) as (mt & Hm & He).
  { unfold match_at. cbn [m]. rewrite lit_match_app. unfold kfin.
    eexists. split; [reflexivity|]. done. }
  rewrite (replace_scan_match _ _ _ pat b mt Hne Hm He).
  by rewrite (replace_scan_absent _ _ 38%N).
Qed.

(** It is left alone where [&] starts something else. *)
Lemma replace_lit_miss pat repl a t :
  starts_with (Lit pat) 38%N = true -> 38%N ∉ a -> 38%N ∉ t ->
  lit_match pat (38%N :: t) = None ->
  replace_lit pat repl (a ++ 38%N :: t) = a ++ 38%N :: t.
Proof.
  intros Hs Ha Ht Hl. unfold replace_lit, replace_all.
  rewrite replace_scan_prefix by (by apply (no_match_in_prefix _ 38%N)).
  f_equal. cbn [replace_scan]. unfold match_at. cbn [m]. rewrite Hl.
  f_equal. by apply (replace_scan_absent _ _ 38%N).
Qed.

Lemma not_in_app (c : N) (a b : jsstring) : c ∉ a -> c ∉ b -> c ∉ a ++ b.
Proof. intros Ha Hb [?|?]%elem_of_app; done. Qed.

Lemma decode_passes str :
  decodeHtmlEntities str = later_passes (replace_lit (lit "&amp;") (lit "&") str).
Proof. reflexivity. Qed.

Lemma replace_lit_absent pat repl s :
  starts_with (Lit pat) 38%N = true -> 38%N ∉ s -> replace_lit pat repl s = s.
Proof. intros Hs Hn. by apply (replace_scan_absent _ _ 38%N). Qed.

Lemma numeric_pass_absent s :
  38%N ∉ s ->
  replace_all numericRefRegex (fun mt => fromCharCode (parseInt (group 1 mt))) s = s.
Proof. intros Hn. by apply (replace_scan_absent _ _ 38%N). Qed.

Lemma absent_forallb (c : N) (s : jsstring) :
  forallb (fun d => negb (d =? c)%N) s = true -> c ∉ s.
Proof.
  induction s as [|d s IH]; simpl; [intros _; apply not_elem_of_nil|].
  intros [Hd Hs]%andb_true_iff. apply not_elem_of_cons. split; [|by apply IH].
  apply negb_true_iff, N.eqb_neq in Hd. congruence.
Qed.

(** [&] is not among the code units of a literal. *)
Ltac no_amp := apply absent_forallb; vm_compute; reflexivity.

Ltac side :=
  solve [ reflexivity | no_amp | vm_compute; reflexivity
        | match goal with H : forall ch : jsstring, _ |- _ => apply H; no_amp end ].

(** Once the entity is replaced no [&] is left, and the passes that
    remain change nothing. *)
Ltac finish Hout a ch b :=
  let Hn := fresh "Hn" in
  assert (38%N ∉ a ++ ch ++ b) as Hn by (apply Hout; no_amp);
  rewrite ?(fun pat repl H1 => replace_lit_absent pat repl _ H1 Hn) by reflexivity;
  by apply numeric_pass_absent.

(** An entity after the ampersand, between texts without [&]: the
    passes after the first one decode it. *)
Lemma later_passes_entity a b :
  38%N ∉ a -> 38%N ∉ b ->
  Forall (fun ec => later_passes (a ++ 38%N :: fst ec ++ b) = a ++ snd ec ++ b)
    later_entities.
Proof.
  intros Ha Hb.
  assert (forall pat repl t, starts_with (Lit pat) 38%N = true -> 38%N ∉ t ->
            lit_match pat (38%N :: t ++ b) = None ->
            replace_lit pat repl (a ++ 38%N :: t ++ b) = a ++ 38%N :: t ++ b) as Hmiss.
  { intros pat repl t Hs Ht Hl. apply replace_lit_miss; [done|done| |done].
    by apply not_in_app. }
  assert (forall pat repl,
            replace_lit (38%N :: pat) repl (a ++ 38%N :: pat ++ b) = a ++ repl ++ b)
    as Hhit.
  { intros pat repl. by apply (replace_lit_hit (38%N :: pat) repl a b). }
  assert (forall ch : jsstring, 38%N ∉ ch -> 38%N ∉ a ++ ch ++ b) as Hout.
  { intros ch Hch. by repeat apply not_in_app. }
  unfold later_entities, later_passes.
  repeat constructor; cbn [fst snd].
  - change (lit "&lt;") with (38%N :: lit "lt;").
    rewrite (Hhit (lit "lt;") (lit "<")).
    finish Hout a (lit "<") b.
  - rewrite (Hmiss (lit "&lt;")) by side.
    change (lit "&gt;") with (38%N :: lit "gt;").
    rewrite (Hhit (lit "gt;") (lit ">")).
    finish Hout a (lit ">") b.
  - rewrite (Hmiss (lit "&lt;")) by side.
    rewrite (Hmiss (lit "&gt;")) by side.
    change (lit "&quot;") with (38%N :: lit "quot;").
    rewrite (Hhit (lit "quot;") [quote]).
    finish Hout a ([quote]) b.
  - rewrite (Hmiss (lit "&lt;")) by side.
    rewrite (Hmiss (lit "&gt;")) by side.
    rewrite (Hmiss (lit "&quot;")) by side.
    change (lit "&#39;") with (38%N :: lit "#39;").
    rewrite (Hhit (lit "#39;") (lit "'")).
    finish Hout a (lit "'") b.
  - rewrite (Hmiss (lit "&lt;")) by side.
    rewrite (Hmiss (lit "&gt;")) by side.
    rewrite (Hmiss (lit "&quot;")) by side.
    rewrite (Hmiss (lit "&#39;")) by side.
    change (lit "&#x27;") with (38%N :: lit "#x27;").
    rewrite (Hhit (lit "#x27;") (lit "'")).
    finish Hout a (lit "'") b.
  - rewrite (Hmiss (lit "&lt;")) by side.
    rewrite (Hmiss (lit "&gt;")) by side.
    rewrite (Hmiss (lit "&quot;")) by side.
    rewrite (Hmiss (lit "&#39;")) by side.
    rewrite (Hmiss (lit "&#x27;")) by side.
    change (lit "&nbsp;") with (38%N :: lit "nbsp;").
    rewrite (Hhit (lit "nbsp;") (lit " ")).
    finish Hout a (lit " ") b.
Qed.

End DecodeMore.

(** X5: in a text that has no other [&], each of the entities [&lt;]
    [&gt;] [&quot;] [&#39;] [&#x27;] [&nbsp;] is replaced by its character
    where it stands, and the text around it is left as it is. *)
Theorem decode_in_context (a b : jsstring) :
  38%N ∉ a -> 38%N ∉ b ->
  Forall (fun ec => decodeHtmlEntities (a ++ 38%N :: fst ec ++ b) = a ++ snd ec ++ b)
    later_entities.
Proof.
  intros Ha Hb. pose proof (DecodeMore.later_passes_entity a b Ha Hb) as Hl.
  rewrite Forall_forall in Hl |- *. intros ec Hin. rewrite DecodeMore.decode_passes.
  rewrite <- (Hl ec Hin). f_equal.
  apply DecodeMore.replace_lit_miss; [done|done| |].
  - apply DecodeMore.not_in_app; [|done].
    unfold later_entities in Hin. set_unfold in Hin.
    destruct Hin as [->|[->|[->|[->|[->|[->|[]]]]]]]; DecodeMore.no_amp.
  - unfold later_entities in Hin. set_unfold in Hin.
    destruct Hin as [->|[->|[->|[->|[->|[->|[]]]]]]]; by vm_compute.
Qed.

Lemma decode_in_context_witness :
  decodeHtmlEntities (lit "1 &lt; 2") = lit "1 < 2".
Proof.
  assert (38%N ∉ lit "1 ") as Ha by DecodeMore.no_amp.
  assert (38%N ∉ lit " 2") as Hb by DecodeMore.no_amp.
  exact (Forall_inv (decode_in_context (lit "1 ") (lit " 2") Ha Hb)).
Defined.

(** X6: the decoder decodes twice.  [&amp;] is replaced first and the
    passes that follow read the [&] it leaves, so an escaped entity such
    as [&amp;lt;] comes out as the character [<], not as the text
    [&lt;]. *)
Theorem decode_twice (a b : jsstring) :
  38%N ∉ a -> 38%N ∉ b ->
  Forall (fun ec =>
            decodeHtmlEntities (a ++ lit "&amp;" ++ fst ec ++ b) = a ++ snd ec ++ b)
    later_entities.
Proof.
  intros Ha Hb. pose proof (DecodeMore.later_passes_entity a b Ha Hb) as Hl.
  rewrite Forall_forall in Hl |- *. intros ec Hin. rewrite DecodeMore.decode_passes.
  rewrite <- (Hl ec Hin). f_equal.
  apply (DecodeMore.replace_lit_hit (lit "&amp;") (lit "&") a (fst ec ++ b));
    [done|done|done|].
  apply DecodeMore.not_in_app; [|done].
  unfold later_entities in Hin. set_unfold in Hin.
  destruct Hin as [->|[->|[->|[->|[->|[->|[]]]]]]]; DecodeMore.no_amp.
Qed.

Lemma decode_twice_witness :
  decodeHtmlEntities (lit "x &amp;lt; y") = lit "x < y".
Proof.
  assert (38%N ∉ lit "x ") as Ha by DecodeMore.no_amp.
  assert (38%N ∉ lit " y") as Hb by DecodeMore.no_amp.
  exact (Forall_inv (decode_twice (lit "x ") (lit " y") Ha Hb)).
Defined.

(** Replacing every occurrence of one code unit leaves none. *)
Lemma replace_unit_none (c : N) (repl : jsstring) : c ∉ repl ->
  forall s i, c ∉ replace_scan (Lit [c]) (fun _ => repl) i s 0.
Proof.
  intros Hr. induction s as [|d s IH]; intros i.
  - cbn. unfold match_at. cbn. apply not_elem_of_nil.
  - cbn [replace_scan]. unfold match_at. cbn [m lit_match].
    destruct (N.eqb_spec c d) as [<-|Hne].
    + unfold kfin. cbn [m_end]. replace (i + length [c] - i) with 1 by (simpl; lia).
      apply DecodeMore.not_in_app; [done|]. apply IH.
    + apply not_elem_of_cons. split; [done|]. apply IH.
Qed.

(** X7: the decoder of the earlier revision never returns a line feed:
    its last pass turns every one into a space, those that a numeric
    reference such as [&#10;] produced included, so a segment stays on one
    line of the timestamped text. *)
Theorem decodeXmlEntities_one_line (text : jsstring) :
  10%N ∉ decodeXmlEntities text.
Proof.
  unfold decodeXmlEntities, replace_lit at 1, replace_all at 1.
  apply replace_unit_none. DecodeMore.no_amp.
Qed.

(** *** Word count *)

Module WordCountMore.
Import Handler.

(** With nothing to do after it, the greedy star takes the whole run. *)
Lemma star_greedy_all p c : forall s i tl,
  Forall (fun d => p d = true) s ->
  match tl with [] => True | d :: _ => p d = false end ->
  star_greedy p kfin i (s ++ tl) c = Some (i + length s, c).
Proof.
  induction s as [|d s IH]; intros i tl Hs Htl.
  - simpl. rewrite Nat.add_0_r. destruct tl as [|d tl]; [done|].
    simpl. by rewrite Htl.
  - apply Forall_cons in Hs as [Hd Hs]. simpl. rewrite Hd.
    rewrite (IH (S i) tl Hs Htl). f_equal. f_equal. lia.
Qed.

Lemma count_scan_skip r tl : forall u i,
  count_scan r i (u ++ tl) (length u) = count_scan r (i + length u) tl 0.
Proof.
  induction u as [|d u IH]; intros i; simpl.
  - by rewrite Nat.add_0_r.
  - rewrite IH. f_equal. lia.
Qed.

(** A word has no separator in it. *)
Lemma count_scan_word tl : forall w i,
  no_space w ->
  count_scan (Plus is_space) i (w ++ tl) 0
  = count_scan (Plus is_space) (i + length w) tl 0.
Proof.
  induction w as [|d w IH]; intros i Hw; simpl.
  - by rewrite Nat.add_0_r.
  - apply Forall_cons in Hw as [Hd Hw]. unfold match_at. cbn [m]. rewrite Hd.
    rewrite IH by done. f_equal. lia.
Qed.

(** A run of white space before a word, or at the end, is one
    separator. *)
Lemma count_scan_separator s tl i :
  s <> [] -> all_space s ->
  match tl with [] => True | d :: _ => is_space d = false end ->
  count_scan (Plus is_space) i (s ++ tl) 0
  = S (count_scan (Plus is_space) (i + length s) tl 0).
Proof.
  intros Hne Hs Htl. destruct s as [|d s]; [done|].
  apply Forall_cons in Hs as [Hd Hs]. cbn [app count_scan].
  unfold match_at. cbn [m]. rewrite Hd.
  rewrite (star_greedy_all is_space [] s (S i) tl Hs Htl). cbn [m_end].
  replace (S i + length s - i) with (S (length s)) by lia.
  rewrite count_scan_skip. f_equal. f_equal. simpl. lia.
Qed.

Lemma count_scan_spaced trailing : forall rest w0 i,
  no_space w0 ->
  Forall (fun sw => fst sw <> [] /\ all_space (fst sw)
                    /\ snd sw <> [] /\ no_space (snd sw)) rest ->
  all_space trailing ->
  count_scan (Plus is_space) i (spaced w0 rest ++ trailing) 0
  = length rest + match trailing with [] => 0 | _ :: _ => 1 end.
Proof.
  unfold spaced.
  induction rest as [|[s w] rest IH]; intros w0 i Hw0 Hrest Htr.
  - simpl. rewrite app_nil_r, count_scan_word by done.
    destruct trailing as [|d tr]; [done|].
    rewrite <- (app_nil_r (d :: tr)).
    rewrite count_scan_separator; [|done|done|done]. by destruct (d :: tr).
  - apply Forall_cons in Hrest as [(Hs & Hsp & Hw & Hwn) Hrest].
    cbn [map concat fst snd length]. rewrite <- !app_assoc.
    rewrite count_scan_word by done.
    rewrite count_scan_separator; [|done|done|].
    + rewrite app_assoc. rewrite IH by done. done.
    + destruct w as [|d w]; [done|]. by apply Forall_cons in Hwn as [? _].
Qed.

End WordCountMore.

(** X8: the word count of the response, [plainText.split(/\s+/).length],
    for any text, read as words with runs of white space between them and
    possibly after them: it is the number of words, the first one counted
    even when it is empty (so the empty text has one word, and a text that
    starts with white space one word more than it shows), and one more
    when the text ends with white space. *)
Theorem wordCount_spaced (w0 : jsstring) (rest : list (jsstring * jsstring))
    (trailing : jsstring) :
  no_space w0 ->
  Forall (fun sw => fst sw <> [] /\ all_space (fst sw)
                    /\ snd sw <> [] /\ no_space (snd sw)) rest ->
  all_space trailing ->
  Handler.wordCount (spaced w0 rest ++ trailing)
  = S (length rest) + match trailing with [] => 0 | _ :: _ => 1 end.
Proof.
  intros Hw0 Hrest Htr. unfold Handler.wordCount.
  by rewrite WordCountMore.count_scan_spaced.
Qed.

(** [Hello World]: two words; with a space after it, three. *)
Lemma wordCount_spaced_witness :
  Handler.wordCount (lit "Hello World") = 2
  /\ Handler.wordCount (lit "Hello World ") = 3
  /\ Handler.wordCount [] = 1.
Proof.
  assert (no_space (lit "Hello")) as Hh by (vm_compute; repeat constructor).
  assert (Forall (fun sw => fst sw <> [] /\ all_space (fst sw)
                    /\ snd sw <> [] /\ no_space (snd sw))
            [(lit " ", lit "World")]) as Hr.
  { repeat constructor; try discriminate; vm_compute; repeat constructor. }
  split; [|split].
  - apply (wordCount_spaced (lit "Hello") [(lit " ", lit "World")] [] Hh Hr).
    constructor.
  - apply (wordCount_spaced (lit "Hello") [(lit " ", lit "World")] (lit " ") Hh Hr).
    vm_compute. repeat constructor.
  - apply (wordCount_spaced [] [] []); constructor.
Defined.

(** *** Caption scan *)

(** The lazy star stops at the first place where what follows it
    matches. *)
Lemma star_lazy_first p k c x : forall rest i,
  star_lazy p k i rest c = Some x ->
  exists n, n <= length rest /\ Forall (fun d => p d = true) (take n rest)
            /\ k (i + n) (drop n rest) c = Some x
            /\ forall j, j < n -> k (i + j) (drop j rest) c = None.
Proof.
  induction rest as [|d rest IH]; intros i; simpl.
  - destruct (k i [] c) eqn:Hk; [|discriminate]. intros [= <-].
    exists 0. rewrite Nat.add_0_r. repeat split; [done|constructor|done|lia].
  - destruct (k i (d :: rest) c) eqn:Hk.
    + intros [= <-]. exists 0. rewrite Nat.add_0_r.
      repeat split; [lia|constructor|done|lia].
    + destruct (p d) eqn:Hd; [|discriminate].
      intros (n & Hn & Hall & Hkn & Hmin)%IH. exists (S n).
      split; [lia|]. split; [by constructor|].
      split; [by replace (i + S n) with (S i + n) by lia|].
      intros [|j] Hj; [by rewrite Nat.add_0_r|].
      replace (i + S j) with (S i + j) by lia. apply Hmin. lia.
Qed.

(** *** The request handler *)

Module HandlerMore.
Import Handler Store HandlerFacts Calls.

Section Yields.
Context (P : Event -> Prop).

Lemma yields_ret {A} (Q : A -> Prop) (a : A) : Q a -> yields P Q (ret a).
Proof.
  intros Ha w. exists []. rewrite app_nil_r. split; [done|]. split; [constructor|].
  by intros a' [= <-].
Qed.

Lemma yields_throw {A} (Q : A -> Prop) e : yields P Q (throw e).
Proof.
  intros w. exists []. rewrite app_nil_r. split; [done|]. split; [constructor|].
  intros a'. discriminate.
Qed.

Lemma yields_emit (Q : unit -> Prop) e : P e -> Q tt -> yields P Q (emit e).
Proof.
  intros He Hq w. exists [e]. split; [done|]. split; [by constructor|].
  by intros [] _.
Qed.

Lemma yields_bind {A B} (Q : A -> Prop) (R : B -> Prop) (c : M A) (f : A -> M B) :
  yields P Q c -> (forall a, Q a -> yields P R (f a)) -> yields P R (bind c f).
Proof.
  intros Hc Hf w. unfold bind. destruct (Hc w) as (evs & Ht & Hall & Hq).
  destruct (c w) as [[e|a] w1]; simpl in *.
  - exists evs. split; [done|]. split; [done|]. intros b. discriminate.
  - destruct (Hf a (Hq a eq_refl) w1) as (evs' & Ht' & Hall' & Hr).
    exists (evs ++ evs'). rewrite Ht', Ht, <- app_assoc. split; [done|].
    split; [by apply Forall_app|done].
Qed.

Lemma yields_try_catch {A} (Q : A -> Prop) (c : M A) (h : exn -> M A) :
  yields P Q c -> (forall e, yields P Q (h e)) -> yields P Q (try_catch c h).
Proof.
  intros Hc Hh w. unfold try_catch. destruct (Hc w) as (evs & Ht & Hall & Hq).
  destruct (c w) as [[e|a] w1]; simpl in *.
  - destruct (Hh e w1) as (evs' & Ht' & Hall' & Hr).
    exists (evs ++ evs'). rewrite Ht', Ht, <- app_assoc. split; [done|].
    split; [by apply Forall_app|done].
  - exists evs. split; [done|]. split; [done|]. done.
Qed.

Lemma yields_emits {A} (c : M A) : emits P c -> yields P (fun _ => True) c.
Proof.
  intros Hc w. destruct (Hc w) as (evs & Ht & Hall). exists evs. by repeat split.
Qed.

Lemma yields_weaken {A} (Q R : A -> Prop) (c : M A) :
  (forall a, Q a -> R a) -> yields P Q c -> yields P R c.
Proof.
  intros HQR Hc w. destruct (Hc w) as (evs & Ht & Hall & Hq).
  exists evs. split; [done|]. split; [done|]. intros a Ha. by apply HQR, Hq.
Qed.

End Yields.

(** What a run adds to the trace, read off [yields] for the whole
    handler. *)
Lemma yields_POST P Q env req :
  yields P Q (POST_try env req) ->
  forall w, Forall P (events env req w)
            /\ forall resp, (POST_try env req w).1 = inr resp -> Q resp.
Proof.
  intros Hy w. destruct (Hy w) as (evs & Ht & Hall & Hq). split; [|done].
  unfold events.
  assert (trace (POST env req w).2 = trace w ++ evs) as ->.
  { unfold POST. by destruct (POST_try env req w) as [[e|resp] w']. }
  by rewrite drop_app_length.
Qed.

(** The metadata request never throws: it returns a title and a channel,
    ['Unknown'] for what it could not get, after one fetch. *)
Lemma fetchVideoMetadata_returns env videoId w :
  exists title channel,
    fetchVideoMetadata env videoId w
    = (inr (title, channel),
       mkWorld (profiles w) (transcriptions w)
         (trace w ++ [EvFetch (oembed_url videoId) None]))
    /\ truthy title = true /\ truthy channel = true
    /\ (match fetch env (oembed_url videoId) None with
        | inr res =>
            if res_ok res then
              match JSON_oembed env (res_text res) with
              | Some (t, a) => title = or_else (Some t) Unknown
                               /\ channel = or_else (Some a) Unknown
              | None => title = Unknown /\ channel = Unknown
              end
            else title = Unknown /\ channel = Unknown
        | inl _ => title = Unknown /\ channel = Unknown
        end).
Proof.
  assert (forall s, truthy (or_else (Some s) Unknown) = true) as Hor.
  { intros s. unfold or_else. by destruct (truthy s) eqn:Hs. }
  unfold fetchVideoMetadata, do_fetch, try_catch, bind, emit, ret, throw.
  cbn [fst snd]. fold (oembed_url videoId).
  destruct (fetch env (oembed_url videoId) None) as [e|res]; cbn.
  - by eexists _, _.
  - destruct (res_ok res); cbn; [|by eexists _, _].
    destruct (JSON_oembed env (res_text res)) as [[t a]|]; cbn; [|by eexists _, _].
    eexists _, _. split; [reflexivity|]. split; [apply Hor|]. split; [apply Hor|done].
Qed.

(** What the transcript stage on the server ends with. *)
Lemma server_transcript_inv env b videoId userId ws w r w' :
  server_transcript env b videoId userId ws w = (r, w') ->
  exists title channel w1,
    fetchVideoMetadata env videoId w = (inr (title, channel), w1)
    /\ match fetchTranscript env videoId w1 with
       | (inr t, w2) =>
           r = inr (Continue (mkObtained videoId (videoUrl b) userId ws
                                (t_plainText t) (t_timestampedText t)
                                (t_language t) title channel))
           /\ w' = w2
       | (inl e, w2) =>
           r = inr (Answer (mkResponse 422 (ErrorBody (message e) true)))
           /\ w' = w2
       end.
Proof.
  destruct (fetchVideoMetadata_returns env videoId w) as (title & channel & Hm & _).
  unfold server_transcript, bind at 1. rewrite Hm. unfold try_catch, bind.
  intros Hs. eexists _, _, _. split; [reflexivity|].
  destruct (fetchTranscript env videoId _) as [[e|t] w2]; cbn in Hs |- *;
    by injection Hs as <- <-.
Qed.

(** What the first part of the handler ends with, path by path. *)
Lemma front_inv env req w r w1 :
  front env req w = (r, w1) ->
  (exists e, r = inl e /\ w1 = w
             /\ (req_json req = inl e
                 \/ exists b, req_json req = inr b /\ resolve_videoId b = inl e))
  \/ (exists msg, r = inr (Answer (error_response 400 msg)) /\ w1 = w
                  /\ forall videoId, ~ names_video req videoId)
  \/ (exists b videoId wq,
        req_json req = inr b /\ names_video req videoId
        /\ resolve_videoId b = inr (Some videoId)
        /\ wq = mkWorld (profiles w) (transcriptions w)
                  (trace w ++ lookups env req)
        /\ ((over_quota env req w = true
             /\ r = inr (Answer (error_response 402 quota_message)) /\ w1 = wq)
            \/ (over_quota env req w = false
                /\ exists ct, clientTranscript b = Some ct
                     /\ truthy_opt (ct_text ct) = true
                     /\ r = inr (Continue (client_obtained env req b videoId ct))
                     /\ w1 = wq)
            \/ (over_quota env req w = false
                /\ (forall ct, clientTranscript b = Some ct ->
                      truthy_opt (ct_text ct) = false)
                /\ server_transcript env b videoId (user_of env req)
                     (default true (withSummary b)) wq = (r, w1)))).
Proof.
  unfold front.
  destruct (req_json req) as [e|b] eqn:Hb.
  { intros [= <- <-]. left. exists e. split; [done|]. split; [done|]. by left. }
  assert (forall videoId, names_video req videoId ->
            (truthy_opt (videoUrl b) || bool_decide (is_Some (clientTranscript b))) = true
            /\ resolve_videoId b = inr (Some videoId) /\ truthy videoId = true) as Hn.
  { intros videoId (b' & Hb' & H). rewrite Hb in Hb'. by injection Hb' as <-. }
  destruct (_ && _) eqn:Hreq.
  { intros [= <- <-]. right; left. eexists. split; [reflexivity|]. split; [done|].
    intros videoId (Ht & _)%Hn. apply andb_true_iff in Hreq as [H1 H2].
    apply negb_true_iff in H1, H2. by rewrite H1, H2 in Ht. }
  destruct (resolve_videoId b) as [e|[videoId|]] eqn:Hres.
  { intros [= <- <-]. left. exists e. split; [done|]. split; [done|]. right.
    by exists b. }
  2:{ intros [= <- <-]. right; left. eexists. split; [reflexivity|]. split; [done|].
      intros videoId (_ & Hr & _)%Hn. discriminate. }
  destruct (truthy videoId) eqn:Hv; cbn [negb].
  2:{ intros [= <- <-]. right; left. eexists. split; [reflexivity|]. split; [done|].
      intros videoId' (_ & Hr & Ht)%Hn. congruence. }
  assert (names_video req videoId) as Hnv.
  { exists b. split; [done|]. split; [|done].
    apply andb_false_iff in Hreq as [Hr|Hr]; apply negb_false_iff in Hr;
      rewrite Hr; [done|by rewrite orb_true_r]. }
  intros Hf. right; right. exists b, videoId. eexists. split; [done|].
  split; [done|]. split; [done|]. split; [reflexivity|].
  revert Hf. unfold user_of, lookups, over_quota, client_obtained, user_of.
  unfold bind, auth_getUser, select_profile, emit, ret. destruct w as [ps ts tr].
  destruct (authorization req) as [h|]; [destruct (truthy h)|]; cbn -[lit].
  1: destruct (getUser env _) as [uid|]; [destruct (truthy uid)|]; cbn -[lit].
  1: rewrite <- !app_assoc; cbn -[lit].
  1: destruct (ps !! uid) as [p|]; cbn -[lit].
  1: destruct (bool_decide _ && _); cbn -[lit].
  1: by intros [= <- <-]; left.
  all: rewrite ?app_nil_r.
  all: destruct (clientTranscript b) as [ct|];
    [destruct (truthy_opt (ct_text ct)) eqn:Hct|]; cbn -[lit].
  all: try (intros [= <- <-]; right; left; split; [done|]; by exists ct).
  all: intros Hs; right; right; split; [done|]; split; [|exact Hs].
  all: by intros ct' [= <-] || by intros ct' [=].
Qed.

(** The caption acquisition only makes fetches without a body and leaves
    the tables alone. *)
Lemma fetchTranscript_calls env videoId w :
  exists tevs,
    trace (fetchTranscript env videoId w).2 = trace w ++ tevs
    /\ Forall (fun e => is_page_fetch e = true) tevs
    /\ profiles (fetchTranscript env videoId w).2 = profiles w
    /\ transcriptions (fetchTranscript env videoId w).2 = transcriptions w.
Proof.
  assert (emits (fun e => is_page_fetch e = true) (fetchTranscript env videoId)) as He.
  { unfold fetchTranscript, do_fetch. repeat emits_step. }
  destruct (He w) as (tevs & Ht & Hall).
  destruct (preserves_fetchTranscript env videoId w) as [Hp Hts].
  by exists tevs.
Qed.

(** The paths of the handler up to the summary stage: the response or
    the transcript in hand, the calls made, the tables unchanged. *)
Lemma front_paths env req w r w1 :
  front env req w = (r, w1) ->
  profiles w1 = profiles w /\ transcriptions w1 = transcriptions w
  /\ ((exists e, r = inl e /\ trace w1 = trace w
                 /\ (req_json req = inl e
                     \/ exists b, req_json req = inr b /\ resolve_videoId b = inl e))
      \/ (exists msg, r = inr (Answer (error_response 400 msg))
                      /\ trace w1 = trace w
                      /\ forall videoId, ~ names_video req videoId)
      \/ (exists b videoId,
            req_json req = inr b /\ names_video req videoId
            /\ resolve_videoId b = inr (Some videoId)
            /\ ((over_quota env req w = true
                 /\ r = inr (Answer (error_response 402 quota_message))
                 /\ trace w1 = trace w ++ lookups env req)
                \/ (over_quota env req w = false
                    /\ exists ct, clientTranscript b = Some ct
                         /\ truthy_opt (ct_text ct) = true
                         /\ r = inr (Continue (client_obtained env req b videoId ct))
                         /\ trace w1 = trace w ++ lookups env req)
                \/ (over_quota env req w = false
                    /\ (forall ct, clientTranscript b = Some ct ->
                          truthy_opt (ct_text ct) = false)
                    /\ exists title channel tevs,
                         trace w1 = trace w ++ lookups env req
                                    ++ EvFetch (oembed_url videoId) None :: tevs
                         /\ Forall (fun e => is_page_fetch e = true) tevs
                         /\ truthy title = true /\ truthy channel = true
                         /\ ((exists msg,
                                r = inr (Answer (mkResponse 422 (ErrorBody msg true))))
                             \/ (exists t,
                                   r = inr (Continue
                                     (mkObtained videoId (videoUrl b)
                                        (user_of env req)
                                        (default true (withSummary b))
                                        (t_plainText t) (t_timestampedText t)
                                        (t_language t) title channel)))))))).
Proof.
  intros Hf. destruct (preserves_front env req w) as [Hp Ht]. rewrite Hf in Hp, Ht.
  split; [done|]. split; [done|].
  apply front_inv in Hf as [(e & -> & -> & Hwhy)|[(msg & -> & -> & Hn)|
    (b & videoId & wq & Hb & Hn & Hres & -> & Hcases)]].
  - left. eauto.
  - right; left. eauto.
  - right; right. exists b, videoId. split; [done|]. split; [done|]. split; [done|].
    destruct Hcases as [(Hq & -> & ->)|[(Hq & ct & Hct & Htx & -> & ->)|(Hq & Hno & Hs)]].
    + left. done.
    + right; left. split; [done|]. by exists ct.
    + right; right. split; [done|]. split; [done|].
      apply server_transcript_inv in Hs as (title & channel & wm & Hm & Hs).
      destruct (fetchVideoMetadata_returns env videoId
                  (mkWorld (profiles w) (transcriptions w) (trace w ++ lookups env req)))
        as (title' & channel' & Hm' & Htt & Htc & _).
      rewrite Hm in Hm'. injection Hm' as <- <- ->.
      destruct (fetchTranscript_calls env videoId
                  (mkWorld (profiles w) (transcriptions w)
                     ((trace w ++ lookups env req)
                      ++ [EvFetch (oembed_url videoId) None])))
        as (tevs & Htr & Hall & _).
      cbn [profiles transcriptions trace] in Hs, Htr.
      exists title, channel, tevs.
      destruct (fetchTranscript env videoId _) as [[e|t] w2];
        destruct Hs as [-> ->]; cbn [snd] in Htr; rewrite Htr, <- !app_assoc;
        (split; [done|]); (split; [done|]); (split; [done|]); (split; [done|]);
        [left|right]; eauto.
Qed.

(** The summary stage: it returns, the tables are as they were, it makes
    the one request of [summary_calls], a summary and an error never come
    together, and an error is never the empty text. *)
Lemma summarize_inv env o w :
  exists summary summaryError,
    summarize env o w
    = (inr (summary, summaryError),
       mkWorld (profiles w) (transcriptions w) (trace w ++ summary_calls env o))
    /\ (summary <> None -> summaryError = None)
    /\ (forall msg, summaryError = Some msg -> truthy msg = true)
    /\ (o_withSummary o && truthy (o_plainText o) = false <->
        summary = None /\ summaryError = None).
Proof.
  assert (forall s d, truthy d = true -> truthy (or_else (Some s) d) = true) as Hor.
  { intros s d Hd. unfold or_else. by destruct (truthy s) eqn:Hs. }
  destruct w as [ps ts tr].
  unfold summarize, summary_calls, summary_attempt, generateSummaryGemini,
    generateSummary, do_fetch, try_catch, bind, emit, ret, throw.
  fold (summary_prompt (o_plainText o) (o_title o) (o_channel o)).
  destruct (o_withSummary o && truthy (o_plainText o)); cbn -[lit or_else api_error].
  2:{ rewrite app_nil_r. by eexists _, _. }
  assert (forall (summary summaryError : option jsstring),
            (summary <> None -> summaryError = None) ->
            (forall msg, summaryError = Some msg -> truthy msg = true) ->
            summary <> None \/ summaryError <> None ->
            (summary <> None -> summaryError = None)
            /\ (forall msg, summaryError = Some msg -> truthy msg = true)
            /\ (true = false <-> summary = None /\ summaryError = None)) as Hclose.
  { intros s se H1 H2 H3. split; [done|]. split; [done|]. split; [done|].
    intros [-> ->]. by destruct H3. }
  assert (forall e d, truthy d = true ->
            forall msg, Some (or_else (Some (message e)) d) = Some msg ->
                        truthy msg = true) as Herr.
  { intros e d Hd msg Hm. apply (inj Some) in Hm. subst msg. by apply Hor. }
  destruct (usable_key (GEMINI_API_KEY env)) as [gk|]; cbn -[lit or_else api_error].
  - fold (gemini_url gk).
    destruct (fetch env (gemini_url gk) _) as [e|res]; cbn -[lit or_else api_error].
    { eexists _, _. split; [reflexivity|].
      apply Hclose; [done|by apply Herr|by right]. }
    destruct (res_ok res); cbn -[lit or_else api_error].
    2:{ eexists _, _. split; [reflexivity|].
        apply Hclose; [done|by apply Herr|by right]. }
    destruct (JSON_gemini env (res_text res)) as [e|s]; cbn -[lit or_else api_error].
    + eexists _, _. split; [reflexivity|].
      apply Hclose; [done|by apply Herr|by right].
    + eexists _, _. split; [reflexivity|]. apply Hclose; [done|done|by left].
  - destruct (usable_key (ANTHROPIC_API_KEY env)) as [ak|];
      cbn -[lit or_else api_error].
    2:{ rewrite app_nil_r. eexists _, _. split; [reflexivity|].
        apply Hclose; [done| |by right].
        intros msg Hm. apply (inj Some) in Hm. by subst msg. }
    fold anthropic_url.
    destruct (fetch env anthropic_url _) as [e|res]; cbn -[lit or_else api_error].
    { eexists _, _. split; [reflexivity|].
      apply Hclose; [done|by apply Herr|by right]. }
    destruct (res_ok res); cbn -[lit or_else api_error].
    2:{ eexists _, _. split; [reflexivity|].
        apply Hclose; [done|by apply Herr|by right]. }
    destruct (JSON_anthropic env (res_text res)) as [e|s]; cbn -[lit or_else api_error].
    + eexists _, _. split; [reflexivity|].
      apply Hclose; [done|by apply Herr|by right].
    + eexists _, _. split; [reflexivity|]. apply Hclose; [done|done|by left].
Qed.

(** The part of the handler after the transcript: the response, the calls
    and the two tables. *)
Lemma back_inv env o w :
  exists summary summaryError w2,
    back env o w
    = (inr (mkResponse 200
              (ResultBody
                 (mkResult (o_userId o ≫= fun userId =>
                              inserted_id env (row_of env o userId summary))
                    (o_videoId o) (o_title o) (o_channel o) (o_plainText o)
                    (o_timestampedText o) (o_language o)
                    (wordCount (o_plainText o)) summary summaryError
                    (elapsed env)))), w2)
    /\ trace w2 = trace w ++ summary_calls env o
                   ++ store_calls env o (profiles w) summary
    /\ profiles w2 = decremented (o_userId o) (profiles w)
    /\ transcriptions w2 = transcriptions w ++ inserted_rows env o summary
    /\ (summary <> None -> summaryError = None)
    /\ (forall msg, summaryError = Some msg -> truthy msg = true)
    /\ (o_withSummary o && truthy (o_plainText o) = false <->
        summary = None /\ summaryError = None).
Proof.
  destruct (summarize_inv env o w) as (summary & summaryError & Hs & H1 & H2 & H3).
  exists summary, summaryError.
  unfold back, bind at 1. rewrite Hs.
  unfold store_calls, inserted_rows, decremented, row_of.
  destruct (o_userId o) as [uid|]; cbn -[lit wordCount].
  - unfold insert_transcription, select_profile, update_credits, emit, bind, ret.
    cbn -[lit wordCount].
    destruct (inserted_id env _) as [id|]; cbn -[lit wordCount];
      destruct (profiles w !! uid) as [p|]; cbn -[lit wordCount];
      try destruct (0 <? credits_remaining p)%Z; cbn -[lit wordCount];
      eexists; (split; [reflexivity|]); cbn -[lit wordCount];
      rewrite <- ?app_assoc, ?app_nil_r; done.
  - eexists. split; [reflexivity|]. cbn. by rewrite !app_nil_r.
Qed.

(** The whole run, from what the first part ends with. *)
Lemma POST_run env req w r w1 :
  front env req w = (r, w1) ->
  exists evs1, trace w1 = trace w ++ evs1 /\
  match r with
  | inl e =>
      POST env req w
      = (error_response 500
           (or_else (Some (message e)) (lit "Internal server error")), w1)
      /\ events env req w = evs1
  | inr (Answer resp) =>
      POST env req w = (resp, w1) /\ events env req w = evs1
  | inr (Continue o) =>
      exists summary summaryError w2,
        POST env req w
        = (mkResponse 200
             (ResultBody
                (mkResult (o_userId o ≫= fun userId =>
                             inserted_id env (row_of env o userId summary))
                   (o_videoId o) (o_title o) (o_channel o) (o_plainText o)
                   (o_timestampedText o) (o_language o)
                   (wordCount (o_plainText o)) summary summaryError
                   (elapsed env))), w2)
        /\ events env req w
           = evs1 ++ summary_calls env o ++ store_calls env o (profiles w) summary
        /\ profiles w2 = decremented (o_userId o) (profiles w)
        /\ transcriptions w2 = transcriptions w ++ inserted_rows env o summary
        /\ (summary <> None -> summaryError = None)
        /\ (forall msg, summaryError = Some msg -> truthy msg = true)
        /\ (o_withSummary o && truthy (o_plainText o) = false <->
            summary = None /\ summaryError = None)
  end.
Proof.
  intros Hf.
  assert (exists evs1, trace w1 = trace w ++ evs1) as [evs1 Ht].
  { destruct (emits_front env req w) as (evs & Ht & _). rewrite Hf in Ht.
    cbn [snd] in Ht. eauto. }
  destruct (preserves_front env req w) as [Hp Hts]. rewrite Hf in Hp, Hts.
  cbn [snd] in Hp, Hts.
  exists evs1. split; [done|]. unfold events, POST, POST_try, bind. rewrite Hf.
  destruct r as [e|[resp|o]]; cbn [snd ret].
  - by rewrite Ht, drop_app_length.
  - by rewrite Ht, drop_app_length.
  - destruct (back_inv env o w1)
      as (summary & summaryError & w2 & -> & Htr & Hpr & Htb & H1 & H2 & H3).
    exists summary, summaryError, w2. cbn [snd].
    rewrite Htr, Ht, <- app_assoc, drop_app_length, <- Hp, <- Hts. done.
Qed.

(** Every run of the handler is one of five: an early answer (400, or
    500 for what reading the request throws), the quota answer, the 422 of
    a failed caption acquisition, and the two that end with 200, with the
    transcript of the client or with the one acquired. *)
Lemma POST_cases env req w :
  (exists st msg,
      (st = 400 \/ st = 500)
      /\ POST env req w = (error_response st msg, w)
      /\ events env req w = []
      /\ (st = 400 -> forall videoId, ~ names_video req videoId)
      /\ (st = 500 ->
          exists e, req_json req = inl e
                    \/ exists b, req_json req = inr b /\ resolve_videoId b = inl e))
  \/ (exists b videoId,
        req_json req = inr b /\ names_video req videoId
        /\ resolve_videoId b = inr (Some videoId)
        /\ ((over_quota env req w = true
             /\ (POST env req w).1 = error_response 402 quota_message
             /\ events env req w = lookups env req
             /\ profiles (POST env req w).2 = profiles w
             /\ transcriptions (POST env req w).2 = transcriptions w)
            \/ (over_quota env req w = false
                /\ (forall ct, clientTranscript b = Some ct ->
                      truthy_opt (ct_text ct) = false)
                /\ exists msg tevs,
                     (POST env req w).1 = mkResponse 422 (ErrorBody msg true)
                     /\ events env req w
                        = lookups env req ++ EvFetch (oembed_url videoId) None :: tevs
                     /\ Forall (fun e => is_page_fetch e = true) tevs
                     /\ profiles (POST env req w).2 = profiles w
                     /\ transcriptions (POST env req w).2 = transcriptions w)
            \/ (over_quota env req w = false
                /\ exists o fevs summary summaryError,
                     (POST env req w).1
                     = mkResponse 200
                         (ResultBody
                            (mkResult (o_userId o ≫= fun userId =>
                                         inserted_id env (row_of env o userId summary))
                               (o_videoId o) (o_title o) (o_channel o)
                               (o_plainText o) (o_timestampedText o) (o_language o)
                               (wordCount (o_plainText o)) summary summaryError
                               (elapsed env)))
                     /\ events env req w
                        = lookups env req ++ fevs ++ summary_calls env o
                          ++ store_calls env o (profiles w) summary
                     /\ Forall (fun e => is_page_fetch e = true) fevs
                     /\ o_videoId o = videoId /\ o_videoUrl o = videoUrl b
                     /\ o_userId o = user_of env req
                     /\ o_withSummary o = default true (withSummary b)
                     /\ ((exists ct, clientTranscript b = Some ct
                            /\ truthy_opt (ct_text ct) = true
                            /\ o = client_obtained env req b videoId ct
                            /\ fevs = [])
                         \/ ((forall ct, clientTranscript b = Some ct ->
                                truthy_opt (ct_text ct) = false)
                             /\ truthy (o_title o) = true
                             /\ truthy (o_channel o) = true
                             /\ exists tevs,
                                  fevs = EvFetch (oembed_url videoId) None :: tevs))
                     /\ profiles (POST env req w).2
                        = decremented (o_userId o) (profiles w)
                     /\ transcriptions (POST env req w).2
                        = transcriptions w ++ inserted_rows env o summary
                     /\ (summary <> None -> summaryError = None)
                     /\ (forall msg, summaryError = Some msg -> truthy msg = true)
                     /\ (o_withSummary o && truthy (o_plainText o) = false <->
                         summary = None /\ summaryError = None)))).
Proof.
  destruct (front env req w) as [r w1] eqn:Hf.
  destruct (POST_run env req w r w1 Hf) as (evs1 & Ht & Hrun).
  apply front_paths in Hf as (Hp & Hts & Hf).
  assert (forall evs, trace w1 = trace w ++ evs -> evs1 = evs) as Hevs.
  { intros evs He. rewrite Ht in He. by apply app_inv_head in He. }
  assert (w1 = w -> trace w1 = trace w ++ []) as Hnil.
  { intros ->. by rewrite app_nil_r. }
  destruct Hf as [(e & -> & He & Hwhy)|[(msg & -> & He & Hn)|
    (b & videoId & Hb & Hn & Hres & Hf)]].
  - left. destruct Hrun as [HP Hev]. exists 500. eexists.
    assert (w1 = w) as ->.
    { destruct w1, w. cbn in *. congruence. }
    split; [by right|]. split; [exact HP|]. split; [|split; [done|eauto]].
    rewrite Hev. apply Hevs. by rewrite app_nil_r.
  - left. destruct Hrun as [HP Hev]. exists 400, msg.
    assert (w1 = w) as ->.
    { destruct w1, w. cbn in *. congruence. }
    split; [by left|]. split; [exact HP|]. split; [|split; [done|discriminate]].
    rewrite Hev. apply Hevs. by rewrite app_nil_r.
  - right. exists b, videoId. split; [done|]. split; [done|]. split; [done|].
    destruct Hf as [(Hq & -> & He)|[(Hq & ct & Hct & Htx & -> & He)|
      (Hq & Hno & title & channel & tevs & He & Hall & Htt & Htc &
       [(msg & ->)|(t & ->)])]].
    + left. destruct Hrun as [-> ->]. cbn [fst snd].
      split; [done|]. split; [done|]. split; [by apply Hevs|]. done.
    + right; right. split; [done|].
      destruct Hrun as (summary & summaryError & w2 & -> & -> & Hpr & Htb & H1 & H2 & H3).
      exists (client_obtained env req b videoId ct), [], summary, summaryError.
      cbn [fst snd]. rewrite (Hevs _ He).
      split; [done|]. split; [done|]. split; [constructor|].
      split; [done|]. split; [done|]. split; [done|]. split; [done|].
      split; [left; by exists ct|]. done.
    + right; left. split; [done|]. split; [done|]. exists msg, tevs.
      destruct Hrun as [-> ->]. cbn [fst snd].
      split; [done|]. split; [by apply Hevs|]. done.
    + right; right. split; [done|].
      destruct Hrun as (summary & summaryError & w2 & -> & -> & Hpr & Htb & H1 & H2 & H3).
      eexists _, (EvFetch (oembed_url videoId) None :: tevs), summary, summaryError.
      cbn [fst snd]. rewrite (Hevs _ He), <- !app_assoc.
      split; [reflexivity|]. split; [done|]. split; [by constructor|].
      split; [done|]. split; [done|]. split; [done|]. split; [done|].
      split; [right; eauto|]. done.
Qed.

(** The kinds of the calls of each stage. *)
Lemma lookups_kinds env req :
  Forall (fun e => is_page_fetch e = false /\ is_summary_request e = false
                   /\ is_write e = false) (lookups env req).
Proof.
  unfold lookups. destruct (authorization req) as [h|]; [|constructor].
  destruct (truthy h); [|constructor]. constructor; [done|].
  destruct (user_of env req); repeat constructor.
Qed.

Lemma lookups_no_account env req :
  user_of env req = None -> Forall (fun e => is_store e = false) (lookups env req).
Proof.
  unfold lookups. intros ->. destruct (authorization req) as [h|]; [|constructor].
  destruct (truthy h); repeat constructor.
Qed.

Lemma summary_calls_kinds env o :
  length (summary_calls env o) <= 1
  /\ Forall (fun e => is_summary_request e = true /\ is_store e = false
                      /\ is_page_fetch e = false) (summary_calls env o).
Proof.
  unfold summary_calls. destruct (_ && _); [|split; [simpl; lia|constructor]].
  destruct (usable_key (GEMINI_API_KEY env)); [split; [simpl; lia|by repeat constructor]|].
  destruct (usable_key (ANTHROPIC_API_KEY env));
    split; simpl; try lia; by repeat constructor.
Qed.

Lemma store_calls_kinds env o ps summary :
  Forall (fun e => is_page_fetch e = false /\ is_summary_request e = false)
    (store_calls env o ps summary).
Proof.
  unfold store_calls. destruct (o_userId o) as [uid|]; [|constructor].
  constructor; [done|]. constructor; [done|].
  destruct (ps !! uid) as [p|]; [|constructor].
  destruct (0 <? credits_remaining p)%Z; repeat constructor.
Qed.

Lemma page_fetch_kinds e :
  is_page_fetch e = true ->
  is_summary_request e = false /\ is_write e = false /\ is_store e = false.
Proof. by destruct e as [| |url [p|]| |]. Qed.

End HandlerMore.

Import Handler Store Calls.

(** X10: the metadata request never throws and never returns an empty
    title or channel: after its one fetch it returns what oEmbed gave,
    and ['Unknown'] for a field that is missing or empty, for a response
    that is not ok, for a body that does not parse and for a fetch that
    fails.  The tables are not touched. *)
Theorem fetchVideoMetadata_never_throws (env : Env) (videoId : jsstring) (w : World) :
  exists title channel w',
    fetchVideoMetadata env videoId w = (inr (title, channel), w')
    /\ truthy title = true /\ truthy channel = true
    /\ trace w' = trace w ++ [EvFetch (oembed_url videoId) None]
    /\ profiles w' = profiles w /\ transcriptions w' = transcriptions w
    /\ (forall e, fetch env (oembed_url videoId) None = inl e ->
          title = Unknown /\ channel = Unknown)
    /\ (forall res, fetch env (oembed_url videoId) None = inr res ->
          res_ok res = false \/ JSON_oembed env (res_text res) = None ->
          title = Unknown /\ channel = Unknown).
Proof.
  destruct (HandlerMore.fetchVideoMetadata_returns env videoId w)
    as (title & channel & Hm & Ht & Hc & Hcase).
  exists title, channel. eexists. split; [exact Hm|].
  cbn [trace profiles transcriptions].
  split; [done|]. split; [done|]. split; [done|]. split; [done|]. split; [done|].
  split.
  - intros e He. by rewrite He in Hcase.
  - intros res Hr Hbad. rewrite Hr in Hcase.
    destruct (res_ok res); [|done]. destruct Hbad as [|Hj]; [done|].
    by rewrite Hj in Hcase.
Qed.

(** X11: the responses of the handler.  The status is 200, 400, 402, 422
    or 500; a 200 and only a 200 carries a result; and the hint
    [fallbackToClient] is set on the 422 of a failed caption acquisition
    and on no other error. *)
Theorem POST_status_taxonomy (env : Env) (req : Request) (w : World) :
  In (status (POST env req w).1) [200; 400; 402; 422; 500]
  /\ (status (POST env req w).1 = 200 <->
      exists r, body (POST env req w).1 = ResultBody r)
  /\ (forall msg fallback,
        body (POST env req w).1 = ErrorBody msg fallback ->
        (fallback = true <-> status (POST env req w).1 = 422)).
Proof.
  destruct (front env req w) as [r w1] eqn:Hf.
  destruct (HandlerMore.POST_run env req w r w1 Hf) as (evs1 & _ & Hrun).
  apply HandlerMore.front_paths in Hf as (_ & _ & Hf).
  destruct Hf as [(e & -> & _)|[(msg & -> & _)|(b & videoId & _ & _ & _ & Hf)]].
  - destruct Hrun as [-> _]. cbn. split; [tauto|]. split.
    + split; [discriminate|]. by intros [r [=]].
    + intros msg fb [= <- <-]. split; discriminate.
  - destruct Hrun as [-> _]. cbn. split; [tauto|]. split.
    + split; [discriminate|]. by intros [r [=]].
    + intros msg' fb [= <- <-]. split; discriminate.
  - destruct Hf as [(_ & -> & _)|[(_ & ct & _ & _ & -> & _)|
      (_ & _ & title & channel & tevs & _ & _ & _ & _ & [(msg & ->)|(t & ->)])]].
    + destruct Hrun as [-> _]. cbn. split; [tauto|]. split.
      * split; [discriminate|]. by intros [r [=]].
      * intros msg' fb [= <- <-]. split; discriminate.
    + destruct Hrun as (s & se & w2 & -> & _). cbn. split; [tauto|]. split.
      * split; [eauto|done].
      * intros msg' fb [=].
    + destruct Hrun as [-> _]. cbn. split; [tauto|]. split.
      * split; [discriminate|]. by intros [r [=]].
      * intros msg' fb [= <- <-]. split; done.
    + destruct Hrun as (s & se & w2 & -> & _). cbn. split; [tauto|]. split.
      * split; [eauto|done].
      * intros msg' fb [=].
Qed.

(** X12: a request that is not answered 200 writes nothing: the two
    tables are as they were, no row was inserted and no credit was
    taken. *)
Theorem failed_request_changes_nothing (env : Env) (req : Request) (w : World) :
  status (POST env req w).1 <> 200 ->
  profiles (POST env req w).2 = profiles w
  /\ transcriptions (POST env req w).2 = transcriptions w
  /\ Forall (fun e => is_write e = false) (events env req w).
Proof.
  intros Hs.
  destruct (HandlerMore.POST_cases env req w)
    as [(st & msg & _ & HP & -> & _)|(b & videoId & _ & _ & _ & Hc)].
  - rewrite HP. by repeat split.
  - destruct Hc as [(_ & _ & -> & Hp & Ht)|[(_ & _ & msg & tevs & _ & -> & Hall & Hp & Ht)|
      (_ & o & fevs & s & se & HP & _)]].
    + split; [done|]. split; [done|].
      eapply Forall_impl; [apply HandlerMore.lookups_kinds|]. by intros e (_ & _ & ?).
    + split; [done|]. split; [done|]. apply Forall_app. split.
      * eapply Forall_impl; [apply HandlerMore.lookups_kinds|]. by intros e (_ & _ & ?).
      * constructor; [done|]. eapply Forall_impl; [exact Hall|].
        by intros e (_ & ? & _)%HandlerMore.page_fetch_kinds.
    + by rewrite HP in Hs.
Qed.

(** The account without credits: the answer is 402, the tables are as
    they were and nothing was written. *)
Lemma failed_request_changes_nothing_witness :
  status (POST env_example req_client (world_of "free" 0)).1 = 402
  /\ profiles (POST env_example req_client (world_of "free" 0)).2
     = profiles (world_of "free" 0)
  /\ transcriptions (POST env_example req_client (world_of "free" 0)).2 = []
  /\ Forall (fun e => is_write e = false)
       (events env_example req_client (world_of "free" 0)).
Proof.
  split; [vm_compute; reflexivity|].
  destruct (failed_request_changes_nothing env_example req_client (world_of "free" 0))
    as (Hp & Ht & Hw).
  - vm_compute. discriminate.
  - split; [exact Hp|]. split; [exact Ht|exact Hw].
Defined.

(** X13: a request that names no account (no [authorization] header, an
    empty one, or a token that the authentication service does not know)
    never reaches the store: no profile is read, nothing is inserted or
    updated, the answer is never the quota answer, and the [id] of a
    result is [null]. *)
Theorem request_without_account (env : Env) (req : Request) (w : World) :
  user_of env req = None ->
  Forall (fun e => is_store e = false) (events env req w)
  /\ profiles (POST env req w).2 = profiles w
  /\ transcriptions (POST env req w).2 = transcriptions w
  /\ status (POST env req w).1 <> 402
  /\ (forall r, body (POST env req w).1 = ResultBody r -> r_id r = None).
Proof.
  intros Hu.
  destruct (HandlerMore.POST_cases env req w)
    as [(st & msg & Hst & HP & -> & _)|(b & videoId & _ & _ & _ & Hc)].
  - rewrite HP. cbn. repeat split; [constructor| |by intros r [=]].
    by destruct Hst as [-> | ->].
  - destruct Hc as [(Hq & _)|[(_ & _ & msg & tevs & -> & -> & Hall & Hp & Ht)|
      (_ & o & fevs & s & se & -> & -> & Hall & _ & _ & Ho & _ & _ & Hp & Ht & _)]].
    + unfold over_quota in Hq. by rewrite Hu in Hq.
    + split; [|done]. apply Forall_app. split; [by apply HandlerMore.lookups_no_account|].
      constructor; [done|]. eapply Forall_impl; [exact Hall|].
      by intros e (_ & _ & ?)%HandlerMore.page_fetch_kinds.
    + rewrite Hu in Ho. unfold store_calls, inserted_rows, decremented in *.
      rewrite Ho in *. rewrite app_nil_r in *. cbn [fst snd body status mbind option_bind].
      split; [|split; [done|split; [done|split; [done|by intros r [= <-]]]]].
      apply Forall_app. split; [by apply HandlerMore.lookups_no_account|].
      apply Forall_app. split.
      * eapply Forall_impl; [exact Hall|].
        by intros e (_ & _ & ?)%HandlerMore.page_fetch_kinds.
      * eapply Forall_impl; [apply HandlerMore.summary_calls_kinds|]. by intros e (_ & ? & _).
Qed.

(** The request of the dashboard carries no header. *)
Lemma request_without_account_witness :
  Forall (fun e => is_store e = false)
    (events env_example req_dashboard (world_of "free" 0))
  /\ status (POST env_example req_dashboard (world_of "free" 0)).1 <> 402.
Proof.
  destruct (request_without_account env_example req_dashboard (world_of "free" 0))
    as (He & _ & _ & Hs & _).
  - reflexivity.
  - split; [exact He|exact Hs].
Defined.

(** X14: when the request brings a transcript with a non-empty text, the
    handler fetches no page: no metadata request, no caption acquisition,
    hence never a 422; a result carries the text of the client, and the
    defaults [''], ['auto'], ['Unknown'] and ['Unknown'] for the fields
    the client left out. *)
Theorem client_transcript_is_used (env : Env) (req : Request) (w : World)
    (b : RequestBody) (ct : ClientTranscript) :
  req_json req = inr b -> clientTranscript b = Some ct ->
  truthy_opt (ct_text ct) = true ->
  Forall (fun e => is_page_fetch e = false) (events env req w)
  /\ status (POST env req w).1 <> 422
  /\ (forall r, body (POST env req w).1 = ResultBody r ->
        Some (r_text r) = ct_text ct
        /\ r_timestamped r = or_else (ct_timestamped ct) []
        /\ r_language r = or_else (ct_language ct) (lit "auto")
        /\ r_title r = or_else (ct_title ct) Unknown
        /\ r_channel r = or_else (ct_channel ct) Unknown).
Proof.
  intros Hb Hct Htx.
  destruct (HandlerMore.POST_cases env req w)
    as [(st & msg & Hst & HP & -> & _)|(b' & videoId & Hb' & _ & _ & Hc)].
  - rewrite HP. cbn. split; [constructor|].
    split; [by destruct Hst as [-> | ->]|]. by intros r [=].
  - rewrite Hb in Hb'. injection Hb' as <-.
    destruct Hc as [(_ & -> & -> & _)|[(_ & Hno & _)|
      (_ & o & fevs & s & se & -> & -> & Hall & _ & _ & _ & _ & Hpath & _)]].
    + cbn. split; [|split; [done|by intros r [=]]].
      eapply Forall_impl; [apply HandlerMore.lookups_kinds|]. by intros e (? & _).
    + by rewrite (Hno ct Hct) in Htx.
    + destruct Hpath as [(ct' & Hct' & _ & -> & ->)|(Hno & _)];
        [|by rewrite (Hno ct Hct) in Htx].
      rewrite Hct in Hct'. injection Hct' as <-.
      cbn [fst snd body status]. split; [|split; [done|]].
      * apply Forall_app. split.
        { eapply Forall_impl; [apply HandlerMore.lookups_kinds|]. by intros e (? & _). }
        apply Forall_app. split; [constructor|]. apply Forall_app. split.
        { eapply Forall_impl; [apply HandlerMore.summary_calls_kinds|].
          by intros e (_ & _ & ?). }
        eapply Forall_impl; [apply HandlerMore.store_calls_kinds|]. by intros e (? & _).
      * intros r [= <-]. cbn. split; [|done].
        destruct (ct_text ct); [done|discriminate].
Qed.

Lemma client_transcript_is_used_witness :
  Forall (fun e => is_page_fetch e = false)
    (events env_example req_client (world_of "pro" 3))
  /\ status (POST env_example req_client (world_of "pro" 3)).1 <> 422.
Proof.
  destruct (client_transcript_is_used env_example req_client (world_of "pro" 3)
              (mkBody (Some (lit "https://youtu.be/dQw4w9WgXcQ"))
                 (Some (mkClientTranscript None (Some (lit "Hello World")) None None
                          None None)) None)
              (mkClientTranscript None (Some (lit "Hello World")) None None None None))
    as (He & Hs & _); [reflexivity..|].
  split; [exact He|exact Hs].
Defined.

(** X15: the identifier that a client transcript carries is taken as it
    is.  Whatever non-empty text [clientTranscript.videoId] holds, and
    whatever [videoUrl] holds, even nothing, the request passes the two
    input checks (it is never answered 400), and that text is the
    [videoId] of the result and of the row that is inserted. *)
Theorem client_videoId_is_trusted (env : Env) (req : Request) (w : World)
    (b : RequestBody) (ct : ClientTranscript) (id : jsstring) :
  req_json req = inr b -> clientTranscript b = Some ct ->
  ct_videoId ct = Some id -> truthy id = true ->
  status (POST env req w).1 <> 400
  /\ (forall r, body (POST env req w).1 = ResultBody r -> r_videoId r = id)
  /\ (forall row, In (EvInsert row) (events env req w) -> video_id row = id).
Proof.
  intros Hb Hct Hid Ht.
  assert (resolve_videoId b = inr (Some id)) as Hres.
  { unfold resolve_videoId. rewrite Hct. cbn. by rewrite Hid, Ht. }
  assert (names_video req id) as Hn.
  { exists b. split; [done|]. split; [|done]. rewrite Hct.
    by rewrite bool_decide_true, orb_true_r by eauto. }
  destruct (HandlerMore.POST_cases env req w)
    as [(st & msg & Hst & HP & Hev & H400 & H500)|(b' & videoId & Hb' & _ & Hres' & Hc)].
  - exfalso. destruct Hst as [-> | ->]; [by apply (H400 eq_refl id)|].
    destruct (H500 eq_refl) as [e [He|(b' & Hb' & He)]]; congruence.
  - rewrite Hb in Hb'. injection Hb' as <-.
    assert (videoId = id) as -> by congruence.
    assert (forall evs, Forall (fun e => is_write e = false) evs ->
              forall row, In (EvInsert row) evs -> video_id row = id) as Hnone.
    { intros evs Hall row Hin%list_elem_of_In. rewrite Forall_forall in Hall.
      by specialize (Hall _ Hin). }
    destruct Hc as [(_ & -> & -> & _)|[(_ & _ & msg & tevs & -> & -> & Hall & _)|
      (_ & o & fevs & s & se & -> & -> & Hall & Ho & _)]].
    + cbn. split; [lia|]. split; [by intros r [=]|]. apply Hnone.
      eapply Forall_impl; [apply HandlerMore.lookups_kinds|]. by intros e (_ & _ & ?).
    + cbn. split; [lia|]. split; [by intros r [=]|]. apply Hnone.
      apply Forall_app. split.
      * eapply Forall_impl; [apply HandlerMore.lookups_kinds|]. by intros e (_ & _ & ?).
      * constructor; [done|]. eapply Forall_impl; [exact Hall|].
        by intros e (_ & ? & _)%HandlerMore.page_fetch_kinds.
    + cbn [fst snd status body]. split; [lia|].
      split; [by intros r [= <-]|].
      intros row [Hin|[Hin|[Hin|Hin]%in_app_or]%in_app_or]%in_app_or.
      * apply (Hnone (lookups env req)); [|done].
        eapply Forall_impl; [apply HandlerMore.lookups_kinds|]. by intros e (_ & _ & ?).
      * apply (Hnone fevs); [|done]. eapply Forall_impl; [exact Hall|].
        by intros e (_ & ? & _)%HandlerMore.page_fetch_kinds.
      * destruct (HandlerMore.summary_calls_kinds env o) as [_ Hk].
        apply list_elem_of_In in Hin. rewrite Forall_forall in Hk.
        by destruct (Hk _ Hin) as (? & _).
      * unfold store_calls in Hin. destruct (o_userId o) as [uid|]; [|done].
        destruct Hin as [[= <-]|[[=]|Hin]]; [done|].
        destruct (profiles w !! uid) as [p|]; [|done].
        destruct (0 <? credits_remaining p)%Z; [|done].
        by destruct Hin as [[=]|[]].
Qed.

(** A request without a URL, whose client transcript names the video
    [not an id]. *)
Lemma client_videoId_is_trusted_witness :
  status (POST env_example req_any_id (world_of "pro" 3)).1 <> 400
  /\ forall r, body (POST env_example req_any_id (world_of "pro" 3)).1 = ResultBody r ->
       r_videoId r = lit "not an id".
Proof.
  destruct (client_videoId_is_trusted env_example req_any_id (world_of "pro" 3)
              (mkBody None
                 (Some (mkClientTranscript (Some (lit "not an id"))
                          (Some (lit "Hello World")) None None None None))
                 (Some false))
              (mkClientTranscript (Some (lit "not an id"))
                 (Some (lit "Hello World")) None None None None)
              (lit "not an id"))
    as (Hs & Hr & _); [reflexivity..|].
  split; [exact Hs|exact Hr].
Defined.

(** X16: a run asks for a summary at most once.  The request goes to
    Gemini when its key is usable and otherwise to Anthropic, never to
    both: there is no second attempt when the first provider fails.  A run
    that is answered 400, 402 or 422 has asked for none, and when the run
    ends with a result the request carried the first 30000 code units of
    the transcript of that result. *)
Theorem summary_request_once (env : Env) (req : Request) (w : World) :
  length (List.filter is_summary_request (events env req w)) <= 1
  /\ (forall url p, In (EvFetch url (Some p)) (events env req w) ->
        (forall k, usable_key (GEMINI_API_KEY env) = Some k -> url = gemini_url k)
        /\ (usable_key (GEMINI_API_KEY env) = None ->
            url = anthropic_url /\ usable_key (ANTHROPIC_API_KEY env) <> None)
        /\ ~ In (status (POST env req w).1) [400; 402; 422]
        /\ (forall r, body (POST env req w).1 = ResultBody r ->
              prompt_transcript p = take (30 * 1000) (r_text r))).
Proof.
  assert (forall evs, Forall (fun e => is_summary_request e = false) evs ->
            List.filter is_summary_request evs = []) as Hfil.
  { induction 1 as [|e evs He _ IH]; simpl; [done|]. by rewrite He. }
  assert (forall evs, Forall (fun e => is_summary_request e = false) evs ->
            forall url p, ~ In (EvFetch url (Some p)) evs) as Hnot.
  { intros evs Hall url p Hin%list_elem_of_In. rewrite Forall_forall in Hall.
    by specialize (Hall _ Hin). }
  pose proof (HandlerMore.lookups_kinds env req) as Hlk.
  assert (Forall (fun e => is_summary_request e = false) (lookups env req)) as Hl.
  { eapply Forall_impl; [exact Hlk|]. by intros e (_ & ? & _). }
  assert (forall tevs, Forall (fun e => is_page_fetch e = true) tevs ->
            Forall (fun e => is_summary_request e = false) tevs) as Hpg.
  { intros tevs Hall. eapply Forall_impl; [exact Hall|].
    by intros e (? & _)%HandlerMore.page_fetch_kinds. }
  destruct (HandlerMore.POST_cases env req w)
    as [(st & msg & _ & _ & -> & _)|(b & videoId & _ & _ & _ & Hc)].
  - split; [simpl; lia|]. by intros url p [].
  - destruct Hc as [(_ & _ & -> & _)|[(_ & _ & msg & tevs & _ & -> & Hall & _)|
      (_ & o & fevs & s & se & -> & -> & Hall & _)]].
    + rewrite (Hfil _ Hl). split; [simpl; lia|]. intros url p Hin.
      by destruct (Hnot _ Hl url p).
    + assert (Forall (fun e => is_summary_request e = false)
                (lookups env req ++ EvFetch (oembed_url videoId) None :: tevs)) as Ha.
      { apply Forall_app. split; [done|]. constructor; [done|]. by apply Hpg. }
      rewrite (Hfil _ Ha). split; [simpl; lia|]. intros url p Hin.
      by destruct (Hnot _ Ha url p).
    + assert (Forall (fun e => is_summary_request e = false)
                (store_calls env o (profiles w) s)) as Hst.
      { eapply Forall_impl; [apply HandlerMore.store_calls_kinds|]. by intros e (_ & ?). }
      destruct (HandlerMore.summary_calls_kinds env o) as [Hlen Hk].
      split.
      * rewrite !List.filter_app, (Hfil _ Hl), (Hfil _ (Hpg _ Hall)), (Hfil _ Hst).
        rewrite app_nil_r. cbn [app].
        etransitivity; [apply List.filter_length_le|done].
      * intros url p [Hin|[Hin|[Hin|Hin]%in_app_or]%in_app_or]%in_app_or;
          [by destruct (Hnot _ Hl url p)|by destruct (Hnot _ (Hpg _ Hall) url p)|
          |by destruct (Hnot _ Hst url p)].
        cbn [fst body status].
        assert (~ In 200 [400; 402; 422]) as Hst200 by (cbn [In]; lia).
        revert Hin. unfold summary_calls.
        destruct (_ && _); [|done].
        destruct (usable_key (GEMINI_API_KEY env)) as [gk|].
        -- intros [[= <- <-]|[]]. unfold summary_prompt.
           cbn [prompt_transcript].
           split; [by intros k [= <-]|]. split; [done|]. split; [done|].
           by intros r [= <-].
        -- destruct (usable_key (ANTHROPIC_API_KEY env)) as [ak|]; [|done].
           intros [[= <- <-]|[]]. unfold summary_prompt.
           cbn [prompt_transcript].
           split; [done|]. split; [done|]. split; [done|].
           by intros r [= <-].
Qed.



(** X18: what is stored is what is answered.  When a run for the account
    [uid] ends with a result, it has made exactly one insert, of a row for
    [uid] whose fields are those of the result; the [id] of the result is
    the one the store gave to that row; and the table has that row at its
    end when the store gave one, and is unchanged otherwise. *)
Theorem stored_row_matches_response (env : Env) (req : Request) (w : World)
    (uid : jsstring) (r : Result) :
  user_of env req = Some uid ->
  body (POST env req w).1 = ResultBody r ->
  exists row,
    List.filter is_insert (events env req w) = [EvInsert row]
    /\ user_id row = uid /\ video_id row = r_videoId r
    /\ row_title row = r_title r /\ channel_name row = r_channel r
    /\ transcript_text row = r_text r
    /\ transcript_timestamped row = r_timestamped r
    /\ transcript_language row = r_language r
    /\ word_count row = r_wordCount r /\ row_summary row = r_summary r
    /\ processing_time_ms row = r_processingTimeMs r
    /\ r_id r = inserted_id env row
    /\ transcriptions (POST env req w).2
       = transcriptions w ++ match r_id r with Some _ => [row] | None => [] end.
Proof.
  intros Hu Hr.
  assert (forall evs, Forall (fun e => is_write e = false) evs ->
            List.filter is_insert evs = []) as Hfil.
  { induction 1 as [|e evs He _ IH]; simpl; [done|]. by destruct e. }
  destruct (HandlerMore.POST_cases env req w)
    as [(st & msg & _ & HP & _)|(b & videoId & Hb & _ & _ & Hc)].
  - by rewrite HP in Hr.
  - destruct Hc as [(_ & HP & _)|[(_ & _ & msg & tevs & HP & _)|
      (_ & o & fevs & s & se & HP & -> & Hall & _ & _ & Ho & _ & _ & _ & Ht & _)]];
      [by rewrite HP in Hr..|].
    rewrite HP in Hr. injection Hr as <-. rewrite Hu in Ho.
    exists (row_of env o uid s).
    rewrite Ht. unfold inserted_rows, store_calls. rewrite Ho.
    cbn [r_id r_videoId r_title r_channel r_text r_timestamped r_language
         r_wordCount r_summary r_processingTimeMs mbind option_bind].
    split.
    + rewrite !List.filter_app.
      rewrite (Hfil (lookups env req)), (Hfil fevs), (Hfil (summary_calls env o)).
      * cbn [app List.filter is_insert]. f_equal.
        destruct (profiles w !! uid) as [p|]; [|done].
        by destruct (0 <? credits_remaining p)%Z.
      * eapply Forall_impl; [apply HandlerMore.summary_calls_kinds|].
        by intros [| |url [p|]| |] (? & ? & ?).
      * eapply Forall_impl; [exact Hall|].
        by intros e (_ & ? & _)%HandlerMore.page_fetch_kinds.
      * eapply Forall_impl; [apply HandlerMore.lookups_kinds|]. by intros e (_ & _ & ?).
    + by repeat split.
Qed.

(** The request with its own transcript, from the account [u1]. *)
Lemma stored_row_matches_response_witness :
  exists r row,
    body (POST env_example req_client (world_of "pro" 3)).1 = ResultBody r
    /\ List.filter is_insert (events env_example req_client (world_of "pro" 3))
       = [EvInsert row]
    /\ transcript_text row = r_text r /\ r_id r = Some (lit "row1")
    /\ transcriptions (POST env_example req_client (world_of "pro" 3)).2 = [row].
Proof.
  destruct (body (POST env_example req_client (world_of "pro" 3)).1)
    as [msg fb|r] eqn:Hr; [vm_compute in Hr; discriminate|].
  destruct (stored_row_matches_response env_example req_client (world_of "pro" 3)
              (lit "u1") r eq_refl Hr)
    as (row & Hf & _ & _ & _ & _ & Htx & _ & _ & _ & _ & _ & Hid & Ht).
  exists r, row. split; [reflexivity|]. split; [exact Hf|]. split; [exact Htx|].
  assert (r_id r = Some (lit "row1")) as Hrid.
  { vm_compute in Hr. by injection Hr as <-. }
  split; [exact Hrid|]. rewrite Ht, Hrid. reflexivity.
Defined.

(** *** The dashboard *)

Import Client.

(** X19: the identifier that the browser extracts from the URL.  When
    the browser finds one, it is an identifier and it is the one the
    server resolves from the same URL; the browser finds none exactly when
    the URL has none of the four shapes; so a bare identifier, which the
    server accepts, is refused in the browser with ['Invalid YouTube
    URL']. *)
Theorem clientVideoId_agrees (videoUrl : jsstring) :
  (forall id, clientVideoId videoUrl = inr id ->
     is_video_id id /\ extractVideoId videoUrl = Some id)
  /\ (forall e, clientVideoId videoUrl = inl e <->
        e = Error (lit "Invalid YouTube URL")
        /\ forall i id, ~ shape_at videoUrl i id)
  /\ (is_video_id videoUrl ->
      clientVideoId videoUrl = inl (Error (lit "Invalid YouTube URL"))
      /\ extractVideoId videoUrl = Some videoUrl).
Proof.
  unfold clientVideoId, idRe, extractVideoId, patterns. cbn [first_capture].
  destruct (js_match urlPattern videoUrl) as [mt|] eqn:Hu.
  - assert (is_video_id (group 1 mt)) as Hid.
    { apply urlPattern_search in Hu as (i & _ & Hm & _).
      by apply urlPattern_at_sound in Hm as (mk & id & post & _ & Hid & _ & ->). }
    assert (truthy (group 1 mt) = true) as Ht.
    { destruct Hid as [Hl _]. by destruct (group 1 mt). }
    cbn [truthy_opt default]. rewrite Ht. cbn [negb]. split; [|split].
    + by intros id [= <-].
    + intros e. split; [discriminate|]. intros [_ Hn].
      apply urlPattern_search_None in Hn. congruence.
    + intros Hv. rewrite urlPattern_too_short in Hu by (destruct Hv; lia). discriminate.
  - cbn [truthy_opt negb]. split; [discriminate|]. split.
    + intros e. split.
      * intros [= <-]. split; [done|]. by apply urlPattern_search_None.
      * by intros [-> _].
    + intros Hv. split; [done|].
      by destruct (barePattern_complete _ Hv) as (mt & -> & ->).
Qed.

Module ClientMore.

(** A loop over [exec], in terms of the matches it goes through. *)
Lemma exec_loop_exec_all r body xml fuel : forall li segments,
  exec_loop fuel r body xml li segments =
  match exec_all fuel r xml li with
  | Some ms => Some (fold_left (fun acc mt => body mt acc) ms segments)
  | None => None
  end.
Proof.
  induction fuel as [|fuel IH]; intros li segments; simpl; [done|].
  destruct (exec r xml li) as [[mt|] li']; [|done].
  rewrite IH. by destruct (exec_all fuel r xml li').
Qed.

Lemma fold_keeps (seg : Match -> ClientSegment)
    (body : Match -> list ClientSegment -> list ClientSegment) :
  (forall mt segments,
     body mt segments
     = if truthy (c_text (seg mt)) then segments ++ [seg mt] else segments) ->
  forall ms segments,
    fold_left (fun acc mt => body mt acc) ms segments
    = segments ++ kept_client (map seg ms).
Proof.
  intros Hbody. induction ms as [|mt ms IH]; intros segments; simpl.
  - by rewrite app_nil_r.
  - rewrite IH, Hbody. unfold kept_client. rewrite filter_cons.
    destruct (truthy (c_text (seg mt))) eqn:Ht.
    + rewrite decide_True by done. by rewrite <- app_assoc.
    + by rewrite decide_False by (by intros ?).
Qed.

Lemma textRegex_consumes : 0 < min_len textRegex.
Proof. vm_compute. lia. Qed.

(** The parser of the browser, in terms of the matches of its two
    expressions. *)
Lemma clientParse_matches xml :
  exists msT msP,
    matches textRegex xml = Some msT /\ matches srv3Regex xml = Some msP /\
    clientParse xml =
      Some (client_outcome
              (match kept_client (map text_segment msT) with
               | [] => kept_client (map p_segment msP)
               | s :: l => s :: l
               end)).
Proof.
  destruct (matches_total textRegex xml textRegex_consumes) as [msT HT].
  destruct (matches_total srv3Regex xml srv3Regex_consumes) as [msP HP].
  exists msT, msP. split; [done|]. split; [done|].
  unfold clientParse, clientParse_with, matches in *.
  rewrite exec_loop_exec_all, HT.
  rewrite (fold_keeps text_segment text_body) by done. cbn [app].
  destruct (kept_client (map text_segment msT)) as [|s l]; [|done].
  rewrite exec_loop_exec_all, HP.
  rewrite (fold_keeps p_segment p_body) by done. cbn [app].
  by destruct (kept_client (map p_segment msP)).
Qed.

(** What the parser of the browser returns is not empty and has no
    empty text. *)
Lemma clientParse_kept xml segs :
  clientParse xml = Some (inr segs) ->
  segs <> [] /\ Forall (fun s => c_text s <> []) segs.
Proof.
  destruct (clientParse_matches xml) as (msT & msP & HT & HP & Hc).
  rewrite Hc. intros Hs. apply (inj Some) in Hs.
  assert (forall l, Forall (fun s => c_text s <> []) (kept_client l)) as Hk.
  { intros l. apply Forall_forall. intros s [Ht _]%list_elem_of_filter.
    by destruct (c_text s). }
  pose proof (Hk (map text_segment msT)) as H1.
  pose proof (Hk (map p_segment msP)) as H2.
  destruct (kept_client (map text_segment msT)) as [|s l];
    [destruct (kept_client (map p_segment msP)) as [|s l]; [discriminate|]|];
    cbn in Hs; injection Hs as <-; by split.
Qed.

Lemma join_nonempty sep s l : s <> [] -> truthy (join sep (s :: l)) = true.
Proof. intros Hs. destruct s as [|c s]; [done|]. by destruct l. Qed.

(** What the browser hands over is complete: an identifier, the one the
    server resolves from the URL, and no empty field. *)
Lemma client_result_complete fetch JSON_parse encode videoUrl t :
  fetchTranscriptClientSide fetch JSON_parse encode videoUrl = inr t ->
  is_video_id (cr_videoId t) /\ extractVideoId videoUrl = Some (cr_videoId t)
  /\ truthy (cr_text t) = true /\ truthy (cr_timestamped t) = true
  /\ truthy (cr_title t) = true /\ truthy (cr_channel t) = true
  /\ truthy (cr_language t) = true.
Proof.
  assert (forall x d, truthy d = true -> truthy (or_else x d) = true) as Hor.
  { intros [s|] d Hd; unfold or_else; [|done]. by destruct (truthy s) eqn:Hs. }
  unfold fetchTranscriptClientSide.
  destruct (clientVideoId videoUrl) as [e|videoId] eqn:Hid; [discriminate|].
  assert (is_video_id videoId /\ extractVideoId videoUrl = Some videoId) as [Hv He].
  { revert Hid. unfold clientVideoId, idRe, extractVideoId, patterns.
    cbn [first_capture].
    destruct (js_match urlPattern videoUrl) as [mt|] eqn:Hu; [|discriminate].
    cbn [truthy_opt default]. destruct (truthy (group 1 mt)); [|discriminate].
    intros [= <-]. split; [|done].
    apply urlPattern_search in Hu as (i & _ & Hm & _).
    by apply urlPattern_at_sound in Hm as (mk & id & post & _ & Hid & _ & ->). }
  repeat (case_match; try discriminate).
  all: intros Ht; apply (inj inr) in Ht; subst t.
  all: cbn [cr_videoId cr_text cr_timestamped cr_title cr_channel cr_language].
  all: split; [done|]; split; [done|]; subst.
  all: match goal with
       | H : clientParse _ = Some (inr ?segs) |- _ =>
           destruct (clientParse_kept _ _ H) as [Hne Hall];
           destruct segs as [|s' l']; [by destruct Hne|];
           apply Forall_cons in Hall as [Hs _]
       end.
  all: split; [by apply join_nonempty|]; split;
    [apply join_nonempty; unfold clientLine; change (lit "[") with [91%N];
     cbn [app]; discriminate|].
  all: split; [by apply Hor|]; split; by apply Hor.
Qed.

End ClientMore.

(** X20: the order of the two formats in the browser.  The standard
    format ([<text start=...>]) is read first, and the srv3 format is read
    exactly when the first pass kept no segment, also when it matched tags
    whose texts are all empty; the server does it the other way round and
    falls back only when nothing matched.  When neither pass keeps a
    segment the error is ['No transcript segments could be extracted from
    the captions data.']; both passes always end. *)
Theorem clientParse_format_order (xml : jsstring) :
  is_Some (matches textRegex xml) /\ is_Some (matches srv3Regex xml)
  /\ (forall msT msP,
        matches textRegex xml = Some msT -> matches srv3Regex xml = Some msP ->
        (kept_client (map text_segment msT) <> [] ->
         clientParse xml = Some (inr (kept_client (map text_segment msT))))
        /\ (kept_client (map text_segment msT) = [] ->
            clientParse xml
            = Some (client_outcome (kept_client (map p_segment msP)))))
  /\ (forall segs, clientParse xml = Some (inr segs) ->
        segs <> [] /\ Forall (fun s => c_text s <> []) segs).
Proof.
  destruct (ClientMore.clientParse_matches xml) as (msT & msP & HT & HP & Hc).
  split; [by rewrite HT|]. split; [by rewrite HP|]. split.
  - intros msT' msP' HT' HP'. rewrite HT in HT'. rewrite HP in HP'.
    injection HT' as <-. injection HP' as <-. rewrite Hc. split.
    + intros Hne. by destruct (kept_client (map text_segment msT)).
    + by intros ->.
  - apply ClientMore.clientParse_kept.
Qed.

(** A payload in the standard format. *)
Lemma clientParse_format_order_witness :
  clientParse payload_std
  = Some (inr [mkClientSegment (lit "Hi") (Int 1500)]).
Proof.
  destruct (clientParse_format_order payload_std) as (_ & _ & H & _).
  destruct (matches textRegex payload_std) as [msT|] eqn:HT;
    [|vm_compute in HT; discriminate].
  destruct (matches srv3Regex payload_std) as [msP|] eqn:HP;
    [|vm_compute in HP; discriminate].
  destruct (H msT msP eq_refl eq_refl) as [H1 _].
  vm_compute in HT. injection HT as <-.
  rewrite H1; [vm_compute; reflexivity|vm_compute; discriminate].
Defined.

(** X21: on srv3 captions the browser and the server agree.  For a
    payload with [<p t= d=>] tags and no [<text start=>] tag, the browser
    keeps the segments that the server keeps, and their plain text and
    their timestamped text are those of the server; when the server finds
    no segment, so does the browser. *)
Theorem client_server_agree_on_srv3 (xml : jsstring) (msA : list Match) :
  matches textRegex xml = Some [] ->
  matches srv3Regex xml = Some msA -> msA <> [] ->
  (forall segs, parseSegments xml = Some (inr segs) ->
     clientParse xml = Some (inr (map forget_duration segs))
     /\ clientText (map forget_duration segs) = plainText segs
     /\ clientTimestamped (map forget_duration segs) = timestampedText segs)
  /\ (forall e, parseSegments xml = Some (inl e) ->
        clientParse xml = Some (inl NoSegments)).
Proof.
  intros HT HA Hne.
  destruct (parseSegments_matches xml) as (msA' & msB & HA' & _ & Hs).
  rewrite HA in HA'. injection HA' as <-.
  destruct (ClientMore.clientParse_matches xml) as (msT & msP & HT' & HP & Hc).
  rewrite HT in HT'. injection HT' as <-. rewrite HA in HP. injection HP as <-.
  cbn [map kept_client filter list_filter] in Hc.
  assert (forall ms, kept_client (map p_segment ms)
                     = map forget_duration (kept (map srv3_segment ms))) as Hk.
  { induction ms as [|mt ms IH]; [done|]. unfold kept_client, kept in *.
    cbn [map]. rewrite !filter_cons. cbn [p_segment srv3_segment c_text text].
    change (decodeHtml (trim (stripTags (group 3 mt)))) with (normalize (group 3 mt)).
    destruct (decide (truthy (normalize (group 3 mt)) = true)); [|done].
    cbn [map]. by rewrite IH. }
  rewrite Hk in Hc. destruct msA as [|mt msA]; [done|]. rewrite Hs, Hc.
  destruct (kept (map srv3_segment (mt :: msA))) as [|s l]; split.
  - intros segs [=].
  - done.
  - intros segs [= <-]. split; [done|]. split.
    + unfold clientText, plainText. by rewrite map_map.
    + unfold clientTimestamped, timestampedText. by rewrite map_map.
  - intros e [=].
Qed.

Lemma client_server_agree_on_srv3_witness :
  clientParse payload_srv3
  = Some (inr (map forget_duration segments_hello_world))
  /\ clientText (map forget_duration segments_hello_world) = lit "Hello World".
Proof.
  destruct (matches srv3Regex payload_srv3) as [msA|] eqn:HA;
    [|vm_compute in HA; discriminate].
  assert (matches textRegex payload_srv3 = Some []) as HT by (vm_compute; reflexivity).
  assert (msA <> []) as Hne.
  { vm_compute in HA. injection HA as <-. discriminate. }
  destruct (client_server_agree_on_srv3 payload_srv3 msA HT HA Hne) as [H _].
  destruct (H segments_hello_world) as (Hc & Ht & _); [vm_compute; reflexivity|].
  split; [exact Hc|]. rewrite Ht. vm_compute. reflexivity.
Defined.

(** X22: what the browser extracted is what the server answers.  For
    every transcript that [fetchTranscriptClientSide] returns, the request
    that [doTranscribe] builds from it is answered 200 by the handler,
    whatever the environment and the store: the result carries the
    identifier, the title, the channel, the text, the timestamped text and
    the language of the browser unchanged.  The request has no
    [authorization] header, so the [id] is [null], the store is not
    touched, and the only outside call is the summary request. *)
Theorem dashboard_request_is_served
    (fetch : jsstring -> exn + FetchResponse)
    (JSON_parse : jsstring -> option (list CaptionTrack))
    (encodeURIComponent : jsstring -> jsstring)
    (videoUrl : jsstring) (t : ClientResult) (env : Env) (w : World) :
  fetchTranscriptClientSide fetch JSON_parse encodeURIComponent videoUrl = inr t ->
  exists r,
    (POST env (transcribe_request videoUrl t) w).1 = mkResponse 200 (ResultBody r)
    /\ r_videoId r = cr_videoId t /\ r_title r = cr_title t
    /\ r_channel r = cr_channel t /\ r_text r = cr_text t
    /\ r_timestamped r = cr_timestamped t /\ r_language r = cr_language t
    /\ r_id r = None
    /\ profiles (POST env (transcribe_request videoUrl t) w).2 = profiles w
    /\ transcriptions (POST env (transcribe_request videoUrl t) w).2 = transcriptions w
    /\ Forall (fun e => is_summary_request e = true)
         (events env (transcribe_request videoUrl t) w).
Proof.
  intros (Hv & _ & Htx & Hts & Htt & Htc & Htl)%ClientMore.client_result_complete.
  assert (truthy (cr_videoId t) = true) as Hid.
  { destruct Hv as [Hl _]. by destruct (cr_videoId t). }
  assert (forall s d, truthy s = true -> or_else (Some s) d = s) as Hor.
  { intros s d Hs. unfold or_else. by rewrite Hs. }
  set (req := transcribe_request videoUrl t).
  assert (user_of env req = None) as Hu by done.
  assert (lookups env req = []) as Hl by done.
  assert (resolve_videoId
            (mkBody (Some videoUrl)
               (Some (mkClientTranscript (Some (cr_videoId t)) (Some (cr_text t))
                        (Some (cr_timestamped t)) (Some (cr_language t))
                        (Some (cr_title t)) (Some (cr_channel t))))
               (Some true)) = inr (Some (cr_videoId t))) as Hres.
  { unfold resolve_videoId. cbn. by rewrite Hid. }
  destruct (HandlerMore.POST_cases env req w)
    as [(st & msg & Hst & HP & Hev & H400 & H500)|(b & videoId & Hb & Hn & Hres' & Hc)].
  - exfalso. destruct Hst as [-> | ->].
    + apply (H400 eq_refl (cr_videoId t)). eexists. split; [reflexivity|].
      split; [apply orb_true_iff; right; apply bool_decide_eq_true; by eexists|].
      split; [exact Hres|done].
    + destruct (H500 eq_refl) as [e [He|(b' & Hb' & He)]]; [discriminate|].
      injection Hb' as <-. rewrite Hres in He. discriminate.
  - injection Hb as <-. rewrite Hres in Hres'. injection Hres' as <-.
    destruct Hc as [(Hq & _)|[(_ & Hno & _)|
      (_ & o & fevs & s & se & HP & Hev & _ & _ & _ & _ & _ & Hpath & Hp & Ht & _)]].
    + unfold over_quota in Hq. by rewrite Hu in Hq.
    + specialize (Hno _ eq_refl). cbn in Hno. congruence.
    + destruct Hpath as [(ct & Hct & _ & -> & ->)|(Hno & _)].
      2:{ specialize (Hno _ eq_refl). cbn in Hno. congruence. }
      injection Hct as <-. rewrite HP, Hev, Hp, Ht, Hl.
      unfold client_obtained, store_calls, inserted_rows, decremented.
      cbn [o_userId o_videoId o_title o_channel o_plainText o_timestampedText
           o_language ct_text ct_timestamped ct_language ct_title ct_channel
           fst snd]. rewrite Hu, !app_nil_r. cbn [app mbind option_bind].
      eexists. split; [reflexivity|].
      cbn [r_videoId r_title r_channel r_text r_timestamped r_language r_id
           default].
      rewrite !Hor by done. repeat (split; [done|]).
      eapply Forall_impl; [apply HandlerMore.summary_calls_kinds|]. by intros e (? & _).
Qed.

(** The browser of the example, and the server with the network down. *)
Lemma dashboard_request_is_served_witness :
  exists r,
    (POST env_example (transcribe_request (lit "https://youtu.be/dQw4w9WgXcQ")
                         result_example) (world_of "free" 0)).1
    = mkResponse 200 (ResultBody r)
    /\ r_text r = lit "Hello World" /\ r_id r = None.
Proof.
  destruct (dashboard_request_is_served fetch_example parse_one (fun s => s)
              (lit "https://youtu.be/dQw4w9WgXcQ") result_example env_example
              (world_of "free" 0))
    as (r & HP & _ & _ & _ & Ht & _ & _ & Hid & _).
  - vm_compute. reflexivity.
  - exists r. split; [exact HP|]. split; [exact Ht|exact Hid].
Defined.

(** White space around an identifier: the resolver finds the identifier
    only when there is none. *)
Lemma padded_id_resolution (ws ws' id : jsstring) :
  all_space ws -> all_space ws' -> is_video_id id ->
  extractVideoId (ws ++ id ++ ws')
  = if bool_decide (ws = [] /\ ws' = []) then Some id else None.
Proof.
  intros Hws Hws' [Hl Hall].
  assert (forall c, c ∈ ws ++ id ++ ws' -> c <> 47%N /\ c <> 61%N) as Hchars.
  { assert (forall c, is_space c = true -> c <> 47%N /\ c <> 61%N) as Hsp.
    { intros c Hc. split; intros ->; vm_compute in Hc; discriminate. }
    assert (forall c, id_char c = true -> c <> 47%N /\ c <> 61%N) as Hic.
    { intros c Hc. split; intros ->; vm_compute in Hc; discriminate. }
    unfold all_space in *. rewrite Forall_forall in Hws, Hws', Hall.
    intros c [?|[?|?]%elem_of_app]%elem_of_app; auto. }
  assert (js_match urlPattern (ws ++ id ++ ws') = None) as Hu.
  { apply urlPattern_search_None. intros i id' (pre & mk & post & He & _ & Hmk & _).
    assert (47%N ∈ mk \/ 61%N ∈ mk) as Hin.
    { cbn [In markers] in Hmk.
      destruct Hmk as [<-|[<-|[<-|[<-|[]]]]];
        [right|left|left|left]; apply list_elem_of_In; vm_compute; tauto. }
    assert (forall c, c ∈ mk -> c ∈ ws ++ id ++ ws') as Hsub.
    { intros c Hc. rewrite He. apply elem_of_app. right. apply elem_of_app. by left. }
    destruct Hin as [H|H]; apply Hsub, Hchars in H; tauto. }
  unfold extractVideoId, patterns. cbn [first_capture]. rewrite Hu.
  destruct (bool_decide (ws = [] /\ ws' = [])) eqn:Hd.
  - apply bool_decide_eq_true in Hd as [-> ->]. rewrite app_nil_r. cbn [app].
    by destruct (barePattern_complete id (conj Hl Hall)) as (mt & -> & ->).
  - apply bool_decide_eq_false in Hd.
    destruct (js_match barePattern (ws ++ id ++ ws')) as [mt|] eqn:Hb; [|done].
    exfalso. apply barePattern_sound in Hb as [[Hlen _] _].
    rewrite !length_app, Hl in Hlen. apply Hd.
    split; [destruct ws|destruct ws']; try done; simpl in Hlen; lia.
Qed.

(** X23: the input box of the dashboard of [page.tsx] trims.
    [handleTranscribe] sends nothing for an input that is empty or all
    white space, and otherwise sends the trimmed input as the [videoUrl]
    of the request.  So an identifier typed with white space around it,
    which the resolver alone would refuse, reaches the server as the bare
    identifier: the request names that video, it is answered 200 or 422,
    never 400, and a result is for that identifier. *)
Theorem handleTranscribe_trims (ws ws' : jsstring) :
  all_space ws -> all_space ws' ->
  submitted (ws ++ ws') = None
  /\ (forall core,
        (forall c rest, core = c :: rest -> is_space c = false) ->
        (forall c front, core = front ++ [c] -> is_space c = false) ->
        core <> [] -> submitted (ws ++ core ++ ws') = Some (url_request core))
  /\ (forall id, is_video_id id ->
        extractVideoId (ws ++ id ++ ws')
        = (if bool_decide (ws = [] /\ ws' = []) then Some id else None)
        /\ submitted (ws ++ id ++ ws') = Some (url_request id)
        /\ names_video (url_request id) id
        /\ forall env w,
             In (status (POST env (url_request id) w).1) [200; 422]
             /\ (forall r, body (POST env (url_request id) w).1 = ResultBody r ->
                   r_videoId r = id)).
Proof.
  intros Hws Hws'.
  assert (forall core,
            (forall c rest, core = c :: rest -> is_space c = false) ->
            (forall c front, core = front ++ [c] -> is_space c = false) ->
            trim (ws ++ core ++ ws') = core) as Htrim.
  { intros core H1 H2. by apply trim_spaces. }
  assert (forall c, id_char c = true -> is_space c = false) as Hid.
  { intros c Hc. apply not_true_iff_false. intros Hs. revert Hc Hs.
    unfold id_char, is_space, in_range.
    rewrite !orb_true_iff, !andb_true_iff, !N.leb_le, !N.eqb_eq. lia. }
  split; [|split].
  - unfold submitted, handleTranscribe. specialize (Htrim []). cbn [app] in Htrim.
    rewrite Htrim; [done|by intros c rest [=]|].
    intros c front Hf. by destruct front.
  - intros core H1 H2 Hne. unfold submitted, handleTranscribe. rewrite Htrim by done.
    by destruct core.
  - intros id [Hl Hall].
    assert (extractVideoId id = Some id) as Hex.
    { unfold extractVideoId, patterns. cbn [first_capture].
      rewrite urlPattern_too_short by (rewrite Hl; lia).
      by destruct (barePattern_complete id (conj Hl Hall)) as (mt & -> & ->). }
    assert (truthy id = true) as Htr by (by destruct id).
    assert (resolve_videoId (mkBody (Some id) None (Some true)) = inr (Some id))
      as Hrv by (unfold resolve_videoId; cbn [videoUrl clientTranscript mbind option_bind]; by rewrite Hex).
    assert (names_video (url_request id) id) as Hn.
    { exists (mkBody (Some id) None (Some true)). split; [reflexivity|].
      split; [|split; [exact Hrv|exact Htr]].
      cbn [videoUrl clientTranscript truthy_opt]. by rewrite Htr. }
    split; [|split; [|split; [exact Hn|]]].
    + apply padded_id_resolution; [done..|by split].
    + unfold submitted, handleTranscribe. rewrite Htrim.
      * by rewrite Htr.
      * intros c rest ->. apply Hid. by apply Forall_cons in Hall as [? _].
      * intros c front ->. apply Hid. apply Forall_app in Hall as [_ Hc].
        by apply Forall_cons in Hc as [? _].
    + intros env w.
      destruct (HandlerMore.POST_cases env (url_request id) w)
        as [(st & msg & Hst & _ & _ & H400 & H500)|(b & videoId & Hb & _ & Hres & Hc)].
      * exfalso. destruct Hst as [-> | ->]; [by apply (H400 eq_refl id)|].
        destruct (H500 eq_refl) as [e [He|(b' & Hb' & He)]]; [done|].
        injection Hb' as <-. by rewrite Hrv in He.
      * injection Hb as <-.
        assert (videoId = id) as -> by (rewrite Hrv in Hres; by injection Hres).
        destruct Hc as [(Hq & _)|[(_ & _ & msg & tevs & -> & _)|
          (_ & o & fevs & s & se & -> & _ & _ & Ho & _)]].
        -- done.
        -- cbn. split; [tauto|]. by intros r [=].
        -- cbn [fst status body]. split; [cbn [In]; tauto|]. by intros r [= <-].
Qed.

(** The identifier of the example with a space on either side: the
    resolver refuses it as it is typed, the request that is sent names
    it. *)
Lemma handleTranscribe_trims_witness :
  extractVideoId padded_id = None
  /\ submitted padded_id = Some (url_request bare_id)
  /\ names_video (url_request bare_id) bare_id.
Proof.
  destruct (handleTranscribe_trims (lit " ") (lit " ")) as (_ & _ & H).
  - vm_compute. repeat constructor.
  - vm_compute. repeat constructor.
  - destruct (H bare_id bare_id_is_video_id) as (Hx & Hs & Hn & _).
    split; [exact Hx|]. split; [exact Hs|exact Hn].
Defined.

(** ** More facts about the matcher *)

Module RegexMore.

(** The matcher depends on its continuation only through its values. *)
Lemma star_greedy_ext p (k k' : cont) :
  (forall j s c, k j s c = k' j s c) ->
  forall rest i c, star_greedy p k i rest c = star_greedy p k' i rest c.
Proof.
  intros Hk. induction rest as [|d rest IH]; intros i c; simpl; [done|].
  destruct (p d); [|done]. by rewrite IH, Hk.
Qed.

Lemma star_lazy_ext p (k k' : cont) :
  (forall j s c, k j s c = k' j s c) ->
  forall rest i c, star_lazy p k i rest c = star_lazy p k' i rest c.
Proof.
  intros Hk. induction rest as [|d rest IH]; intros i c; simpl; rewrite Hk; [done|].
  destruct (k' i (d :: rest) c); [done|]. destruct (p d); [|done]. apply IH.
Qed.

Lemma m_ext r : forall (k k' : cont),
  (forall j s c, k j s c = k' j s c) ->
  forall i rest c, m r i rest c k = m r i rest c k'.
Proof.
  induction r as [l|p|n p|p|p|p|r1 IH1 r2 IH2|r1 IH1 r2 IH2|g r IH| |];
    intros k k' Hk i rest c; simpl.
  - destruct (lit_match l rest); [apply Hk|done].
  - destruct rest as [|d rest]; [done|]. destruct (p d); [apply Hk|done].
  - destruct (rep_match n p rest); [apply Hk|done].
  - by apply star_greedy_ext.
  - destruct rest as [|d rest]; [done|]. destruct (p d); [|done].
    by apply star_greedy_ext.
  - by apply star_lazy_ext.
  - apply IH1. intros j s c'. by apply IH2.
  - by rewrite (IH1 k k' Hk), (IH2 k k' Hk).
  - apply IH. intros j s c'. apply Hk.
  - destruct (Nat.eqb i 0); [apply Hk|done].
  - destruct rest; [apply Hk|done].
Qed.

Lemma star_greedy_shift p d (k : cont) : forall rest i c,
  star_greedy p k (i + d) rest c
  = star_greedy p (fun j s c' => k (j + d) s c') i rest c.
Proof.
  induction rest as [|x rest IH]; intros i c; simpl; [done|].
  destruct (p x); [|done]. by rewrite <- IH.
Qed.

Lemma star_lazy_shift p d (k : cont) : forall rest i c,
  star_lazy p k (i + d) rest c
  = star_lazy p (fun j s c' => k (j + d) s c') i rest c.
Proof.
  induction rest as [|x rest IH]; intros i c; simpl; [done|].
  destruct (k (i + d) (x :: rest) c); [done|]. destruct (p x); [|done].
  by rewrite <- IH.
Qed.

Lemma m_shift r d : unanchored r = true ->
  forall (k : cont) i rest c,
    m r (i + d) rest c k = m r i rest c (fun j s c' => k (j + d) s c').
Proof.
  induction r as [l|p|n p|p|p|p|r1 IH1 r2 IH2|r1 IH1 r2 IH2|g r IH| |];
    intros Hu k i rest c; simpl in *; try discriminate.
  - destruct (lit_match l rest); [|done]. f_equal. lia.
  - destruct rest as [|x rest]; [done|]. destruct (p x); done.
  - destruct (rep_match n p rest); [|done]. f_equal. lia.
  - apply star_greedy_shift.
  - destruct rest as [|x rest]; [done|]. destruct (p x); [|done].
    apply (star_greedy_shift p d k rest (S i)).
  - apply star_lazy_shift.
  - apply andb_true_iff in Hu as [H1 H2]. rewrite (IH1 H1).
    apply m_ext. intros j s c'. by apply IH2.
  - apply andb_true_iff in Hu as [H1 H2]. by rewrite (IH1 H1), (IH2 H2).
  - rewrite (IH Hu). apply m_ext. intros j s c'.
    by replace (j + d - (i + d)) with (j - i) by lia.
  - done.
Qed.

(** What the continuation returns can be changed afterwards. *)
Lemma star_greedy_fmap p (g : nat * caps -> nat * caps) (k : cont) : forall rest i c,
  star_greedy p (fun j s c' => g <$> k j s c') i rest c
  = g <$> star_greedy p k i rest c.
Proof.
  induction rest as [|x rest IH]; intros i c; simpl; [done|].
  destruct (p x); [|done]. rewrite IH.
  by destruct (star_greedy p k (S i) rest c).
Qed.

Lemma star_lazy_fmap p (g : nat * caps -> nat * caps) (k : cont) : forall rest i c,
  star_lazy p (fun j s c' => g <$> k j s c') i rest c
  = g <$> star_lazy p k i rest c.
Proof.
  induction rest as [|x rest IH]; intros i c; simpl.
  - by destruct (k i [] c).
  - destruct (k i (x :: rest) c); [done|]. simpl. destruct (p x); [|done]. apply IH.
Qed.

Lemma m_fmap r (g : nat * caps -> nat * caps) : forall (k : cont) i rest c,
  m r i rest c (fun j s c' => g <$> k j s c') = g <$> m r i rest c k.
Proof.
  induction r as [l|p|n p|p|p|p|r1 IH1 r2 IH2|r1 IH1 r2 IH2|n r IH| |];
    intros k i rest c; simpl.
  - by destruct (lit_match l rest).
  - destruct rest as [|x rest]; [done|]. by destruct (p x).
  - by destruct (rep_match n p rest).
  - apply star_greedy_fmap.
  - destruct rest as [|x rest]; [done|]. destruct (p x); [|done].
    apply star_greedy_fmap.
  - apply star_lazy_fmap.
  - rewrite <- IH1. apply m_ext. intros j s c'. apply IH2.
  - rewrite IH1, IH2. by destruct (m r1 i rest c k).
  - rewrite <- IH. by apply m_ext.
  - by destruct (Nat.eqb i 0).
  - by destruct rest.
Qed.

Lemma match_at_shift r d i rest : unanchored r = true ->
  match_at r (i + d) rest = moved d <$> match_at r i rest.
Proof.
  intros Hu. unfold match_at. rewrite (m_shift r d Hu).
  rewrite (m_ext r _ (fun j s c' => (fun x => (x.1 + d, x.2)) <$> kfin j s c')) by done.
  rewrite m_fmap. destruct (m r i rest [] kfin) as [[j c]|]; [|done].
  simpl. unfold moved. simpl. by replace (j + d - (i + d)) with (j - i) by lia.
Qed.

(** [replace] does not depend on where the text stands. *)
Lemma replace_scan_shift r f d :
  unanchored r = true -> (forall mt, f (moved d mt) = f mt) ->
  forall rest i skip,
    replace_scan r f (i + d) rest skip = replace_scan r f i rest skip.
Proof.
  intros Hu Hf. induction rest as [|x rest IH]; intros i skip.
  - destruct skip as [|skip]; simpl; [|done].
    rewrite (match_at_shift r d i [] Hu).
    destruct (match_at r i []) as [mt|]; simpl; [|done]. rewrite Hf.
    by destruct (m_end mt + d - (i + d)), (m_end mt - i).
  - destruct skip as [|skip]; simpl.
    + rewrite (match_at_shift r d i (x :: rest) Hu).
      destruct (match_at r i (x :: rest)) as [mt|]; simpl.
      * rewrite Hf. replace (m_end mt + d - (i + d)) with (m_end mt - i) by lia.
        destruct (m_end mt - i); by rewrite (IH (S i)).
      * by rewrite (IH (S i)).
    + apply (IH (S i)).
Qed.

Section Replace.

Variable r : re.
Variable f : Match -> jsstring.
Hypothesis Hu : unanchored r = true.
Hypothesis Hf : forall d mt, f (moved d mt) = f mt.

Lemma replace_scan_0 rest i : replace_scan r f i rest 0 = replace_all r f rest.
Proof. unfold replace_all. apply (replace_scan_shift r f i Hu (Hf i) rest 0 0). Qed.

Lemma match_at_0 i rest : match_at r i rest = moved i <$> match_at r 0 rest.
Proof. apply (match_at_shift r i 0 rest Hu). Qed.

(** A prefix in which no match starts is copied. *)
Lemma replace_all_prefix a w :
  (forall j, j < length a -> match_at r 0 (drop j a ++ w) = None) ->
  replace_all r f (a ++ w) = a ++ replace_all r f w.
Proof.
  intros Hn. unfold replace_all at 1. rewrite replace_scan_prefix.
  - by rewrite replace_scan_0.
  - intros j Hj. rewrite match_at_0, (Hn j Hj). done.
Qed.

(** A match at the head is replaced, and the scan goes on behind it. *)
Lemma replace_all_hit u w mt :
  u <> [] -> match_at r 0 (u ++ w) = Some mt -> m_end mt = length u ->
  replace_all r f (u ++ w) = f mt ++ replace_all r f w.
Proof.
  intros Hne Hm He. unfold replace_all at 1.
  rewrite (replace_scan_match r f 0 u w mt Hne Hm He). by rewrite replace_scan_0.
Qed.

(** A code unit at which no match starts is copied. *)
Lemma replace_all_miss x w :
  match_at r 0 (x :: w) = None ->
  replace_all r f (x :: w) = x :: replace_all r f w.
Proof.
  intros Hm. apply (replace_all_prefix [x] w). intros j Hj.
  simpl in Hj. by assert (j = 0) as -> by lia.
Qed.

(** The replacement never empties a text. *)
Lemma replace_all_nonempty s :
  (forall mt, f mt <> []) -> replace_all r f s = [] -> s = [].
Proof.
  intros Hne. destruct s as [|x s]; [done|]. unfold replace_all. simpl.
  destruct (match_at r 0 (x :: s)) as [mt|]; [|done].
  intros H. apply app_eq_nil in H as [H _]. by apply Hne in H.
Qed.

End Replace.

(** The lazy star stops at the first place where what follows matches. *)
Lemma star_lazy_run p (k : cont) c y : forall bdy rest i,
  Forall (fun d => p d = true) bdy ->
  (forall j, j < length bdy -> k (i + j) (drop j bdy ++ rest) c = None) ->
  k (i + length bdy) rest c = Some y ->
  star_lazy p k i (bdy ++ rest) c = Some y.
Proof.
  induction bdy as [|d bdy IH]; intros rest i Hall Hn Hk.
  - simpl in *. rewrite Nat.add_0_r in Hk. destruct rest; simpl; by rewrite Hk.
  - apply Forall_cons in Hall as [Hd Hall]. simpl.
    pose proof (Hn 0 ltac:(simpl; lia)) as H0. rewrite Nat.add_0_r in H0.
    simpl in H0. rewrite H0, Hd. apply IH; [done| |].
    + intros j Hj. specialize (Hn (S j) ltac:(simpl; lia)). simpl in Hn.
      by replace (S i + j) with (i + S j) by lia.
    + simpl in Hk. by replace (S i + length bdy) with (i + S (length bdy)) by lia.
Qed.

(** It succeeds as soon as what follows matches somewhere. *)
Lemma star_lazy_some p (k : cont) c : forall rest n i y,
  n <= length rest -> Forall (fun d => p d = true) (take n rest) ->
  k (i + n) (drop n rest) c = Some y ->
  is_Some (star_lazy p k i rest c).
Proof.
  induction rest as [|d rest IH]; intros n i y Hn Hall Hk.
  - simpl in *. assert (n = 0) as -> by lia. rewrite Nat.add_0_r in Hk.
    simpl in Hk. rewrite Hk. eauto.
  - simpl. destruct (k i (d :: rest) c) eqn:Hk0; [eauto|].
    destruct n as [|n].
    + rewrite Nat.add_0_r in Hk. simpl in Hk. congruence.
    + simpl in Hall. apply Forall_cons in Hall as [Hd Hall]. rewrite Hd.
      apply (IH n (S i) y); [simpl in Hn; lia|done|].
      simpl in Hk. by replace (S i + n) with (i + S n) by lia.
Qed.

(** A run of the class, followed by a code unit outside it. *)
Lemma plus_run p (k : cont) c x rest y t i :
  t <> [] -> Forall (fun d => p d = true) t -> p x = false ->
  k (i + length t) (x :: rest) c = Some y ->
  m (Plus p) i (t ++ x :: rest) c k = Some y.
Proof.
  intros Hne Hall Hx Hk. destruct t as [|d t]; [done|].
  apply Forall_cons in Hall as [Hd Hall]. simpl. rewrite Hd.
  apply star_greedy_run; [done|done|].
  simpl in Hk. by replace (S i + length t) with (i + S (length t)) by lia.
Qed.

Lemma star_run p (k : cont) c x rest y t i :
  Forall (fun d => p d = true) t -> p x = false ->
  k (i + length t) (x :: rest) c = Some y ->
  m (Star p) i (t ++ x :: rest) c k = Some y.
Proof. intros Hall Hx Hk. simpl. by apply star_greedy_run. Qed.

Lemma m_lit l rest (k : cont) i c :
  m (Lit l) i (l ++ rest) c k = k (i + length l) rest c.
Proof. simpl. by rewrite lit_match_app. Qed.

(** *** [indexOf] *)

Lemma match_at_lit pat i rest :
  match_at (Lit pat) i rest
  = (fun _ => mkMatch i (i + length pat) pat []) <$> lit_match pat rest.
Proof.
  unfold match_at. simpl. destruct (lit_match pat rest) as [rest'|] eqn:Hl; [|done].
  apply lit_match_Some in Hl as ->. unfold kfin. simpl. f_equal. f_equal.
  replace (i + length pat - i) with (length pat) by lia.
  by rewrite take_app_length.
Qed.

Lemma indexOf_Some pat s n :
  indexOf pat s = Some n <->
  (exists post, drop n s = pat ++ post) /\ n <= length s
  /\ forall j, j < n -> lit_match pat (drop j s) = None.
Proof.
  unfold indexOf, js_match. split.
  - destruct (search_from (Lit pat) 0 s) as [mt|] eqn:Hs; [|done].
    intros [= <-]. apply search_from_Some in Hs as (d & Hd & Hm & Hmin).
    rewrite match_at_lit in Hm.
    destruct (lit_match pat (drop d s)) as [post|] eqn:Hl; [|done].
    injection Hm as <-. simpl. apply lit_match_Some in Hl.
    split; [eauto|]. split; [done|]. intros j Hj. specialize (Hmin j Hj).
    rewrite match_at_lit in Hmin. by destruct (lit_match pat (drop j s)).
  - intros ([post Hp] & Hn & Hmin).
    assert (search_from (Lit pat) 0 s
            = Some (mkMatch n (n + length pat) pat [])) as ->; [|done].
    apply search_from_Some. exists n. split; [done|]. split.
    + rewrite match_at_lit, Hp, lit_match_app. done.
    + intros j Hj. by rewrite match_at_lit, (Hmin j Hj).
Qed.

Lemma indexOf_None pat s :
  indexOf pat s = None <-> forall j, lit_match pat (drop j s) = None.
Proof.
  unfold indexOf, js_match. split.
  - destruct (search_from (Lit pat) 0 s) as [mt|] eqn:Hs; [done|]. intros _ j.
    rewrite search_from_None in Hs. destruct (Nat.le_gt_cases j (length s)) as [Hj|Hj].
    + specialize (Hs j Hj). rewrite match_at_lit in Hs.
      by destruct (lit_match pat (drop j s)).
    + rewrite drop_ge by lia. specialize (Hs (length s) ltac:(lia)).
      rewrite match_at_lit, drop_all in Hs. by destruct (lit_match pat []).
  - intros Hn. assert (search_from (Lit pat) 0 s = None) as ->; [|done].
    apply search_from_None. intros j _. by rewrite match_at_lit, Hn.
Qed.

End RegexMore.

(** ** The scan for the track list, in terms of the page *)

Module ScanMore.
Import RegexMore.

Lemma m_seq r1 r2 i s c (k : cont) :
  m (Seq r1 r2) i s c k = m r1 i s c (fun j s' c' => m r2 j s' c' k).
Proof. reflexivity. Qed.

Lemma m_group n r i s c (k : cont) :
  m (Group n r) i s c k
  = m r i s c (fun j s' c' => k j s' ((n, take (j - i) s) :: c')).
Proof. reflexivity. Qed.

Lemma captionTracksRe_eq :
  captionTracksRe
  = Seq (Lit captionTracksMarker)
      (Seq (Star is_space)
         (Group 1 (Seq (Lit (lit "[")) (Seq (LazyStar dot) (Lit (lit "]")))))).
Proof. reflexivity. Qed.

(** The expression matches the marker, white space and the shortest
    bracketed span. *)
Lemma scan_at_complete i ws bdy post :
  all_space ws -> 93%N ∉ bdy ->
  Forall (fun c => is_line_terminator c = false) bdy ->
  exists mt,
    match_at captionTracksRe i
      (captionTracksMarker ++ ws ++ lit "[" ++ bdy ++ lit "]" ++ post) = Some mt
    /\ m_index mt = i /\ group 1 mt = lit "[" ++ bdy ++ lit "]".
Proof.
  intros Hws Hb Hlt. unfold match_at.
  assert (m captionTracksRe i
            (captionTracksMarker ++ ws ++ lit "[" ++ bdy ++ lit "]" ++ post) [] kfin
          = Some (i + length captionTracksMarker + length ws + 1 + length bdy + 1,
                  [(1, lit "[" ++ bdy ++ lit "]")])) as ->.
  { rewrite captionTracksRe_eq, m_seq, m_lit. cbv beta. rewrite m_seq.
    change (lit "[" ++ bdy ++ lit "]" ++ post) with (91%N :: bdy ++ lit "]" ++ post).
    apply star_run; [exact Hws|reflexivity|]. cbv beta.
    rewrite m_group, m_seq.
    change (91%N :: bdy ++ lit "]" ++ post) with (lit "[" ++ bdy ++ lit "]" ++ post) at 1.
    rewrite m_lit. cbv beta. rewrite m_seq.
    change (m (LazyStar dot)) with (fun i s c k => star_lazy dot k i s c). cbv beta.
    apply star_lazy_run.
    - eapply Forall_impl; [exact Hlt|]. intros c Hc. unfold dot. by rewrite Hc.
    - intros j Hj. destruct (lookup_lt_is_Some_2 bdy j Hj) as [x Hx].
      rewrite (drop_S _ _ _ Hx). cbn [m app]. change (lit "]") with [93%N].
      cbn [lit_match].
      destruct (N.eqb_spec 93 x) as [<-|]; [|done].
      exfalso. apply Hb. by eapply list_elem_of_lookup_2.
    - rewrite m_lit. unfold kfin.
      change (length (lit "[")) with 1. change (length (lit "]")) with 1.
      replace (_ - _) with (S (length bdy + 1)) by lia.
      rewrite firstn_cons, app_assoc.
      rewrite take_app_length' by (by rewrite length_app).
      reflexivity. }
  eexists. split; [reflexivity|]. split; reflexivity.
Qed.

(** What the expression matches is the marker, white space and the
    shortest bracketed span. *)
Lemma scan_at_sound i rest mt :
  match_at captionTracksRe i rest = Some mt ->
  exists ws bdy post,
    rest = captionTracksMarker ++ ws ++ lit "[" ++ bdy ++ lit "]" ++ post
    /\ all_space ws /\ (93%N ∉ bdy)
    /\ Forall (fun c => is_line_terminator c = false) bdy
    /\ m_index mt = i /\ group 1 mt = lit "[" ++ bdy ++ lit "]".
Proof.
  unfold match_at.
  destruct (m captionTracksRe i rest [] kfin) as [[j c]|] eqn:Hc; [|discriminate].
  intros [= <-]. unfold group. cbn [m_caps m_index].
  rewrite captionTracksRe_eq in Hc. cbn [m] in Hc.
  destruct (lit_match captionTracksMarker rest) as [r1|] eqn:Hl0; [|discriminate].
  apply lit_match_Some in Hl0 as ->.
  apply star_greedy_inv in Hc as (n1 & Hn1 & Hws & Hc).
  destruct (lit_match (lit "[") (drop n1 r1)) as [r3|] eqn:Hl; [|discriminate].
  apply lit_match_Some in Hl.
  apply star_lazy_first in Hc as (n & Hn & Hall & Hk & Hmin).
  destruct (lit_match (lit "]") (drop n r3)) as [r4|] eqn:Hl2; [|discriminate].
  apply lit_match_Some in Hl2. unfold kfin in Hk. injection Hk as <- <-.
  cbn [cap_lookup Nat.eqb default]. exists (take n1 r1), (take n r3), r4.
  assert (take (i + length captionTracksMarker + n1 + length (lit "[") + n
                + length (lit "]") - (i + length captionTracksMarker + n1))
            (drop n1 r1) = lit "[" ++ take n r3 ++ lit "]") as Hspan.
  { rewrite Hl. change (length (lit "]")) with 1. change (length (lit "[")) with 1.
    replace (_ - _) with (S (n + 1)) by lia.
    change (lit "[" ++ r3) with (91%N :: r3). rewrite firstn_cons.
    change (lit "[" ++ take n r3 ++ lit "]") with (91%N :: take n r3 ++ [93%N]).
    f_equal. rewrite <- (take_drop n r3) at 1. rewrite Hl2.
    rewrite take_app_add' by (rewrite length_take; lia). done. }
  split.
  { rewrite <- (take_drop n1 r1) at 1. rewrite Hl.
    rewrite <- (take_drop n r3) at 1. rewrite Hl2. done. }
  split; [exact Hws|]. split; [|split; [|split; [done|]]].
  - intros [j Hj]%list_elem_of_lookup.
    apply lookup_take_Some in Hj as [Hj Hlt].
    specialize (Hmin j Hlt). cbn beta in Hmin.
    rewrite (drop_S _ _ _ Hj) in Hmin. cbn in Hmin. discriminate.
  - eapply Forall_impl; [exact Hall|]. intros x Hx. unfold dot in Hx.
    by apply negb_true_iff in Hx.
  - exact Hspan.
Qed.

(** A span in the page makes the scan succeed. *)
Lemma scan_exists html pre bdy :
  span_at html pre bdy -> is_Some (js_match captionTracksRe html).
Proof.
  intros (ws & post & -> & Hws & Hb & Hlt).
  destruct (scan_at_complete (0 + length pre) ws bdy post Hws Hb Hlt)
    as (mt & Hm & _).
  destruct (search_from_complete captionTracksRe 0
              (pre ++ captionTracksMarker ++ ws ++ lit "[" ++ bdy ++ lit "]" ++ post)
              (length pre) mt) as [mt' Hs].
  - rewrite length_app. lia.
  - by rewrite drop_app_length.
  - unfold js_match. rewrite Hs. eauto.
Qed.

(** What the scan finds is the first span of the page. *)
Lemma scan_sound html mt :
  js_match captionTracksRe html = Some mt ->
  exists pre bdy,
    span_at html pre bdy /\ first_span html pre
    /\ m_index mt = length pre /\ group 1 mt = lit "[" ++ bdy ++ lit "]".
Proof.
  unfold js_match. intros (d & Hd & Hm & Hmin)%search_from_Some.
  apply scan_at_sound in Hm as (ws & bdy & post & Hr & Hws & Hb & Hlt & Hi & Hg).
  exists (take d html), bdy.
  assert (length (take d html) = d) as Hlen by (rewrite length_take; lia).
  split; [|split; [|split; [by rewrite Hlen|done]]].
  - exists ws, post. split; [|done]. by rewrite <- Hr, take_drop.
  - intros pre' bdy' (ws' & post' & Hh & Hws' & Hb' & Hlt').
    rewrite Hlen. destruct (Nat.le_gt_cases d (length pre')) as [|Hlt2]; [done|].
    exfalso. specialize (Hmin (length pre') Hlt2).
    destruct (scan_at_complete (0 + length pre') ws' bdy' post' Hws' Hb' Hlt')
      as (mt' & Hm' & _).
    rewrite Hh, drop_app_length in Hmin. congruence.
Qed.

(** The first span of the page is what the scan finds. *)
Lemma scan_complete html pre bdy :
  span_at html pre bdy -> first_span html pre ->
  exists mt, js_match captionTracksRe html = Some mt
    /\ m_index mt = length pre /\ group 1 mt = lit "[" ++ bdy ++ lit "]".
Proof.
  intros Hspan Hfirst. pose proof Hspan as (ws & post & Hh & Hws & Hb & Hlt).
  destruct (scan_at_complete (0 + length pre) ws bdy post Hws Hb Hlt)
    as (mt & Hm & Hi & Hg).
  exists mt. split; [|done]. unfold js_match. apply search_from_Some.
  exists (length pre). split; [rewrite Hh, length_app; lia|].
  split; [by rewrite Hh, drop_app_length|].
  intros d' Hd'.
  destruct (match_at captionTracksRe (0 + d') (drop d' html)) as [mt'|] eqn:Hm';
    [|done].
  exfalso. apply scan_at_sound in Hm' as (ws' & bdy' & post' & Hr & Hws' & Hb' & Hlt' & _).
  assert (d' <= length html) as Hle by (rewrite Hh, length_app; lia).
  assert (span_at html (take d' html) bdy') as Hs'.
  { exists ws', post'. split; [|done]. by rewrite <- Hr, take_drop. }
  apply Hfirst in Hs'. rewrite length_take in Hs'. lia.
Qed.

(** When the first marker of the page is at the end of [pre], no span
    starts before [pre]. *)
Lemma first_marker html pre :
  indexOf captionTracksMarker html = Some (length pre) -> first_span html pre.
Proof.
  intros (_ & _ & Hmin)%indexOf_Some pre' bdy' (ws & post & Hh & _).
  destruct (Nat.le_gt_cases (length pre) (length pre')) as [|Hlt]; [done|].
  specialize (Hmin _ Hlt). rewrite Hh, drop_app_length, lit_match_app in Hmin.
  discriminate.
Qed.

(** Without the marker there is no span. *)
Lemma no_marker html pre bdy :
  indexOf captionTracksMarker html = None -> ~ span_at html pre bdy.
Proof.
  intros Hn (ws & post & Hh & _). rewrite indexOf_None in Hn.
  specialize (Hn (length pre)). rewrite Hh, drop_app_length, lit_match_app in Hn.
  discriminate.
Qed.

Lemma no_terminator_forallb (s : jsstring) :
  forallb (fun c => negb (is_line_terminator c)) s = true ->
  Forall (fun c => is_line_terminator c = false) s.
Proof.
  induction s as [|c s IH]; simpl; [constructor|].
  intros [Hc Hs]%andb_true_iff. constructor; [by apply negb_true_iff|by apply IH].
Qed.

End ScanMore.

(** C6: the track list is looked for with one scan of the page for the
    marker ["captionTracks":] followed by a bracketed span.  Wherever the
    first such span stands, in the plain position or under
    [playerCaptionsTracklistRenderer], it is handed to [JSON.parse]: the
    tracks are returned when it parses to a non-empty array, and the
    outcome is an error when [JSON.parse] throws or the array is empty.
    The page without any such span gives the error that no captions are
    available, and nothing else does.  Tracks are only ever returned from
    a span that parsed; the second expression of the source never finds
    a page that the first one missed. *)
Theorem caption_tracks_scan (JSON_parse : jsstring -> option (list CaptionTrack))
    (html : jsstring) :
  (forall pre bdy, span_at html pre bdy -> first_span html pre ->
     extractCaptionTracks JSON_parse html
     = match JSON_parse (lit "[" ++ bdy ++ lit "]") with
       | None => inl (Error (lit "Failed to parse caption tracks data"))
       | Some [] => inl (Error (lit "No caption tracks found for this video"))
       | Some (t :: l) => inr (t :: l)
       end)
  /\ ((forall pre bdy, ~ span_at html pre bdy) <->
      extractCaptionTracks JSON_parse html
      = inl (Error (lit "No captions available for this video. The video may not have subtitles.")))
  /\ (forall tracks, extractCaptionTracks JSON_parse html = inr tracks ->
        tracks <> [] /\
        exists pre bdy, span_at html pre bdy /\ first_span html pre
          /\ JSON_parse (lit "[" ++ bdy ++ lit "]") = Some tracks)
  /\ (js_match altCaptionTracksRe html <> None ->
      exists pre bdy, span_at html pre bdy).
Proof.
  assert (js_match altCaptionTracksRe html <> None ->
          js_match captionTracksRe html <> None) as Halt.
  { destruct (js_match altCaptionTracksRe html) as [mt|] eqn:Ha; [|done].
    intros _. apply ScanFacts.alt_implies_primary in Ha as [mt' ->]. done. }
  split; [|split; [|split]].
  - intros pre bdy Hs Hf.
    destruct (ScanMore.scan_complete html pre bdy Hs Hf) as (mt & Hm & _ & Hg).
    unfold extractCaptionTracks. rewrite Hm, Hg.
    by destruct (JSON_parse (lit "[" ++ bdy ++ lit "]")) as [[|t l]|].
  - unfold extractCaptionTracks. split.
    + intros Hn. destruct (js_match captionTracksRe html) as [mt|] eqn:Hm.
      { apply ScanMore.scan_sound in Hm as (pre & bdy & Hs & _). by apply Hn in Hs. }
      destruct (js_match altCaptionTracksRe html) as [mt|] eqn:Ha; [|done].
      exfalso. by apply Halt.
    + intros He pre bdy Hs.
      destruct (ScanMore.scan_exists html pre bdy Hs) as [mt Hm].
      rewrite Hm in He.
      destruct (JSON_parse (group 1 mt)) as [[|t l]|]; [| |]; try discriminate;
        injection He as He; vm_compute in He; discriminate.
  - intros tracks. unfold extractCaptionTracks.
    destruct (js_match captionTracksRe html) as [mt|] eqn:Hm.
    + apply ScanMore.scan_sound in Hm as (pre & bdy & Hs & Hf & _ & Hg).
      rewrite Hg. destruct (JSON_parse (lit "[" ++ bdy ++ lit "]")) as [[|t l]|] eqn:Hj;
        [done| |done].
      intros [= <-]. split; [done|]. by exists pre, bdy.
    + destruct (js_match altCaptionTracksRe html) as [mt|] eqn:Ha; [|done].
      exfalso. by apply Halt.
  - intros Ha. specialize (Halt Ha).
    destruct (js_match captionTracksRe html) as [mt|] eqn:Hm; [|done].
    apply ScanMore.scan_sound in Hm as (pre & bdy & Hs & _). eauto.
Qed.

(** The track list under [playerCaptionsTracklistRenderer] and the track
    list in the plain position: each is returned when its text parses,
    and the error is raised when [JSON.parse] throws. *)
Lemma caption_tracks_scan_witness :
  extractCaptionTracks parse_one page_nested = inr [mkTrack (Some (lit "u")) None None]
  /\ extractCaptionTracks parse_one page_plain = inr [mkTrack (Some (lit "u")) None None]
  /\ extractCaptionTracks parse_none page_nested
     = inl (Error (lit "Failed to parse caption tracks data"))
  /\ extractCaptionTracks parse_none page_plain
     = inl (Error (lit "Failed to parse caption tracks data")).
Proof.
  set (bdy := lit "{" ++ quoted "baseUrl" ++ lit ":" ++ quoted "u" ++ lit "}").
  set (pre1 := lit "<script>{" ++ quoted "playerCaptionsTracklistRenderer" ++ lit ":{").
  set (pre2 := lit "var r = {").
  assert (forall post, span_at (pre1 ++ captionTracksMarker ++ [] ++ lit "["
                                 ++ bdy ++ lit "]" ++ post) pre1 bdy) as Hs1.
  { intros post. exists [], post. split; [done|]. split; [constructor|].
    split; [apply DecodeMore.absent_forallb; vm_compute; reflexivity|].
    apply ScanMore.no_terminator_forallb. vm_compute. reflexivity. }
  assert (forall post, span_at (pre2 ++ captionTracksMarker ++ [] ++ lit "["
                                 ++ bdy ++ lit "]" ++ post) pre2 bdy) as Hs2.
  { intros post. exists [], post. split; [done|]. split; [constructor|].
    split; [apply DecodeMore.absent_forallb; vm_compute; reflexivity|].
    apply ScanMore.no_terminator_forallb. vm_compute. reflexivity. }
  assert (first_span page_nested pre1) as Hf1.
  { apply ScanMore.first_marker. vm_compute. reflexivity. }
  assert (first_span page_plain pre2) as Hf2.
  { apply ScanMore.first_marker. vm_compute. reflexivity. }
  split; [|split; [|split]].
  - destruct (caption_tracks_scan parse_one page_nested) as (H & _).
    rewrite (H pre1 bdy (Hs1 (lit "}}</script>")) Hf1). vm_compute. reflexivity.
  - destruct (caption_tracks_scan parse_one page_plain) as (H & _).
    rewrite (H pre2 bdy (Hs2 (lit "};")) Hf2). vm_compute. reflexivity.
  - destruct (caption_tracks_scan parse_none page_nested) as (H & _).
    rewrite (H pre1 bdy (Hs1 (lit "}}</script>")) Hf1). reflexivity.
  - destruct (caption_tracks_scan parse_none page_plain) as (H & _).
    rewrite (H pre2 bdy (Hs2 (lit "};")) Hf2). reflexivity.
Defined.

(** X9: the text that the scan hands to [JSON.parse], in terms of the
    page.  The scan finds the first place of the page where the marker
    ["captionTracks":], white space and a bracketed span follow one
    another, and it takes the shortest span: from the [[] to the first []]
    after it, with no line terminator in between.  A track list with a []]
    inside (a nested array, a bracket in a name) is therefore cut short
    at that []], whatever follows. *)
Theorem caption_span_is_shortest (html : jsstring) :
  (forall mt, js_match captionTracksRe html = Some mt ->
     exists pre bdy,
       span_at html pre bdy /\ first_span html pre
       /\ m_index mt = length pre /\ group 1 mt = lit "[" ++ bdy ++ lit "]")
  /\ (forall pre bdy, span_at html pre bdy -> first_span html pre ->
        exists mt, js_match captionTracksRe html = Some mt
          /\ m_index mt = length pre /\ group 1 mt = lit "[" ++ bdy ++ lit "]").
Proof.
  split.
  - intros mt Hm. by apply ScanMore.scan_sound.
  - intros pre bdy Hs Hf. by apply ScanMore.scan_complete.
Qed.

(** A track list whose first track has a name in [runs]: the span ends
    at the []] of [runs]. *)
Lemma caption_span_is_shortest_witness :
  exists mt,
    js_match captionTracksRe page_runs = Some mt
    /\ group 1 mt
       = lit "[{" ++ quoted "name" ++ lit ":{" ++ quoted "runs" ++ lit ":[{"
         ++ quoted "text" ++ lit ":" ++ quoted "English" ++ lit "}]".
Proof.
  set (bdy := lit "{" ++ quoted "name" ++ lit ":{" ++ quoted "runs" ++ lit ":[{"
               ++ quoted "text" ++ lit ":" ++ quoted "English" ++ lit "}").
  destruct (caption_span_is_shortest page_runs) as [_ H].
  destruct (H (lit "{") bdy) as (mt & Hm & _ & Hg).
  - exists [], (lit "}," ++ quoted "baseUrl" ++ lit ":" ++ quoted "u" ++ lit "}]}").
    split; [vm_compute; reflexivity|]. split; [constructor|].
    split; [apply DecodeMore.absent_forallb; vm_compute; reflexivity|].
    apply ScanMore.no_terminator_forallb. vm_compute. reflexivity.
  - apply ScanMore.first_marker. vm_compute. reflexivity.
  - exists mt. split; [exact Hm|]. rewrite Hg. vm_compute. reflexivity.
Defined.

(** ** The two expressions of the parser, tag by tag *)

Module TagFacts.
Import RegexMore ScanMore.

Lemma srv3Regex_eq :
  srv3Regex = tag_re (lit "<p") (lit "t=" ++ [quote]) (lit "d=" ++ [quote])
                is_digit (lit "</p>").
Proof. reflexivity. Qed.

Lemma stdRegex_eq :
  stdRegex = tag_re (lit "<text") (lit "start=" ++ [quote]) (lit "dur=" ++ [quote])
               digit_or_dot (lit "</text>").
Proof. reflexivity. Qed.

Lemma m_lit1 x rest (k : cont) i c :
  m (Lit [x]) i (x :: rest) c k = k (i + 1) rest c.
Proof. apply (m_lit [x]). Qed.

Lemma lit_match_app_None pat s t :
  length pat <= length s -> lit_match pat s = None -> lit_match pat (s ++ t) = None.
Proof.
  revert s. induction pat as [|c pat IH]; intros s Hl; simpl; [done|].
  destruct s as [|d s]; [simpl in Hl; lia|]. simpl.
  destruct (c =? d)%N; [|done]. apply IH. simpl in Hl. lia.
Qed.

Lemma lit_match_app_Some pat s t r :
  lit_match pat s = Some r -> lit_match pat (s ++ t) = Some (r ++ t).
Proof.
  intros ->%lit_match_Some. by rewrite <- app_assoc, lit_match_app.
Qed.

Lemma plus_inv p (k : cont) i rest c x :
  m (Plus p) i rest c k = Some x ->
  exists t rest', rest = t ++ rest' /\ t <> []
    /\ Forall (fun d => p d = true) t /\ k (i + length t) rest' c = Some x.
Proof.
  simpl. destruct rest as [|d rest]; [discriminate|].
  destruct (p d) eqn:Hd; [|discriminate].
  intros (n & Hn & Hall & Hk)%star_greedy_inv.
  exists (d :: take n rest), (drop n rest).
  split; [by rewrite <- app_comm_cons, take_drop|]. split; [done|].
  split; [by constructor|]. simpl. rewrite length_take.
  by replace (i + S (n `min` length rest)) with (S i + n) by lia.
Qed.

Lemma star_inv p (k : cont) i rest c x :
  m (Star p) i rest c k = Some x ->
  exists t rest', rest = t ++ rest'
    /\ Forall (fun d => p d = true) t /\ k (i + length t) rest' c = Some x.
Proof.
  simpl. intros (n & Hn & Hall & Hk)%star_greedy_inv.
  exists (take n rest), (drop n rest). split; [by rewrite take_drop|].
  split; [done|]. rewrite length_take. by replace (n `min` length rest) with n by lia.
Qed.

Lemma lit_inv l (k : cont) i rest c x :
  m (Lit l) i rest c k = Some x ->
  exists rest', rest = l ++ rest' /\ k (i + length l) rest' c = Some x.
Proof.
  simpl. destruct (lit_match l rest) as [rest'|] eqn:Hl; [|discriminate].
  apply lit_match_Some in Hl. eauto.
Qed.

Section Tags.

Variables (open close a1 a2 : jsstring) (value : N -> bool).
Hypothesis Ha1 : match a1 with c :: _ => is_space c = false | [] => False end.
Hypothesis Ha2 : match a2 with c :: _ => is_space c = false | [] => False end.
Hypothesis Hq : value quote = false.

(** The expression reads a well-formed opening tag in one way. *)
Lemma tag_open_run g rest i y :
  is_tag value g ->
  m (Seq (Group 3 (LazyStar any_unit)) (Lit close))
    (i + length (tag_open open a1 a2 g)) rest
    [(2, tag_dur g); (1, tag_start g)] kfin = Some y ->
  m (tag_re open a1 a2 value close) i (tag_open open a1 a2 g ++ rest) [] kfin = Some y.
Proof.
  intros (Hw1n & Hw1 & Hsn & Hs & Hw2n & Hw2 & Hdn & Hd & Hat) Hk.
  destruct g as [ws1 start ws2 dur attrs inner]. cbn [tag_ws1 tag_start tag_ws2
    tag_dur tag_attrs tag_inner] in *.
  destruct a1 as [|c1 a1']; [done|]. destruct a2 as [|c2 a2']; [done|].
  unfold tag_re, tag_open in *. cbn [seqs tag_ws1 tag_start tag_ws2 tag_dur tag_attrs].
  rewrite <- !app_assoc. rewrite !length_app in Hk.
  rewrite m_seq, m_lit. cbv beta. rewrite m_seq.
  cbn [app]. apply plus_run; [done|done|done|]. cbv beta.
  rewrite m_seq. change (c1 :: a1' ++ ?x) with ((c1 :: a1') ++ x).
  rewrite m_lit. cbv beta. rewrite m_seq, m_group.
  apply plus_run; [done|done|done|]. cbv beta.
  replace (_ - _) with (length start) by lia. rewrite take_app_length.
  rewrite m_seq. rewrite m_lit1. cbv beta. rewrite m_seq.
  apply plus_run; [done|done|done|]. cbv beta.
  rewrite m_seq. change (c2 :: a2' ++ ?x) with ((c2 :: a2') ++ x).
  rewrite m_lit. cbv beta. rewrite m_seq, m_group.
  apply plus_run; [done|done|done|]. cbv beta.
  replace (_ - _) with (length dur) by lia. rewrite take_app_length.
  rewrite m_seq, m_lit1. cbv beta. rewrite m_seq.
  change (lit ">" ++ rest) with (62%N :: rest).
  apply star_run; [|reflexivity|].
  { apply Forall_forall. intros x Hx. unfold non_gt.
    apply negb_true_iff, N.eqb_neq. intros ->. done. }
  cbv beta. rewrite m_seq. change (Lit (lit ">")) with (Lit [62%N]).
  rewrite m_lit1. cbv beta.
  match goal with
  | |- m _ ?I _ _ _ = _ =>
      match type of Hk with
      | m _ ?J _ _ _ = _ =>
          replace I with J
            by (cbn [length tag_ws1 tag_start tag_ws2 tag_dur tag_attrs];
                change (length (lit ">")) with 1; lia)
      end
  end.
  exact Hk.
Qed.

(** A well-formed tag whose inner payload ends at the first closing tag
    is matched as a whole, and the three groups are its two values and
    its inner payload. *)
Lemma tag_at_complete g post i :
  is_tag value g -> closed_by close g ->
  exists mt,
    match_at (tag_re open a1 a2 value close) i
      (tag_text open a1 a2 close g ++ post) = Some mt
    /\ m_index mt = i /\ m_end mt = i + length (tag_text open a1 a2 close g)
    /\ group 1 mt = tag_start g /\ group 2 mt = tag_dur g
    /\ group 3 mt = tag_inner g.
Proof.
  intros Hg Hc. unfold match_at, tag_text. rewrite <- !app_assoc.
  rewrite (tag_open_run g (tag_inner g ++ close ++ post) i
             (i + length (tag_open open a1 a2 g) + length (tag_inner g) + length close,
              [(3, tag_inner g); (2, tag_dur g); (1, tag_start g)]) Hg).
  - eexists. split; [reflexivity|]. cbn [m_index m_end].
    split; [done|]. split; [rewrite !length_app; lia|]. done.
  - rewrite m_seq, m_group.
    change (m (LazyStar any_unit)) with (fun i s c k => star_lazy any_unit k i s c).
    cbv beta. apply star_lazy_run.
    + by apply Forall_forall.
    + intros j Hj. cbn [m].
      apply indexOf_Some in Hc as (_ & _ & Hmin). specialize (Hmin j Hj).
      rewrite drop_app_le in Hmin by lia.
      rewrite (app_assoc (drop j (tag_inner g))).
      rewrite lit_match_app_None; [done| |done].
      rewrite length_app, length_drop. lia.
    + rewrite m_lit. unfold kfin.
      replace (_ - _) with (length (tag_inner g)) by lia.
      by rewrite take_app_length.
Qed.

(** A well-formed opening tag with a closing tag somewhere after it is
    matched. *)
Lemma tag_at_some g post i :
  is_tag value g ->
  is_Some (match_at (tag_re open a1 a2 value close) i
             (tag_text open a1 a2 close g ++ post)).
Proof.
  intros Hg. unfold match_at, tag_text. rewrite <- !app_assoc.
  destruct (star_lazy_some any_unit
              (fun j s' c' => m (Lit close) j s' c'
                 (fun j0 s'0 c'0 => kfin j0 s'0
                    ((3, take (j - (i + length (tag_open open a1 a2 g)))
                           (tag_inner g ++ close ++ post)) :: c'0)))
              [(2, tag_dur g); (1, tag_start g)]
              (tag_inner g ++ close ++ post) (length (tag_inner g))
              (i + length (tag_open open a1 a2 g))
              (i + length (tag_open open a1 a2 g) + length (tag_inner g) + length close,
               [(3, tag_inner g); (2, tag_dur g); (1, tag_start g)]))
    as [y Hy].
  - rewrite length_app. lia.
  - by apply Forall_forall.
  - rewrite drop_app_length, m_lit. unfold kfin.
    replace (_ - _) with (length (tag_inner g)) by lia.
    by rewrite take_app_length.
  - rewrite (tag_open_run g (tag_inner g ++ close ++ post) i y Hg).
    + destruct y. eauto.
    + rewrite m_seq, m_group. exact Hy.
Qed.

(** What the expression matches is a well-formed tag whose inner payload
    ends at the first closing tag. *)
Lemma tag_at_sound i rest mt :
  match_at (tag_re open a1 a2 value close) i rest = Some mt ->
  exists g post,
    rest = tag_text open a1 a2 close g ++ post
    /\ is_tag value g /\ closed_by close g
    /\ m_index mt = i /\ m_end mt = i + length (tag_text open a1 a2 close g)
    /\ group 1 mt = tag_start g /\ group 2 mt = tag_dur g
    /\ group 3 mt = tag_inner g.
Proof.
  unfold match_at.
  destruct (m (tag_re open a1 a2 value close) i rest [] kfin) as [[j c]|] eqn:Hm;
    [|discriminate].
  intros [= <-]. unfold group. cbn [m_caps m_index m_end].
  unfold tag_re in Hm. cbn [seqs] in Hm.
  rewrite m_seq in Hm. apply lit_inv in Hm as (r0 & -> & Hm).
  rewrite m_seq in Hm. apply plus_inv in Hm as (ws1 & r1 & -> & Hw1n & Hw1 & Hm).
  rewrite m_seq in Hm. apply lit_inv in Hm as (r2 & -> & Hm).
  rewrite m_seq, m_group in Hm.
  apply plus_inv in Hm as (start & r3 & -> & Hsn & Hs & Hm).
  rewrite m_seq in Hm. apply lit_inv in Hm as (r4 & -> & Hm).
  rewrite m_seq in Hm. apply plus_inv in Hm as (ws2 & r5 & -> & Hw2n & Hw2 & Hm).
  rewrite m_seq in Hm. apply lit_inv in Hm as (r6 & -> & Hm).
  rewrite m_seq, m_group in Hm.
  apply plus_inv in Hm as (dur & r7 & -> & Hdn & Hd & Hm).
  rewrite m_seq in Hm. apply lit_inv in Hm as (r8 & -> & Hm).
  rewrite m_seq in Hm. apply star_inv in Hm as (attrs & r9 & -> & Hat & Hm).
  rewrite m_seq in Hm. apply lit_inv in Hm as (r10 & -> & Hm).
  rewrite m_seq, m_group in Hm.
  change (m (LazyStar any_unit)) with (fun i s c k => star_lazy any_unit k i s c) in Hm.
  cbv beta in Hm.
  apply star_lazy_first in Hm as (n & Hn & _ & Hm & Hmin).
  apply lit_inv in Hm as (r11 & Hr11 & Hm).
  unfold kfin in Hm. injection Hm as <- <-.
  assert (r10 = take n r10 ++ close ++ r11) as Hr10.
  { by rewrite <- Hr11, take_drop. }
  exists (mkTag ws1 start ws2 dur attrs (take n r10)), r11.
  cbn [cap_lookup Nat.eqb default tag_start tag_dur tag_inner].
  repeat match goal with
  | |- context [take (?a + length ?t - ?a) (?t ++ ?r)] =>
      replace (a + length t - a) with (length t) by lia;
      rewrite (take_app_length t r)
  end.
  split.
  { unfold tag_text, tag_open. cbn [tag_ws1 tag_start tag_ws2 tag_dur tag_attrs
      tag_inner]. rewrite <- !app_assoc. by rewrite <- Hr10. }
  split.
  { repeat split; try done. cbn [tag_attrs].
    rewrite Forall_forall in Hat. intros Hin%Hat. by vm_compute in Hin. }
  split.
  { unfold closed_by. cbn [tag_inner]. apply indexOf_Some.
    split; [exists []; by rewrite drop_app_length, app_nil_r|].
    split; [rewrite length_app; lia|].
    intros j0 Hj0. rewrite length_take in Hj0.
    specialize (Hmin j0 ltac:(lia)). cbn [m] in Hmin.
    destruct (lit_match close (drop j0 (take n r10 ++ close))) as [x|] eqn:Hl; [|done].
    exfalso. apply (lit_match_app_Some _ _ r11) in Hl.
    rewrite <- drop_app_le in Hl by (rewrite length_app, length_take; lia).
    rewrite <- app_assoc, <- Hr10 in Hl. by rewrite Hl in Hmin. }
  split; [done|]. split.
  { unfold tag_text, tag_open. cbn [tag_ws1 tag_start tag_ws2 tag_dur tag_attrs
      tag_inner]. rewrite !length_app, length_take.
    change (length (lit ">")) with 1. cbn [length]. lia. }
  split; [done|]. split; [done|].
  replace (_ - _) with n by lia. done.
Qed.

End Tags.

(** A text in which the pattern does not occur has no occurrence that
    runs into what follows, when that starts with a code unit that the
    pattern only has at its head. *)
Lemma lit_match_straddle x : forall pat u r,
  x ∉ pat -> lit_match pat u = None -> lit_match pat (u ++ x :: r) = None.
Proof.
  induction pat as [|c pat IH]; intros u r Hx Hu; simpl in *; [done|].
  apply not_elem_of_cons in Hx as [Hcx Hx].
  destruct u as [|d u]; simpl.
  - destruct (N.eqb_spec c x) as [->|]; done.
  - destruct (c =? d)%N; [by apply IH|done].
Qed.

Section Payloads.

Variables (open' close a1 a2 : jsstring) (value : N -> bool).
Hypothesis Ha1 : match a1 with c :: _ => is_space c = false | [] => False end.
Hypothesis Ha2 : match a2 with c :: _ => is_space c = false | [] => False end.
Hypothesis Hq : value quote = false.
Hypothesis Hopen : 60%N ∉ open'.

Abbreviation open := (60%N :: open').
Abbreviation tre := (tag_re open a1 a2 value close).
Abbreviation ttext := (tag_text open a1 a2 close).

Lemma match_needs_open i rest mt :
  match_at tre i rest = Some mt -> is_Some (lit_match open rest).
Proof.
  intros (g & post & -> & _)%tag_at_sound.
  unfold tag_text, tag_open. rewrite <- !app_assoc. rewrite lit_match_app. eauto.
Qed.

Lemma no_open_no_match i rest :
  lit_match open rest = None -> match_at tre i rest = None.
Proof.
  intros Hl. destruct (match_at tre i rest) as [mt|] eqn:Hm; [|done].
  apply match_needs_open in Hm as [x Hx]. congruence.
Qed.

(** No match starts in a text without the tag name, also when a tag
    follows. *)
Lemma junk_skipped junk r i d :
  indexOf open junk = None -> d < length junk ->
  match_at tre i (drop d junk ++ 60%N :: r) = None.
Proof.
  intros Hn Hd. apply no_open_no_match.
  rewrite indexOf_None in Hn. specialize (Hn d).
  destruct (drop d junk) as [|x u] eqn:Hu.
  { apply (f_equal length) in Hu. rewrite length_drop in Hu. simpl in Hu. lia. }
  cbn [lit_match app] in *. destruct (60 =? x)%N; [|done]. by apply lit_match_straddle.
Qed.

Lemma tail_skipped tail i :
  indexOf open tail = None -> search_from tre i tail = None.
Proof.
  intros Hn. apply search_from_None. intros d _. apply no_open_no_match.
  rewrite indexOf_None in Hn. apply Hn.
Qed.

(** The loop over [exec] goes through the tags of a payload one by one. *)
Lemma exec_all_payload tail : forall items pre fuel,
  Forall (fun it => indexOf open (fst it) = None
                    /\ is_tag value (snd it) /\ closed_by close (snd it)) items ->
  indexOf open tail = None -> length items < fuel ->
  exists ms,
    exec_all fuel tre (pre ++ payload ttext items tail) (length pre) = Some ms
    /\ Forall2 reads ms (map snd items).
Proof.
  induction items as [|[junk g] items IH]; intros pre fuel Hall Htail Hfuel.
  - destruct fuel as [|fuel]; [simpl in Hfuel; lia|]. exists []. split; [|constructor].
    unfold payload. simpl. unfold exec.
    destruct (Nat.ltb_spec (length (pre ++ tail)) (length pre)) as [Hlt|_].
    { rewrite length_app in Hlt. lia. }
    by rewrite drop_app_length, tail_skipped.
  - apply Forall_cons in Hall as [(Hj & Hg & Hc) Hall]. cbn [fst snd] in *.
    destruct fuel as [|fuel]; [simpl in Hfuel; lia|].
    unfold payload. cbn [map concat fst snd]. rewrite <- !app_assoc.
    fold (payload ttext items tail).
    destruct (tag_at_complete open close a1 a2 value Ha1 Ha2 Hq g
                (payload ttext items tail) (length pre + length junk) Hg Hc)
      as (mt & Hm & Hi & He & Hg1 & Hg2 & Hg3).
    assert (exec tre (pre ++ junk ++ ttext g ++ payload ttext items tail) (length pre)
            = (Some mt, length (pre ++ junk ++ ttext g))) as Hex.
    { unfold exec.
      destruct (Nat.ltb_spec (length (pre ++ junk ++ ttext g ++ payload ttext items tail))
                  (length pre)) as [Hlt|_].
      { rewrite length_app in Hlt. lia. }
      rewrite drop_app_length.
      assert (search_from tre (length pre) (junk ++ ttext g ++ payload ttext items tail)
              = Some mt) as ->.
      { apply search_from_Some. exists (length junk).
        split; [rewrite length_app; lia|]. split; [by rewrite drop_app_length|].
        intros d' Hd'. rewrite drop_app_le by lia.
        unfold tag_text at 1, tag_open at 1. rewrite <- !app_assoc.
        rewrite <- app_comm_cons. by apply junk_skipped. }
      f_equal. rewrite He, !length_app. lia. }
    cbn [exec_all]. rewrite Hex.
    destruct (IH (pre ++ junk ++ ttext g) fuel Hall Htail ltac:(simpl in Hfuel; lia))
      as (ms & Hms & Hr).
    rewrite <- !app_assoc in Hms. rewrite Hms.
    exists (mt :: ms). split; [done|]. constructor; [done|exact Hr].
Qed.

Lemma matches_payload items tail :
  Forall (fun it => indexOf open (fst it) = None
                    /\ is_tag value (snd it) /\ closed_by close (snd it)) items ->
  indexOf open tail = None ->
  exists ms,
    matches tre (payload ttext items tail) = Some ms
    /\ Forall2 reads ms (map snd items).
Proof.
  intros Hall Htail. unfold matches.
  apply (exec_all_payload tail items [] _ Hall Htail).
  assert (forall its : list (jsstring * Tag),
            Forall (fun it => is_tag value (snd it)) its ->
            length its <= length (payload ttext its tail)) as Hlen.
  { induction its as [|[junk g] its IHi]; intros Hi; [simpl; lia|].
    apply Forall_cons in Hi as [_ Hi]. specialize (IHi Hi).
    unfold payload in *. cbn [map concat fst snd length].
    rewrite length_app in IHi. rewrite !length_app.
    unfold tag_text at 1, tag_open at 1. rewrite !length_app. cbn [length]. lia. }
  specialize (Hlen items). unfold lt. apply le_n_S, Hlen.
  eapply Forall_impl; [exact Hall|]. by intros it (_ & ? & _).
Qed.

(** A text without the tag name has no match. *)
Lemma matches_none xml : indexOf open xml = None -> matches tre xml = Some [].
Proof.
  intros Hn. destruct (matches_payload [] xml) as (ms & Hms & Hr); [constructor|done|].
  inversion Hr; subst. exact Hms.
Qed.

(** There is a match exactly when a well-formed tag stands somewhere in
    the text. *)
Lemma matches_nonempty xml ms :
  matches tre xml = Some ms ->
  ms <> [] <->
  exists pre g post, xml = pre ++ ttext g ++ post /\ is_tag value g.
Proof.
  unfold matches. cbn [exec_all]. unfold exec.
  destruct (Nat.ltb_spec (length xml) 0) as [|_]; [lia|].
  rewrite drop_0. intros Hms. split.
  - destruct (search_from tre 0 xml) as [mt|] eqn:Hs.
    + intros _. apply search_from_Some in Hs as (d & Hd & Hm & _).
      apply tag_at_sound in Hm as (g & post & Hr & Hg & _).
      exists (take d xml), g, post. split; [|done]. by rewrite <- Hr, take_drop.
    + injection Hms as <-. done.
  - intros (pre & g & post & -> & Hg).
    destruct (tag_at_some open close a1 a2 value Ha1 Ha2 Hq g post (0 + length pre) Hg)
      as [mt Hm].
    destruct (search_from_complete tre 0 (pre ++ ttext g ++ post) (length pre) mt)
      as [mt' Hs].
    + rewrite length_app. lia.
    + by rewrite drop_app_length.
    + rewrite Hs in Hms.
      destruct (exec_all _ _ _ _) as [ms'|]; [|done]. injection Hms as <-. done.
Qed.

End Payloads.


(** *** The two formats *)

Lemma is_digit_quote : is_digit quote = false.
Proof. reflexivity. Qed.

Lemma digit_or_dot_quote : digit_or_dot quote = false.
Proof. reflexivity. Qed.

Lemma no_lt_p : 60%N ∉ lit "p".
Proof. apply DecodeMore.absent_forallb. reflexivity. Qed.

Lemma no_lt_text : 60%N ∉ lit "text".
Proof. apply DecodeMore.absent_forallb. reflexivity. Qed.

Lemma srv3_matches_payload items tail :
  Forall (fun it => indexOf (lit "<p") (fst it) = None
                    /\ is_tag is_digit (snd it) /\ closed_by (lit "</p>") (snd it))
    items ->
  indexOf (lit "<p") tail = None ->
  exists ms, matches srv3Regex (payload p_tag items tail) = Some ms
             /\ Forall2 reads ms (map snd items).
Proof.
  exact (matches_payload (lit "p") (lit "</p>") (lit "t=" ++ [quote])
           (lit "d=" ++ [quote]) is_digit eq_refl eq_refl is_digit_quote no_lt_p
           items tail).
Qed.

Lemma std_matches_payload items tail :
  Forall (fun it => indexOf (lit "<text") (fst it) = None
                    /\ is_tag digit_or_dot (snd it)
                    /\ closed_by (lit "</text>") (snd it)) items ->
  indexOf (lit "<text") tail = None ->
  exists ms, matches stdRegex (payload text_tag items tail) = Some ms
             /\ Forall2 reads ms (map snd items).
Proof.
  exact (matches_payload (lit "text") (lit "</text>") (lit "start=" ++ [quote])
           (lit "dur=" ++ [quote]) digit_or_dot eq_refl eq_refl digit_or_dot_quote
           no_lt_text items tail).
Qed.

Lemma srv3_matches_none xml :
  indexOf (lit "<p") xml = None -> matches srv3Regex xml = Some [].
Proof.
  exact (matches_none (lit "p") (lit "</p>") (lit "t=" ++ [quote])
           (lit "d=" ++ [quote]) is_digit eq_refl eq_refl is_digit_quote no_lt_p xml).
Qed.

Lemma srv3_matches_nonempty xml ms :
  matches srv3Regex xml = Some ms -> ms <> [] <-> has_p_tag xml.
Proof.
  exact (matches_nonempty (lit "p") (lit "</p>") (lit "t=" ++ [quote])
           (lit "d=" ++ [quote]) is_digit eq_refl eq_refl is_digit_quote xml ms).
Qed.

Lemma map_srv3_segment ms gs :
  Forall2 reads ms gs -> map srv3_segment ms = map p_segment_of gs.
Proof.
  induction 1 as [|mt g ms gs (H1 & H2 & H3) _ IH]; [done|]. simpl. f_equal; [|done].
  unfold srv3_segment, p_segment_of. by rewrite H1, H2, H3.
Qed.

Lemma map_std_segment ms gs :
  Forall2 reads ms gs -> map std_segment ms = map text_segment_of gs.
Proof.
  induction 1 as [|mt g ms gs (H1 & H2 & H3) _ IH]; [done|]. simpl. f_equal; [|done].
  unfold std_segment, text_segment_of. by rewrite H1, H2, H3.
Qed.

(** A payload of format-A tags is read tag by tag. *)
Lemma p_payload_parse items tail :
  items <> [] ->
  Forall (fun it => indexOf (lit "<p") (fst it) = None
                    /\ is_tag is_digit (snd it) /\ closed_by (lit "</p>") (snd it))
    items ->
  indexOf (lit "<p") tail = None ->
  parseSegments (payload p_tag items tail)
  = Some (outcome (kept (map p_segment_of (map snd items)))).
Proof.
  intros Hne Hall Htail.
  destruct (srv3_matches_payload items tail Hall Htail) as (ms & Hms & Hr).
  destruct (parseSegments_matches (payload p_tag items tail))
    as (msA & msB & HA & _ & ->).
  rewrite Hms in HA. injection HA as <-.
  rewrite <- (map_srv3_segment ms _ Hr).
  destruct ms as [|mt ms]; [|done]. inversion Hr as [Hnil|]. by destruct items.
Qed.

(** A payload of format-B tags without any [<p] is read tag by tag. *)
Lemma text_payload_parse items tail :
  Forall (fun it => indexOf (lit "<text") (fst it) = None
                    /\ is_tag digit_or_dot (snd it)
                    /\ closed_by (lit "</text>") (snd it)) items ->
  indexOf (lit "<text") tail = None ->
  indexOf (lit "<p") (payload text_tag items tail) = None ->
  parseSegments (payload text_tag items tail)
  = Some (outcome (kept (map text_segment_of (map snd items)))).
Proof.
  intros Hall Htail Hnop.
  destruct (std_matches_payload items tail Hall Htail) as (ms & Hms & Hr).
  destruct (parseSegments_matches (payload text_tag items tail))
    as (msA & msB & HA & HB & ->).
  rewrite (srv3_matches_none _ Hnop) in HA. injection HA as <-.
  rewrite Hms in HB. injection HB as <-.
  by rewrite <- (map_std_segment ms _ Hr).
Qed.

End TagFacts.

(** ** Numbers that a double holds exactly *)

Module NumFacts.

Local Open Scope Z_scope.

Lemma digits2_size p : digits2_pos p = Pos.size p.
Proof. induction p as [p IH|p IH|]; simpl; by rewrite ?IH. Qed.

Lemma Zdigits2_log2 p : Zdigits2 (Zpos p) = Z.log2 (Zpos p) + 1.
Proof.
  simpl. rewrite digits2_size. destruct p as [p|p|]; simpl; [| |done];
    rewrite Pos2Z.inj_succ; lia.
Qed.

Lemma Zdigits2_shift p k :
  0 <= k -> Zdigits2 (Zpos p * 2 ^ k) = Zdigits2 (Zpos p) + k.
Proof.
  intros Hk. assert (0 < Zpos p * 2 ^ k) as Hpos by (apply Z.mul_pos_pos; lia).
  destruct (Zpos p * 2 ^ k) as [|q|q] eqn:Hq; [lia| |lia].
  rewrite !Zdigits2_log2, <- Hq, Z.log2_mul_pow2 by lia. lia.
Qed.

Lemma shr_1_even a :
  0 < a ->
  shr_1 {| shr_m := 2 * a; shr_r := false; shr_s := false |}
  = {| shr_m := a; shr_r := false; shr_s := false |}.
Proof. intros Ha. destruct a as [|a|a]; [lia|done|lia]. Qed.

(** Shifting out zeros loses nothing. *)
Lemma shr_zeros n : forall a,
  0 < a ->
  SpecFloat.iter_pos shr_1 n
    {| shr_m := a * 2 ^ Zpos n; shr_r := false; shr_s := false |}
  = {| shr_m := a; shr_r := false; shr_s := false |}.
Proof.
  induction n as [n IH|n IH|]; intros a Ha; cbn [SpecFloat.iter_pos].
  - assert (a * 2 ^ Zpos n~1 = 2 * (a * 2 ^ Zpos n * 2 ^ Zpos n)) as ->.
    { rewrite (Pos2Z.inj_xI n).
      replace (2 * Zpos n + 1) with (Zpos n + Zpos n + 1) by lia.
      rewrite !Z.pow_add_r, Z.pow_1_r by lia. ring. }
    rewrite shr_1_even by (repeat apply Z.mul_pos_pos; lia).
    rewrite IH by (apply Z.mul_pos_pos; lia). by apply IH.
  - assert (a * 2 ^ Zpos n~0 = a * 2 ^ Zpos n * 2 ^ Zpos n) as ->.
    { rewrite (Pos2Z.inj_xO n).
      replace (2 * Zpos n) with (Zpos n + Zpos n) by lia.
      rewrite Z.pow_add_r by lia. ring. }
    rewrite IH by (apply Z.mul_pos_pos; lia). by apply IH.
  - rewrite Z.pow_1_r, Z.mul_comm. by apply shr_1_even.
Qed.

(** The double of an integer below [2^53]: a mantissa of 53 digits. *)
Lemma of_integer_float p :
  Zpos p < 2 ^ 53 ->
  exists q,
    Zpos q = Zpos p * 2 ^ (53 - Zdigits2 (Zpos p))
    /\ SFdiv prec emax (S754_finite false p 0) (S754_finite false 1 0)
       = S754_finite false q (Zdigits2 (Zpos p) - 53).
Proof.
  intros Hp. set (D := Zdigits2 (Zpos p)).
  assert (1 <= D <= 53) as HD.
  { unfold D. rewrite Zdigits2_log2.
    pose proof (Z.log2_nonneg (Zpos p)).
    assert (Z.log2 (Zpos p) < 53) by (apply Z.log2_lt_pow2; lia). lia. }
  unfold SFdiv, SFdiv_core_binary. fold D.
  change (Zdigits2 1) with 1.
  assert (fexp prec emax (D + 0 - (1 + 0)) = D - 54) as ->.
  { unfold fexp, emin, prec, emax. lia. }
  rewrite Z.min_l by lia.
  replace (0 - 0 - (D - 54)) with (54 - D) by lia.
  destruct (54 - D) as [|s|s] eqn:Hs; [lia| |lia].
  rewrite Z.shiftl_mul_pow2 by lia.
  assert (Z.div_eucl (Zpos p * 2 ^ Zpos s) 1 = (Zpos p * 2 ^ Zpos s, 0)) as ->.
  { pose proof (Z.div_1_r (Zpos p * 2 ^ Zpos s)) as Hq.
    pose proof (Z.mod_1_r (Zpos p * 2 ^ Zpos s)) as Hr.
    unfold Z.div, Z.modulo in *. by destruct (Z.div_eucl _ 1) as [q r]; subst. }
  change (new_location 1 0) with loc_Exact.
  set (q := Z.to_pos (Zpos p * 2 ^ (Zpos s - 1))).
  assert (Zpos q = Zpos p * 2 ^ (Zpos s - 1)) as Hq.
  { unfold q. rewrite Z2Pos.id; [done|]. apply Z.mul_pos_pos; lia. }
  assert (Zpos p * 2 ^ Zpos s = Zpos (q~0)) as ->.
  { rewrite (Pos2Z.inj_xO q), Hq.
    replace (Zpos s) with (1 + (Zpos s - 1)) at 1 by lia.
    rewrite Z.pow_add_r by lia. lia. }
  assert (Zdigits2 (Zpos q) = 53) as Hdq.
  { rewrite Hq, Zdigits2_shift by lia. fold D. lia. }
  assert (Zdigits2 (Zpos q~0) = 54) as Hdq0.
  { change (Zdigits2 (Zpos q~0)) with (Zpos (Pos.succ (digits2_pos q))).
    rewrite Pos2Z.inj_succ. change (Zpos (digits2_pos q)) with (Zdigits2 (Zpos q)).
    lia. }
  unfold binary_round_aux, shr_fexp. rewrite Hdq0.
  assert (fexp prec emax (54 + (D - 54)) - (D - 54) = 1) as ->.
  { unfold fexp, emin, prec, emax. lia. }
  cbn [shr shr_record_of_loc].
  change (SpecFloat.iter_pos shr_1 1 ?x) with (shr_1 x).
  cbn [shr_1 shr_m loc_of_shr_record round_nearest_even orb].
  rewrite Hdq.
  assert (fexp prec emax (53 + (D - 54 + 1)) - (D - 54 + 1) = 0) as ->.
  { unfold fexp, emin, prec, emax. lia. }
  cbn [shr shr_m xorb].
  destruct (Z.leb_spec (D - 54 + 1) (emax - prec)) as [_|Hgt];
    [|unfold emax, prec in Hgt; lia].
  exists q. split; [rewrite Hq; f_equal; f_equal; lia|]. f_equal. lia.
Qed.

(** The double nearest to an integer below [2^53] is that integer. *)
Lemma of_integer_exact p :
  Zpos p < 2 ^ 53 ->
  Math_floor (SFdiv prec emax (S754_finite false p 0) (S754_finite false 1 0))
  = Int (Zpos p).
Proof.
  intros Hp. destruct (of_integer_float p Hp) as (q & Hq & ->).
  set (D := Zdigits2 (Zpos p)) in *.
  assert (1 <= D <= 53) as HD.
  { unfold D. rewrite Zdigits2_log2.
    pose proof (Z.log2_nonneg (Zpos p)).
    assert (Z.log2 (Zpos p) < 53) by (apply Z.log2_lt_pow2; lia). lia. }
  unfold Math_floor. f_equal. rewrite Hq.
  destruct (Z.leb_spec 0 (D - 53)) as [Hge|Hlt].
  - replace (53 - D) with 0 by lia. replace (D - 53) with 0 by lia. lia.
  - replace (- (D - 53)) with (53 - D) by lia.
    apply Z.div_mul. apply Z.pow_nonzero; lia.
Qed.

Lemma parseInt_exact ds :
  (digits_value ds < 2 ^ 53)%N -> parseInt ds = Int (Z.of_N (digits_value ds)).
Proof.
  intros Hv. unfold parseInt, of_decimal.
  destruct (digits_value ds) as [|p]; [done|].
  change (Z.to_pos (10 ^ Z.of_nat 0)) with 1%positive.
  apply of_integer_exact. change (Zpos p) with (Z.of_N (Npos p)). lia.
Qed.

(** The code unit of a decimal reference: its number modulo [2^16]. *)
Lemma fromCharCode_parseInt ds :
  (digits_value ds < 2 ^ 53)%N ->
  fromCharCode (parseInt ds) = [(digits_value ds mod 65536)%N].
Proof.
  intros Hv. rewrite parseInt_exact by done. unfold fromCharCode. f_equal.
  rewrite <- (N2Z.id (_ mod _)%N). f_equal. by rewrite N2Z.inj_mod.
Qed.

(** A whole number of seconds times 1000, below [2^53]: the product of
    the doubles is the product of the integers. *)
Lemma times_1000_exact p :
  Zpos p * 1000 < 2 ^ 53 ->
  Math_floor (times_1000 (SFdiv prec emax (S754_finite false p 0) (S754_finite false 1 0)))
  = Int (Zpos p * 1000).
Proof.
  intros Hp.
  destruct (of_integer_float p) as (q & Hq & ->); [lia|].
  set (D := Zdigits2 (Zpos p)) in *.
  set (P := (p * 1000)%positive).
  set (D' := Zdigits2 (Zpos P)).
  assert (1 <= D <= 53) as HD.
  { unfold D. rewrite Zdigits2_log2.
    pose proof (Z.log2_nonneg (Zpos p)).
    assert (Z.log2 (Zpos p) < 53) by (apply Z.log2_lt_pow2; lia). lia. }
  assert (D + 9 <= D' <= 53) as HD'.
  { unfold D', D, P. rewrite !Zdigits2_log2. split.
    - assert (Z.log2 (Zpos p * 2 ^ 9) <= Z.log2 (Zpos (p * 1000))) as Hle.
      { apply Z.log2_le_mono. change (2 ^ 9) with 512. lia. }
      rewrite Z.log2_mul_pow2 in Hle by lia. lia.
    - assert (Z.log2 (Zpos (p * 1000)) < 53); [|lia].
      apply Z.log2_lt_pow2; lia. }
  unfold times_1000, SFmul. cbn [xorb].
  set (m1 := Z.to_pos (Zpos P * 2 ^ (53 - D'))).
  assert (Zpos m1 = Zpos P * 2 ^ (53 - D')) as Hm1.
  { unfold m1. rewrite Z2Pos.id; [done|]. apply Z.mul_pos_pos; lia. }
  destruct (D' - D) as [|n|n] eqn:Hn; [lia| |lia].
  assert (Zpos (q * 1000) = Zpos m1 * 2 ^ Zpos n) as HM.
  { rewrite Pos2Z.inj_mul, Hq, Hm1. unfold P. rewrite Pos2Z.inj_mul.
    replace (53 - D) with (53 - D' + Zpos n) by lia.
    rewrite Z.pow_add_r by lia. ring. }
  assert (Zdigits2 (Zpos m1) = 53) as Hd1.
  { rewrite Hm1, Zdigits2_shift by lia. fold D'. lia. }
  assert (Zdigits2 (Zpos (q * 1000)) = 53 + Zpos n) as HdM.
  { rewrite HM, Zdigits2_shift by lia. lia. }
  unfold binary_round_aux, shr_fexp. rewrite HdM.
  assert (fexp prec emax (53 + Zpos n + (D - 53 + 0)) - (D - 53 + 0) = Zpos n) as ->.
  { unfold fexp, emin, prec, emax. lia. }
  cbn [shr shr_record_of_loc]. rewrite HM, shr_zeros by lia.
  cbn [shr_m loc_of_shr_record round_nearest_even].
  rewrite Hd1.
  assert (fexp prec emax (53 + (D - 53 + 0 + Zpos n)) - (D - 53 + 0 + Zpos n) = 0) as ->.
  { unfold fexp, emin, prec, emax. lia. }
  cbn [shr shr_m].
  destruct (Z.leb_spec (D - 53 + 0 + Zpos n) (emax - prec)) as [_|Hgt];
    [|unfold emax, prec in Hgt; lia].
  unfold Math_floor. f_equal. rewrite Hm1. unfold P. rewrite Pos2Z.inj_mul.
  destruct (Z.leb_spec 0 (D - 53 + 0 + Zpos n)) as [Hge|Hlt].
  - replace (53 - D') with 0 by lia. replace (D - 53 + 0 + Zpos n) with 0 by lia. lia.
  - replace (- (D - 53 + 0 + Zpos n)) with (53 - D') by lia.
    apply Z.div_mul. apply Z.pow_nonzero; lia.
Qed.

Lemma parseFloat_digits ds :
  ds <> [] -> Forall (fun c => is_digit c = true) ds ->
  parseFloat ds = of_decimal (digits_value ds) 0.
Proof.
  intros Hne Hall. unfold parseFloat.
  assert (span is_digit ds = (ds, [])) as ->.
  { clear Hne. induction Hall as [|c ds Hc _ IH]; [done|]. simpl. by rewrite Hc, IH. }
  rewrite app_nil_r. by destruct ds.
Qed.

(** Whole seconds to milliseconds. *)
Lemma whole_seconds ds :
  ds <> [] -> Forall (fun c => is_digit c = true) ds ->
  (digits_value ds * 1000 < 2 ^ 53)%N ->
  Math_floor (times_1000 (parseFloat ds)) = Int (Z.of_N (digits_value ds) * 1000).
Proof.
  intros Hne Hall Hv. rewrite parseFloat_digits by done. unfold of_decimal.
  destruct (digits_value ds) as [|p]; [done|].
  change (Z.to_pos (10 ^ Z.of_nat 0)) with 1%positive.
  apply times_1000_exact. change (Zpos p) with (Z.of_N (Npos p)). lia.
Qed.

End NumFacts.

(** ** The passes of the entity decoder *)

Module EntityFacts.
Import RegexMore.

Lemma plain_start_app a w :
  plain_start a = true -> (a = [] -> plain_start w = true) ->
  plain_start (a ++ w) = true.
Proof. destruct a as [|c a]; simpl; auto. Qed.

Lemma entity_tail_no_amp e : entity_ok e -> 38%N ∉ entity_tail e.
Proof.
  destruct e; simpl; intros He; try (apply DecodeMore.absent_forallb; reflexivity).
  destruct He as (_ & Hd & _). change (lit "#" ++ ds ++ lit ";") with (35%N :: ds ++ [59%N]).
  apply not_elem_of_cons. split; [done|]. by apply digits_no_amp.
Qed.

Section Pass.

Variables (r : re) (f : Match -> jsstring) (k : nat).
Hypothesis Hk : k <= 7.
Hypothesis Hu : unanchored r = true.
Hypothesis Hf : forall d mt, f (moved d mt) = f mt.
Hypothesis Hs : starts_with r 38%N = true.
Hypothesis Hhit : forall e w, entity_ok e -> pass_of e = k ->
  exists mt, match_at r 0 (38%N :: entity_tail e ++ w) = Some mt
             /\ m_end mt = S (length (entity_tail e)) /\ f mt = entity_char e.
Hypothesis Hmiss : forall e w, entity_ok e -> k < pass_of e ->
  match_at r 0 (38%N :: entity_tail e ++ w) = None.
Hypothesis Hdead : 0 < k -> forall w, plain_start w = true ->
  match_at r 0 (38%N :: w) = None.

Lemma skip_plain a w : 38%N ∉ a -> replace_all r f (a ++ w) = a ++ replace_all r f w.
Proof.
  intros Ha. apply (replace_all_prefix r f Hu Hf).
  intros j Hj. pose proof (no_match_in_prefix r 38%N a w 0 Hs Ha j Hj) as Hn.
  rewrite (match_at_shift r j 0 _ Hu) in Hn.
  by destruct (match_at r 0 (drop j a ++ w)).
Qed.

(** What is already decoded does not start like the rest of an
    entity. *)
Lemma done_char e : entity_ok e -> pass_of e < k ->
  e = EAmp \/ ((38%N ∉ entity_char e) /\ plain_start (entity_char e) = true).
Proof.
  intros He Hp. destruct e; simpl in *; try (by left);
    try (right; split; [apply DecodeMore.absent_forallb|]; reflexivity).
  case_bool_decide as Hds; [|lia]. subst. right.
  split; [apply DecodeMore.absent_forallb|]; reflexivity.
Qed.

Lemma plain_stage toks :
  Forall token_ok toks -> plain_start (concat (map (stage k) toks)) = true.
Proof.
  destruct 1 as [|[e a] toks (Ha & He & Hp) _]; [done|]. cbn [map concat].
  unfold stage at 1. cbn [fst snd]. rewrite <- app_assoc.
  destruct (Nat.ltb_spec (pass_of e) k) as [Hlt|Hge]; [|done].
  destruct (done_char e He Hlt) as [->|[_ Hc]]; [done|].
  apply plain_start_app; [done|]. by destruct e.
Qed.

Lemma pass_step : forall toks a0,
  38%N ∉ a0 -> Forall token_ok toks ->
  replace_all r f (a0 ++ concat (map (stage k) toks))
  = a0 ++ concat (map (stage (S k)) toks).
Proof.
  induction toks as [|[e a] toks IH]; intros a0 Ha0 Hall.
  - simpl. rewrite app_nil_r. by apply (replace_scan_absent _ _ 38%N).
  - apply Forall_cons in Hall as [(Ha & He & Hp) Hall]. cbn [fst snd] in *.
    cbn [map concat]. unfold stage at 1 3. cbn [fst snd].
    destruct (lt_eq_lt_dec (pass_of e) k) as [[Hlt|Heq]|Hgt].
    + destruct (Nat.ltb_spec (pass_of e) k) as [_|]; [|lia].
      destruct (Nat.ltb_spec (pass_of e) (S k)) as [_|]; [|lia].
      destruct (done_char e He Hlt) as [->|[Hc _]].
      * cbn [entity_char]. change (lit "&") with [38%N]. cbn [app].
        rewrite skip_plain by done. f_equal.
        rewrite (replace_all_miss r f Hu Hf).
        -- f_equal. by apply IH.
        -- apply Hdead; [lia|].
           apply plain_start_app; [by apply Hp|]. intros _. by apply plain_stage.
      * rewrite <- !app_assoc. rewrite (app_assoc a0), (app_assoc (a0 ++ _)).
        rewrite IH; [by rewrite <- !app_assoc|by repeat apply DecodeMore.not_in_app|done].
    + destruct (Nat.ltb_spec (pass_of e) k) as [|_]; [lia|].
      destruct (Nat.ltb_spec (pass_of e) (S k)) as [_|]; [|lia].
      rewrite skip_plain by done. f_equal.
      destruct (Hhit e (a ++ concat (map (stage k) toks)) He Heq) as (mt & Hm & Hend & Hfm).
      rewrite <- app_assoc.
      change (38%N :: entity_tail e ++ ?x) with ((38%N :: entity_tail e) ++ x).
      rewrite (replace_all_hit r f Hu Hf (38%N :: entity_tail e) _ mt); [|done|done|done].
      rewrite Hfm, <- app_assoc. f_equal. by apply IH.
    + destruct (Nat.ltb_spec (pass_of e) k) as [|_]; [lia|].
      destruct (Nat.ltb_spec (pass_of e) (S k)) as [|_]; [lia|].
      rewrite skip_plain by done. f_equal.
      rewrite <- !app_assoc. cbn [app].
      rewrite (replace_all_miss r f Hu Hf) by (by apply Hmiss).
      f_equal. rewrite (app_assoc (entity_tail e)).
      rewrite IH; [by rewrite <- app_assoc| |done].
      apply DecodeMore.not_in_app; [by apply entity_tail_no_amp|done].
Qed.

End Pass.

(** *** The seven passes for a literal *)

Lemma plain_start_head c w :
  plain_start (c :: w) = true -> ~ In c [108; 103; 113; 35; 110]%N.
Proof.
  simpl. intros H%negb_true_iff Hin.
  assert (existsb (N.eqb c) [108; 103; 113; 35; 110]%N = true) as He.
  { apply existsb_exists. exists c. split; [done|]. apply N.eqb_refl. }
  simpl in He. congruence.
Qed.

Lemma dead_lit c2 tl w :
  In c2 [108; 103; 113; 35; 110]%N -> plain_start w = true ->
  match_at (Lit (38%N :: c2 :: tl)) 0 (38%N :: w) = None.
Proof.
  intros Hc Hw. rewrite match_at_lit. cbn [lit_match]. rewrite N.eqb_refl.
  destruct w as [|c w]; [done|]. apply plain_start_head in Hw.
  destruct (N.eqb_spec c2 c) as [<-|]; [done|done].
Qed.

Lemma hit_lit tl w :
  exists mt, match_at (Lit (38%N :: tl)) 0 (38%N :: tl ++ w) = Some mt
             /\ m_end mt = S (length tl).
Proof.
  rewrite match_at_lit. change (38%N :: tl ++ w) with ((38%N :: tl) ++ w).
  rewrite lit_match_app. eexists. split; [reflexivity|]. done.
Qed.

(** A decimal reference other than [&#39;] is not read as [&#39;]. *)
Lemma apos_miss ds w :
  ds <> lit "39" -> Forall (fun d => is_digit d = true) ds ->
  lit_match (lit "&#39;") (38%N :: (lit "#" ++ ds ++ lit ";") ++ w) = None.
Proof.
  intros Hne Hall. change (lit "&#39;") with [38; 35; 51; 57; 59]%N.
  change (lit "#" ++ ds ++ lit ";") with (35%N :: ds ++ [59%N]).
  cbn [lit_match app]. rewrite !N.eqb_refl.
  destruct ds as [|x [|y [|z ds]]]; cbn [lit_match app];
    repeat match goal with
    | |- context [N.eqb ?a ?b] => destruct (N.eqb_spec a b); subst; try done
    end.
  inversion Hall as [|? ? _ Hds]; subst. inversion Hds as [|? ? _ Hds']; subst.
  inversion Hds' as [|? ? Hz _]; subst. by vm_compute in Hz.
Qed.

Lemma aposhex_miss ds w :
  ds <> [] -> Forall (fun d => is_digit d = true) ds ->
  lit_match (lit "&#x27;") (38%N :: (lit "#" ++ ds ++ lit ";") ++ w) = None.
Proof.
  intros Hne Hall. change (lit "&#x27;") with [38; 35; 120; 50; 55; 59]%N.
  change (lit "#" ++ ds ++ lit ";") with (35%N :: ds ++ [59%N]).
  cbn [lit_match app]. rewrite !N.eqb_refl.
  destruct ds as [|x ds]; [done|]. cbn [lit_match app].
  inversion Hall as [|? ? Hx _]; subst.
  destruct (N.eqb_spec 120 x) as [<-|]; [by vm_compute in Hx|done].
Qed.

Ltac lit_pass :=
  intros toks a0 Ha0 Hall; unfold replace_lit;
  match goal with
  | |- replace_all (Lit ?P) ?f (_ ++ concat (map (stage ?k) _)) = _ =>
      apply (pass_step (Lit P) f k); [lia|reflexivity|reflexivity|reflexivity| | | |
                                        exact Ha0|exact Hall]
  end.

Ltac hit_case e :=
  destruct e; cbn [pass_of]; try discriminate;
  try (case_bool_decide; try discriminate; subst);
  intros _;
  match goal with
  | |- exists mt, match_at (Lit ?P) 0 (38%N :: ?t ++ ?w) = Some mt /\ _ =>
      let tl := eval vm_compute in t in
      let P' := eval vm_compute in P in
      change P with P'; change t with tl;
      destruct (hit_lit (tail P') w) as (mt0 & Hmt0 & Hend0);
      exists mt0; split; [exact Hmt0|]; split; [exact Hend0|reflexivity]
  end.

Lemma pass0 : forall toks a0, 38%N ∉ a0 -> Forall token_ok toks ->
  replace_lit (lit "&amp;") (lit "&") (a0 ++ concat (map (stage 0) toks))
  = a0 ++ concat (map (stage 1) toks).
Proof.
  lit_pass.
  - intros e w He. hit_case e.
  - intros e w He Hp. rewrite match_at_lit.
    destruct e; cbn [pass_of] in Hp; try lia; try reflexivity.
  - lia.
Qed.

Lemma pass1 : forall toks a0, 38%N ∉ a0 -> Forall token_ok toks ->
  replace_lit (lit "&lt;") (lit "<") (a0 ++ concat (map (stage 1) toks))
  = a0 ++ concat (map (stage 2) toks).
Proof.
  lit_pass.
  - intros e w He. hit_case e.
  - intros e w He Hp. rewrite match_at_lit.
    destruct e; cbn [pass_of] in Hp; try lia; try reflexivity.
  - intros _ w Hw. apply dead_lit; [|done]. simpl. tauto.
Qed.

Lemma pass2 : forall toks a0, 38%N ∉ a0 -> Forall token_ok toks ->
  replace_lit (lit "&gt;") (lit ">") (a0 ++ concat (map (stage 2) toks))
  = a0 ++ concat (map (stage 3) toks).
Proof.
  lit_pass.
  - intros e w He. hit_case e.
  - intros e w He Hp. rewrite match_at_lit.
    destruct e; cbn [pass_of] in Hp; try lia; try reflexivity.
  - intros _ w Hw. apply dead_lit; [|done]. simpl. tauto.
Qed.

Lemma pass3 : forall toks a0, 38%N ∉ a0 -> Forall token_ok toks ->
  replace_lit (lit "&quot;") [quote] (a0 ++ concat (map (stage 3) toks))
  = a0 ++ concat (map (stage 4) toks).
Proof.
  lit_pass.
  - intros e w He. hit_case e.
  - intros e w He Hp. rewrite match_at_lit.
    destruct e; cbn [pass_of] in Hp; try lia; try reflexivity.
  - intros _ w Hw. apply dead_lit; [|done]. simpl. tauto.
Qed.

Lemma pass4 : forall toks a0, 38%N ∉ a0 -> Forall token_ok toks ->
  replace_lit (lit "&#39;") (lit "'") (a0 ++ concat (map (stage 4) toks))
  = a0 ++ concat (map (stage 5) toks).
Proof.
  lit_pass.
  - intros e w He. hit_case e.
  - intros e w He Hp. rewrite match_at_lit.
    destruct e; cbn [pass_of] in Hp; try lia; try reflexivity.
    case_bool_decide as Hds; [lia|]. destruct He as (_ & Hd & _).
    cbn [entity_tail]. by rewrite apos_miss.
  - intros _ w Hw. apply dead_lit; [|done]. simpl. tauto.
Qed.

Lemma pass5 : forall toks a0, 38%N ∉ a0 -> Forall token_ok toks ->
  replace_lit (lit "&#x27;") (lit "'") (a0 ++ concat (map (stage 5) toks))
  = a0 ++ concat (map (stage 6) toks).
Proof.
  lit_pass.
  - intros e w He. hit_case e.
  - intros e w He Hp. rewrite match_at_lit.
    destruct e; cbn [pass_of] in Hp; try lia; try reflexivity.
    destruct He as (Hne & Hd & _). cbn [entity_tail]. by rewrite aposhex_miss.
  - intros _ w Hw. apply dead_lit; [|done]. simpl. tauto.
Qed.

Lemma pass6 : forall toks a0, 38%N ∉ a0 -> Forall token_ok toks ->
  replace_lit (lit "&nbsp;") (lit " ") (a0 ++ concat (map (stage 6) toks))
  = a0 ++ concat (map (stage 7) toks).
Proof.
  lit_pass.
  - intros e w He. hit_case e.
  - intros e w He Hp. rewrite match_at_lit.
    destruct e; cbn [pass_of] in Hp; try lia; try reflexivity.
  - intros _ w Hw. apply dead_lit; [|done]. simpl. tauto.
Qed.

(** *** The pass for the decimal references *)

Lemma numericRef_at_w ds w :
  ds <> [] -> Forall (fun d => is_digit d = true) ds ->
  exists mt, match_at numericRefRegex 0 (lit "&#" ++ ds ++ lit ";" ++ w) = Some mt
    /\ m_end mt = length (lit "&#" ++ ds ++ lit ";") /\ group 1 mt = ds.
Proof.
  intros Hne Hall. unfold match_at.
  assert (m numericRefRegex 0 (lit "&#" ++ ds ++ lit ";" ++ w) [] kfin
          = Some (length (lit "&#" ++ ds ++ lit ";"), [(1, ds)])) as ->.
  { unfold numericRefRegex. cbn [seqs]. rewrite ScanMore.m_seq, m_lit. cbv beta.
    rewrite ScanMore.m_seq, ScanMore.m_group.
    change (lit ";" ++ w) with (59%N :: w).
    apply plus_run; [done|done|reflexivity|]. cbv beta.
    change (59%N :: w) with (lit ";" ++ w). rewrite m_lit. unfold kfin.
    replace (_ - _) with (length ds) by lia. rewrite take_app_length.
    rewrite !length_app. done. }
  eexists. split; [reflexivity|]. done.
Qed.

Lemma pass7 : forall toks a0, 38%N ∉ a0 -> Forall token_ok toks ->
  replace_all numericRefRegex (fun mt => fromCharCode (parseInt (group 1 mt)))
    (a0 ++ concat (map (stage 7) toks))
  = a0 ++ concat (map (stage 8) toks).
Proof.
  intros toks a0 Ha0 Hall.
  apply (pass_step numericRefRegex _ 7);
    [lia|reflexivity|reflexivity|reflexivity| | | |exact Ha0|exact Hall].
  - intros e w He Hp. destruct e; cbn [pass_of] in Hp; try discriminate.
    case_bool_decide as Hds; [discriminate|]. destruct He as (Hne & Hd & Hv).
    destruct (numericRef_at_w ds w Hne Hd) as (mt & Hm & He & Hg).
    exists mt. cbn [entity_tail entity_char]. split; [|split].
    + rewrite <- Hm. by rewrite <- !app_assoc.
    + rewrite He, !length_app. done.
    + rewrite Hg. by apply NumFacts.fromCharCode_parseInt.
  - intros e w He Hp. destruct e; cbn [pass_of] in Hp; try lia.
    case_bool_decide; lia.
  - intros _ w Hw. unfold match_at, numericRefRegex. cbn [seqs m].
    change (lit "&#") with [38; 35]%N. cbn [lit_match]. rewrite N.eqb_refl.
    destruct w as [|c w]; [done|]. apply plain_start_head in Hw.
    destruct (N.eqb_spec 35 c) as [<-|]; [|done]. exfalso. apply Hw. simpl. tauto.
Qed.

Lemma pass_of_bound e : pass_of e < 8.
Proof. destruct e; simpl; try lia. case_bool_decide; lia. Qed.

(** All the passes: every entity of the text is decoded. *)
Lemma decode_tokens a0 toks :
  38%N ∉ a0 -> Forall token_ok toks ->
  decodeHtmlEntities (encoded a0 toks) = decoded a0 toks.
Proof.
  intros Ha0 Hall. unfold decodeHtmlEntities.
  change (encoded a0 toks) with (a0 ++ concat (map (stage 0) toks)).
  rewrite pass0, pass1, pass2, pass3, pass4, pass5, pass6, pass7 by done.
  unfold decoded. f_equal. f_equal. apply map_ext. intros [e a]. unfold stage.
  cbn [fst snd]. destruct (Nat.ltb_spec (pass_of e) 8) as [_|Hge]; [done|].
  pose proof (pass_of_bound e). lia.
Qed.

End EntityFacts.

(** ** The stages of the normalization, in general *)

Module NormalizeMore.
Import RegexMore.

(** Every tag of a text is removed. *)
Lemma stripTags_chunks : forall chunks t0,
  60%N ∉ t0 -> Forall chunk_ok chunks ->
  stripTags (marked_up t0 chunks) = t0 ++ concat (map snd chunks).
Proof.
  unfold stripTags, marked_up.
  induction chunks as [|[tg t] chunks IH]; intros t0 Ht0 Hall.
  - simpl. rewrite app_nil_r. by apply (replace_scan_absent _ _ 60%N).
  - apply Forall_cons in Hall as [(Hne & Hgt & Ht) Hall]. cbn [fst snd] in *.
    cbn [map concat fst snd].
    rewrite (replace_all_prefix tagRegex (fun _ => []) eq_refl (fun _ _ => eq_refl)).
    2:{ intros j Hj. pose proof (no_match_in_prefix tagRegex 60%N t0
          ((lit "<" ++ tg ++ lit ">" ++ t) ++ concat (map
             (fun c => lit "<" ++ c.1 ++ lit ">" ++ c.2) chunks)) 0 eq_refl Ht0 j Hj) as Hn.
        rewrite (match_at_shift tagRegex j 0 _ eq_refl) in Hn.
        by destruct (match_at tagRegex 0 _). }
    f_equal.
    destruct (tagRegex_at 0 tg (t ++ concat (map
                (fun c => lit "<" ++ c.1 ++ lit ">" ++ c.2) chunks)) Hne Hgt)
      as (mt & Hm & He).
    rewrite <- !app_assoc.
    replace (lit "<" ++ tg ++ lit ">" ++ t ++ concat (map
               (fun c => lit "<" ++ c.1 ++ lit ">" ++ c.2) chunks))
      with ((lit "<" ++ tg ++ lit ">") ++ t ++ concat (map
               (fun c => lit "<" ++ c.1 ++ lit ">" ++ c.2) chunks))
      in * by (by rewrite <- !app_assoc).
    rewrite (replace_all_hit tagRegex (fun _ => []) eq_refl (fun _ _ => eq_refl) _ _ mt);
      [|done|exact Hm|exact He].
    cbn [app]. by apply IH.
Qed.

Lemma trim_start_nil s : trim_start s = [] <-> all_space s.
Proof.
  induction s as [|c s IH]; simpl; [by split; [constructor|]|].
  destruct (is_space c) eqn:Hc.
  - rewrite IH. split; [by constructor|]. by intros [_ ?]%Forall_cons.
  - split; [done|]. intros [? _]%Forall_cons. congruence.
Qed.

Lemma trim_start_head s :
  match trim_start s with [] => True | c :: _ => is_space c = false end.
Proof.
  induction s as [|c s IH]; simpl; [done|]. by destruct (is_space c) eqn:Hc.
Qed.

(** [trim] leaves nothing exactly of the texts that are white space. *)
Lemma trim_nil s : trim s = [] <-> all_space s.
Proof.
  unfold trim, trim_end. split.
  - intros H. apply (f_equal (@rev N)) in H. rewrite rev_involutive in H. simpl in H.
    apply trim_start_nil in H. apply Forall_rev in H. rewrite rev_involutive in H.
    apply trim_start_nil. pose proof (trim_start_head s) as Hh.
    destruct (trim_start s) as [|c t]; [done|].
    apply Forall_cons in H as [? _]. congruence.
  - intros H%trim_start_nil. by rewrite H.
Qed.

(** The decoder never empties a text. *)
Lemma decode_nil s : decodeHtmlEntities s = [] <-> s = [].
Proof.
  split; [|by intros ->]. unfold decodeHtmlEntities, replace_lit. intros H.
  repeat (apply replace_all_nonempty in H;
          [|solve [by intros mt | intros mt; unfold fromCharCode;
                   by destruct (parseInt (group 1 mt))]]).
  exact H.
Qed.

Lemma all_space_forallb s : forallb is_space s = true <-> all_space s.
Proof.
  unfold all_space. rewrite forallb_forall, Forall_forall.
  by setoid_rewrite list_elem_of_In.
Qed.

(** A tag leaves no segment exactly when its inner payload holds nothing
    but tags and white space. *)
Lemma normalize_nil inner : normalize inner = [] <-> all_space (stripTags inner).
Proof. unfold normalize. by rewrite decode_nil, trim_nil. Qed.

Lemma kept_filter (seg : Tag -> Segment) (gs : list Tag) :
  (forall g, text (seg g) = normalize (tag_inner g)) ->
  kept (map seg gs) = map seg (filter (fun g => blank_inner g = false) gs).
Proof.
  intros Hseg. unfold kept. induction gs as [|g gs IH]; [done|].
  cbn [map]. rewrite !filter_cons, IH.
  destruct (blank_inner g) eqn:Hb; unfold blank_inner in Hb.
  - apply all_space_forallb, normalize_nil in Hb.
    rewrite decide_False; [by rewrite decide_False|]. by rewrite Hseg, Hb.
  - rewrite decide_True; [by rewrite decide_True|].
    rewrite Hseg. destruct (normalize (tag_inner g)) eqn:Hn; [|done].
    apply normalize_nil, all_space_forallb in Hn. congruence.
Qed.

Lemma kept_texts (seg : Tag -> Segment) (items : list (jsstring * Tag)) :
  (forall g, text (seg g) = normalize (tag_inner g)) ->
  map text (kept (map seg (map snd items)))
  = filter (fun t => t <> [])
      (map (fun it => decodeHtmlEntities (trim (stripTags (tag_inner (snd it)))))
         items).
Proof.
  intros Hseg. unfold kept. induction items as [|[junk g] items IH]; [done|].
  cbn [map snd]. rewrite !filter_cons, <- IH.
  fold (normalize (tag_inner g)). rewrite <- Hseg.
  destruct (text (seg g)) eqn:Ht.
  - rewrite decide_False by done. by rewrite decide_False by (by intros ?).
  - rewrite decide_True by done. rewrite decide_True by done. simpl. by rewrite Ht.
Qed.

Lemma outcome_inr l segs : outcome l = inr segs -> l = segs.
Proof. destruct l; simpl; congruence. Qed.

End NormalizeMore.

(** ** Segment Parser: the claims *)

(** C2: the parser needs no hint.  The format-A expression is run over
    the payload first, and format B is read exactly when the payload has
    no format-A tag ([<p t="digits" d="digits" ...>], closed by [</p>])
    anywhere: a single format-A tag, even one whose text is empty, keeps
    format B from being read.  Both scans end.  A payload of format-A tags
    gives one segment per tag with a non-empty text, with [parseInt] of
    the two attributes, which is their integer value; a payload of
    format-B tags gives [Math.floor(parseFloat(value) * 1000)] of the two
    attributes, in double arithmetic: a whole number of seconds gives
    that number times 1000. *)
Theorem parse_format_detection (xml : jsstring) :
  is_Some (matches srv3Regex xml) /\ is_Some (matches stdRegex xml)
  /\ (has_p_tag xml ->
      forall msA, matches srv3Regex xml = Some msA ->
        msA <> []
        /\ parseSegments xml = Some (outcome (kept (map srv3_segment msA))))
  /\ (~ has_p_tag xml ->
      matches srv3Regex xml = Some []
      /\ forall msB, matches stdRegex xml = Some msB ->
           parseSegments xml = Some (outcome (kept (map std_segment msB))))
  /\ (forall items tail,
        xml = payload p_tag items tail -> items <> [] ->
        Forall (fun it => indexOf (lit "<p") (fst it) = None
                          /\ is_tag is_digit (snd it)
                          /\ closed_by (lit "</p>") (snd it)) items ->
        indexOf (lit "<p") tail = None ->
        parseSegments xml
        = Some (outcome (kept (map (fun it =>
                  mkSegment (normalize (tag_inner (snd it)))
                    (parseInt (tag_start (snd it)))
                    (parseInt (tag_dur (snd it)))) items))))
  /\ (forall items tail,
        xml = payload text_tag items tail ->
        Forall (fun it => indexOf (lit "<text") (fst it) = None
                          /\ is_tag digit_or_dot (snd it)
                          /\ closed_by (lit "</text>") (snd it)) items ->
        indexOf (lit "<text") tail = None -> indexOf (lit "<p") xml = None ->
        parseSegments xml
        = Some (outcome (kept (map (fun it =>
                  mkSegment (normalize (tag_inner (snd it)))
                    (Math_floor (times_1000 (parseFloat (tag_start (snd it)))))
                    (Math_floor (times_1000 (parseFloat (tag_dur (snd it))))))
                  items))))
  /\ (forall ds, (digits_value ds < 2 ^ 53)%N ->
        parseInt ds = Int (Z.of_N (digits_value ds)))
  /\ (forall ds, ds <> [] -> Forall (fun c => is_digit c = true) ds ->
        (digits_value ds * 1000 < 2 ^ 53)%N ->
        Math_floor (times_1000 (parseFloat ds))
        = Int (Z.of_N (digits_value ds) * 1000)).
Proof.
  destruct (parseSegments_matches xml) as (msA & msB & HA & HB & Hp).
  split; [by rewrite HA|]. split; [by rewrite HB|].
  split; [|split; [|split; [|split; [|split]]]].
  - intros Htag msA' HA'. rewrite HA in HA'. injection HA' as <-.
    apply (TagFacts.srv3_matches_nonempty xml msA HA) in Htag.
    split; [done|]. rewrite Hp. by destruct msA.
  - intros Hno. assert (msA = []) as ->.
    { destruct msA as [|mt msA]; [done|]. exfalso. apply Hno.
      by apply (TagFacts.srv3_matches_nonempty xml (mt :: msA) HA). }
    split; [done|]. intros msB' HB'. rewrite HB in HB'. by injection HB' as <-.
  - intros items tail -> Hne Hall Htail.
    rewrite (TagFacts.p_payload_parse items tail Hne Hall Htail).
    by rewrite map_map.
  - intros items tail -> Hall Htail Hnop.
    rewrite (TagFacts.text_payload_parse items tail Hall Htail Hnop).
    by rewrite map_map.
  - apply NumFacts.parseInt_exact.
  - apply NumFacts.whole_seconds.
Qed.

(** The format-A payload of the specification; two format-B payloads,
    the second with a start of [1.005] seconds, which the double
    multiplication takes to 1004.99... and the floor to 1004; and a
    payload with an empty format-A tag before a format-B tag, which is an
    error: format B is not read. *)
Lemma parse_format_detection_witness :
  parseSegments payload_srv3
  = Some (inr [mkSegment (lit "Hello") (Int 1000) (Int 500);
               mkSegment (lit "World") (Int 2000) (Int 500)])
  /\ parseSegments payload_std
     = Some (inr [mkSegment (lit "Hi") (Int 1500) (Int 2250)])
  /\ parseSegments payload_decimal
     = Some (inr [mkSegment (lit "Hi") (Int 1004) (Int 2000)])
  /\ parseSegments payload_both = Some (inl NoSegmentsExtracted).
Proof.
  assert (forall ds, ds <> [] -> Forall (fun c => is_digit c = true) ds ->
            forall inner, indexOf (lit "</p>") (inner ++ lit "</p>") = Some (length inner) ->
            forall ds', ds' <> [] -> Forall (fun c => is_digit c = true) ds' ->
            is_tag is_digit (mkTag (lit " ") ds (lit " ") ds' [] inner)
            /\ closed_by (lit "</p>") (mkTag (lit " ") ds (lit " ") ds' [] inner))
    as Hp.
  { intros ds Hne Hd inner Hc ds' Hne' Hd'. split; [|exact Hc].
    repeat split; try done; try (repeat constructor).
    apply not_elem_of_nil. }
  split; [|split; [|split]].
  - destruct (parse_format_detection payload_srv3) as (_ & _ & _ & _ & H & _).
    rewrite (H [([], mkTag (lit " ") (lit "1000") (lit " ") (lit "500") [] (lit "Hello"));
                ([], mkTag (lit " ") (lit "2000") (lit " ") (lit "500") [] (lit "World"))]
               []); [vm_compute; reflexivity|reflexivity|done| |reflexivity].
    repeat constructor; try done; apply Hp; try done; try (repeat constructor).
  - destruct (parse_format_detection payload_std) as (_ & _ & _ & _ & _ & H & _).
    rewrite (H [([], mkTag (lit " ") (lit "1.5") (lit " ") (lit "2.25") [] (lit "Hi"))]
               []); [vm_compute; reflexivity|reflexivity| |reflexivity|reflexivity].
    repeat constructor; try done. apply not_elem_of_nil.
  - destruct (parse_format_detection payload_decimal) as (_ & _ & _ & _ & _ & H & _).
    rewrite (H [([], mkTag (lit " ") (lit "1.005") (lit " ") (lit "2") [] (lit "Hi"))]
               []); [vm_compute; reflexivity|reflexivity| |reflexivity|reflexivity].
    repeat constructor; try done. apply not_elem_of_nil.
  - destruct (parse_format_detection payload_both) as (_ & _ & H & _).
    destruct (matches srv3Regex payload_both) as [msA|] eqn:HA;
      [|vm_compute in HA; discriminate].
    destruct (H ltac:(exists [], (mkTag (lit " ") (lit "0") (lit " ") (lit "1") [] (lit " ")),
                         payload_std; split; [reflexivity|];
                       repeat split; try done; try (repeat constructor);
                       apply not_elem_of_nil) msA eq_refl) as [_ ->].
    vm_compute in HA. injection HA as <-. vm_compute. reflexivity.
Defined.

(** C4 as the code has it.  The parser always returns; what it returns
    is never an empty list but the [NoSegmentsExtracted] error; a returned
    segment never has an empty text.  A tag leaves no segment exactly when
    its inner payload, with the tags removed, is empty or white space: the
    test comes before the decoding, and the decoder never empties a text.
    So a payload of tags gives the segments of the tags that are not
    blank in this sense, and the error when there is none.  The error
    arises exactly when the format that is read, format A when the payload
    has a format-A tag and format B otherwise, leaves no segment. *)
Theorem parse_drops_empty (xml : jsstring) :
  parseSegments xml <> None
  /\ (forall segs, parseSegments xml = Some (inr segs) ->
        segs <> [] /\ Forall (fun s => text s <> []) segs)
  /\ (forall e, parseSegments xml = Some (inl e) -> e = NoSegmentsExtracted)
  /\ (forall inner, normalize inner = [] <-> all_space (stripTags inner))
  /\ (forall items tail,
        xml = payload p_tag items tail -> items <> [] ->
        Forall (fun it => indexOf (lit "<p") (fst it) = None
                          /\ is_tag is_digit (snd it)
                          /\ closed_by (lit "</p>") (snd it)) items ->
        indexOf (lit "<p") tail = None ->
        parseSegments xml
        = Some (outcome (map p_segment_of
                  (filter (fun g => blank_inner g = false) (map snd items)))))
  /\ (forall items tail,
        xml = payload text_tag items tail ->
        Forall (fun it => indexOf (lit "<text") (fst it) = None
                          /\ is_tag digit_or_dot (snd it)
                          /\ closed_by (lit "</text>") (snd it)) items ->
        indexOf (lit "<text") tail = None -> indexOf (lit "<p") xml = None ->
        parseSegments xml
        = Some (outcome (map text_segment_of
                  (filter (fun g => blank_inner g = false) (map snd items)))))
  /\ (has_p_tag xml ->
      forall msA, matches srv3Regex xml = Some msA ->
        parseSegments xml = Some (inl NoSegmentsExtracted)
        <-> kept (map srv3_segment msA) = [])
  /\ (~ has_p_tag xml ->
      forall msB, matches stdRegex xml = Some msB ->
        parseSegments xml = Some (inl NoSegmentsExtracted)
        <-> kept (map std_segment msB) = []).
Proof.
  destruct (parseSegments_matches xml) as (msA & msB & HA & HB & Hp).
  assert (forall l : list Segment, Forall (fun s => text s <> []) (kept l)) as Hkept.
  { intros l. apply Forall_forall. intros s [Ht _]%list_elem_of_filter.
    by destruct (text s). }
  assert (forall l : list Segment,
            Some (outcome l) = Some (inl NoSegmentsExtracted) <-> l = []) as Hout.
  { intros [|s l]; [done|]. split; intros; simplify_eq. }
  split; [by rewrite Hp|]. split; [|split; [|split; [|split; [|split; [|split]]]]].
  - intros segs. rewrite Hp. intros [= Ho].
    destruct msA as [|mt msA].
    + destruct (kept (map std_segment msB)) as [|s l] eqn:Hk; [done|].
      simpl in Ho. simplify_eq. split; [done|]. rewrite <- Hk. apply Hkept.
    + destruct (kept (map srv3_segment (mt :: msA))) as [|s l] eqn:Hk; [done|].
      simpl in Ho. simplify_eq. split; [done|]. rewrite <- Hk. apply Hkept.
  - intros e. rewrite Hp. intros [= Ho]. unfold outcome in Ho.
    by destruct msA, (kept _); simplify_eq.
  - apply NormalizeMore.normalize_nil.
  - intros items tail -> Hne Hall Htail.
    rewrite (TagFacts.p_payload_parse items tail Hne Hall Htail).
    by rewrite NormalizeMore.kept_filter.
  - intros items tail -> Hall Htail Hnop.
    rewrite (TagFacts.text_payload_parse items tail Hall Htail Hnop).
    by rewrite NormalizeMore.kept_filter.
  - intros Htag msA' HA'. rewrite HA in HA'. injection HA' as <-.
    apply (TagFacts.srv3_matches_nonempty xml msA HA) in Htag.
    rewrite Hp. destruct msA as [|mt msA]; [done|]. apply Hout.
  - intros Hno msB' HB'. rewrite HB in HB'. injection HB' as <-.
    assert (msA = []) as ->.
    { destruct msA as [|mt msA]; [done|]. exfalso. apply Hno.
      by apply (TagFacts.srv3_matches_nonempty xml (mt :: msA) HA). }
    rewrite Hp. apply Hout.
Qed.

(** The payload with one tag around three spaces: its only tag is
    blank, and the parser reports the error. *)
Lemma parse_drops_empty_witness :
  parseSegments payload_blank = Some (inl NoSegmentsExtracted).
Proof.
  destruct (parse_drops_empty payload_blank) as (_ & _ & _ & _ & _ & H & _).
  rewrite (H [([], mkTag (lit " ") (lit "0") (lit " ") (lit "1") [] (lit "   "))] []);
    [vm_compute; reflexivity|reflexivity| |reflexivity|reflexivity].
  repeat constructor; try done. apply not_elem_of_nil.
Defined.

(** C4 as it is stated fails on the code: a tag whose text is a
    reference to a space is empty after the claimed normalization (decode,
    then trim), and the parser keeps it as a segment whose text is one
    space. *)
Lemma blank_reference_is_kept :
  parseSegments payload_ref_blank
  = Some (inr [mkSegment (lit " ") (Int 0) (Int 1000)])
  /\ normalize_claimed (lit "&#32;") = []
  /\ trim (lit " ") = [].
Proof. split; [|split]; vm_compute; reflexivity. Qed.



(** ** Transcript Assembler: lines *)

Module LinesFacts.

Lemma lines_of_nonempty s : lines_of s <> [].
Proof.
  induction s as [|c s IH]; simpl; [done|].
  destruct (c =? 10)%N; [done|]. by destruct (lines_of s).
Qed.

Lemma lines_of_plain s : 10%N ∉ s -> lines_of s = [s].
Proof.
  induction s as [|c s IH]; [done|]. intros [Hc Hs]%not_elem_of_cons. simpl.
  destruct (N.eqb_spec c 10) as [->|_]; [done|]. by rewrite IH.
Qed.

(** A line feed after a text without one ends a line. *)
Lemma lines_of_app a b :
  10%N ∉ a -> lines_of (a ++ 10%N :: b) = a :: lines_of b.
Proof.
  induction a as [|c a IH]; [done|]. intros [Hc Ha]%not_elem_of_cons. simpl.
  destruct (N.eqb_spec c 10) as [->|_]; [done|]. by rewrite IH.
Qed.

Lemma lines_of_join ls :
  ls <> [] -> Forall (fun l => 10%N ∉ l) ls -> lines_of (join [10%N] ls) = ls.
Proof.
  induction ls as [|l ls IH]; [done|]. intros _ [Hl Hls]%Forall_cons.
  destruct ls as [|l' ls]; [by apply lines_of_plain|].
  change (join [10%N] (l :: l' :: ls)) with (l ++ 10%N :: join [10%N] (l' :: ls)).
  rewrite lines_of_app by done. by rewrite IH.
Qed.

Lemma lines_of_length s :
  length (lines_of s) = S (count_occ N.eq_dec s 10%N).
Proof.
  induction s as [|c s IH]; [done|]. simpl.
  destruct (N.eqb_spec c 10) as [->|Hne].
  - destruct (N.eq_dec 10%N 10%N); [|done]. simpl. by rewrite IH.
  - destruct (N.eq_dec c 10%N); [done|]. rewrite <- IH.
    pose proof (lines_of_nonempty s). by destruct (lines_of s).
Qed.

Lemma count_join (ls : list jsstring) :
  ls <> [] ->
  count_occ N.eq_dec (join [10%N] ls) 10%N
  = list_sum (map (fun l => count_occ N.eq_dec l 10%N) ls) + (length ls - 1).
Proof.
  induction ls as [|l ls IH]; [done|]. intros _.
  destruct ls as [|l' ls]; [simpl; lia|].
  change (join [10%N] (l :: l' :: ls)) with (l ++ 10%N :: join [10%N] (l' :: ls)).
  rewrite count_occ_app. cbn [count_occ]. destruct (N.eq_dec 10%N 10%N); [|done].
  rewrite IH by done. unfold list_sum. cbn [map fold_right length]. lia.
Qed.

(** The time stamp of a line has no line feed. *)
Lemma timestampLine_feeds s z :
  offset s = Int z -> (0 <= z)%Z ->
  count_occ N.eq_dec (timestampLine s) 10%N = count_occ N.eq_dec (text s) 10%N.
Proof.
  intros Ho Hz. destruct (timestampLine_spec s z Ho Hz) as (mm & -> & Hmm & _).
  rewrite !count_occ_app.
  assert (count_occ N.eq_dec mm 10%N = 0) as ->.
  { apply count_occ_not_In. intros Hin. unfold all_digits in Hmm.
    rewrite Forall_forall in Hmm. apply list_elem_of_In, Hmm in Hin. by vm_compute in Hin. }
  assert (count_occ N.eq_dec (two_digits (Z.to_N ((z / 1000) mod 60))) 10%N = 0) as ->.
  { apply count_occ_not_In. unfold two_digits. cbn [In].
    generalize (Z.to_N ((z / 1000) mod 60) / 10)%N
               (Z.to_N ((z / 1000) mod 60) mod 10)%N.
    intros q r [H|[H|[]]]; lia. }
  done.
Qed.

End LinesFacts.

(** C5, as the code has it.  The plain text is the texts of the
    segments with one space between neighbours; the time-stamped text is
    their lines with one line feed between neighbours, and a line is
    [[MM:SS] text]: [SS] is the two digits of [floor(offset / 1000) mod 60],
    [MM] the decimal digits of [floor(offset / 1000) / 60], padded to two
    digits below one hundred and as long as it takes from there on.  There
    is one line per segment when no text holds a line feed; each line feed
    inside a text adds a line. *)
Theorem assemble_views (segments : list Segment) :
  segments <> [] ->
  Forall (fun s => exists z, offset s = Int z /\ (0 <= z < 2 ^ 53)%Z) segments ->
  plainText segments = join [32%N] (map text segments)
  /\ timestampedText segments = join [10%N] (map timestampLine segments)
  /\ Forall (fun s => exists z mm,
       offset s = Int z
       /\ timestampLine s
          = [91%N] ++ mm ++ [58%N] ++ two_digits (Z.to_N ((z / 1000) mod 60))
            ++ [93%N; 32%N] ++ text s
       /\ all_digits mm
       /\ digits_value mm = Z.to_N (z / 1000 / 60)
       /\ ((z / 1000 / 60 < 100)%Z -> mm = two_digits (Z.to_N (z / 1000 / 60)))
       /\ ((100 <= z / 1000 / 60)%Z -> 3 <= length mm /\ head mm <> Some 48%N))
     segments
  /\ (Forall (fun s => 10%N ∉ text s) segments ->
      lines_of (timestampedText segments) = map timestampLine segments)
  /\ length (lines_of (timestampedText segments))
     = length segments + inner_line_feeds segments.
Proof.
  intros Hne Hsafe.
  assert (forall s, In s segments ->
            count_occ N.eq_dec (timestampLine s) 10%N
            = count_occ N.eq_dec (text s) 10%N) as Hfeeds.
  { intros s Hin. rewrite Forall_forall in Hsafe.
    apply list_elem_of_In, Hsafe in Hin as (z & Ho & Hz & _).
    by apply (LinesFacts.timestampLine_feeds s z). }
  split; [reflexivity|]. split; [reflexivity|]. split; [|split].
  - eapply Forall_impl; [exact Hsafe|]. intros s (z & Ho & Hz & _).
    destruct (timestampLine_spec s z Ho Hz) as (mm & H). eauto.
  - intros Hplain. apply LinesFacts.lines_of_join; [by destruct segments|].
    apply Forall_forall. intros l [s [-> Hs]]%list_elem_of_fmap_1.
    intros Hin%list_elem_of_In.
    apply (count_occ_In N.eq_dec) in Hin. rewrite Hfeeds in Hin by (by apply list_elem_of_In).
    rewrite Forall_forall in Hplain. specialize (Hplain s Hs).
    assert (~ In 10%N (text s)) as Hno by (by rewrite <- list_elem_of_In).
    apply (count_occ_not_In N.eq_dec) in Hno. lia.
  - rewrite LinesFacts.lines_of_length. unfold timestampedText, newline.
    rewrite LinesFacts.count_join by (by destruct segments).
    rewrite length_map, map_map. unfold inner_line_feeds.
    assert (list_sum (map (fun s => count_occ N.eq_dec (timestampLine s) 10%N) segments)
            = list_sum (map (fun s => count_occ N.eq_dec (text s) 10%N) segments)) as ->.
    { f_equal. apply map_ext_in. exact Hfeeds. }
    destruct segments; [done|]. simpl. lia.
Qed.

(** The two segments at 1000 and 2000 milliseconds. *)
Lemma assemble_views_witness :
  plainText segments_hello_world = lit "Hello World"
  /\ timestampedText segments_hello_world
     = lit "[00:01] Hello" ++ [10%N] ++ lit "[00:02] World"
  /\ lines_of (timestampedText segments_hello_world)
     = [lit "[00:01] Hello"; lit "[00:02] World"].
Proof.
  assert (segments_hello_world <> []) as Hne by done.
  assert (Forall (fun s => exists z, offset s = Int z /\ (0 <= z < 2 ^ 53)%Z)
            segments_hello_world) as Hsafe.
  { repeat constructor; eexists; (split; [reflexivity|]); simpl; lia. }
  destruct (assemble_views segments_hello_world Hne Hsafe)
    as (Hp & Ht & _ & Hl & _).
  split; [rewrite Hp; vm_compute; reflexivity|].
  split; [rewrite Ht; vm_compute; reflexivity|].
  rewrite Hl; [vm_compute; reflexivity|].
  repeat constructor; apply DecodeMore.absent_forallb; reflexivity.
Defined.

(** C5 as it is stated fails on the code: the parser keeps a line feed
    that stands inside the text of a tag, and the segment then takes two
    lines of the time-stamped text. *)
Lemma line_feed_inside_text :
  parseSegments payload_two_lines
  = Some (inr [mkSegment (lit "one" ++ [10%N] ++ lit "two") (Int 0) (Int 1)])
  /\ timestampedText [mkSegment (lit "one" ++ [10%N] ++ lit "two") (Int 0) (Int 1)]
     = lit "[00:00] one" ++ [10%N] ++ lit "two"
  /\ lines_of (timestampedText
                 [mkSegment (lit "one" ++ [10%N] ++ lit "two") (Int 0) (Int 1)])
     = [lit "[00:00] one"; lit "two"].
Proof. split; [|split]; vm_compute; reflexivity. Qed.

(** ** Route Handler: the quota check *)

(** C9, as the code has it.  A request that names a video and carries
    the token of an account on the free plan whose credits are zero or
    less is answered 402 with the quota message; all that happened outside
    is the lookup of the token and of the profile: no fetch (metadata,
    captions, summary), no insert, and the two tables are as they were. *)
Theorem quota_rejection (env : Env) (req : Request) (w : World)
    (videoId token uid : jsstring) (p : Profile) :
  names_video req videoId ->
  bearer req token ->
  getUser env token = Some uid -> truthy uid = true ->
  profiles w !! uid = Some p -> plan p = lit "free" ->
  (credits_remaining p <= 0)%Z ->
  exists w',
    POST env req w = (error_response 402 quota_message, w')
    /\ events env req w = [EvGetUser token; EvSelectProfile uid]
    /\ existsb is_network (events env req w) = false
    /\ existsb is_insert (events env req w) = false
    /\ profiles w' = profiles w
    /\ transcriptions w' = transcriptions w.
Proof.
  intros (b & Hb & Hreq & Hres & Hv) (h & Hh & Ht & ->) Hg Hu Hp Hplan Hc.
  set (token := replace_first (lit "Bearer ") [] h) in *.
  assert (exists w', POST env req w = (error_response 402 quota_message, w')
            /\ trace w' = trace w ++ [EvGetUser token; EvSelectProfile uid]
            /\ profiles w' = profiles w /\ transcriptions w' = transcriptions w)
    as (w' & HP & Ht' & Hpr & Htr).
  { unfold POST, POST_try, bind at 1, front. rewrite Hb.
    apply orb_true_iff in Hreq.
    assert (negb (truthy_opt (videoUrl b))
            && negb (bool_decide (is_Some (clientTranscript b))) = false) as ->.
    { destruct Hreq as [-> | ->]; [done|]. by rewrite andb_false_r. }
    rewrite Hres, Hv, Hh, Ht. simpl negb. cbv iota.
    cbv [bind auth_getUser select_profile emit ret]. simpl.
    fold token. rewrite Hg, Hu. simpl. rewrite Hp, Hplan.
    rewrite bool_decide_true by done.
    destruct (Z.leb_spec (credits_remaining p) 0) as [_|]; [|lia]. simpl.
    eexists. split; [reflexivity|]. simpl. by rewrite <- app_assoc. }
  assert (events env req w = [EvGetUser token; EvSelectProfile uid]) as He.
  { unfold events. rewrite HP. simpl. rewrite Ht'. by rewrite drop_app_length. }
  exists w'. split; [done|]. split; [done|]. rewrite He. done.
Qed.

(** The request with its own transcript, from the account without
    credits. *)
Lemma quota_rejection_witness :
  exists w',
    POST env_example req_client (world_of "free" 0)
    = (error_response 402 quota_message, w')
    /\ events env_example req_client (world_of "free" 0)
       = [EvGetUser (lit "tok"); EvSelectProfile (lit "u1")]
    /\ transcriptions w' = [].
Proof.
  destruct (quota_rejection env_example req_client (world_of "free" 0)
              (lit "dQw4w9WgXcQ") (lit "tok") (lit "u1") (mkProfile (lit "free") 0))
    as (w' & HP & He & _ & _ & _ & Hr).
  - eexists. split; [reflexivity|]. split; [vm_compute; reflexivity|].
    split; vm_compute; reflexivity.
  - eexists. split; [reflexivity|]. split; vm_compute; reflexivity.
  - vm_compute. reflexivity.
  - reflexivity.
  - vm_compute. reflexivity.
  - reflexivity.
  - simpl. lia.
  - exists w'. split; [exact HP|]. split; [exact He|exact Hr].
Defined.

(** C9 as it is stated fails on the code: the body is checked before the
    token is looked at.  The request carries the token of an account on
    the free plan with no credit left, its URL names no video, and the
    answer is 400; the token was not looked up. *)
Lemma quota_after_validation :
  bearer req_invalid (lit "tok")
  /\ getUser env_example (lit "tok") = Some (lit "u1")
  /\ profiles (world_of "free" 0) !! lit "u1" = Some (mkProfile (lit "free") 0)
  /\ POST env_example req_invalid (world_of "free" 0)
     = (error_response 400 (lit "Invalid YouTube URL"), world_of "free" 0)
  /\ events env_example req_invalid (world_of "free" 0) = [].
Proof.
  split; [eexists; split; [reflexivity|]; split; vm_compute; reflexivity|].
  repeat split; vm_compute; reflexivity.
Qed.
